(** * Fixed-width unsigned integers (namespace [intx] of E.cpp)

    A shallow embedding of the word primitives, the fixed-width container
    [uint<N>], the reciprocal-based division primitives, the multiword
    division engine and the text codec, followed by the properties the
    specification states about them.

    Representation.  A [uint64_t] is a [Z] in [0, 2^64); every operation
    that can wrap is followed by an explicit reduction.  A [uint<N>] is the
    list of its [N/64] words, word 0 first (little-endian), exactly as the
    member [words_] stores them; this includes [uint<128>].  Overloads that
    the compiler selects by width (the [uint128] and [uint256] fast paths)
    are selected here by the length of the word list. *)

From Stdlib Require Import Ascii String.
From Stdlib Require Import ZArith List Lia Bool.
Import ListNotations.
Local Open Scope Z_scope.

(** ** Machine words *)

Definition B : Z := 2 ^ 64.

Definition w64 (x : Z) : Z := x mod 2 ^ 64.
Definition w32 (x : Z) : Z := x mod 2 ^ 32.
Definition w16 (x : Z) : Z := x mod 2 ^ 16.

(** [x << s] and [x >> s] on [uint64_t], for [0 <= s < 64]. *)
Definition shl64 (x s : Z) : Z := w64 (Z.shiftl x s).
Definition shr64 (x s : Z) : Z := Z.shiftr x s.
(** [~x] on [uint64_t]. *)
Definition not64 (x : Z) : Z := w64 (Z.lnot x).

Definition word (x : Z) : Prop := 0 <= x < B.
Definition words (l : list Z) : Prop := Forall word l.

(** [x[i]] on a word array. *)
Definition at_ (l : list Z) (i : nat) : Z := nth i l 0.
Notation "l #[ i ]" := (at_ l i) (at level 1, format "l #[ i ]").

(** [x[i] = v] on a word array (the source never writes out of range). *)
Fixpoint upd (l : list Z) (i : nat) (v : Z) : list Z :=
  match l, i with
  | [], _ => []
  | _ :: t, O => v :: t
  | h :: t, S i' => h :: upd t i' v
  end.

(** The default-initialised [uint<N>{}]: all words zero. *)
Definition zeros (nw : nat) : list Z := repeat 0 nw.

(** The number a little-endian word list denotes. *)
Fixpoint value (l : list Z) : Z :=
  match l with
  | [] => 0
  | w :: t => w + B * value t
  end.

(** [uint<N>(x)] for a 64-bit [x]: word 0 is [x], the rest is zero. *)
Definition of_u64 (nw : nat) (x : Z) : list Z := upd (zeros nw) 0 x.

(** Conversion between widths: the implicit widening constructor and the
    explicit narrowing operator both copy the common low words. *)
Definition resize (nw : nat) (x : list Z) : list Z :=
  firstn nw x ++ zeros (nw - length x).

(** ** Word primitives *)

Definition add_with_carry64 (x y : Z) (carry : bool) : Z * bool :=
  let s := w64 (x + y) in
  let carry1 := s <? x in
  let t := w64 (s + Z.b2z carry) in
  let carry2 := t <? s in
  (t, carry1 || carry2).

Definition sub_with_carry64 (x y : Z) (carry : bool) : Z * bool :=
  let d := w64 (x - y) in
  let carry1 := x <? y in
  let e := w64 (d - Z.b2z carry) in
  let carry2 := d <? Z.b2z carry in
  (e, carry1 || carry2).

(** [add_with_carry] on [uint<N>]: one pass over the words. *)
Fixpoint add_with_carry (x y : list Z) (k : bool) : list Z * bool :=
  match x, y with
  | xi :: x', yi :: y' =>
      let s := w64 (xi + yi) in
      let k1 := s <? xi in
      let s' := w64 (s + Z.b2z k) in
      let k' := (s' <? Z.b2z k) || k1 in
      let r := add_with_carry x' y' k' in
      (s' :: fst r, snd r)
  | _, _ => ([], k)
  end.

Fixpoint sub_with_carry (x y : list Z) (k : bool) : list Z * bool :=
  match x, y with
  | xi :: x', yi :: y' =>
      let z := w64 (xi - yi) in
      let k1 := xi <? yi in
      let k2 := z <? Z.b2z k in
      let z' := w64 (z - Z.b2z k) in
      let r := sub_with_carry x' y' (k1 || k2) in
      (z' :: fst r, snd r)
  | _, _ => ([], k)
  end.

(** [operator+] and binary [operator-]. *)
Definition uadd (x y : list Z) : list Z := fst (add_with_carry x y false).
Definition usub (x y : list Z) : list Z := fst (sub_with_carry x y false).

(** Widening multiply of two words, the portable 32-bit decomposition. *)
Definition umul64 (x y : Z) : list Z :=
  let xl := Z.land x 4294967295 in
  let xh := shr64 x 32 in
  let yl := Z.land y 4294967295 in
  let yh := shr64 y 32 in
  let t0 := w64 (xl * yl) in
  let t1 := w64 (xh * yl) in
  let t2 := w64 (xl * yh) in
  let t3 := w64 (xh * yh) in
  let u1 := w64 (t1 + shr64 t0 32) in
  let u2 := w64 (t2 + Z.land u1 4294967295) in
  let lo := Z.lor (shl64 u2 32) (Z.land t0 4294967295) in
  let hi := w64 (w64 (t3 + shr64 u2 32) + shr64 u1 32) in
  [lo; hi].

(** The same product through the native 128-bit multiply. *)
Definition umul64_builtin (x y : Z) : list Z :=
  let p := (x * y) mod 2 ^ 128 in [w64 p; w64 (Z.shiftr p 64)].

(** [fast_add] through the native 128-bit addition. *)
Definition fast_add_builtin (x y : list Z) : list Z :=
  let s := (value x + value y) mod 2 ^ 128 in [w64 s; w64 (Z.shiftr s 64)].

(** [fast_add], fallback to the generic addition. *)
Definition fast_add (x y : list Z) : list Z := uadd x y.

(** [operator*] on [uint128]. *)
Definition mul128 (x y : list Z) : list Z :=
  let p := umul64 x#[0] y#[0] in
  let p1 := w64 (p#[1] + w64 (w64 (x#[0] * y#[1]) + w64 (x#[1] * y#[0]))) in
  [p#[0]; p1].

(** Inner loop of the truncating [operator*]: [cnt] iterations from [i]. *)
Fixpoint mul_row (cnt i j : nat) (x : list Z) (yj : Z) (p : list Z) (k : Z)
  : list Z * Z :=
  match cnt with
  | O => (p, k)
  | S cnt' =>
      let t := uadd (uadd (umul64 x#[i] yj) (of_u64 2 p#[i + j])) (of_u64 2 k) in
      mul_row cnt' (S i) j x yj (upd p (i + j) t#[0]) t#[1]
  end.

(** Outer loop of the truncating [operator*]: rows [j, j + cnt). *)
Fixpoint mul_rows (cnt j nw : nat) (x y p : list Z) : list Z :=
  match cnt with
  | O => p
  | S cnt' =>
      let r := mul_row (nw - j - 1) 0 j x y#[j] p 0 in
      let p' := fst r in
      let k := snd r in
      let top := w64 (p'#[nw - 1] + w64 (w64 (x#[nw - j - 1] * y#[j]) + k)) in
      mul_rows cnt' (S j) nw x y (upd p' (nw - 1) top)
  end.

Definition umul_trunc (x y : list Z) : list Z :=
  let nw := length x in mul_rows nw 0 nw x y (zeros nw).

(** [operator*], as overload resolution selects it. *)
Definition umult (x y : list Z) : list Z :=
  match length x with
  | 2%nat => mul128 x y
  | _ => umul_trunc x y
  end.

(** Outer loop of the widening [umul]; its inner loop is the same
    multiply-accumulate pass over all words of [x]. *)
Fixpoint umul_rows (cnt j nw : nat) (x y p : list Z) : list Z :=
  match cnt with
  | O => p
  | S cnt' =>
      let r := mul_row nw 0 j x y#[j] p 0 in
      umul_rows cnt' (S j) nw x y (upd (fst r) (j + nw) (snd r))
  end.

(** [umul(uint<N>, uint<N>)]: the exact product, [2N] bits wide. *)
Definition umul (x y : list Z) : list Z :=
  let nw := length x in umul_rows nw 0 nw x y (zeros (2 * nw)).

(** ** Comparisons and bitwise operators *)

Fixpoint ueq_loop (x y : list Z) (result : bool) : bool :=
  match x, y with
  | xi :: x', yi :: y' => ueq_loop x' y' (result && (xi =? yi))
  | _, _ => result
  end.

Definition ueq_generic (x y : list Z) : bool := ueq_loop x y true.

Definition ueq128 (x y : list Z) : bool :=
  (x#[0] =? y#[0]) && (x#[1] =? y#[1]).

Definition ueq (x y : list Z) : bool :=
  match length x with
  | 2%nat => ueq128 x y
  | _ => ueq_generic x y
  end.

(** [operator<] on [uint<N>]: the borrow of the subtraction. *)
Definition ult_generic (x y : list Z) : bool := snd (sub_with_carry x y false).

(** [operator<] on [uint128], portable form and native 128-bit form. *)
Definition ult128 (x y : list Z) : bool :=
  (x#[1] <? y#[1]) || ((x#[1] =? y#[1]) && (x#[0] <? y#[0])).

Definition ult128_builtin (x y : list Z) : bool :=
  Z.lor (Z.shiftl x#[1] 64) x#[0] <? Z.lor (Z.shiftl y#[1] 64) y#[0].

(** [operator<] on [uint256]: compare the 128-bit halves. *)
Definition ult256 (x y : list Z) : bool :=
  let xhi := [x#[2]; x#[3]] in
  let xlo := [x#[0]; x#[1]] in
  let yhi := [y#[2]; y#[3]] in
  let ylo := [y#[0]; y#[1]] in
  ult128 xhi yhi || (ueq128 xhi yhi && ult128 xlo ylo).

Definition ult (x y : list Z) : bool :=
  match length x with
  | 2%nat => ult128 x y
  | 4%nat => ult256 x y
  | _ => ult_generic x y
  end.

Definition uor (x y : list Z) : list Z := map (fun p => Z.lor (fst p) (snd p)) (combine x y).
Definition uand (x y : list Z) : list Z := map (fun p => Z.land (fst p) (snd p)) (combine x y).
Definition unot (x : list Z) : list Z := map not64 x.

(** Unary minus: [~x + uint<N>{1}]; on [uint128] it is [0 - x]. *)
Definition uneg_generic (x : list Z) : list Z := uadd (unot x) (of_u64 (length x) 1).
Definition uneg128 (x : list Z) : list Z := usub (of_u64 2 0) x.

(** ** Shifts *)

(** [operator<<(uint128, uint64_t)]. *)
Definition shl128 (x : list Z) (shift : Z) : list Z :=
  if shift <? 64 then
    [shl64 x#[0] shift;
     Z.lor (shl64 x#[1] shift) (shr64 (shr64 x#[0] 1) (63 - shift))]
  else if shift <? 128 then [0; shl64 x#[0] (shift - 64)]
  else of_u64 2 0.

(** [operator>>(uint128, uint64_t)]. *)
Definition shr128 (x : list Z) (shift : Z) : list Z :=
  if shift <? 64 then
    [Z.lor (shr64 x#[0] shift) (shl64 (shl64 x#[1] 1) (63 - shift));
     shr64 x#[1] shift]
  else if shift <? 128 then of_u64 2 (shr64 x#[1] (shift - 64))
  else of_u64 2 0.

(** [operator<<(const uint256&, uint64_t)]: two 128-bit halves. *)
Definition shl256 (x : list Z) (shift : Z) : list Z :=
  if 256 <=? shift then of_u64 4 0
  else
    let half_bits := 128 in
    let xlo := [x#[0]; x#[1]] in
    if shift <? half_bits then
      let lo := shl128 xlo shift in
      let xhi := [x#[2]; x#[3]] in
      let rshift := half_bits - shift in
      let lo_overflow := shr128 (shr128 xlo (rshift - 1)) 1 in
      let hi := uor (shl128 xhi shift) lo_overflow in
      [lo#[0]; lo#[1]; hi#[0]; hi#[1]]
    else
      let hi := shl128 xlo (shift - half_bits) in
      [0; 0; hi#[0]; hi#[1]].

(** [operator>>(const uint256&, uint64_t)]. *)
Definition shr256 (x : list Z) (shift : Z) : list Z :=
  if 256 <=? shift then of_u64 4 0
  else
    let half_bits := 128 in
    let xhi := [x#[2]; x#[3]] in
    if shift <? half_bits then
      let hi := shr128 xhi shift in
      let xlo := [x#[0]; x#[1]] in
      let lshift := half_bits - shift in
      let hi_overflow := shl128 (shl128 xhi (lshift - 1)) 1 in
      let lo := uor (shr128 xlo shift) hi_overflow in
      [lo#[0]; lo#[1]; hi#[0]; hi#[1]]
    else
      let lo := shr128 xhi (shift - half_bits) in
      [lo#[0]; lo#[1]; 0; 0].

(** Word loop of the generic [operator<<]: [cnt] iterations from [i]. *)
Fixpoint shl_loop (cnt i skip : nat) (s : Z) (x r : list Z) (carry : Z) : list Z :=
  match cnt with
  | O => r
  | S cnt' =>
      let r' := upd r (i + skip) (Z.lor (shl64 x#[i] s) carry) in
      shl_loop cnt' (S i) skip s x r' (shr64 (shr64 x#[i] (64 - s - 1)) 1)
  end.

Definition shl_generic (x : list Z) (shift : Z) : list Z :=
  let nw := length x in
  if Z.of_nat (64 * nw) <=? shift then of_u64 nw 0
  else
    let s := shift mod 64 in
    let skip := Z.to_nat (shift / 64) in
    shl_loop (nw - skip) 0 skip s x (zeros nw) 0.

(** Word loop of the generic [operator>>]. *)
Fixpoint shr_loop (cnt i skip nw : nat) (s : Z) (x r : list Z) (carry : Z) : list Z :=
  match cnt with
  | O => r
  | S cnt' =>
      let r' := upd r (nw - 1 - i - skip) (Z.lor (shr64 x#[nw - 1 - i] s) carry) in
      shr_loop cnt' (S i) skip nw s x r'
        (shl64 (shl64 x#[nw - 1 - i] (64 - s - 1)) 1)
  end.

Definition shr_generic (x : list Z) (shift : Z) : list Z :=
  let nw := length x in
  if Z.of_nat (64 * nw) <=? shift then of_u64 nw 0
  else
    let s := shift mod 64 in
    let skip := Z.to_nat (shift / 64) in
    shr_loop (nw - skip) 0 skip nw s x (zeros nw) 0.

(** Shift by a [uint64_t] amount, as overload resolution selects it. *)
Definition ushl (x : list Z) (shift : Z) : list Z :=
  match length x with
  | 2%nat => shl128 x shift
  | 4%nat => shl256 x shift
  | _ => shl_generic x shift
  end.

Definition ushr (x : list Z) (shift : Z) : list Z :=
  match length x with
  | 2%nat => shr128 x shift
  | 4%nat => shr256 x shift
  | _ => shr_generic x shift
  end.

(** [high_words_fold]: the OR of the words above word 0. *)
Definition high_words_fold (shift : list Z) : Z :=
  fold_left Z.lor (tl shift) 0.

(** Shift by a [uint<N>] amount. *)
Definition ushl_wide (x shift : list Z) : list Z :=
  match length x with
  | 2%nat => if negb (shift#[1] =? 0) then of_u64 2 0 else shl128 x shift#[0]
  | nw => if negb (high_words_fold shift =? 0) then of_u64 nw 0
          else ushl x shift#[0]
  end.

Definition ushr_wide (x shift : list Z) : list Z :=
  match length x with
  | 2%nat => if negb (shift#[1] =? 0) then of_u64 2 0 else shr128 x shift#[0]
  | nw => if negb (high_words_fold shift =? 0) then of_u64 nw 0
          else ushr x shift#[0]
  end.

(** ** Leading zeros *)

(** The loop of [clz_generic(uint64_t)] over the shifts 32, 16, ..., 1. *)
Fixpoint clz_loop (ss : list Z) (n x : Z) : Z * Z :=
  match ss with
  | [] => (n, x)
  | s :: ss' =>
      let hi := shr64 x s in
      if negb (hi =? 0) then clz_loop ss' (n - s) hi else clz_loop ss' n x
  end.

Definition clz64 (x : Z) : Z :=
  let r := clz_loop [32; 16; 8; 4; 2; 1] 64 x in fst r - snd r.

(** ** Reciprocal-based division primitives *)

Definition reciprocal_table_item (d9 : Z) : Z := w16 (523520 / Z.lor 256 d9).

Definition reciprocal_table : list Z :=
  map (fun i => reciprocal_table_item (Z.of_nat i)) (seq 0 256).

Definition reciprocal_2by1 (d : Z) : Z :=
  let d9 := shr64 d 55 in
  let v0 := nth (Z.to_nat (d9 - 256)) reciprocal_table 0 in
  let d40 := w64 (shr64 d 24 + 1) in
  let v1 :=
    w32 (w32 (w32 (Z.shiftl v0 11)
              - w32 (shr64 (w64 (w32 (v0 * v0) * d40)) 40)) - 1) in
  let v2 :=
    w64 (shl64 v1 13
         + shr64 (w64 (v1 * w64 (1152921504606846976 - w64 (v1 * d40)))) 47) in
  let d0 := Z.land d 1 in
  let d63 := w64 (shr64 d 1 + d0) in
  let e := w64 (Z.land (shr64 v2 1) (w64 (0 - d0)) - w64 (v2 * d63)) in
  let v3 := w64 (shr64 (umul64 v2 e)#[1] 1 + shl64 v2 31) in
  let v4 := w64 (w64 (v3 - (uadd (umul64 v3 d) (of_u64 2 d))#[1]) - d) in
  v4.

Definition reciprocal_3by2 (d : list Z) : Z :=
  let v := reciprocal_2by1 d#[1] in
  let p := w64 (d#[1] * v) in
  let p := w64 (p + d#[0]) in
  let '(v, p) :=
    if p <? d#[0] then
      let v := w64 (v - 1) in
      let '(v, p) :=
        if d#[1] <=? p then (w64 (v - 1), w64 (p - d#[1])) else (v, p) in
      (v, w64 (p - d#[1]))
    else (v, p) in
  let t := umul64 v d#[0] in
  let p := w64 (p + t#[1]) in
  if p <? t#[1] then
    let v := w64 (v - 1) in
    if d#[1] <=? p then
      if (d#[1] <? p) || (d#[0] <=? t#[0]) then w64 (v - 1) else v
    else v
  else v.

Definition udivrem_2by1 (u : list Z) (d v : Z) : Z * Z :=
  let q := umul64 v u#[1] in
  let q := fast_add q u in
  let q1 := w64 (q#[1] + 1) in
  let r := w64 (u#[0] - w64 (q1 * d)) in
  let '(q1, r) := if q#[0] <? r then (w64 (q1 - 1), w64 (r + d)) else (q1, r) in
  let '(q1, r) := if d <=? r then (w64 (q1 + 1), w64 (r - d)) else (q1, r) in
  (q1, r).

Definition udivrem_3by2 (u2 u1 u0 : Z) (d : list Z) (v : Z) : Z * list Z :=
  let q := umul64 v u2 in
  let q := fast_add q [u1; u2] in
  let r1 := w64 (u1 - w64 (q#[1] * d#[1])) in
  let t := umul64 d#[0] q#[1] in
  let r := usub (usub [u0; r1] t) d in
  let r1 := r#[1] in
  let q1 := w64 (q#[1] + 1) in
  let '(q1, r) := if q#[0] <=? r1 then (w64 (q1 - 1), uadd r d) else (q1, r) in
  let '(q1, r) := if negb (ult128 r d) then (w64 (q1 + 1), usub r d) else (q1, r) in
  (q1, r).

(** [udivrem(uint128, uint128)]. *)
Definition udivrem128 (x y : list Z) : list Z * list Z :=
  if y#[1] =? 0 then
    let lsh := clz64 y#[0] in
    let rsh := (64 - lsh) mod 64 in
    let rsh_mask := w64 (Z.b2z (lsh =? 0) - 1) in
    let yn := shl64 y#[0] lsh in
    let xn_lo := shl64 x#[0] lsh in
    let xn_hi := Z.lor (shl64 x#[1] lsh) (Z.land (shr64 x#[0] rsh) rsh_mask) in
    let xn_ex := Z.land (shr64 x#[1] rsh) rsh_mask in
    let v := reciprocal_2by1 yn in
    let res1 := udivrem_2by1 [xn_hi; xn_ex] yn v in
    let res2 := udivrem_2by1 [xn_lo; snd res1] yn v in
    ([fst res2; fst res1], of_u64 2 (shr64 (snd res2) lsh))
  else if x#[1] <? y#[1] then (of_u64 2 0, x)
  else
    let lsh := clz64 y#[1] in
    if lsh =? 0 then
      let q := Z.lor (Z.b2z (y#[1] <? x#[1])) (Z.b2z (y#[0] <=? x#[0])) in
      (of_u64 2 q, usub x (if negb (q =? 0) then y else of_u64 2 0))
    else
      let rsh := 64 - lsh in
      let yn_lo := shl64 y#[0] lsh in
      let yn_hi := Z.lor (shl64 y#[1] lsh) (shr64 y#[0] rsh) in
      let xn_lo := shl64 x#[0] lsh in
      let xn_hi := Z.lor (shl64 x#[1] lsh) (shr64 x#[0] rsh) in
      let xn_ex := shr64 x#[1] rsh in
      let v := reciprocal_3by2 [yn_lo; yn_hi] in
      let res := udivrem_3by2 xn_ex xn_hi xn_lo [yn_lo; yn_hi] v in
      (of_u64 2 (fst res), shr128 (snd res) lsh).

(** ** Multiword division engine *)

Record normalized_div_args := {
  divisor : list Z;
  numerator : list Z;
  num_divisor_words : nat;
  num_numerator_words : nat;
  shift : Z
}.

(** [for (m = num; m > 0 && u[m - 1] == 0; --m);] *)
Fixpoint trim_words (u : list Z) (m : nat) : nat :=
  match m with
  | O => O
  | S m' => if u#[m'] =? 0 then trim_words u m' else m
  end.

(** [for (i = num - 1; i > 0; --i) vn[i] = (v[i] << s) | (v[i-1] >> (64-s));] *)
Fixpoint norm_loop (i : nat) (v : list Z) (s : Z) (vn : list Z) : list Z :=
  match i with
  | O => vn
  | S i' =>
      norm_loop i' v s
        (upd vn i (Z.lor (shl64 v#[i] s) (shr64 v#[i'] (64 - s))))
  end.

(** [internal::normalize].  When the numerator is zero the last test reads
    [un[-1]], one word before the numerator buffer; [oob] stands for the
    word found there. *)
Definition normalize (oob : Z) (u v : list Z) : normalized_div_args :=
  let num_numerator_words := length u in
  let num_denominator_words := length v in
  let m := trim_words u num_numerator_words in
  let n := trim_words v num_denominator_words in
  let s := clz64 v#[n - 1] in
  let '(un, vn) :=
    if negb (s =? 0) then
      let vn := norm_loop (num_denominator_words - 1) v s
                  (zeros num_denominator_words) in
      let vn := upd vn 0 (shl64 v#[0] s) in
      let un := upd (zeros (num_numerator_words + 1)) num_numerator_words
                  (shr64 u#[num_numerator_words - 1] (64 - s)) in
      let un := norm_loop (num_numerator_words - 1) u s un in
      let un := upd un 0 (shl64 u#[0] s) in
      (un, vn)
    else (resize (num_numerator_words + 1) u, v) in
  let un_below := match m with O => oob | S m' => un#[m'] end in
  let m := if negb (un#[m] =? 0) || (vn#[n - 1] <=? un_below) then S m else m in
  {| divisor := vn; numerator := un;
     num_divisor_words := n; num_numerator_words := m; shift := s |}.

(** The [do ... while] of [udivrem_by1]: word [i - 1] down to word 0. *)
Fixpoint by1_loop (i : nat) (u : list Z) (d reciprocal rem : Z) : list Z * Z :=
  match i with
  | O => (u, rem)
  | S i' =>
      let res := udivrem_2by1 [u#[i']; rem] d reciprocal in
      by1_loop i' (upd u i' (fst res)) d reciprocal (snd res)
  end.

Definition udivrem_by1 (u : list Z) (len : nat) (d : Z) : list Z * Z :=
  let reciprocal := reciprocal_2by1 d in
  let rem := u#[len - 1] in
  let u := upd u (len - 1) 0 in
  by1_loop (len - 1) u d reciprocal rem.

Fixpoint by2_loop (i : nat) (u d : list Z) (reciprocal : Z) (rem : list Z)
  : list Z * list Z :=
  match i with
  | O => (u, rem)
  | S i' =>
      let res := udivrem_3by2 rem#[1] rem#[0] u#[i'] d reciprocal in
      by2_loop i' (upd u i' (fst res)) d reciprocal (snd res)
  end.

Definition udivrem_by2 (u : list Z) (len : nat) (d : list Z) : list Z * list Z :=
  let reciprocal := reciprocal_3by2 d in
  let rem := [u#[len - 2]; u#[len - 1]] in
  let u := upd (upd u (len - 2) 0) (len - 1) 0 in
  by2_loop (len - 2) u d reciprocal rem.

(** [internal::add(&u[j], &u[j], d, len)], in place on [u]. *)
Fixpoint add_loop (cnt i j : nat) (u d : list Z) (carry : bool) : list Z * bool :=
  match cnt with
  | O => (u, carry)
  | S cnt' =>
      let r := add_with_carry64 u#[j + i] d#[i] carry in
      add_loop cnt' (S i) j (upd u (j + i) (fst r)) d (snd r)
  end.

Definition add (u : list Z) (j : nat) (d : list Z) (len : nat) : list Z * bool :=
  add_loop len 0 j u d false.

(** [internal::submul(&u[j], &u[j], d, len, multiplier)], in place on [u]. *)
Fixpoint submul_loop (cnt i j : nat) (u d : list Z) (multiplier borrow : Z)
  : list Z * Z :=
  match cnt with
  | O => (u, borrow)
  | S cnt' =>
      let s := sub_with_carry64 u#[j + i] borrow false in
      let p := umul64 d#[i] multiplier in
      let t := sub_with_carry64 (fst s) p#[0] false in
      let borrow' := w64 (w64 (p#[1] + Z.b2z (snd s)) + Z.b2z (snd t)) in
      submul_loop cnt' (S i) j (upd u (j + i) (fst t)) d multiplier borrow'
  end.

Definition submul (u : list Z) (j : nat) (d : list Z) (len : nat) (multiplier : Z)
  : list Z * Z :=
  submul_loop len 0 j u d multiplier 0.

(** One pass of the loop of [udivrem_knuth] for quotient digit [j]. *)
Definition knuth_step (j : nat) (q u d : list Z) (dlen : nat)
    (divisor : list Z) (reciprocal : Z) : list Z * list Z :=
  let u2 := u#[j + dlen] in
  let u1 := u#[j + dlen - 1] in
  let u0 := u#[j + dlen - 2] in
  if ueq128 [u1; u2] divisor then
    let qhat := not64 0 in
    let sm := submul u j d dlen qhat in
    (upd q j qhat, upd (fst sm) (j + dlen) (w64 (u2 - snd sm)))
  else
    let res := udivrem_3by2 u2 u1 u0 divisor reciprocal in
    let qhat := fst res in
    let rhat := snd res in
    let sm := submul u j d (dlen - 2) qhat in
    let overflow := snd sm in
    let s0 := sub_with_carry64 rhat#[0] overflow false in
    let u := upd (fst sm) (j + dlen - 2) (fst s0) in
    let s1 := sub_with_carry64 rhat#[1] (Z.b2z (snd s0)) false in
    let u := upd u (j + dlen - 1) (fst s1) in
    let carry := snd s1 in
    if carry then
      let qhat := w64 (qhat - 1) in
      let ad := add u j d (dlen - 1) in
      let u := fst ad in
      let top := w64 (u#[j + dlen - 1] + w64 (divisor#[1] + Z.b2z (snd ad))) in
      (upd q j qhat, upd u (j + dlen - 1) top)
    else (upd q j qhat, u).

(** [for (j = ulen - dlen - 1; j >= 0; --j)]. *)
Fixpoint knuth_loop (cnt : nat) (q u d : list Z) (dlen : nat)
    (divisor : list Z) (reciprocal : Z) : list Z * list Z :=
  match cnt with
  | O => (q, u)
  | S j =>
      let r := knuth_step j q u d dlen divisor reciprocal in
      knuth_loop j (fst r) (snd r) d dlen divisor reciprocal
  end.

Definition udivrem_knuth (q u : list Z) (ulen : nat) (d : list Z) (dlen : nat)
  : list Z * list Z :=
  let divisor := [d#[dlen - 2]; d#[dlen - 1]] in
  let reciprocal := reciprocal_3by2 divisor in
  knuth_loop (ulen - dlen) q u d dlen divisor reciprocal.

(** The loop that shifts the remainder back after [udivrem_knuth]. *)
Fixpoint unnorm_loop (cnt i : nat) (un : list Z) (s : Z) (rw : list Z) : list Z :=
  match cnt with
  | O => rw
  | S cnt' =>
      let w := if negb (s =? 0)
               then Z.lor (shr64 un#[i] s) (shl64 un#[i + 1] (64 - s))
               else un#[i] in
      unnorm_loop cnt' (S i) un s (upd rw i w)
  end.

(** [x >> shift] for a shift of a narrower integer type: the generic
    overload compares the amount with the width first. *)
Definition ushr_small (x : list Z) (shift : Z) : list Z :=
  if shift <? Z.of_nat (64 * length x) then ushr x shift
  else of_u64 (length x) 0.

(** [udivrem(const uint<M>&, const uint<N>&)]. *)
Definition udivrem (oob : Z) (u v : list Z) : list Z * list Z :=
  let mw := length u in
  let nw := length v in
  let na := normalize oob u v in
  if (num_numerator_words na <=? num_divisor_words na)%nat then
    (of_u64 mw 0, resize nw u)
  else if (num_divisor_words na =? 1)%nat then
    let r := udivrem_by1 (numerator na) (num_numerator_words na) (divisor na)#[0] in
    (resize mw (fst r), of_u64 nw (shr64 (snd r) (shift na)))
  else if (num_divisor_words na =? 2)%nat then
    let d := divisor na in
    let r := udivrem_by2 (numerator na) (num_numerator_words na) [d#[0]; d#[1]] in
    (resize mw (fst r), resize nw (ushr_small (snd r) (shift na)))
  else
    let k := udivrem_knuth (zeros mw) (numerator na) (num_numerator_words na)
               (divisor na) (num_divisor_words na) in
    let un := snd k in
    let n := num_divisor_words na in
    let rw := unnorm_loop (n - 1) 0 un (shift na) (zeros nw) in
    let rw := upd rw (n - 1) (shr64 un#[n - 1] (shift na)) in
    (fst k, rw).

(** [udivrem] as overload resolution selects it for equal widths. *)
Definition udivrem_any (oob : Z) (x y : list Z) : list Z * list Z :=
  match length x with
  | 2%nat => udivrem128 x y
  | _ => udivrem oob x y
  end.

(** ** Signed view *)

Definition une128 (x y : list Z) : bool :=
  negb (x#[0] =? y#[0]) || negb (x#[1] =? y#[1]).

(** [x != y], as overload resolution selects it. *)
Definition une (x y : list Z) : bool :=
  match length x with
  | 2%nat => une128 x y
  | _ => negb (ueq_generic x y)
  end.

(** [sdivrem(const uint<N>&, const uint<N>&)]. *)
Definition sdivrem (oob : Z) (u v : list Z) : list Z * list Z :=
  let nw := length u in
  let sign_mask := ushl (of_u64 nw 1) (Z.of_nat (64 * nw) - 1) in
  let u_is_neg := negb (ueq_generic (uand u sign_mask) (of_u64 nw 0)) in
  let v_is_neg := negb (ueq_generic (uand v sign_mask) (of_u64 nw 0)) in
  let u_abs := if u_is_neg then uneg_generic u else u in
  let v_abs := if v_is_neg then uneg_generic v else v in
  let q_is_neg := xorb u_is_neg v_is_neg in
  let res := udivrem oob u_abs v_abs in
  (if q_is_neg then uneg_generic (fst res) else fst res,
   if u_is_neg then uneg_generic (snd res) else snd res).

(** [sdivrem(uint128, uint128)]. *)
Definition sdivrem128 (x y : list Z) : list Z * list Z :=
  let sign_mask := shl128 (of_u64 2 1) 127 in
  let x_is_neg := une128 (uand x sign_mask) (of_u64 2 0) in
  let y_is_neg := une128 (uand y sign_mask) (of_u64 2 0) in
  let x_abs := if x_is_neg then uneg128 x else x in
  let y_abs := if y_is_neg then uneg128 y else y in
  let q_is_neg := xorb x_is_neg y_is_neg in
  let res := udivrem128 x_abs y_abs in
  (if q_is_neg then uneg128 (fst res) else fst res,
   if x_is_neg then uneg128 (snd res) else snd res).

(** ** Modular addition and multiplication on [uint256] *)

Definition addmod (oob : Z) (x y mod_ : list Z) : list Z :=
  let s := add_with_carry x y false in
  let n := resize 5 (fst s) in
  let n := upd n 4 (Z.b2z (snd s)) in
  snd (udivrem oob n mod_).

Definition mulmod (oob : Z) (x y mod_ : list Z) : list Z :=
  snd (udivrem oob (umul x y) mod_).

(** ** Text conversion *)

Inductive parse_error : Set := invalid_argument | out_of_range.

Definition char_code (c : ascii) : Z := Z.of_nat (nat_of_ascii c).

Definition from_dec_digit (c : ascii) : parse_error + Z :=
  if (char_code c <? 48) || (57 <? char_code c) then inl invalid_argument
  else inr (char_code c - 48).

Definition from_hex_digit (c : ascii) : parse_error + Z :=
  if (97 <=? char_code c) && (char_code c <=? 102) then inr (char_code c - (97 - 10))
  else if (65 <=? char_code c) && (char_code c <=? 70) then inr (char_code c - (65 - 10))
  else from_dec_digit c.

(** [std::numeric_limits<uint<N>>::digits10], the integer part of
    [0.3010299956639812 * N]. *)
Definition digits10 (nw : nat) : Z :=
  3010299956639812 * Z.of_nat (64 * nw) / 10000000000000000.

(** The hexadecimal loop of [from_string]. *)
Fixpoint from_string_hex (s : string) (num_digits : Z) (x : list Z)
  : parse_error + list Z :=
  match s with
  | EmptyString => inr x
  | String c s' =>
      let num_digits := num_digits + 1 in
      if Z.of_nat (8 * length x) * 2 <? num_digits then inl out_of_range
      else
        match from_hex_digit c with
        | inl e => inl e
        | inr d =>
            from_string_hex s' num_digits
              (uor (ushl x 4) (of_u64 (length x) d))
        end
  end.

(** The decimal loop of [from_string]. *)
Fixpoint from_string_dec (s : string) (num_digits : Z) (x : list Z)
  : parse_error + list Z :=
  match s with
  | EmptyString => inr x
  | String c s' =>
      if digits10 (length x) <? num_digits then inl out_of_range
      else
        match from_dec_digit c with
        | inl e => inl e
        | inr d =>
            let x := uadd (umult x (of_u64 (length x) 10)) (of_u64 (length x) d) in
            if ult x (of_u64 (length x) d) then inl out_of_range
            else from_string_dec s' (num_digits + 1) x
        end
  end.

(** [from_string<uint<N>>], [N = 64 * nw]. *)
Definition from_string (nw : nat) (str : string) : parse_error + list Z :=
  match str with
  | String "0" (String "x" s) => from_string_hex s 0 (zeros nw)
  | _ => from_string_dec str 0 (zeros nw)
  end.

(** The digit loop of [to_string]; [fuel] bounds the number of passes. *)
Fixpoint to_string_loop (fuel : nat) (oob : Z) (x : list Z) (base : Z)
    (s : list ascii) : option (list ascii) :=
  match fuel with
  | O => None
  | S fuel' =>
      if une x (of_u64 (length x) 0) then
        let res := udivrem_any oob x (of_u64 (length x) base) in
        let d := (snd res)#[0] in
        let c := if d <? 10 then 48 + d else 97 + d - 10 in
        to_string_loop fuel' oob (fst res) base
          (s ++ [ascii_of_nat (Z.to_nat c)])
      else Some s
  end.

(** [to_string(uint<N>, base)].  [None] only when [fuel] runs out. *)
Definition to_string (fuel : nat) (oob : Z) (x : list Z) (base : Z)
  : option (parse_error + string) :=
  if (base <? 2) || (36 <? base) then Some (inl invalid_argument)
  else if ueq x (of_u64 (length x) 0) then Some (inr "0"%string)
  else
    match to_string_loop fuel oob x base [] with
    | None => None
    | Some s => Some (inr (string_of_list_ascii (rev s)))
    end.

(** ** Views used in the statements *)

(** The words [x[i], ..., x[i + cnt - 1]] of an array. *)
Definition window (x : list Z) (i cnt : nat) : list Z := firstn cnt (skipn i x).

(** The two's-complement reading of a [uint<N>]. *)
Definition signed (x : list Z) : Z :=
  let n := B ^ Z.of_nat (length x) in
  if value x <? n / 2 then value x else value x - n.

(** Decidable form of [words], for concrete inputs. *)
Definition wordsb (l : list Z) : bool :=
  forallb (fun w => (0 <=? w) && (w <? 2 ^ 64)) l.

(** The all-ones value of a width. *)
Definition ones (nw : nat) : list Z := repeat (2 ^ 64 - 1) nw.

(** * More of the library and its callers *)

(** ** The remaining comparisons *)

(** [operator<=], [operator>] and [operator>=], each written through
    [operator<]. *)
Definition ule (x y : list Z) : bool := negb (ult y x).
Definition ugt (x y : list Z) : bool := ult y x.
Definition uge (x y : list Z) : bool := negb (ult x y).

(** [static_cast<int64_t>(w)]. *)
Definition to_int64 (w : Z) : Z := if w <? 2 ^ 63 then w else w - 2 ^ 64.

(** [slt]: signed less-than on the two's-complement reading. *)
Definition slt (x y : list Z) : bool :=
  let top_word_idx := (length x - 1)%nat in
  let x_neg := to_int64 x#[top_word_idx] <? 0 in
  let y_neg := to_int64 y#[top_word_idx] <? 0 in
  if xorb x_neg y_neg then x_neg else ult x y.

(** [operator^]. *)
Definition uxor (x y : list Z) : list Z :=
  map (fun p => Z.lxor (fst p) (snd p)) (combine x y).

(** ** Counting *)

(** [clz_generic(uint32_t)]: the same loop over the shifts 16, ..., 1. *)
Definition clz32 (x : Z) : Z :=
  let r := clz_loop [16; 8; 4; 2; 1] 32 x in fst r - snd r.

(** [clz(uint128)]. *)
Definition clz128 (x : list Z) : Z :=
  if x#[1] =? 0 then clz64 x#[0] + 64 else clz64 x#[1].

(** The loop of [count_significant_words], from the top word down. *)
Fixpoint csw_loop (x : list Z) (i : nat) : nat :=
  match i with
  | O => O
  | S i' => if negb (x#[i'] =? 0) then i else csw_loop x i'
  end.

Definition count_significant_words (x : list Z) : nat := csw_loop x (length x).

(** [count_significant_bytes(uint64_t)]. *)
Definition count_significant_bytes64 (x : Z) : Z := (64 - clz64 x + 7) / 8.

(** [count_significant_bytes(const uint<N>&)]. *)
Definition count_significant_bytes (x : list Z) : Z :=
  let w := count_significant_words x in
  if negb (w =? 0)%nat
  then count_significant_bytes64 x#[w - 1] + (Z.of_nat w - 1) * 8
  else 0.

(** [clz(const uint<N>&)]. *)
Definition clz (x : list Z) : Z :=
  let num_words := length x in
  let s := count_significant_words x in
  if (s =? 0)%nat then Z.of_nat num_words * 64
  else clz64 x#[s - 1] + (Z.of_nat num_words - Z.of_nat s) * 64.

(** * The callers: namespaces [math], [encoding] and [string_utils] *)

(** ** The 64-character alphabet *)

(** [encoding::EncodeChar]; a [char] is given by its code. *)
Definition EncodeChar (c : Z) : Z :=
  if (48 <=? c) && (c <=? 57) then c - 48
  else if (65 <=? c) && (c <=? 90) then c - 55
  else if (97 <=? c) && (c <=? 122) then c - 61
  else if c =? 95 then 62
  else if c =? 46 then 63
  else 64.

(** [encoding::DecodeChar]; the result is the code of the character. *)
Definition DecodeChar (num : Z) : Z :=
  if (0 <=? num) && (num <=? 9) then 48 + num
  else if (10 <=? num) && (num <=? 35) then 65 + num - 10
  else if (36 <=? num) && (num <=? 61) then 97 + num - 36
  else if num =? 62 then 95
  else if num =? 63 then 46
  else 0.

(** [uint<N>(v)] for a built-in integer [v]: the value converted to
    [uint64_t] in word 0, zeros above. *)
Definition of_int (nw : nat) (v : Z) : list Z := of_u64 nw (w64 v).


(** [string_utils::StringTou5]: [result *= 10; result += (c - '0')] for
    every character, with no test of the character. *)
Definition StringTou5 (num_string : list Z) : list Z :=
  fold_left
    (fun result c => uadd (umult result (of_int 8 10)) (of_int 8 (c - 48)))
    num_string (of_int 8 0).

(** ** Modular exponentiation on [uint64_t] *)



(** [math::Mul]. *)
Definition Mul (a b mod_ : Z) : Z := w64 (a * b) mod mod_.

(** ** Division operators *)

(** [operator/] and [operator%], on [uint128] and on [uint<N>]: the two
    halves of [udivrem]. *)
Definition udiv (oob : Z) (x y : list Z) : list Z := fst (udivrem_any oob x y).
Definition umod (oob : Z) (x y : list Z) : list Z := snd (udivrem_any oob x y).

(** ** Views used in the statements *)

(** The number written by the digits [l] in base [b], lowest digit first. *)
Definition horner (b : Z) (l : list Z) : Z :=
  fold_right (fun v acc => v + b * acc) 0 l.

(** * Properties *)

(** ** Basic facts on words and word lists *)

(** Bring the outermost [let] of the left-hand side of an equation into the
    context, so that a function body is traversed one binding at a time. *)
Ltac pull_let x :=
  match goal with
  | |- (let y := ?a in @?b y) = ?r =>
      change (let y := a in b y = r); cbv beta; intros x
  end.

(** Split a conjunction without unfolding the conjuncts. *)
Ltac split_and := repeat match goal with |- _ /\ _ => split end.

Lemma B_eq : B = 18446744073709551616.
Proof. reflexivity. Qed.

Lemma B_pos : 0 < B.
Proof. rewrite B_eq; lia. Qed.

Lemma B_pow : B = 2 ^ 64.
Proof. reflexivity. Qed.

Lemma w64_mod x : w64 x = x mod B.
Proof. reflexivity. Qed.

Lemma value_cons w l : value (w :: l) = w + B * value l.
Proof. reflexivity. Qed.

(** From here on [B] is only used through the lemmas above. *)
Global Opaque B.

Lemma w64_range x : word (w64 x).
Proof. unfold word. rewrite w64_mod. apply Z.mod_pos_bound, B_pos. Qed.

Lemma w64_small x : word x -> w64 x = x.
Proof. unfold word. rewrite w64_mod. intros. apply Z.mod_small. lia. Qed.

Lemma word_0 : word 0.
Proof. unfold word. pose proof B_pos. lia. Qed.

Lemma word_b2z b : word (Z.b2z b).
Proof. unfold word. rewrite B_eq. destruct b; simpl; lia. Qed.

Lemma b2z_range b : 0 <= Z.b2z b <= 1.
Proof. destruct b; simpl; lia. Qed.

(** A reduction of a value within one period of its range. *)
Lemma w64_add_cases x : 0 <= x < 2 * B ->
  w64 x = if x <? B then x else x - B.
Proof.
  intros H. rewrite w64_mod. destruct (Z.ltb_spec x B).
  - apply Z.mod_small; lia.
  - symmetry. apply Z.mod_unique_pos with 1; lia.
Qed.

Lemma w64_sub_cases x : - B <= x < B ->
  w64 x = if x <? 0 then x + B else x.
Proof.
  intros H. rewrite w64_mod. destruct (Z.ltb_spec x 0).
  - symmetry. apply Z.mod_unique_pos with (-1); lia.
  - apply Z.mod_small; lia.
Qed.

Lemma w64_idem x : w64 (w64 x) = w64 x.
Proof. apply w64_small, w64_range. Qed.

Lemma w64_add_l x y : w64 (w64 x + y) = w64 (x + y).
Proof. rewrite !w64_mod. apply Z.add_mod_idemp_l. pose proof B_pos; lia. Qed.

Lemma w64_add_r x y : w64 (x + w64 y) = w64 (x + y).
Proof. rewrite !w64_mod. apply Z.add_mod_idemp_r. pose proof B_pos; lia. Qed.

Lemma w64_sub_l x y : w64 (w64 x - y) = w64 (x - y).
Proof. rewrite !w64_mod. apply Zminus_mod_idemp_l. Qed.

Lemma w64_sub_r x y : w64 (x - w64 y) = w64 (x - y).
Proof. rewrite !w64_mod. apply Zminus_mod_idemp_r. Qed.

Lemma w64_mul_l x y : w64 (w64 x * y) = w64 (x * y).
Proof. rewrite !w64_mod. apply Z.mul_mod_idemp_l. pose proof B_pos; lia. Qed.

Lemma w64_mul_r x y : w64 (x * w64 y) = w64 (x * y).
Proof. rewrite !w64_mod. apply Z.mul_mod_idemp_r. pose proof B_pos; lia. Qed.

Lemma w64_eq_mod x y k : x = y + k * B -> w64 x = w64 y.
Proof. intros ->. rewrite !w64_mod. apply Z.mod_add. pose proof B_pos; lia. Qed.

Lemma w64_unique x r k : x = r + k * B -> word r -> w64 x = r.
Proof. intros H Hr. rewrite (w64_eq_mod _ _ _ H). apply w64_small, Hr. Qed.

Lemma words_nil : words [].
Proof. constructor. Qed.

Lemma words_cons w l : word w -> words l -> words (w :: l).
Proof. intros; constructor; assumption. Qed.

Lemma words_inv w l : words (w :: l) -> word w /\ words l.
Proof. intros H; inversion H; auto. Qed.

Lemma Bpow_pos n : 0 < B ^ Z.of_nat n.
Proof. apply Z.pow_pos_nonneg; [apply B_pos | lia]. Qed.

Lemma Bpow_S n : B ^ Z.of_nat (S n) = B * B ^ Z.of_nat n.
Proof. rewrite Nat2Z.inj_succ, Z.pow_succ_r by lia. reflexivity. Qed.

Lemma Bpow_add n m : B ^ Z.of_nat (n + m) = B ^ Z.of_nat n * B ^ Z.of_nat m.
Proof. rewrite Nat2Z.inj_add, Z.pow_add_r by lia. reflexivity. Qed.

Lemma Bpow_two n : B ^ Z.of_nat n = 2 ^ (64 * Z.of_nat n).
Proof. rewrite B_pow, <- Z.pow_mul_r by lia. reflexivity. Qed.

Lemma value_range l : words l -> 0 <= value l < B ^ Z.of_nat (length l).
Proof.
  induction l as [|w l IH]; intros H.
  - simpl. lia.
  - apply words_inv in H as [Hw Hl]. specialize (IH Hl).
    change (length (w :: l)) with (S (length l)). rewrite Bpow_S.
    unfold word in Hw. simpl value. pose proof B_pos.
    assert (B * value l <= B * (B ^ Z.of_nat (length l) - 1))
      by (apply Z.mul_le_mono_nonneg_l; lia).
    assert (0 <= B * value l) by (apply Z.mul_nonneg_nonneg; lia).
    lia.
Qed.

Lemma value_app l1 l2 :
  value (l1 ++ l2) = value l1 + B ^ Z.of_nat (length l1) * value l2.
Proof.
  induction l1 as [|w l1 IH].
  - cbn [app length value Z.of_nat]. rewrite Z.pow_0_r. lia.
  - change (length (w :: l1)) with (S (length l1)).
    rewrite Bpow_S. cbn [app]. rewrite !value_cons, IH. ring.
Qed.

Lemma value_zeros n : value (zeros n) = 0.
Proof.
  induction n; [reflexivity|].
  change (zeros (S n)) with (0 :: zeros n). rewrite value_cons, IHn. lia.
Qed.

Lemma words_zeros n : words (zeros n).
Proof. induction n; simpl; constructor; auto using word_0. Qed.

Lemma length_zeros n : length (zeros n) = n.
Proof. apply repeat_length. Qed.

Lemma at_zeros n i : (zeros n)#[i] = 0.
Proof.
  unfold at_, zeros. revert i; induction n; intros [|i]; simpl; auto.
Qed.

Lemma length_upd l i v : length (upd l i v) = length l.
Proof.
  revert i; induction l as [|h t IH]; intros [|i]; simpl; auto.
Qed.

Lemma words_upd l i v : words l -> word v -> words (upd l i v).
Proof.
  revert i; induction l as [|h t IH]; intros [|i] Hl Hv; simpl; auto.
  - apply words_inv in Hl as [_ Ht]. apply words_cons; auto.
  - apply words_inv in Hl as [Hh Ht]. apply words_cons; auto.
Qed.

Lemma at_word l i : words l -> word l#[i].
Proof.
  revert i; induction l as [|h t IH]; intros i Hl.
  - unfold at_. destruct i; simpl; apply word_0.
  - apply words_inv in Hl as [Hh Ht]. destruct i; simpl; auto. apply IH; auto.
Qed.

Lemma at_beyond l i : (length l <= i)%nat -> l#[i] = 0.
Proof. intros. unfold at_. apply nth_overflow. assumption. Qed.

Lemma at_upd_same l i v : (i < length l)%nat -> (upd l i v)#[i] = v.
Proof.
  revert i; induction l as [|h t IH]; intros [|i] H; simpl in *; try lia; auto.
  apply IH. lia.
Qed.

Lemma at_upd_other l i j v : i <> j -> (upd l i v)#[j] = l#[j].
Proof.
  revert i j; induction l as [|h t IH]; intros [|i] [|j] H; simpl; auto; try congruence.
  apply IH. congruence.
Qed.

Lemma upd_beyond l i v : (length l <= i)%nat -> upd l i v = l.
Proof.
  revert i; induction l as [|h t IH]; intros [|i] H; simpl in *; auto; try lia.
  f_equal. apply IH. lia.
Qed.

Lemma value_upd l i v :
  (i < length l)%nat ->
  value (upd l i v) = value l + (v - l#[i]) * B ^ Z.of_nat i.
Proof.
  revert i; induction l as [|h t IH]; intros [|i] H; cbn [length upd] in *; try lia.
  - rewrite !value_cons. change ((h :: t)#[0]) with h.
    change (Z.of_nat 0) with 0. rewrite Z.pow_0_r. ring.
  - rewrite !value_cons, IH by lia. change ((h :: t)#[S i]) with (t#[i]).
    rewrite Bpow_S. ring.
Qed.

Lemma at_cons_S h t i : (h :: t)#[S i] = t#[i].
Proof. reflexivity. Qed.

Lemma at_cons_0 h t : (h :: t)#[0] = h.
Proof. reflexivity. Qed.

Lemma value_2 a b : value [a; b] = a + B * b.
Proof. rewrite !value_cons. cbn [value]. ring. Qed.

Lemma words_2 a b : word a -> word b -> words [a; b].
Proof. intros. apply words_cons; [|apply words_cons]; auto using words_nil. Qed.

Lemma of_u64_value nw x : (0 < nw)%nat -> value (of_u64 nw x) = x.
Proof.
  intros H. unfold of_u64. rewrite value_upd by (rewrite length_zeros; lia).
  rewrite value_zeros, at_zeros. change (Z.of_nat 0) with 0.
  rewrite Z.pow_0_r. lia.
Qed.

Lemma of_u64_words nw x : word x -> words (of_u64 nw x).
Proof. intros. apply words_upd; auto using words_zeros. Qed.

Lemma of_u64_length nw x : length (of_u64 nw x) = nw.
Proof. unfold of_u64. rewrite length_upd. apply length_zeros. Qed.

Lemma of_u64_0 nw : of_u64 nw 0 = zeros nw.
Proof. destruct nw; reflexivity. Qed.

Lemma of_u64_2 x : of_u64 2 x = [x; 0].
Proof. reflexivity. Qed.

Lemma word_mod_add a x : word a -> (a + B * x) mod B = a.
Proof.
  intros Ha. unfold word in Ha. pose proof B_pos.
  rewrite (Z.mul_comm B x), Z.mod_add by lia. apply Z.mod_small; lia.
Qed.

Lemma word_div_add a x : word a -> (a + B * x) / B = x.
Proof.
  intros Ha. unfold word in Ha. pose proof B_pos.
  rewrite (Z.mul_comm B x), Z.div_add by lia.
  rewrite Z.div_small; lia.
Qed.

(** Two word lists of one length that denote the same number are equal. *)
Lemma value_inj l1 l2 :
  length l1 = length l2 -> words l1 -> words l2 ->
  value l1 = value l2 -> l1 = l2.
Proof.
  revert l2; induction l1 as [|a l1 IH]; intros [|b l2] Hlen H1 H2 Hv;
    cbn [length] in *; try discriminate; auto.
  apply words_inv in H1 as [Ha H1]. apply words_inv in H2 as [Hb H2].
  unfold word in *. rewrite !value_cons in Hv.
  pose proof B_pos.
  assert (a = b) as ->.
  { rewrite <- (word_mod_add a (value l1)), <- (word_mod_add b (value l2)) by assumption.
    rewrite Hv. reflexivity. }
  f_equal. apply IH; auto. nia.
Qed.

Lemma value_zero_inv l : words l -> value l = 0 -> l = zeros (length l).
Proof.
  intros Hw Hv. apply value_inj; auto using words_zeros.
  - rewrite length_zeros; reflexivity.
  - rewrite value_zeros; assumption.
Qed.

(** ** Addition and subtraction *)

(** Linear arithmetic over words, with the reductions made explicit. *)
Ltac word_lia :=
  unfold word, w64, w32 in *; rewrite ?B_eq in *;
  Z.to_euclidean_division_equations; lia.

Lemma add_step_spec xi yi k :
  word xi -> word yi ->
  let s := w64 (xi + yi) in
  let s' := w64 (s + Z.b2z k) in
  let k' := (s' <? Z.b2z k) || (s <? xi) in
  s' + B * Z.b2z k' = xi + yi + Z.b2z k /\ word s'.
Proof.
  intros Hx Hy s s' k'. subst s s' k'.
  pose proof (b2z_range k).
  destruct (Z.ltb_spec (w64 (w64 (xi + yi) + Z.b2z k)) (Z.b2z k));
    destruct (Z.ltb_spec (w64 (xi + yi)) xi); cbn [orb Z.b2z];
    split; word_lia.
Qed.

Lemma sub_step_spec xi yi k :
  word xi -> word yi ->
  let z := w64 (xi - yi) in
  let k' := (xi <? yi) || (z <? Z.b2z k) in
  let z' := w64 (z - Z.b2z k) in
  z' - B * Z.b2z k' = xi - yi - Z.b2z k /\ word z'.
Proof.
  intros Hx Hy z k' z'. subst z k' z'.
  pose proof (b2z_range k).
  destruct (Z.ltb_spec xi yi);
    destruct (Z.ltb_spec (w64 (xi - yi)) (Z.b2z k)); cbn [orb Z.b2z];
    split; word_lia.
Qed.

Lemma add_with_carry_spec x : forall y k,
  length x = length y -> words x -> words y ->
  let r := add_with_carry x y k in
  value (fst r) + B ^ Z.of_nat (length x) * Z.b2z (snd r)
    = value x + value y + Z.b2z k
  /\ words (fst r) /\ length (fst r) = length x.
Proof.
  induction x as [|xi x IH]; intros [|yi y] k Hlen Hx Hy; try discriminate.
  - cbn [add_with_carry sub_with_carry fst snd value length].
    change (Z.of_nat 0) with 0. rewrite Z.pow_0_r.
    repeat split; auto using words_nil; lia.
  - apply words_inv in Hx as [Hxi Hx]. apply words_inv in Hy as [Hyi Hy].
    cbn [length] in Hlen. injection Hlen as Hlen.
    cbn [add_with_carry fst snd].
    destruct (add_step_spec xi yi k Hxi Hyi) as [Hs Hw].
    set (k' := (_ || _)%bool) in *.
    destruct (IH y k' Hlen Hx Hy) as (Hv & Hws & Hl).
    cbn [length]. rewrite Bpow_S, !value_cons. repeat split.
    + nia.
    + apply words_cons; assumption.
    + cbn [length]. congruence.
Qed.

Lemma sub_with_carry_spec x : forall y k,
  length x = length y -> words x -> words y ->
  let r := sub_with_carry x y k in
  value (fst r) - B ^ Z.of_nat (length x) * Z.b2z (snd r)
    = value x - value y - Z.b2z k
  /\ words (fst r) /\ length (fst r) = length x.
Proof.
  induction x as [|xi x IH]; intros [|yi y] k Hlen Hx Hy; try discriminate.
  - cbn [add_with_carry sub_with_carry fst snd value length].
    change (Z.of_nat 0) with 0. rewrite Z.pow_0_r.
    repeat split; auto using words_nil; lia.
  - apply words_inv in Hx as [Hxi Hx]. apply words_inv in Hy as [Hyi Hy].
    cbn [length] in Hlen. injection Hlen as Hlen.
    cbn [sub_with_carry fst snd].
    destruct (sub_step_spec xi yi k Hxi Hyi) as [Hs Hw].
    set (k' := (_ || _)%bool) in *.
    destruct (IH y k' Hlen Hx Hy) as (Hv & Hws & Hl).
    cbn [length]. rewrite Bpow_S, !value_cons. repeat split.
    + nia.
    + apply words_cons; assumption.
    + cbn [length]. congruence.
Qed.

(** [x + y] is the sum reduced modulo [2^N]. *)
Lemma uadd_value x y :
  length x = length y -> words x -> words y ->
  value (uadd x y) = (value x + value y) mod B ^ Z.of_nat (length x).
Proof.
  intros Hlen Hx Hy. unfold uadd.
  destruct (add_with_carry_spec x y false Hlen Hx Hy) as (Hv & Hw & Hl).
  pose proof (value_range _ Hw) as Hr. rewrite Hl in Hr.
  cbn [Z.b2z] in Hv. rewrite Z.add_0_r in Hv. rewrite <- Hv.
  rewrite Z.mul_comm, Z.mod_add by (pose proof (Bpow_pos (length x)); lia).
  symmetry. apply Z.mod_small. assumption.
Qed.

Lemma uadd_words x y :
  length x = length y -> words x -> words y -> words (uadd x y).
Proof. intros. apply add_with_carry_spec; assumption. Qed.

Lemma uadd_length x y :
  length x = length y -> words x -> words y -> length (uadd x y) = length x.
Proof. intros. apply add_with_carry_spec; assumption. Qed.

(** [x - y] is the difference reduced modulo [2^N]. *)
Lemma usub_value x y :
  length x = length y -> words x -> words y ->
  value (usub x y) = (value x - value y) mod B ^ Z.of_nat (length x).
Proof.
  intros Hlen Hx Hy. unfold usub.
  destruct (sub_with_carry_spec x y false Hlen Hx Hy) as (Hv & Hw & Hl).
  pose proof (value_range _ Hw) as Hr. rewrite Hl in Hr.
  cbn [Z.b2z] in Hv. rewrite Z.sub_0_r in Hv. rewrite <- Hv.
  replace (value (fst (sub_with_carry x y false)) -
           B ^ Z.of_nat (length x) * Z.b2z (snd (sub_with_carry x y false)))
    with (value (fst (sub_with_carry x y false)) +
          (- Z.b2z (snd (sub_with_carry x y false))) * B ^ Z.of_nat (length x))
    by ring.
  rewrite Z.mod_add by (pose proof (Bpow_pos (length x)); lia).
  symmetry. apply Z.mod_small. assumption.
Qed.

Lemma usub_words x y :
  length x = length y -> words x -> words y -> words (usub x y).
Proof. intros. apply sub_with_carry_spec; assumption. Qed.

Lemma usub_length x y :
  length x = length y -> words x -> words y -> length (usub x y) = length x.
Proof. intros. apply sub_with_carry_spec; assumption. Qed.

(** The borrow of [x - y] is set exactly when [x] is below [y]. *)
Lemma ult_generic_spec x y :
  length x = length y -> words x -> words y ->
  ult_generic x y = (value x <? value y).
Proof.
  intros Hlen Hx Hy. unfold ult_generic.
  destruct (sub_with_carry_spec x y false Hlen Hx Hy) as (Hv & Hw & Hl).
  pose proof (value_range _ Hw) as Hr. rewrite Hl in Hr.
  pose proof (value_range _ Hx). pose proof (value_range _ Hy) as Hry.
  rewrite <- Hlen in Hry.
  cbn [Z.b2z] in Hv. rewrite Z.sub_0_r in Hv.
  destruct (snd (sub_with_carry x y false)); cbn [Z.b2z] in Hv;
    destruct (Z.ltb_spec (value x) (value y)); auto; lia.
Qed.

(** ** Shifts, masks and bit-or on words, as arithmetic *)

Lemma shr64_div x s : 0 <= s -> shr64 x s = x / 2 ^ s.
Proof. intros. unfold shr64. apply Z.shiftr_div_pow2. assumption. Qed.

Lemma shl64_mul x s : 0 <= s -> shl64 x s = (x * 2 ^ s) mod B.
Proof. intros. unfold shl64. rewrite w64_mod, Z.shiftl_mul_pow2; auto. Qed.

Lemma land_mask32 x : Z.land x 4294967295 = x mod 2 ^ 32.
Proof. change 4294967295 with (Z.ones 32). apply Z.land_ones. lia. Qed.

Lemma land_disjoint h lo k :
  0 <= k -> 0 <= lo < 2 ^ k -> Z.land (h * 2 ^ k) lo = 0.
Proof.
  intros Hk Hlo. apply Z.bits_inj'. intros n Hn.
  rewrite Z.land_spec, Z.bits_0.
  destruct (Z.lt_ge_cases n k).
  - rewrite Z.mul_pow2_bits_low by assumption. reflexivity.
  - rewrite <- (Z.mod_small lo (2 ^ k)) by assumption.
    rewrite Z.mod_pow2_bits_high by lia. apply andb_false_r.
Qed.

Lemma lor_disjoint h lo k :
  0 <= k -> 0 <= lo < 2 ^ k -> Z.lor (h * 2 ^ k) lo = h * 2 ^ k + lo.
Proof.
  intros Hk Hlo. rewrite <- Z.add_lor_land, land_disjoint by assumption. lia.
Qed.

Lemma lor_word a b : word a -> word b -> word (Z.lor a b).
Proof.
  unfold word. rewrite B_pow. intros Ha Hb. split.
  - apply Z.lor_nonneg. lia.
  - destruct (Z.eq_dec (Z.lor a b) 0) as [->|Hne]; [lia|].
    apply Z.log2_lt_pow2; [pose proof (proj2 (Z.lor_nonneg a b)); lia|].
    rewrite Z.log2_lor by lia.
    destruct (Z.eq_dec a 0) as [->|Ha0]; destruct (Z.eq_dec b 0) as [->|Hb0];
      try (rewrite Z.lor_0_l in Hne || rewrite Z.lor_0_r in Hne);
      cbn [Z.log2]; try lia.
    + rewrite Z.max_r by (apply Z.log2_nonneg). apply Z.log2_lt_pow2; lia.
    + rewrite Z.max_l by (apply Z.log2_nonneg). apply Z.log2_lt_pow2; lia.
    + apply Z.max_lub_lt; apply Z.log2_lt_pow2; lia.
Qed.

Lemma land_word a b : word a -> word (Z.land a b).
Proof.
  unfold word. rewrite B_pow. intros Ha.
  assert (E : Z.land a b = Z.land a b mod 2 ^ 64).
  { rewrite <- Z.land_ones by lia.
    rewrite <- Z.land_assoc, (Z.land_comm b), Z.land_assoc.
    rewrite Z.land_ones, (Z.mod_small a) by lia. reflexivity. }
  rewrite E. apply Z.mod_pos_bound. lia.
Qed.

Lemma shr64_word x s : word x -> 0 <= s -> word (shr64 x s).
Proof.
  unfold word. intros Hx Hs. rewrite shr64_div by assumption.
  assert (0 < 2 ^ s) by (apply Z.pow_pos_nonneg; lia).
  split; [apply Z.div_pos; lia|].
  apply Z.le_lt_trans with x; [|lia].
  apply Z.div_le_upper_bound; [lia|]. nia.
Qed.

Lemma shl64_word x s : word (shl64 x s).
Proof. apply w64_range. Qed.

(** ** Widening multiplication of two words *)

Lemma umul64_spec x y :
  word x -> word y -> umul64 x y = [(x * y) mod B; (x * y) / B].
Proof.
  unfold word. rewrite B_eq. intros Hx Hy. unfold umul64.
  rewrite !land_mask32, !shr64_div, !shl64_mul, B_eq by lia.
  unfold w64. change (2 ^ 32) with 4294967296.
  change (2 ^ 64) with 18446744073709551616.
  pose proof (Z.div_mod x 4294967296 ltac:(lia)) as Ex.
  pose proof (Z.mod_pos_bound x 4294967296 ltac:(lia)) as Bx.
  pose proof (Z.div_mod y 4294967296 ltac:(lia)) as Ey.
  pose proof (Z.mod_pos_bound y 4294967296 ltac:(lia)) as By.
  set (xl := x mod 4294967296) in *. set (xh := x / 4294967296) in *.
  set (yl := y mod 4294967296) in *. set (yh := y / 4294967296) in *.
  assert (0 <= xh < 4294967296) by lia.
  assert (0 <= yh < 4294967296) by lia.
  assert (0 <= xl * yl <= 4294967295 * 4294967295) by nia.
  assert (0 <= xh * yl <= 4294967295 * 4294967295) by nia.
  assert (0 <= xl * yh <= 4294967295 * 4294967295) by nia.
  assert (0 <= xh * yh <= 4294967295 * 4294967295) by nia.
  rewrite (Z.mod_small (xl * yl)), (Z.mod_small (xh * yl)),
    (Z.mod_small (xl * yh)), (Z.mod_small (xh * yh)) by lia.
  set (t0 := xl * yl) in *. set (t1 := xh * yl) in *.
  set (t2 := xl * yh) in *. set (t3 := xh * yh) in *.
  assert (Exy : x * y = t3 * 18446744073709551616
                        + (t1 + t2) * 4294967296 + t0).
  { subst t0 t1 t2 t3. rewrite Ex, Ey. ring. }
  rewrite (Z.mod_small (t1 + t0 / 4294967296)) by
    (Z.to_euclidean_division_equations; lia).
  set (u1 := t1 + t0 / 4294967296) in *.
  assert (0 <= u1 < 18446744073709551616) by
    (subst u1; Z.to_euclidean_division_equations; lia).
  rewrite (Z.mod_small (t2 + u1 mod 4294967296)) by
    (Z.to_euclidean_division_equations; lia).
  set (u2 := t2 + u1 mod 4294967296) in *.
  assert (0 <= u2 < 18446744073709551616) by
    (subst u2; Z.to_euclidean_division_equations; lia).
  rewrite (Z.mod_small (t3 + u2 / 4294967296)) by
    (Z.to_euclidean_division_equations; lia).
  assert (Hshl : (u2 * 4294967296) mod 18446744073709551616
                 = (u2 mod 4294967296) * 4294967296)
    by (Z.to_euclidean_division_equations; lia).
  rewrite Hshl.
  change 4294967296 with (2 ^ 32) at 2.
  rewrite lor_disjoint by (try apply Z.mod_pos_bound; lia).
  change (2 ^ 32) with 4294967296.
  f_equal; [|f_equal].
  - rewrite Exy. subst u2 u1. Z.to_euclidean_division_equations; lia.
  - rewrite Exy. subst u2 u1. Z.to_euclidean_division_equations; lia.
Qed.

Lemma umul64_at0 x y : word x -> word y -> (umul64 x y)#[0] = (x * y) mod B.
Proof. intros. rewrite umul64_spec by assumption. reflexivity. Qed.

Lemma umul64_at1 x y : word x -> word y -> (umul64 x y)#[1] = (x * y) / B.
Proof. intros. rewrite umul64_spec by assumption. reflexivity. Qed.

Lemma mul_words_range x y : word x -> word y -> 0 <= x * y <= (B - 1) * (B - 1).
Proof. unfold word. intros. pose proof B_pos. nia. Qed.

Lemma umul64_words x y : word x -> word y -> words (umul64 x y).
Proof.
  intros Hx Hy. rewrite umul64_spec by assumption.
  pose proof (mul_words_range x y Hx Hy). pose proof B_pos.
  apply words_2; unfold word.
  - apply Z.mod_pos_bound. lia.
  - split; [apply Z.div_pos; lia|]. apply Z.div_lt_upper_bound; nia.
Qed.

Lemma umul64_value x y : word x -> word y -> value (umul64 x y) = x * y.
Proof.
  intros Hx Hy. rewrite umul64_spec, value_2 by assumption.
  pose proof B_pos. rewrite Z.add_comm. symmetry. apply Z.div_mod. lia.
Qed.

(** The portable product agrees with the native 128-bit one. *)
Lemma umul64_builtin_agree x y :
  word x -> word y -> umul64 x y = umul64_builtin x y.
Proof.
  intros Hx Hy. rewrite umul64_spec by assumption. unfold umul64_builtin.
  pose proof (mul_words_range x y Hx Hy) as Hr. rewrite B_eq in Hr.
  rewrite (Z.mod_small _ (2 ^ 128)) by
    (change (2 ^ 128) with (18446744073709551616 * 18446744073709551616); lia).
  rewrite Z.shiftr_div_pow2 by lia. rewrite !w64_mod, B_pow.
  f_equal. f_equal. symmetry. apply Z.mod_small.
  change (2 ^ 64) with 18446744073709551616.
  Z.to_euclidean_division_equations; lia.
Qed.

(** ** Windows of a word array *)

Lemma skipn_at (x : list Z) i :
  (i < length x)%nat -> skipn i x = x#[i] :: skipn (S i) x.
Proof.
  revert i; induction x as [|h t IH]; intros [|i] H; cbn [length] in *; try lia.
  - reflexivity.
  - cbn [skipn]. rewrite at_cons_S. apply IH. lia.
Qed.

Lemma window_0 x i : window x i 0 = [].
Proof. reflexivity. Qed.

Lemma window_S x i cnt :
  (i < length x)%nat -> window x i (S cnt) = x#[i] :: window x (S i) cnt.
Proof. intros H. unfold window. rewrite (skipn_at x i H). reflexivity. Qed.

Lemma window_length x i cnt :
  (i + cnt <= length x)%nat -> length (window x i cnt) = cnt.
Proof.
  intros H. unfold window. rewrite length_firstn, length_skipn. lia.
Qed.

Lemma words_skipn x : forall i, words x -> words (skipn i x).
Proof.
  induction x as [|h x IH]; intros [|i] H; cbn [skipn]; auto.
  apply IH. apply words_inv in H. tauto.
Qed.

Lemma words_firstn x : forall n, words x -> words (firstn n x).
Proof.
  induction x as [|h x IH]; intros [|n] H; cbn [firstn]; auto using words_nil.
  apply words_inv in H as [Hh Hx]. apply words_cons; auto.
Qed.

Lemma window_words x i cnt : words x -> words (window x i cnt).
Proof. intros H. unfold window. apply words_firstn, words_skipn, H. Qed.

Lemma window_all x : window x 0 (length x) = x.
Proof. unfold window. cbn [skipn]. apply firstn_all. Qed.

Lemma window_value_S x i cnt :
  (i < length x)%nat ->
  value (window x i (S cnt)) = x#[i] + B * value (window x (S i) cnt).
Proof. intros H. rewrite window_S by assumption. apply value_cons. Qed.

Lemma window_value_snoc x : forall cnt i,
  (i + cnt < length x)%nat ->
  value (window x i (S cnt))
  = value (window x i cnt) + x#[i + cnt] * B ^ Z.of_nat cnt.
Proof.
  induction cnt as [|cnt IH]; intros i H.
  - rewrite window_value_S by lia. rewrite !window_0. cbn [value].
    rewrite Nat.add_0_r. change (Z.of_nat 0) with 0. rewrite Z.pow_0_r. ring.
  - rewrite window_value_S by lia. rewrite IH by lia.
    rewrite (window_value_S x i cnt) by lia. rewrite Bpow_S.
    replace (S i + cnt)%nat with (i + S cnt)%nat by lia. ring.
Qed.

Lemma window_at x i cnt t :
  (t < cnt)%nat -> (window x i cnt)#[t] = x#[i + t].
Proof.
  intros H. unfold window, at_. rewrite nth_firstn.
  destruct (Nat.ltb_spec t cnt); [|lia]. rewrite nth_skipn. reflexivity.
Qed.

Lemma window_upd_before x i cnt t v :
  (t < i)%nat -> window (upd x t v) i cnt = window x i cnt.
Proof.
  revert i t cnt; induction x as [|h x IH]; intros i t cnt H.
  - reflexivity.
  - destruct i as [|i]; [lia|]. destruct t as [|t]; cbn [upd]; unfold window; cbn [skipn].
    + reflexivity.
    + apply IH. lia.
Qed.

Lemma window_upd_after x : forall i cnt t v,
  (i + cnt <= t)%nat -> window (upd x t v) i cnt = window x i cnt.
Proof.
  induction x as [|h x IH]; intros i cnt t v H.
  - reflexivity.
  - destruct t as [|t].
    + assert (cnt = 0)%nat as -> by lia. reflexivity.
    + cbn [upd]. destruct i as [|i]; unfold window; cbn [skipn].
      * destruct cnt as [|cnt]; [reflexivity|]. cbn [firstn]. f_equal.
        apply (IH 0%nat cnt t v). lia.
      * apply IH. lia.
Qed.

(** A number below [B^m] has no nonzero word from position [m] on. *)
Lemma value_small_at x : forall m t,
  words x -> value x < B ^ Z.of_nat m -> (m <= t)%nat -> x#[t] = 0.
Proof.
  induction x as [|h x IH]; intros m t Hw Hv Ht.
  - apply at_beyond. cbn [length]. lia.
  - apply words_inv in Hw as [Hh Hw]. rewrite value_cons in Hv.
    pose proof (value_range x Hw) as Hr. pose proof B_pos. unfold word in Hh.
    destruct m as [|m].
    + change (Z.of_nat 0) with 0 in Hv. rewrite Z.pow_0_r in Hv.
      assert (h = 0 /\ value x = 0) as [-> Hx0] by nia.
      destruct t as [|t]; [reflexivity|]. rewrite at_cons_S.
      apply (IH 0%nat); auto. change (Z.of_nat 0) with 0. rewrite Z.pow_0_r. lia. lia.
    + destruct t as [|t]; [lia|]. rewrite at_cons_S. apply (IH m); auto; [|lia].
      rewrite Bpow_S in Hv. pose proof (Bpow_pos m). nia.
Qed.

Lemma value_window_prefix x m :
  (m <= length x)%nat ->
  value x = value (window x 0 m) + B ^ Z.of_nat m * value (skipn m x).
Proof.
  intros H. rewrite <- (firstn_skipn m x) at 1. rewrite value_app.
  rewrite length_firstn. rewrite Nat.min_l by assumption. reflexivity.
Qed.

(** ** Multiplication *)

(** One multiply-accumulate: [umul(xi, yj) + pw + k] fits in 128 bits. *)
Lemma mac_spec xi yj pw k :
  word xi -> word yj -> word pw -> word k ->
  let t := uadd (uadd (umul64 xi yj) (of_u64 2 pw)) (of_u64 2 k) in
  t#[0] + B * t#[1] = xi * yj + pw + k /\ word t#[0] /\ word t#[1].
Proof.
  intros Hx Hy Hp Hk t.
  pose proof (umul64_words xi yj Hx Hy) as Hm.
  assert (Hml : length (umul64 xi yj) = 2%nat) by reflexivity.
  pose proof (of_u64_words 2 pw Hp) as Hpw.
  pose proof (of_u64_words 2 k Hk) as Hkw.
  assert (Hl1 : length (uadd (umul64 xi yj) (of_u64 2 pw)) = 2%nat)
    by (rewrite uadd_length; auto).
  assert (Hw1 : words (uadd (umul64 xi yj) (of_u64 2 pw)))
    by (apply uadd_words; auto).
  assert (Hl : length t = 2%nat) by (subst t; rewrite uadd_length; auto).
  assert (Hw : words t) by (subst t; apply uadd_words; auto).
  assert (Hv : value t = xi * yj + pw + k).
  { subst t. rewrite uadd_value, uadd_value by auto.
    rewrite Hl1, Hml, umul64_value, !of_u64_value by (auto; lia).
    pose proof (mul_words_range xi yj Hx Hy). unfold word in *.
    change (Z.of_nat 2) with 2. pose proof B_pos.
    rewrite (Z.mod_small (xi * yj + pw)) by nia.
    apply Z.mod_small. nia. }
  destruct t as [|a [|b [|c t']]]; cbn [length] in Hl; try discriminate.
  rewrite value_2 in Hv. apply words_inv in Hw as [Ha Hw].
  apply words_inv in Hw as [Hb _]. rewrite at_cons_0, at_cons_S, at_cons_0.
  auto.
Qed.

Lemma mul_row_S cnt i j x yj p k :
  mul_row (S cnt) i j x yj p k
  = mul_row cnt (S i) j x yj
      (upd p (i + j)
         (uadd (uadd (umul64 x#[i] yj) (of_u64 2 p#[i + j])) (of_u64 2 k))#[0])
      (uadd (uadd (umul64 x#[i] yj) (of_u64 2 p#[i + j])) (of_u64 2 k))#[1].
Proof. lazy beta iota zeta delta [mul_row]; fold mul_row. reflexivity. Qed.

Lemma mul_row_0 i j x yj p k : mul_row 0 i j x yj p k = (p, k).
Proof. reflexivity. Qed.

Lemma mul_row_spec x yj j : forall cnt i p k,
  words x -> word yj -> words p -> word k ->
  (i + cnt <= length x)%nat -> (i + j + cnt <= length p)%nat ->
  value (fst (mul_row cnt i j x yj p k))
  + snd (mul_row cnt i j x yj p k) * B ^ Z.of_nat (i + j + cnt)
    = value p + k * B ^ Z.of_nat (i + j)
      + yj * B ^ Z.of_nat (i + j) * value (window x i cnt)
  /\ words (fst (mul_row cnt i j x yj p k))
  /\ length (fst (mul_row cnt i j x yj p k)) = length p
  /\ word (snd (mul_row cnt i j x yj p k))
  /\ (forall t, (t < i + j \/ i + j + cnt <= t)%nat ->
       (fst (mul_row cnt i j x yj p k))#[t] = p#[t]).
Proof.
  induction cnt as [|cnt IH]; intros i p k Hx Hy Hp Hk Hix Hip.
  - rewrite mul_row_0. cbn [fst snd]. rewrite window_0. cbn [value].
    replace (i + j + 0)%nat with (i + j)%nat by lia.
    split_and; auto. ring.
  - rewrite mul_row_S.
    destruct (mac_spec x#[i] yj p#[i + j] k) as (Ht & Ht0 & Ht1);
      auto using at_word.
    generalize dependent (uadd (uadd (umul64 x#[i] yj) (of_u64 2 p#[i + j]))
                            (of_u64 2 k)).
    intros t Ht Ht0 Ht1.
    assert (Hp1 : words (upd p (i + j) t#[0])) by (apply words_upd; auto).
    destruct (IH (S i) (upd p (i + j) t#[0]) t#[1] Hx Hy Hp1 Ht1)
      as (Hv & Hw & Hl & Hk' & Hoth); [lia | rewrite length_upd; lia |].
    generalize dependent (mul_row cnt (S i) j x yj (upd p (i + j) t#[0]) t#[1]).
    intros r Hv Hw Hl Hk' Hoth.
    rewrite length_upd in Hl. split_and; auto.
    + replace (i + j + S cnt)%nat with (S i + j + cnt)%nat by lia.
      rewrite Hv. rewrite value_upd by lia.
      rewrite window_value_S by lia.
      replace (S i + j)%nat with (S (i + j)) by lia. rewrite Bpow_S.
      replace (t#[1] * (B * B ^ Z.of_nat (i + j)))
        with ((B * t#[1]) * B ^ Z.of_nat (i + j)) by ring.
      replace (B * t#[1]) with (x#[i] * yj + p#[i + j] + k - t#[0]) by lia.
      ring.
    + intros u Hu. rewrite Hoth by lia. apply at_upd_other. lia.
Qed.

Lemma w64_ex z : exists c, w64 z = z + c * B.
Proof.
  exists (- (z / B)). rewrite w64_mod. pose proof B_pos.
  rewrite Z.mod_eq by lia. ring.
Qed.

Lemma mod_unique_ex M r z c :
  0 <= r < M -> r = z + c * M -> r = z mod M.
Proof.
  intros Hr E. assert (0 < M) by lia.
  rewrite <- (Z.mod_small r M) by assumption. rewrite E.
  apply Z.mod_add. lia.
Qed.

Lemma w64_top_ex a b k :
  exists c, w64 (a + w64 (w64 b + k)) = a + b + k + c * B.
Proof.
  destruct (w64_ex b) as [c1 E1]. rewrite E1.
  destruct (w64_ex (b + c1 * B + k)) as [c2 E2]. rewrite E2.
  destruct (w64_ex (a + (b + c1 * B + k + c2 * B))) as [c3 E3]. rewrite E3.
  exists (c1 + c2 + c3). ring.
Qed.

Lemma mul_rows_S cnt j nw x y p :
  mul_rows (S cnt) j nw x y p
  = mul_rows cnt (S j) nw x y
      (upd (fst (mul_row (nw - j - 1) 0 j x y#[j] p 0)) (nw - 1)
         (w64 ((fst (mul_row (nw - j - 1) 0 j x y#[j] p 0))#[nw - 1]
               + w64 (w64 (x#[nw - j - 1] * y#[j])
                      + snd (mul_row (nw - j - 1) 0 j x y#[j] p 0))))).
Proof. lazy beta iota zeta delta [mul_rows]; fold mul_rows. reflexivity. Qed.

Lemma mul_rows_spec nw x y : forall cnt j p,
  words x -> words y -> words p ->
  length x = nw -> length y = nw -> length p = nw ->
  (j + cnt <= nw)%nat ->
  (exists c, value (mul_rows cnt j nw x y p)
             = value p + value x * B ^ Z.of_nat j * value (window y j cnt)
               + c * B ^ Z.of_nat nw)
  /\ words (mul_rows cnt j nw x y p)
  /\ length (mul_rows cnt j nw x y p) = nw.
Proof.
  induction cnt as [|cnt IH]; intros j p Hx Hy Hp Lx Ly Lp Hj.
  - cbn [mul_rows]. rewrite window_0. cbn [value]. split_and; auto.
    exists 0. ring.
  - rewrite mul_rows_S.
    assert (Hm1 : exists m, (nw - j - 1 = m)%nat) by eauto.
    destruct Hm1 as [m Hm1].
    assert (Hm2 : (nw - 1 = j + m)%nat) by lia.
    assert (Hm3 : (nw - j = S m)%nat) by lia.
    assert (Hm4 : nw = (j + S m)%nat) by lia.
    assert (Hm5 : (j + m < length p)%nat) by lia.
    assert (Hm6 : (j < length y)%nat) by lia.
    assert (Hm7 : (S j + cnt <= nw)%nat) by lia.
    assert (Hm8 : (0 + m < length x)%nat) by lia.
    assert (Hm9 : (0 + m <= length x)%nat) by lia.
    assert (Hm10 : (0 + j + m <= length p)%nat) by lia.
    assert (Hm11 : (S m <= length x)%nat) by lia.
    rewrite Hm1, Hm2.
    destruct (mul_row_spec x y#[j] j m 0 p 0)
      as (Hv & Hw & Hl & Hk & _); auto using at_word, word_0.
    change (0 + j + m)%nat with (j + m)%nat in Hv.
    change (0 + j)%nat with j in Hv.
    generalize dependent (mul_row m 0 j x y#[j] p 0).
    intros [p' k]. unfold fst, snd. intros Hv Hw Hl Hk.
    destruct (w64_top_ex p'#[j + m] (x#[m] * y#[j]) k) as [c1 Hc1].
    pose proof (w64_range (p'#[j + m] + w64 (w64 (x#[m] * y#[j]) + k)))
      as Htop.
    generalize dependent (w64 (p'#[j + m] + w64 (w64 (x#[m] * y#[j]) + k))).
    intros top Hc1 Htop.
    assert (Hp'' : words (upd p' (j + m) top)) by (apply words_upd; auto).
    assert (Lp'' : length (upd p' (j + m) top) = nw)
      by (rewrite length_upd; congruence).
    destruct (IH (S j) (upd p' (j + m) top) Hx Hy Hp'' Lx Ly Lp'' Hm7)
      as ((c & Hc) & Hw' & Hl').
    split_and; auto.
    pose proof (value_window_prefix x (S m) Hm11) as Hxs.
    pose proof (window_value_snoc x m 0 Hm8) as Hsn.
    change (0 + m)%nat with m in Hsn.
    rewrite window_value_S by exact Hm6.
    rewrite value_upd in Hc by (rewrite Hl; exact Hm5).
    rewrite Hm4 in *.
    rewrite !Bpow_add, !Bpow_S in *.
    exists (c + c1 - value (skipn (S m) x) * y#[j]).
    rewrite Hc, Hc1. rewrite Hsn in Hxs. rewrite Hxs.
    replace (value p') with
      (value p + 0 * B ^ Z.of_nat j
       + y#[j] * B ^ Z.of_nat j * value (window x 0 m)
       - k * (B ^ Z.of_nat j * B ^ Z.of_nat m)) by (rewrite <- Hv; ring).
    ring.
Qed.

(** The truncating product is the product reduced modulo [2^N]. *)
Lemma umul_trunc_spec x y :
  length x = length y -> words x -> words y ->
  value (umul_trunc x y) = (value x * value y) mod B ^ Z.of_nat (length x)
  /\ words (umul_trunc x y) /\ length (umul_trunc x y) = length x.
Proof.
  intros Hlen Hx Hy. unfold umul_trunc.
  destruct (mul_rows_spec (length x) x y (length x) 0 (zeros (length x)))
    as ((c & Hc) & Hw & Hl); auto using words_zeros, length_zeros.
  split_and; auto.
  assert (Hwin : window y 0 (length x) = y) by (rewrite Hlen; apply window_all).
  rewrite value_zeros, Hwin in Hc.
  change (Z.of_nat 0) with 0 in Hc. rewrite Z.pow_0_r in Hc.
  pose proof (value_range _ Hw) as Hr. rewrite Hl in Hr.
  apply mod_unique_ex with c; [exact Hr|]. rewrite Hc. ring.
Qed.

Lemma mul128_spec x y :
  length x = 2%nat -> length y = 2%nat -> words x -> words y ->
  value (mul128 x y) = (value x * value y) mod B ^ 2
  /\ words (mul128 x y) /\ length (mul128 x y) = 2%nat.
Proof.
  intros Lx Ly Hx Hy.
  destruct x as [|x0 [|x1 [|? ?]]]; try discriminate.
  destruct y as [|y0 [|y1 [|? ?]]]; try discriminate.
  apply words_inv in Hx as [Hx0 Hx]. apply words_inv in Hx as [Hx1 _].
  apply words_inv in Hy as [Hy0 Hy]. apply words_inv in Hy as [Hy1 _].
  unfold mul128. rewrite !at_cons_S, !at_cons_0.
  rewrite umul64_spec by assumption. rewrite at_cons_S, !at_cons_0.
  destruct (w64_top_ex ((x0 * y0) / B) (x0 * y1) (w64 (x1 * y0))) as [c1 E1].
  destruct (w64_ex (x1 * y0)) as [c2 E2].
  pose proof (w64_range (x0 * y0 / B + w64 (w64 (x0 * y1) + w64 (x1 * y0)))) as Hr.
  generalize dependent (w64 (x0 * y0 / B + w64 (w64 (x0 * y1) + w64 (x1 * y0)))).
  intros p1 E1 Hr. rewrite E2 in E1. clear E2.
  pose proof B_pos.
  assert (Hlo : word ((x0 * y0) mod B)) by (apply Z.mod_pos_bound; lia).
  split_and; auto using words_2.
  rewrite !value_2. pose proof (Z.div_mod (x0 * y0) B ltac:(lia)) as Ed.
  unfold word in *.
  apply mod_unique_ex with (c1 + c2 - x1 * y1); [nia|].
  rewrite E1. replace (B ^ 2) with (B * B) by ring.
  replace ((x0 * y0) mod B) with (x0 * y0 - B * (x0 * y0 / B)) by lia. ring.
Qed.

Lemma umul_rows_S cnt j nw x y p :
  umul_rows (S cnt) j nw x y p
  = umul_rows cnt (S j) nw x y
      (upd (fst (mul_row nw 0 j x y#[j] p 0)) (j + nw)
         (snd (mul_row nw 0 j x y#[j] p 0))).
Proof. lazy beta iota zeta delta [umul_rows]; fold umul_rows. reflexivity. Qed.

Lemma umul_rows_spec nw x y : forall cnt j p,
  words x -> words y -> words p ->
  length x = nw -> length y = nw -> length p = (2 * nw)%nat ->
  (j + cnt <= nw)%nat ->
  (forall t, (j + nw <= t)%nat -> p#[t] = 0) ->
  value (umul_rows cnt j nw x y p)
    = value p + value x * B ^ Z.of_nat j * value (window y j cnt)
  /\ words (umul_rows cnt j nw x y p)
  /\ length (umul_rows cnt j nw x y p) = (2 * nw)%nat.
Proof.
  induction cnt as [|cnt IH]; intros j p Hx Hy Hp Lx Ly Lp Hj Hz.
  - cbn [umul_rows]. rewrite window_0. cbn [value]. split_and; auto. ring.
  - rewrite umul_rows_S.
    assert (Hn1 : (0 + nw <= length x)%nat) by lia.
    assert (Hn2 : (0 + j + nw <= length p)%nat) by lia.
    assert (Hn3 : (j + nw < length p)%nat) by lia.
    assert (Hn4 : (j < length y)%nat) by lia.
    assert (Hn5 : (S j + cnt <= nw)%nat) by lia.
    assert (Hn6 : (j + nw <= j + nw)%nat) by lia.
    assert (Hn7 : forall t, (S j + nw <= t)%nat ->
                  (j + nw <> t /\ (t < 0 + j \/ 0 + j + nw <= t))%nat) by lia.
    destruct (mul_row_spec x y#[j] j nw 0 p 0)
      as (Hv & Hw & Hl & Hk & Hoth); auto using at_word, word_0.
    change (0 + j + nw)%nat with (j + nw)%nat in Hv.
    change (0 + j)%nat with j in Hv.
    generalize dependent (mul_row nw 0 j x y#[j] p 0).
    intros [p' k]. unfold fst, snd. intros Hv Hw Hl Hk Hoth.
    assert (Hp'' : words (upd p' (j + nw) k)) by (apply words_upd; auto).
    assert (Lp'' : length (upd p' (j + nw) k) = (2 * nw)%nat)
      by (rewrite length_upd; congruence).
    destruct (IH (S j) (upd p' (j + nw) k) Hx Hy Hp'' Lx Ly Lp'' Hn5)
      as (Hc & Hw' & Hl').
    { intros t Ht. destruct (Hn7 t Ht) as [Hne Hr].
      rewrite at_upd_other by exact Hne. rewrite Hoth by exact Hr.
      apply Hz. lia. }
    split_and; auto.
    rewrite Hc, value_upd by (rewrite Hl; exact Hn3).
    rewrite (Hoth (j + nw)%nat) by (right; exact Hn6).
    rewrite (Hz (j + nw)%nat Hn6).
    rewrite window_value_S by exact Hn4.
    assert (Hwin : window x 0 nw = x) by (rewrite <- Lx; apply window_all).
    rewrite Hwin in Hv.
    rewrite Bpow_S.
    replace (value p') with
      (value p + 0 * B ^ Z.of_nat j + y#[j] * B ^ Z.of_nat j * value x
       - k * B ^ Z.of_nat (j + nw)) by (rewrite <- Hv; ring).
    ring.
Qed.

(** The widening product is exact. *)
Lemma umul_spec x y :
  length x = length y -> words x -> words y ->
  value (umul x y) = value x * value y
  /\ words (umul x y) /\ length (umul x y) = (2 * length x)%nat.
Proof.
  intros Hlen Hx Hy. unfold umul.
  destruct (umul_rows_spec (length x) x y (length x) 0 (zeros (2 * length x)))
    as (Hc & Hw & Hl); auto using words_zeros, length_zeros.
  { intros. apply at_zeros. }
  split_and; auto.
  assert (Hwin : window y 0 (length x) = y) by (rewrite Hlen; apply window_all).
  rewrite value_zeros, Hwin in Hc.
  change (Z.of_nat 0) with 0 in Hc. rewrite Z.pow_0_r in Hc.
  rewrite Hc. ring.
Qed.

(** ** Comparisons *)

Lemma wordsb_ok l : wordsb l = true -> words l.
Proof.
  induction l as [|w l IH]; intros H.
  - apply words_nil.
  - unfold wordsb in H. cbn [forallb] in H.
    apply andb_true_iff in H as [Hw Hl].
    apply andb_true_iff in Hw as [H0 H1].
    apply words_cons; [|apply IH, Hl].
    unfold word. rewrite B_pow. lia.
Qed.

Lemma list2 (x : list Z) : length x = 2%nat -> x = [x#[0]; x#[1]].
Proof.
  destruct x as [|a [|b [|c t]]]; intros H; try discriminate. reflexivity.
Qed.

Lemma list4 (x : list Z) :
  length x = 4%nat -> x = [x#[0]; x#[1]; x#[2]; x#[3]].
Proof.
  destruct x as [|a [|b [|c [|d [|e t]]]]]; intros H; try discriminate.
  reflexivity.
Qed.

Lemma lex_ltb BB xh xl yh yl :
  0 <= xl < BB -> 0 <= yl < BB ->
  (xh <? yh) || ((xh =? yh) && (xl <? yl)) = (xl + BB * xh <? yl + BB * yh).
Proof.
  intros. destruct (Z.ltb_spec xh yh); destruct (Z.eqb_spec xh yh);
    destruct (Z.ltb_spec xl yl);
    destruct (Z.ltb_spec (xl + BB * xh) (yl + BB * yh));
    cbn [orb andb]; try reflexivity; nia.
Qed.

Lemma ult128_pair x0 x1 y0 y1 :
  word x0 -> word x1 -> word y0 -> word y1 ->
  ult128 [x0; x1] [y0; y1] = (x0 + B * x1 <? y0 + B * y1).
Proof.
  unfold word, ult128. rewrite !at_cons_S, !at_cons_0. intros.
  destruct (Z.ltb_spec x1 y1); destruct (Z.eqb_spec x1 y1);
    destruct (Z.ltb_spec x0 y0); destruct (Z.ltb_spec (x0 + B * x1) (y0 + B * y1));
    cbn [orb andb]; try reflexivity; nia.
Qed.

Lemma ult128_spec x y :
  length x = 2%nat -> length y = 2%nat -> words x -> words y ->
  ult128 x y = (value x <? value y).
Proof.
  intros Lx Ly Hx Hy. rewrite (list2 x Lx), (list2 y Ly).
  rewrite !value_2. apply ult128_pair; apply at_word; assumption.
Qed.

Lemma ueq128_pair x0 x1 y0 y1 :
  word x0 -> word x1 -> word y0 -> word y1 ->
  ueq128 [x0; x1] [y0; y1] = (x0 + B * x1 =? y0 + B * y1).
Proof.
  unfold word, ueq128. rewrite !at_cons_S, !at_cons_0. intros.
  destruct (Z.eqb_spec x1 y1); destruct (Z.eqb_spec x0 y0);
    destruct (Z.eqb_spec (x0 + B * x1) (y0 + B * y1));
    cbn [andb]; try reflexivity; nia.
Qed.

Lemma ueq128_spec x y :
  length x = 2%nat -> length y = 2%nat -> words x -> words y ->
  ueq128 x y = (value x =? value y).
Proof.
  intros Lx Ly Hx Hy. rewrite (list2 x Lx), (list2 y Ly).
  rewrite !value_2. apply ueq128_pair; apply at_word; assumption.
Qed.

Lemma ult128_builtin_spec x y :
  length x = 2%nat -> length y = 2%nat -> words x -> words y ->
  ult128_builtin x y = (value x <? value y).
Proof.
  intros Lx Ly Hx Hy.
  destruct x as [|x0 [|x1 [|? ?]]]; try discriminate.
  destruct y as [|y0 [|y1 [|? ?]]]; try discriminate.
  apply words_inv in Hx as [Hx0 Hx]. apply words_inv in Hx as [Hx1 _].
  apply words_inv in Hy as [Hy0 Hy]. apply words_inv in Hy as [Hy1 _].
  unfold ult128_builtin. rewrite !at_cons_S, !at_cons_0, !value_2.
  unfold word in *. rewrite B_pow in *.
  rewrite !Z.shiftl_mul_pow2, !lor_disjoint by lia.
  f_equal; ring.
Qed.

Lemma ult256_spec x y :
  length x = 4%nat -> length y = 4%nat -> words x -> words y ->
  ult256 x y = (value x <? value y).
Proof.
  intros Lx Ly Hx Hy.
  destruct x as [|x0 [|x1 [|x2 [|x3 [|? ?]]]]]; try discriminate.
  destruct y as [|y0 [|y1 [|y2 [|y3 [|? ?]]]]]; try discriminate.
  apply words_inv in Hx as [Hx0 Hx]. apply words_inv in Hx as [Hx1 Hx].
  apply words_inv in Hx as [Hx2 Hx]. apply words_inv in Hx as [Hx3 _].
  apply words_inv in Hy as [Hy0 Hy]. apply words_inv in Hy as [Hy1 Hy].
  apply words_inv in Hy as [Hy2 Hy]. apply words_inv in Hy as [Hy3 _].
  unfold ult256. rewrite !at_cons_S, !at_cons_0.
  rewrite !ult128_pair, ueq128_pair by assumption.
  rewrite !value_cons. cbn [value].
  unfold word in *. pose proof B_pos.
  assert (0 <= y2 + B * y3 < B * B) by nia.
  assert (0 <= x2 + B * x3 < B * B) by nia.
  assert (0 <= y0 + B * y1 < B * B) by nia.
  assert (0 <= x0 + B * x1 < B * B) by nia.
  rewrite !Z.mul_0_r, !Z.add_0_r.
  replace (x0 + B * (x1 + B * (x2 + B * x3)))
    with ((x0 + B * x1) + (B * B) * (x2 + B * x3)) by ring.
  replace (y0 + B * (y1 + B * (y2 + B * y3)))
    with ((y0 + B * y1) + (B * B) * (y2 + B * y3)) by ring.
  apply lex_ltb; assumption.
Qed.

(** [operator<], whichever overload is selected, is the order of the
    denoted numbers. *)
Lemma ult_spec x y :
  length x = length y -> words x -> words y ->
  ult x y = (value x <? value y).
Proof.
  intros Hlen Hx Hy. unfold ult.
  destruct (length x) as [|[|[|[|[|[|n]]]]]] eqn:E;
    try (apply ult_generic_spec; congruence).
  - apply ult128_spec; congruence.
  - apply ult256_spec; congruence.
Qed.

(** ** Wrap-around arithmetic and ordering *)

Lemma umult_spec x y :
  length x = length y -> words x -> words y ->
  value (umult x y) = (value x * value y) mod B ^ Z.of_nat (length x)
  /\ words (umult x y) /\ length (umult x y) = length x.
Proof.
  intros Hlen Hx Hy. unfold umult.
  pose proof (umul_trunc_spec x y Hlen Hx Hy) as Ht.
  destruct (length x) as [|[|[|n]]] eqn:E; try exact Ht.
  change (Z.of_nat 2) with 2. apply mul128_spec; congruence.
Qed.

Lemma ones_words n : words (ones n).
Proof.
  induction n; [apply words_nil|]. change (ones (S n)) with ((2 ^ 64 - 1) :: ones n).
  apply words_cons; auto. unfold word. rewrite B_pow. lia.
Qed.

Lemma ones_value n : value (ones n) = B ^ Z.of_nat n - 1.
Proof.
  induction n.
  - reflexivity.
  - change (ones (S n)) with ((2 ^ 64 - 1) :: ones n).
    rewrite value_cons, IHn, Bpow_S, B_pow. ring.
Qed.

Lemma ones_length n : length (ones n) = n.
Proof. apply repeat_length. Qed.

Lemma ones_plus_one n : uadd (ones n) (of_u64 n 1) = zeros n.
Proof.
  destruct n as [|n]; [reflexivity|].
  assert (H1 : word 1) by (unfold word; rewrite B_eq; lia).
  apply value_inj.
  - rewrite uadd_length, ones_length, length_zeros;
      auto using ones_words, of_u64_words.
    rewrite ones_length, of_u64_length. reflexivity.
  - apply uadd_words; auto using ones_words, of_u64_words.
    rewrite ones_length, of_u64_length. reflexivity.
  - apply words_zeros.
  - rewrite uadd_value; auto using ones_words, of_u64_words.
    + rewrite ones_value, of_u64_value, value_zeros, ones_length by lia.
      replace (B ^ Z.of_nat (S n) - 1 + 1) with (B ^ Z.of_nat (S n)) by ring.
      apply Z.mod_same. pose proof (Bpow_pos (S n)). lia.
    + rewrite ones_length, of_u64_length. reflexivity.
Qed.

(** C3.  For every width and all values [x], [y] of that width, [x + y],
    [x - y] and [x * y] are total and denote the exact sum, difference and
    product reduced modulo [2^N]; the results are again values of the
    width, and the all-ones value plus one is zero. *)
Theorem arithmetic_wraps_modulo_width (x y : list Z) :
  length x = length y -> words x -> words y ->
  let N := 64 * Z.of_nat (length x) in
  value (uadd x y) = (value x + value y) mod 2 ^ N
  /\ value (usub x y) = (value x - value y) mod 2 ^ N
  /\ value (umult x y) = (value x * value y) mod 2 ^ N
  /\ (words (uadd x y) /\ length (uadd x y) = length x)
  /\ (words (usub x y) /\ length (usub x y) = length x)
  /\ (words (umult x y) /\ length (umult x y) = length x)
  /\ uadd (ones (length x)) (of_u64 (length x) 1) = zeros (length x).
Proof.
  intros Hlen Hx Hy N. subst N. rewrite <- Bpow_two.
  destruct (umult_spec x y Hlen Hx Hy) as (Hm & Hmw & Hml).
  split_and; auto using uadd_value, usub_value, uadd_words, usub_words,
    uadd_length, usub_length, ones_plus_one.
Qed.

Lemma arithmetic_wraps_modulo_width_witness :
  let x := [2 ^ 64 - 1; 2 ^ 64 - 1; 2 ^ 64 - 1; 2 ^ 64 - 1] in
  let y := [5; 0; 0; 7] in
  value (uadd x y) = (value x + value y) mod 2 ^ 256
  /\ value (usub x y) = (value x - value y) mod 2 ^ 256
  /\ value (umult x y) = (value x * value y) mod 2 ^ 256.
Proof.
  intros x y.
  destruct (arithmetic_wraps_modulo_width x y) as (Ha & Hs & Hm & _).
  - reflexivity.
  - apply wordsb_ok. vm_compute. reflexivity.
  - apply wordsb_ok. vm_compute. reflexivity.
  - split; [exact Ha | split; [exact Hs | exact Hm]].
Defined.

(** C8.  [x < y] is the borrow of the subtraction [x - y]; the borrow is
    set exactly when the number [x] denotes is below the number [y]
    denotes; the [uint128] comparisons (portable and native) and the
    [uint256] comparison by halves return the same boolean. *)
Theorem less_than_is_borrow (x y : list Z) :
  length x = length y -> words x -> words y ->
  ult_generic x y = snd (sub_with_carry x y false)
  /\ snd (sub_with_carry x y false) = (value x <? value y)
  /\ ult x y = snd (sub_with_carry x y false)
  /\ (length x = 2%nat ->
      ult128 x y = snd (sub_with_carry x y false)
      /\ ult128_builtin x y = snd (sub_with_carry x y false))
  /\ (length x = 4%nat -> ult256 x y = snd (sub_with_carry x y false)).
Proof.
  intros Hlen Hx Hy.
  pose proof (ult_generic_spec x y Hlen Hx Hy) as Hg. unfold ult_generic in Hg.
  split_and; auto.
  - rewrite Hg. apply ult_spec; assumption.
  - intros L. rewrite Hg. split.
    + apply ult128_spec; congruence.
    + apply ult128_builtin_spec; congruence.
  - intros L. rewrite Hg. apply ult256_spec; congruence.
Qed.

Lemma less_than_is_borrow_witness :
  let x := [7; 0; 0; 1] in
  let y := [3; 0; 0; 2] in
  ult256 x y = snd (sub_with_carry x y false)
  /\ snd (sub_with_carry x y false) = (value x <? value y).
Proof.
  intros x y.
  destruct (less_than_is_borrow x y) as (_ & Hb & _ & _ & H4).
  - reflexivity.
  - apply wordsb_ok. vm_compute. reflexivity.
  - apply wordsb_ok. vm_compute. reflexivity.
  - split; [apply H4; reflexivity | exact Hb].
Defined.

(** ** Shifts beyond the width *)

Lemma width_bits nw : Z.of_nat (64 * nw) = 64 * Z.of_nat nw.
Proof. rewrite Nat2Z.inj_mul. reflexivity. Qed.

Lemma shl128_beyond x s : 128 <= s -> shl128 x s = zeros 2.
Proof.
  intros H. unfold shl128.
  destruct (Z.ltb_spec s 64); [lia|]. destruct (Z.ltb_spec s 128); [lia|].
  reflexivity.
Qed.

Lemma shr128_beyond x s : 128 <= s -> shr128 x s = zeros 2.
Proof.
  intros H. unfold shr128.
  destruct (Z.ltb_spec s 64); [lia|]. destruct (Z.ltb_spec s 128); [lia|].
  reflexivity.
Qed.

Lemma shl256_beyond x s : 256 <= s -> shl256 x s = zeros 4.
Proof.
  intros H. unfold shl256. destruct (Z.leb_spec 256 s); [reflexivity | lia].
Qed.

Lemma shr256_beyond x s : 256 <= s -> shr256 x s = zeros 4.
Proof.
  intros H. unfold shr256. destruct (Z.leb_spec 256 s); [reflexivity | lia].
Qed.

Lemma shl_generic_beyond x s :
  64 * Z.of_nat (length x) <= s -> shl_generic x s = zeros (length x).
Proof.
  intros H. unfold shl_generic. rewrite width_bits.
  destruct (Z.leb_spec (64 * Z.of_nat (length x)) s); [apply of_u64_0 | lia].
Qed.

Lemma shr_generic_beyond x s :
  64 * Z.of_nat (length x) <= s -> shr_generic x s = zeros (length x).
Proof.
  intros H. unfold shr_generic. rewrite width_bits.
  destruct (Z.leb_spec (64 * Z.of_nat (length x)) s); [apply of_u64_0 | lia].
Qed.

Lemma ushl_beyond x s :
  64 * Z.of_nat (length x) <= s -> ushl x s = zeros (length x).
Proof.
  intros H. unfold ushl. pose proof (shl_generic_beyond x s H) as Hg.
  destruct (length x) as [|[|[|[|[|n]]]]] eqn:E; try exact Hg.
  - apply shl128_beyond. lia.
  - apply shl256_beyond. lia.
Qed.

Lemma ushr_beyond x s :
  64 * Z.of_nat (length x) <= s -> ushr x s = zeros (length x).
Proof.
  intros H. unfold ushr. pose proof (shr_generic_beyond x s H) as Hg.
  destruct (length x) as [|[|[|[|[|n]]]]] eqn:E; try exact Hg.
  - apply shr128_beyond. lia.
  - apply shr256_beyond. lia.
Qed.

Lemma fold_lor_zero l : forall a,
  fold_left Z.lor l a = 0 <-> a = 0 /\ Forall (fun w => w = 0) l.
Proof.
  induction l as [|w l IH]; intros a; cbn [fold_left].
  - split; [intros ->; auto | tauto].
  - rewrite IH, Z.lor_eq_0_iff. split.
    + intros [[Ha Hw] Hl]. auto.
    + intros [Ha Hl]. inversion Hl; subst. auto.
Qed.

Lemma high_words_fold_zero sh :
  high_words_fold sh = 0 <-> forall i, (1 <= i)%nat -> sh#[i] = 0.
Proof.
  unfold high_words_fold. rewrite fold_lor_zero. split.
  - intros [_ Hl] i Hi. destruct sh as [|w sh]; [apply at_beyond; cbn; lia|].
    cbn [tl] in Hl. destruct i as [|i]; [lia|]. rewrite at_cons_S.
    clear Hi. revert i. induction Hl as [|h t Hh Ht IH]; intros i.
    + apply at_beyond. cbn. lia.
    + destruct i; [exact Hh | apply IH].
  - intros H. split; [reflexivity|].
    destruct sh as [|w sh]; cbn [tl]; [constructor|].
    assert (H' : forall i, sh#[i] = 0) by (intros i; apply (H (S i)); lia).
    clear H. induction sh as [|h t IH]; constructor.
    + apply (H' 0%nat).
    + apply IH. intros i. apply (H' (S i)).
Qed.

Lemma value_low_word sh :
  (forall i, (1 <= i)%nat -> sh#[i] = 0) -> value sh = sh#[0].
Proof.
  destruct sh as [|w sh]; intros H; [reflexivity|].
  rewrite value_cons, at_cons_0.
  assert (H' : forall i, sh#[i] = 0) by (intros i; apply (H (S i)); lia).
  assert (value sh = 0) as ->; [|ring].
  clear H. induction sh as [|h t IH]; [reflexivity|].
  rewrite value_cons, IH, (H' 0%nat : h = 0); [ring|].
  intros i. apply (H' (S i)).
Qed.

Lemma ushl_wide_high x sh i :
  length sh = length x -> (1 <= i)%nat -> sh#[i] <> 0 ->
  ushl_wide x sh = zeros (length x) /\ ushr_wide x sh = zeros (length x).
Proof.
  intros Hlen Hi Hne. unfold ushl_wide, ushr_wide.
  assert (Hf : high_words_fold sh <> 0).
  { intros Hz. apply Hne. apply high_words_fold_zero; assumption. }
  apply Z.eqb_neq in Hf.
  destruct (length x) as [|[|[|n]]] eqn:E; rewrite ?Hf; cbn [negb];
    rewrite ?of_u64_0; auto.
  assert (i = 1%nat) as ->.
  { destruct (Nat.le_gt_cases 2 i); [|lia].
    exfalso. apply Hne. apply at_beyond. lia. }
  apply Z.eqb_neq in Hne. rewrite Hne. cbn [negb]. auto.
Qed.

Lemma ushl_wide_large x sh :
  length sh = length x -> words sh ->
  64 * Z.of_nat (length x) <= value sh ->
  ushl_wide x sh = zeros (length x) /\ ushr_wide x sh = zeros (length x).
Proof.
  intros Hlen Hw Hv.
  destruct (Z.eq_dec (high_words_fold sh) 0) as [Hz|Hnz].
  - pose proof (proj1 (high_words_fold_zero sh) Hz) as Hall.
    rewrite (value_low_word sh Hall) in Hv.
    pose proof (ushl_beyond x _ Hv) as Hl. pose proof (ushr_beyond x _ Hv) as Hr.
    unfold ushl_wide, ushr_wide. rewrite Hz. cbn [Z.eqb negb].
    rewrite (Hall 1%nat) by lia. cbn [Z.eqb negb].
    unfold ushl in Hl. unfold ushr in Hr.
    destruct (length x) as [|[|[|n]]] eqn:E;
      unfold ushl, ushr; rewrite ?E; auto.
  - assert (exists i, (1 <= i)%nat /\ sh#[i] <> 0) as (i & Hi & Hne).
    { destruct sh as [|w sh]; [exfalso; apply Hnz; reflexivity|].
      unfold high_words_fold in Hnz. cbn [tl] in Hnz.
      assert (~ Forall (fun w => w = 0) sh) as Hnf.
      { intros Hf. apply Hnz. apply fold_lor_zero. auto. }
      rewrite <- Exists_Forall_neg in Hnf by (intros; apply Z.eq_dec || lia).
      apply Exists_exists in Hnf as (z & Hin & Hz).
      apply (In_nth _ _ 0) in Hin as (k & Hk & Ek).
      exists (S k). split; [lia|]. rewrite at_cons_S. unfold at_. congruence. }
    apply (ushl_wide_high x sh i); assumption.
Qed.

(** C5.  A shift by [s >= N] bits yields zero, to the left and to the
    right, for every width; so does a shift by a [uint<N>] amount one of
    whose words above word 0 is nonzero, and more generally by any
    [uint<N>] amount that denotes a number [>= N]. *)
Theorem shift_beyond_width_is_zero (x sh : list Z) (s : Z) :
  let N := 64 * Z.of_nat (length x) in
  (N <= s -> ushl x s = zeros (length x) /\ ushr x s = zeros (length x))
  /\ (length sh = length x ->
      (exists i, (1 <= i)%nat /\ sh#[i] <> 0) ->
      ushl_wide x sh = zeros (length x) /\ ushr_wide x sh = zeros (length x))
  /\ (length sh = length x -> words sh -> N <= value sh ->
      ushl_wide x sh = zeros (length x) /\ ushr_wide x sh = zeros (length x)).
Proof.
  intros N. subst N. split_and.
  - intros H. split; [apply ushl_beyond | apply ushr_beyond]; assumption.
  - intros Hlen (i & Hi & Hne). apply (ushl_wide_high x sh i); assumption.
  - apply ushl_wide_large.
Qed.

Lemma shift_beyond_width_is_zero_witness :
  (ushl [1; 2; 3; 4] 256 = zeros 4 /\ ushr [1; 2; 3; 4] 256 = zeros 4)
  /\ (ushl_wide [1; 2; 3] [0; 1; 0] = zeros 3
      /\ ushr_wide [1; 2; 3] [0; 1; 0] = zeros 3)
  /\ (ushl_wide [1; 2] [128; 0] = zeros 2 /\ ushr_wide [1; 2] [128; 0] = zeros 2).
Proof.
  split; [|split].
  - destruct (shift_beyond_width_is_zero [1; 2; 3; 4] [] 256) as (H & _ & _).
    apply H. vm_compute. discriminate.
  - destruct (shift_beyond_width_is_zero [1; 2; 3] [0; 1; 0] 0) as (_ & H & _).
    apply H.
    + reflexivity.
    + exists 1%nat. split; [lia | discriminate].
  - destruct (shift_beyond_width_is_zero [1; 2] [128; 0] 0) as (_ & _ & H).
    apply H.
    + reflexivity.
    + apply wordsb_ok. vm_compute. reflexivity.
    + vm_compute. discriminate.
Defined.

(** ** Text conversion on concrete inputs *)

(** C6.  The 78-digit decimal text of [2 * 10^77] denotes a number above
    [2^256 - 1]; [from_string<uint256>] neither rejects it by the digit
    count (78 digits are admitted) nor by the wrap-around test (the wrapped
    accumulator is not below the last digit), and returns the number
    reduced modulo [2^256]. *)
Theorem from_string_overflow_undetected :
  let s := "200000000000000000000000000000000000000000000000000000000000000000000000000000"%string in
  let n := 2 * 10 ^ 77 in
  2 ^ 256 <= n
  /\ from_string 4 s
     = inr [0; 6138677720611373056; 10654986127358246269; 13415094148939493924]
  /\ value [0; 6138677720611373056; 10654986127358246269; 13415094148939493924]
     = n mod 2 ^ 256
  /\ n mod 2 ^ 256 <> n.
Proof.
  intros s n. subst s n. split; [|split; [|split]].
  - vm_compute. discriminate.
  - vm_compute. reflexivity.
  - vm_compute. reflexivity.
  - vm_compute. discriminate.
Qed.

(** C7, as stated, fails for base 16: [to_string] writes no prefix, and
    [from_string] reads text without the [0x] prefix as decimal. *)
Lemma hex_round_trip_counterexample :
  let x := [255; 0; 0; 0] in
  to_string 256 0 x 16 = Some (inr "ff"%string)
  /\ from_string 4 "ff" = inl invalid_argument
  /\ to_string 256 0 [16; 0; 0; 0] 16 = Some (inr "10"%string)
  /\ from_string 4 "10" = inr [10; 0; 0; 0].
Proof. vm_compute. repeat split. Qed.

(** C4, as stated, fails when both operands have the same number of
    significant words: 10 / 3 on [uint256]. *)
Lemma equal_word_counts_counterexample :
  let u := [10; 0; 0; 0] in
  let v := [3; 0; 0; 0] in
  trim_words u 4 = 1%nat /\ trim_words v 4 = 1%nat
  /\ udivrem 0 u v = ([3; 0; 0; 0], [1; 0; 0; 0]).
Proof. vm_compute. repeat split. Qed.

(** ** The reciprocal of a normalized word

    The error of each refinement step of [reciprocal_2by1] is bounded in
    turn; the last step then rounds to the exact reciprocal. *)

Lemma recip_table_entry d9 :
  256 <= d9 <= 511 ->
  nth (Z.to_nat (d9 - 256)) reciprocal_table 0 = 523520 / d9.
Proof.
  intros H.
  assert (Hall : forallb (fun i =>
            nth i reciprocal_table 0 =? 523520 / (256 + Z.of_nat i))
          (seq 0 256) = true) by (vm_compute; reflexivity).
  rewrite forallb_forall in Hall.
  specialize (Hall (Z.to_nat (d9 - 256))).
  rewrite in_seq in Hall. apply Z.eqb_eq in Hall; [|lia].
  rewrite Hall. f_equal. lia.
Qed.

(** The seed: [v0 * d40] is close to [2^50]. *)
Lemma recip_seed d9 d40 v0 :
  256 <= d9 <= 511 ->
  d9 * 2 ^ 31 + 1 <= d40 <= (d9 + 1) * 2 ^ 31 ->
  v0 = 523520 / d9 ->
  1023 <= v0 <= 2045
  /\ - (1277 * 2 ^ 31) <= 2 ^ 50 - v0 * d40 < 1279 * 2 ^ 31.
Proof.
  intros Hd9 Hd40 ->.
  pose proof (Z.div_mod 523520 d9 ltac:(lia)) as E.
  pose proof (Z.mod_pos_bound 523520 d9 ltac:(lia)) as Hr.
  generalize dependent (523520 mod d9). generalize dependent (523520 / d9).
  intros v0 r E Hr.
  assert (Hv0 : 1023 <= v0 <= 2045) by nia.
  split; [exact Hv0|].
  change (2 ^ 31) with 2147483648 in *. change (2 ^ 50) with 1125899906842624.
  split; nia.
Qed.

(** First refinement: [v1 * d40] is just below [2^60]. *)
Lemma recip_step1 d40 v0 v1 :
  2 ^ 39 < d40 <= 2 ^ 40 ->
  1023 <= v0 <= 2045 ->
  - (1277 * 2 ^ 31) <= 2 ^ 50 - v0 * d40 < 1279 * 2 ^ 31 ->
  v1 = 2 ^ 11 * v0 - (v0 * v0 * d40) / 2 ^ 40 - 1 ->
  0 < 2 ^ 60 - v1 * d40 < 1897985 * 2 ^ 22 /\ 0 < v1 < 2 ^ 21.
Proof.
  intros Hd40 Hv0 HX ->.
  pose proof (Z.div_mod (v0 * v0 * d40) (2 ^ 40) ltac:(lia)) as E.
  pose proof (Z.mod_pos_bound (v0 * v0 * d40) (2 ^ 40) ltac:(lia)) as Hr.
  generalize dependent ((v0 * v0 * d40) mod 2 ^ 40).
  generalize dependent ((v0 * v0 * d40) / 2 ^ 40).
  intros t1 r1 E Hr.
  set (X := 2 ^ 50 - v0 * d40) in *.
  assert (HXX : 0 <= X * X < 1279 * 2 ^ 31 * (1279 * 2 ^ 31)) by nia.
  assert (Hkey : 2 ^ 40 * (2 ^ 60 - (2 ^ 11 * v0 - t1 - 1) * d40)
                 = X * X + (2 ^ 40 - r1) * d40).
  { subst X. replace (2 ^ 40 * (2 ^ 60 - (2 ^ 11 * v0 - t1 - 1) * d40))
      with (2 ^ 100 - 2 ^ 51 * (v0 * d40) + (2 ^ 40 * t1) * d40 + 2 ^ 40 * d40)
      by ring.
    replace (2 ^ 40 * t1) with (v0 * v0 * d40 - r1) by lia. ring. }
  generalize dependent (X * X). intros XX HXX Hkey.
  generalize dependent (2 ^ 11 * v0 - t1 - 1). intros v1 Hkey.
  assert (He : 0 < 2 ^ 60 - v1 * d40 < 1897985 * 2 ^ 22)
    by (clear - Hkey HXX Hr Hd40; nia).
  split; [exact He|]. nia.
Qed.

(** Second refinement: [v2 * d40] is just below [2^73]. *)
Lemma recip_step2 d40 v1 v2 :
  2 ^ 39 < d40 <= 2 ^ 40 ->
  0 < 2 ^ 60 - v1 * d40 < 1897985 * 2 ^ 22 -> 0 < v1 < 2 ^ 21 ->
  v2 = 2 ^ 13 * v1 + (v1 * (2 ^ 60 - v1 * d40)) / 2 ^ 47 ->
  0 < 2 ^ 73 - v2 * d40
  /\ 8 * (2 ^ 73 - v2 * d40) < 1897985 * 1897985 + 8 * d40
  /\ 0 < v2 < 2 ^ 34.
Proof.
  intros Hd40 He1 Hv1 ->.
  set (e1 := 2 ^ 60 - v1 * d40) in *.
  pose proof (Z.div_mod (v1 * e1) (2 ^ 47) ltac:(lia)) as E.
  pose proof (Z.mod_pos_bound (v1 * e1) (2 ^ 47) ltac:(lia)) as Hr.
  generalize dependent ((v1 * e1) mod 2 ^ 47).
  generalize dependent ((v1 * e1) / 2 ^ 47).
  intros t2 r2 E Hr.
  assert (Hkey : 2 ^ 47 * (2 ^ 73 - (2 ^ 13 * v1 + t2) * d40)
                 = e1 * e1 + r2 * d40).
  { replace (2 ^ 47 * (2 ^ 73 - (2 ^ 13 * v1 + t2) * d40))
      with (2 ^ 120 - 2 ^ 60 * (v1 * d40) - (2 ^ 47 * t2) * d40) by ring.
    replace (2 ^ 47 * t2) with (v1 * e1 - r2) by lia.
    unfold e1. ring. }
  assert (Hee : 0 < e1 * e1 < 1897985 * 2 ^ 22 * (1897985 * 2 ^ 22)) by nia.
  clearbody e1.
  generalize dependent (e1 * e1). intros ee Hkey Hee.
  generalize dependent (2 ^ 13 * v1 + t2). intros v2 Hkey.
  assert (0 <= r2 * d40 < 2 ^ 47 * d40) by nia.
  assert (He2 : 0 < 2 ^ 73 - v2 * d40) by lia.
  split; [exact He2|]. split; [lia|]. nia.
Qed.

(** The residual [e] of the third refinement. *)
Lemma recip_residual d d40 v2 e :
  2 ^ 63 <= d < 2 ^ 64 ->
  d40 = d / 2 ^ 24 + 1 ->
  0 < 2 ^ 73 - v2 * d40 ->
  8 * (2 ^ 73 - v2 * d40) < 1897985 * 1897985 + 8 * d40 ->
  0 < v2 < 2 ^ 34 ->
  e = 2 ^ 96 - v2 * (d / 2 + d mod 2) + (v2 / 2) * (d mod 2) ->
  exists c, 0 <= c <= 1 /\ 2 * e = 2 ^ 97 - v2 * d - c
            /\ 0 < e /\ 2 * e < 7842899718213468160 + d.
Proof.
  intros Hd -> He2 He2' Hv2 ->.
  pose proof (Z.div_mod d 2 ltac:(lia)) as Ed.
  pose proof (Z.mod_pos_bound d 2 ltac:(lia)) as Hd0.
  pose proof (Z.div_mod v2 2 ltac:(lia)) as Ev.
  pose proof (Z.mod_pos_bound v2 2 ltac:(lia)) as Hv0.
  pose proof (Z.div_mod d (2 ^ 24) ltac:(lia)) as Ed24.
  pose proof (Z.mod_pos_bound d (2 ^ 24) ltac:(lia)) as Hd24.
  generalize dependent (d mod 2 ^ 24). generalize dependent (d / 2 ^ 24).
  intros dh He2 He2' dl Ed24 Hd24.
  generalize dependent (d mod 2). generalize dependent (d / 2).
  intros d63 d0 Ed Hd0.
  generalize dependent (v2 mod 2). generalize dependent (v2 / 2).
  intros vh vl Ev Hvl.
  exists (d0 * vl).
  assert (Hc : 0 <= d0 * vl <= 1) by nia.
  assert (E2 : 2 * (2 ^ 96 - v2 * (d63 + d0) + vh * d0)
               = 2 ^ 97 - v2 * d - d0 * vl).
  { rewrite Ed, Ev. ring. }
  split; [exact Hc|]. split; [exact E2|].
  rewrite E2.
  assert (Ev2d : 2 ^ 97 - v2 * d
                 = 2 ^ 24 * (2 ^ 73 - v2 * (dh + 1)) + v2 * (2 ^ 24 - dl)).
  { rewrite Ed24. ring. }
  generalize dependent (2 ^ 73 - v2 * (dh + 1)). intros e2 He2 He2' Ev2d.
  assert (0 < v2 * (2 ^ 24 - dl) <= 2 ^ 34 * 2 ^ 24) by (clear - Hv2 Hd24; nia).
  generalize dependent (v2 * (2 ^ 24 - dl)). intros.
  clear E2. split; lia.
Qed.

(** Third refinement: [V3 * d] is below [2^128] by at most [2 * d]. *)
Lemma recip_step3 d v2 e c V3 :
  2 ^ 63 <= d < 2 ^ 64 ->
  0 <= c <= 1 -> 2 * e = 2 ^ 97 - v2 * d - c ->
  0 < e -> 2 * e < 7842899718213468160 + d ->
  0 < v2 ->
  V3 = 2 ^ 31 * v2 + (v2 * e) / 2 ^ 65 ->
  0 < 2 ^ 128 - V3 * d <= 2 * d.
Proof.
  intros Hd Hc E2 He He' Hv2 ->.
  pose proof (Z.div_mod (v2 * e) (2 ^ 65) ltac:(lia)) as E.
  pose proof (Z.mod_pos_bound (v2 * e) (2 ^ 65) ltac:(lia)) as Hr.
  generalize dependent ((v2 * e) mod 2 ^ 65).
  generalize dependent ((v2 * e) / 2 ^ 65).
  intros t3 r3 E Hr.
  assert (Hkey : 2 ^ 65 * (2 ^ 128 - (2 ^ 31 * v2 + t3) * d)
                 = 2 * (e * e) + c * (2 ^ 96 + e) + r3 * d).
  { replace (2 ^ 65 * (2 ^ 128 - (2 ^ 31 * v2 + t3) * d))
      with (2 ^ 193 - 2 ^ 96 * (v2 * d) - (2 ^ 65 * t3) * d) by ring.
    replace (2 ^ 65 * t3) with (v2 * e - r3) by lia.
    replace (2 ^ 193 - 2 ^ 96 * (v2 * d) - (v2 * e - r3) * d)
      with (2 ^ 193 - (v2 * d) * (2 ^ 96 + e) + r3 * d) by ring.
    replace (v2 * d) with (2 ^ 97 - 2 * e - c) by lia. ring. }
  generalize dependent (2 ^ 31 * v2 + t3). intros V3 Hkey.
  assert (Hee : 0 < 4 * (e * e)
                < (7842899718213468160 + d) * (7842899718213468160 + d))
    by (clear - He He'; nia).
  assert (Hg : (7842899718213468160 + d) * (7842899718213468160 + d)
               + 2 ^ 97 + 7842899718213468160 + d <= 2 ^ 66 * d + 2 * d).
  { assert (0 <= (d - 2 ^ 63) * (2 ^ 64 - d)) by nia. nia. }
  assert (Hrd : 0 <= r3 * d <= (2 ^ 65 - 1) * d) by (clear - Hr Hd; nia).
  assert (Hce : 0 <= c * (2 ^ 96 + e) <= 2 ^ 96 + e) by (clear - Hc He; nia).
  generalize dependent (e * e). generalize dependent (r3 * d).
  generalize dependent (c * (2 ^ 96 + e)). intros. lia.
Qed.

(** The final adjustment rounds to the exact reciprocal. *)
Lemma recip_adjust d V3 :
  2 ^ 63 <= d < 2 ^ 64 ->
  0 < 2 ^ 128 - V3 * d <= 2 * d ->
  (V3 mod 2 ^ 64 - ((V3 mod 2 ^ 64 + 1) * d) / 2 ^ 64 - d) mod 2 ^ 64
  = (2 ^ 128 - 1) / d - 2 ^ 64.
Proof.
  intros Hd Hrho.
  assert (HV3 : 2 ^ 64 <= V3 < 2 ^ 65) by nia.
  assert (Hv3 : V3 mod 2 ^ 64 = V3 - 2 ^ 64).
  { symmetry. apply Z.mod_unique_pos with 1; lia. }
  rewrite Hv3.
  destruct (Z.le_gt_cases (2 ^ 128 - V3 * d) d) as [Hle|Hgt].
  - assert (Hhi : ((V3 - 2 ^ 64 + 1) * d) / 2 ^ 64 = 2 ^ 64 - d).
    { symmetry. apply Z.div_unique_pos with (d - (2 ^ 128 - V3 * d)); [lia|].
      ring. }
    assert (HT : (2 ^ 128 - 1) / d = V3).
    { symmetry. apply Z.div_unique_pos with (2 ^ 128 - V3 * d - 1); [lia|].
      ring. }
    rewrite Hhi, HT.
    replace (V3 - 2 ^ 64 - (2 ^ 64 - d) - d) with (V3 - 2 ^ 64 + (-1) * 2 ^ 64)
      by ring.
    rewrite Z.mod_add by lia. apply Z.mod_small. lia.
  - assert (Hhi : ((V3 - 2 ^ 64 + 1) * d) / 2 ^ 64 = 2 ^ 64 - d - 1).
    { symmetry.
      apply Z.div_unique_pos with (2 ^ 64 + d - (2 ^ 128 - V3 * d)); [lia|].
      ring. }
    assert (HT : (2 ^ 128 - 1) / d = V3 + 1).
    { symmetry. apply Z.div_unique_pos with (2 ^ 128 - V3 * d - d - 1); [lia|].
      ring. }
    rewrite Hhi, HT.
    assert (V3 + 1 < 2 ^ 65) by nia.
    replace (V3 - 2 ^ 64 - (2 ^ 64 - d - 1) - d)
      with (V3 + 1 - 2 ^ 64 + (-1) * 2 ^ 64) by ring.
    rewrite Z.mod_add by lia. apply Z.mod_small. lia.
Qed.

Lemma at1_value2 l :
  length l = 2%nat -> words l -> l#[1] = value l / B /\ l#[0] = value l mod B.
Proof.
  intros L Hw. destruct l as [|a [|b [|? ?]]]; try discriminate.
  apply words_inv in Hw as [Ha Hw]. apply words_inv in Hw as [Hb _].
  rewrite value_2, at_cons_S, !at_cons_0.
  rewrite word_div_add, word_mod_add by assumption. auto.
Qed.

Lemma land_1 d : Z.land d 1 = d mod 2.
Proof. change 1 with (Z.ones 1) at 1. apply Z.land_ones. lia. Qed.

Lemma land_sign_mask a d0 :
  0 <= a < 2 ^ 64 -> 0 <= d0 <= 1 ->
  Z.land a (w64 (0 - d0)) = a * d0.
Proof.
  intros Ha Hd0. assert (d0 = 0 \/ d0 = 1) as [-> | ->] by lia.
  - change (w64 (0 - 0)) with 0. rewrite Z.land_0_r. ring.
  - change (w64 (0 - 1)) with (Z.ones 64). rewrite Z.land_ones by lia.
    rewrite Z.mod_small by lia. ring.
Qed.

(** Each line of [reciprocal_2by1] computes without wrap-around what the
    error analysis expects. *)
Lemma recip_code_v1 v0 d40 :
  1023 <= v0 <= 2045 -> 2 ^ 39 < d40 <= 2 ^ 40 ->
  0 < 2 ^ 11 * v0 - v0 * v0 * d40 / 2 ^ 40 - 1 < 2 ^ 21 ->
  w32 (w32 (w32 (Z.shiftl v0 11) - w32 (shr64 (w64 (w32 (v0 * v0) * d40)) 40)) - 1)
  = 2 ^ 11 * v0 - v0 * v0 * d40 / 2 ^ 40 - 1.
Proof.
  intros Hv0 Hd40 Hv1.
  assert (Hvv : 0 <= v0 * v0 < 2 ^ 22) by nia.
  assert (Hvvd : 0 <= v0 * v0 * d40 < 2 ^ 62) by nia.
  assert (Ht1 : 0 <= v0 * v0 * d40 / 2 ^ 40 < 2 ^ 22).
  { split; [apply Z.div_pos; lia|]. apply Z.div_lt_upper_bound; lia. }
  rewrite Z.shiftl_mul_pow2, shr64_div by lia. unfold w32, w64.
  rewrite (Z.mod_small (v0 * v0)) by lia.
  rewrite (Z.mod_small (v0 * v0 * _) (2 ^ 64)) by lia.
  rewrite (Z.mod_small (v0 * 2 ^ 11)) by lia.
  rewrite (Z.mod_small (_ / 2 ^ 40)) by lia.
  rewrite (Z.mod_small (v0 * 2 ^ 11 - _)) by lia.
  rewrite Z.mod_small by lia. ring.
Qed.

Lemma recip_code_v2 v1 d40 :
  2 ^ 39 < d40 <= 2 ^ 40 ->
  0 < 2 ^ 60 - v1 * d40 < 1897985 * 2 ^ 22 -> 0 < v1 < 2 ^ 21 ->
  w64 (shl64 v1 13
       + shr64 (w64 (v1 * w64 (1152921504606846976 - w64 (v1 * d40)))) 47)
  = 2 ^ 13 * v1 + v1 * (2 ^ 60 - v1 * d40) / 2 ^ 47.
Proof.
  intros Hd40 He1 Hv1.
  assert (Hv1e : 0 <= v1 * (2 ^ 60 - v1 * d40) < 2 ^ 64) by nia.
  assert (Ht2 : 0 <= v1 * (2 ^ 60 - v1 * d40) / 2 ^ 47 < 2 ^ 17).
  { split; [apply Z.div_pos; lia|]. apply Z.div_lt_upper_bound; lia. }
  rewrite shl64_mul, shr64_div by lia. rewrite B_pow. unfold w64.
  change 1152921504606846976 with (2 ^ 60).
  rewrite (Z.mod_small (v1 * d40)) by lia.
  rewrite (Z.mod_small (2 ^ 60 - _)) by lia.
  rewrite (Z.mod_small (v1 * (2 ^ 60 - _))) by lia.
  rewrite (Z.mod_small (v1 * 2 ^ 13)) by lia.
  rewrite Z.mod_small by lia. ring.
Qed.

Lemma recip_code_e d v2 e :
  2 ^ 63 <= d < 2 ^ 64 -> 0 < v2 < 2 ^ 34 ->
  e = 2 ^ 96 - v2 * (d / 2 + d mod 2) + v2 / 2 * (d mod 2) ->
  0 < e < 2 ^ 64 ->
  w64 (Z.land (shr64 v2 1) (w64 (0 - Z.land d 1))
       - w64 (v2 * w64 (shr64 d 1 + Z.land d 1)))
  = e.
Proof.
  intros Hd Hv2 Ee He.
  pose proof (Z.mod_pos_bound d 2 ltac:(lia)) as Hd0.
  pose proof (Z.div_mod d 2 ltac:(lia)) as Ed.
  pose proof (Z.div_mod v2 2 ltac:(lia)) as Ev.
  pose proof (Z.mod_pos_bound v2 2 ltac:(lia)) as Hv0.
  rewrite land_1, !shr64_div by lia. change (2 ^ 1) with 2.
  rewrite land_sign_mask by lia.
  rewrite (w64_small (d / 2 + d mod 2)) by (unfold word; rewrite B_eq; lia).
  rewrite w64_sub_r.
  apply w64_unique with (- 2 ^ 32).
  - rewrite Ee, B_pow. ring.
  - unfold word. rewrite B_eq. lia.
Qed.

Lemma recip_code_v3 v2 e :
  0 < v2 < 2 ^ 34 -> 0 < e < 2 ^ 64 ->
  w64 (shr64 (umul64 v2 e)#[1] 1 + shl64 v2 31)
  = (2 ^ 31 * v2 + v2 * e / 2 ^ 65) mod 2 ^ 64.
Proof.
  intros Hv2 He.
  rewrite umul64_at1 by (unfold word; rewrite B_eq; lia).
  rewrite shr64_div, shl64_mul by lia.
  rewrite B_pow, Z.div_div by lia. change (2 ^ 64 * 2 ^ 1) with (2 ^ 65).
  unfold w64. rewrite Z.add_mod_idemp_r by lia. f_equal. ring.
Qed.

Lemma recip_code_v4 v3 d :
  0 <= v3 < 2 ^ 64 -> 2 ^ 63 <= d < 2 ^ 64 ->
  w64 (w64 (v3 - (uadd (umul64 v3 d) (of_u64 2 d))#[1]) - d)
  = (v3 - ((v3 + 1) * d) / 2 ^ 64 - d) mod 2 ^ 64.
Proof.
  intros Hv3 Hd.
  assert (Hv3w : word v3) by (unfold word; rewrite B_eq; lia).
  assert (Hdw : word d) by (unfold word; rewrite B_eq; lia).
  assert (Hlen : length (umul64 v3 d) = length (of_u64 2 d)) by reflexivity.
  pose proof (umul64_words v3 d Hv3w Hdw) as Hmw.
  pose proof (of_u64_words 2 d Hdw) as Hdws.
  destruct (at1_value2 (uadd (umul64 v3 d) (of_u64 2 d))) as [Hhi _].
  { rewrite uadd_length; auto. }
  { apply uadd_words; auto. }
  rewrite Hhi, uadd_value, umul64_value, of_u64_value by (auto; lia).
  change (length (umul64 v3 d)) with 2%nat. change (Z.of_nat 2) with 2.
  rewrite B_pow. change ((2 ^ 64) ^ 2) with (2 ^ 128).
  rewrite (Z.mod_small (v3 * d + d)) by nia.
  rewrite w64_sub_l. unfold w64. f_equal. f_equal. f_equal. f_equal. ring.
Qed.

(** [reciprocal_2by1] returns the exact reciprocal of a normalized word. *)
Lemma reciprocal_2by1_correct d :
  2 ^ 63 <= d < 2 ^ 64 ->
  reciprocal_2by1 d = (2 ^ 128 - 1) / d - 2 ^ 64.
Proof.
  intros Hd. cbv beta delta [reciprocal_2by1].
  (* the seed *)
  pull_let d9.
  assert (Hd9 : 256 <= d9 <= 511 /\ d9 = d / 2 ^ 55).
  { subst d9. rewrite shr64_div by lia. split; [|reflexivity].
    split; [apply Z.div_le_lower_bound; lia|].
    apply Z.lt_succ_r. apply Z.div_lt_upper_bound; lia. }
  clearbody d9. destruct Hd9 as [Hd9 Ed9].
  pull_let v0.
  assert (Ev0 : v0 = 523520 / d9) by (apply recip_table_entry; exact Hd9).
  clearbody v0.
  pull_let d40.
  assert (Hd24 : 2 ^ 39 <= d / 2 ^ 24 < 2 ^ 40).
  { split; [apply Z.div_le_lower_bound; lia|].
    apply Z.div_lt_upper_bound; lia. }
  assert (Ed40 : d40 = d / 2 ^ 24 + 1).
  { subst d40. rewrite shr64_div by lia.
    apply w64_small. unfold word. rewrite B_eq. lia. }
  clearbody d40.
  assert (Hrel : d9 * 2 ^ 31 + 1 <= d40 <= (d9 + 1) * 2 ^ 31).
  { assert (Hd9' : (d / 2 ^ 24) / 2 ^ 31 = d / 2 ^ 55)
      by (rewrite Z.div_div by lia; reflexivity).
    rewrite Ed40, Ed9, <- Hd9'.
    pose proof (Z.div_mod (d / 2 ^ 24) (2 ^ 31) ltac:(lia)).
    pose proof (Z.mod_pos_bound (d / 2 ^ 24) (2 ^ 31) ltac:(lia)). lia. }
  destruct (recip_seed d9 d40 v0 Hd9 Hrel Ev0) as [Hv0 HX].
  assert (Hd40 : 2 ^ 39 < d40 <= 2 ^ 40) by lia.
  clear Hrel Ev0 Hd9 Ed9 d9.
  (* first refinement *)
  pull_let v1.
  destruct (recip_step1 d40 v0 _ Hd40 Hv0 HX eq_refl) as [He1 Hv1].
  assert (Ev1 : v1 = 2 ^ 11 * v0 - v0 * v0 * d40 / 2 ^ 40 - 1)
    by (apply recip_code_v1; assumption).
  clearbody v1. rewrite <- Ev1 in He1, Hv1.
  clear Ev1 Hv0 HX v0.
  (* second refinement *)
  pull_let v2.
  destruct (recip_step2 d40 v1 _ Hd40 He1 Hv1 eq_refl) as (He2 & He2' & Hv2).
  assert (Ev2 : v2 = 2 ^ 13 * v1 + v1 * (2 ^ 60 - v1 * d40) / 2 ^ 47)
    by (apply recip_code_v2; assumption).
  clearbody v2. rewrite <- Ev2 in He2, He2', Hv2.
  clear Ev2 He1 Hv1 v1.
  (* the residual *)
  pull_let d0. pull_let d63. pull_let e.
  destruct (recip_residual d d40 v2 _ Hd Ed40 He2 He2' Hv2 eq_refl)
    as (c & Hc & E2 & He & He').
  assert (Ee : e = 2 ^ 96 - v2 * (d / 2 + d mod 2) + v2 / 2 * (d mod 2)).
  { apply recip_code_e; auto. lia. }
  clearbody e. clear d63 d0. rewrite <- Ee in E2, He, He'.
  clear Ee He2 He2' Ed40 Hd40 Hd24 d40.
  (* third refinement *)
  pull_let v3.
  pose proof (recip_step3 d v2 e c _ Hd Hc E2 He He' ltac:(lia) eq_refl) as Hrho.
  assert (Ev3 : v3 = (2 ^ 31 * v2 + v2 * e / 2 ^ 65) mod 2 ^ 64)
    by (apply recip_code_v3; lia).
  clearbody v3.
  generalize dependent (2 ^ 31 * v2 + v2 * e / 2 ^ 65). intros V3 Hrho Ev3.
  clear E2 He He' Hc c e Hv2 v2.
  (* final adjustment *)
  pull_let v4. subst v4.
  rewrite <- (recip_adjust d V3 Hd Hrho). rewrite <- Ev3.
  apply recip_code_v4; [|exact Hd].
  rewrite Ev3. apply Z.mod_pos_bound. lia.
Qed.

(** ** Division of two words by one normalized word *)

Lemma testbit63_normalized d :
  0 <= d < 2 ^ 64 -> Z.testbit d 63 = true -> 2 ^ 63 <= d.
Proof.
  intros Hd Hb. apply Z.testbit_true in Hb; [|lia].
  destruct (Z.lt_ge_cases d (2 ^ 63)) as [Hlt|]; [|assumption].
  rewrite Z.div_small in Hb by lia. discriminate.
Qed.

(** What the reciprocal means: [(B + v) * d] is below [B^2] by at most [d]. *)
Lemma reciprocal_gap b d v :
  0 < d -> v = (b * b - 1) / d - b ->
  exists k, (b + v) * d = b * b - k /\ 1 <= k <= d.
Proof.
  intros Hd ->.
  pose proof (Z.div_mod (b * b - 1) d ltac:(lia)) as E.
  pose proof (Z.mod_pos_bound (b * b - 1) d Hd) as Hr.
  exists ((b * b - 1) mod d + 1). split; [|lia].
  replace (b + ((b * b - 1) / d - b)) with ((b * b - 1) / d) by ring. lia.
Qed.

(** The candidate remainder of [udivrem_2by1], before reduction modulo
    [B], lies in a window that the comparison with [q0] resolves. *)
Lemma div2by1_candidate b d v k u1 u0 q1 q0 :
  0 < d < b -> b <= 2 * d ->
  (b + v) * d = b * b - k -> 1 <= k <= d -> 0 <= v ->
  0 <= u1 < d -> 0 <= u0 < b ->
  v * u1 + (u0 + b * u1) = q0 + b * q1 -> 0 <= q0 < b ->
  let rt := u0 + b * u1 - (q1 + 1) * d in
  - d <= rt /\ q0 + 1 - b <= rt /\ (rt < b - d \/ rt < q0)
  /\ 0 <= q1 /\ q1 + 1 <= b /\ (0 <= rt -> q1 + 1 < b)
  /\ (d <= rt -> q1 + 2 < b).
Proof.
  intros Hd Hn Hk Hk' Hv Hu1 Hu0 Hq Hq0 rt.
  assert (Key : b * rt = u1 * k + u0 * (b - d) + q0 * d - b * d).
  { subst rt.
    replace (b * (u0 + b * u1 - (q1 + 1) * d))
      with (b * u0 + u1 * (b * b) - (b * q1) * d - b * d) by ring.
    replace (b * q1) with (v * u1 + (u0 + b * u1) - q0) by lia.
    replace (b * b) with ((b + v) * d + k) by lia. ring. }
  assert (Hu : u0 + b * u1 < b * d) by (clear - Hu1 Hu0 Hd; nia).
  assert (Hvu : 0 <= v * u1) by (apply Z.mul_nonneg_nonneg; lia).
  assert (Hq1 : 0 <= q1) by (clear - Hq Hq0 Hvu Hu1 Hu0 Hd; nia).
  assert (Ert : rt = u0 + b * u1 - (q1 + 1) * d) by reflexivity.
  clearbody rt.
  assert (H1 : 0 <= u1 * k <= (d - 1) * d) by (clear - Hu1 Hk'; nia).
  assert (H2 : 0 <= u0 * (b - d) <= (b - 1) * (b - d)) by (clear - Hu0 Hd; nia).
  assert (H3 : 0 <= q0 * d <= (b - 1) * d) by (clear - Hq0 Hd; nia).
  assert (Hlo1 : - d <= rt).
  { assert (0 <= b * (rt + d)) by lia. clear - H Hd. nia. }
  assert (Hlo2 : q0 + 1 - b <= rt).
  { assert (0 < (b - q0) * (b - d)) by (apply Z.mul_pos_pos; lia).
    assert (0 < b * (rt - q0 + b)) by lia. clear - H0 Hd. nia. }
  assert (Hup : rt < b - d \/ rt < q0).
  { destruct (Z.lt_ge_cases rt q0) as [|Hge1]; [right; assumption|]. left.
    destruct (Z.lt_ge_cases rt (b - d)) as [|Hge2]; [assumption|]. exfalso.
    assert (q0 * d <= rt * d) by (clear - Hge1 Hd; nia).
    assert (rt * (b - d) <= (d - 1) * d + (b - 1) * (b - d) - b * d) by lia.
    assert ((b - d) * (b - d) <= rt * (b - d)) by (clear - Hge2 Hd; nia).
    lia. }
  assert (Hdp : 0 < d) by lia.
  split_and; auto.
  - assert (q1 + 1 < b + 1); [|lia].
    apply (proj2 (Z.mul_lt_mono_pos_r d (q1 + 1) (b + 1) Hdp)). lia.
  - intros Hrt. apply (proj2 (Z.mul_lt_mono_pos_r d (q1 + 1) b Hdp)). lia.
  - intros Hrt. apply (proj2 (Z.mul_lt_mono_pos_r d (q1 + 2) b Hdp)). lia.
Qed.

Lemma mod_below b x : 0 < b -> - b <= x < 0 -> x mod b = x + b.
Proof. intros. symmetry. apply Z.mod_unique_pos with (-1); lia. Qed.

Lemma mod_above b x : 0 < b -> b <= x < 2 * b -> x mod b = x - b.
Proof. intros. symmetry. apply Z.mod_unique_pos with 1; lia. Qed.

(** The two corrections of [udivrem_2by1] select the true quotient. *)
Lemma div2by1_select d q0 q1 rt :
  0 < d < 2 ^ 64 -> 2 ^ 64 <= 2 * d -> 0 <= q0 < 2 ^ 64 ->
  - d <= rt -> q0 + 1 - 2 ^ 64 <= rt -> (rt < 2 ^ 64 - d \/ rt < q0) ->
  0 <= q1 -> q1 + 1 <= 2 ^ 64 -> (0 <= rt -> q1 + 1 < 2 ^ 64) ->
  (d <= rt -> q1 + 2 < 2 ^ 64) ->
  let q1' := (q1 + 1) mod 2 ^ 64 in
  let r := rt mod 2 ^ 64 in
  let a := if q0 <? r then ((q1' - 1) mod 2 ^ 64, (r + d) mod 2 ^ 64)
           else (q1', r) in
  let c := if d <=? snd a then ((fst a + 1) mod 2 ^ 64, (snd a - d) mod 2 ^ 64)
           else a in
  rt + (q1 + 1) * d = fst c * d + snd c /\ 0 <= snd c < d
  /\ 0 <= fst c < 2 ^ 64.
Proof.
  intros Hd Hn Hq0 Hlo1 Hlo2 Hup Hq1 Hq1' Hq1a Hq1b q1' r a c.
  assert (Hb : 0 < 2 ^ 64) by lia.
  destruct (Z.lt_ge_cases rt 0) as [Hneg|Hpos].
  - (* the candidate is one too large *)
    assert (Er : r = rt + 2 ^ 64) by (apply mod_below; lia).
    assert (Ea : a = (q1, rt + d)).
    { subst a. destruct (Z.ltb_spec q0 r); [|lia]. f_equal.
      - subst q1'. rewrite Zminus_mod_idemp_l.
        replace (q1 + 1 - 1) with q1 by ring. apply Z.mod_small. lia.
      - rewrite Er. replace (rt + 2 ^ 64 + d) with (rt + d + 1 * 2 ^ 64) by ring.
        rewrite Z.mod_add by lia. apply Z.mod_small. lia. }
    subst c. rewrite Ea. cbn [fst snd].
    destruct (Z.leb_spec d (rt + d)); [lia|]. cbn [fst snd].
    split_and; try lia; ring.
  - assert (Er : r = rt) by (apply Z.mod_small; lia).
    assert (Eq : q1' = q1 + 1) by (apply Z.mod_small; lia).
    destruct (Z.lt_ge_cases q0 rt) as [Hgt|Hle].
    + (* first correction undone by the second *)
      assert (Ea : a = (q1, rt + d)).
      { subst a. rewrite Er. destruct (Z.ltb_spec q0 rt); [|lia]. f_equal.
        - rewrite Eq. replace (q1 + 1 - 1) with q1 by ring.
          apply Z.mod_small. lia.
        - apply Z.mod_small. lia. }
      subst c. rewrite Ea. cbn [fst snd].
      destruct (Z.leb_spec d (rt + d)); [|lia]. cbn [fst snd].
      replace (rt + d - d) with rt by ring.
      rewrite !Z.mod_small by lia. split_and; try lia; ring.
    + assert (Ea : a = (q1 + 1, rt)).
      { subst a. rewrite Er, Eq. destruct (Z.ltb_spec q0 rt); [lia|]. reflexivity. }
      subst c. rewrite Ea. cbn [fst snd].
      destruct (Z.leb_spec d rt); cbn [fst snd].
      * specialize (Hq1b ltac:(lia)).
        rewrite !Z.mod_small by lia. split_and; try lia; ring.
      * split_and; try lia; ring.
Qed.

Lemma reciprocal_range d v :
  2 ^ 63 <= d < 2 ^ 64 -> v = (2 ^ 128 - 1) / d - 2 ^ 64 -> 0 <= v < 2 ^ 64.
Proof.
  intros Hd Ev.
  destruct (reciprocal_gap (2 ^ 64) d v ltac:(lia) Ev) as (k & Hk & Hk').
  change (2 ^ 64 * 2 ^ 64) with (2 ^ 128) in Hk. nia.
Qed.

(** [udivrem_2by1] divides a two-word number whose high word is below the
    normalized divisor. *)
Lemma udivrem_2by1_correct u0 u1 d v :
  word u0 -> word u1 -> u1 < d -> 2 ^ 63 <= d < 2 ^ 64 ->
  v = (2 ^ 128 - 1) / d - 2 ^ 64 ->
  u0 + B * u1 = fst (udivrem_2by1 [u0; u1] d v) * d + snd (udivrem_2by1 [u0; u1] d v)
  /\ 0 <= snd (udivrem_2by1 [u0; u1] d v) < d
  /\ word (fst (udivrem_2by1 [u0; u1] d v)).
Proof.
  intros Hu0 Hu1 Hlt Hd Ev.
  pose proof (reciprocal_range d v Hd Ev) as Hv.
  destruct (reciprocal_gap (2 ^ 64) d v ltac:(lia) Ev) as (k & Hk & Hk').
  assert (Hvw : word v) by (unfold word; rewrite B_eq; lia).
  unfold word in Hu0, Hu1. rewrite B_eq in Hu0, Hu1.
  assert (Hu0w : word u0) by (unfold word; rewrite B_eq; lia).
  assert (Hu1w : word u1) by (unfold word; rewrite B_eq; lia).
  assert (Hq : value (fast_add (umul64 v u1) [u0; u1]) = v * u1 + (u0 + 2 ^ 64 * u1)).
  { unfold fast_add. rewrite uadd_value, umul64_value, value_2;
      auto using umul64_words, words_2.
    change (length (umul64 v u1)) with 2%nat. change (Z.of_nat 2) with 2.
    rewrite B_pow. change ((2 ^ 64) ^ 2) with (2 ^ 128).
    apply Z.mod_small. nia. }
  assert (Hql : length (fast_add (umul64 v u1) [u0; u1]) = 2%nat).
  { unfold fast_add. rewrite uadd_length; auto using umul64_words, words_2. }
  assert (Hqw : words (fast_add (umul64 v u1) [u0; u1])).
  { unfold fast_add. apply uadd_words; auto using umul64_words, words_2. }
  cbv beta zeta delta [udivrem_2by1]. rewrite !at_cons_S, !at_cons_0.
  generalize dependent (fast_add (umul64 v u1) [u0; u1]). intros q Hq Hql Hqw.
  destruct q as [|q0 [|q1 [|? ?]]]; try discriminate. clear Hql.
  apply words_inv in Hqw as [Hq0 Hqw]. apply words_inv in Hqw as [Hq1 _].
  rewrite value_2, B_pow in Hq. unfold word in Hq0, Hq1. rewrite B_eq in Hq0, Hq1.
  rewrite !at_cons_S, !at_cons_0.
  destruct (div2by1_candidate (2 ^ 64) d v k u1 u0 q1 q0)
    as (Hlo1 & Hlo2 & Hup & Hq1a & Hq1b & Hq1c & Hq1d); try lia.
  pose proof (div2by1_select d q0 q1 (u0 + 2 ^ 64 * u1 - (q1 + 1) * d)
                ltac:(lia) ltac:(lia) ltac:(lia) Hlo1 Hlo2 Hup Hq1a Hq1b Hq1c Hq1d)
    as Hsel.
  cbv zeta in Hsel.
  assert (Er : w64 (u0 - w64 (w64 (q1 + 1) * d))
               = (u0 + 2 ^ 64 * u1 - (q1 + 1) * d) mod 2 ^ 64).
  { rewrite w64_mul_l, w64_sub_r. unfold w64.
    replace (u0 + 2 ^ 64 * u1 - (q1 + 1) * d)
      with (u0 - (q1 + 1) * d + u1 * 2 ^ 64) by ring.
    rewrite Z.mod_add by lia. reflexivity. }
  rewrite Er. unfold w64. rewrite B_pow.
  clear Er Hlo1 Hlo2 Hup Hq1a Hq1b Hq1c Hq1d.
  generalize dependent ((u0 + 2 ^ 64 * u1 - (q1 + 1) * d) mod 2 ^ 64).
  intros r Hsel.
  assert (Eu : u0 + 2 ^ 64 * u1
               = (u0 + 2 ^ 64 * u1 - (q1 + 1) * d) + (q1 + 1) * d) by ring.
  rewrite Eu. clear Eu.
  generalize dependent (u0 + 2 ^ 64 * u1 - (q1 + 1) * d).
  intros rt Hsel. clear Hq.
  destruct (q0 <? r); cbv beta iota; cbn [fst snd] in Hsel.
  - destruct (d <=? (r + d) mod 2 ^ 64); cbn [fst snd] in *;
      unfold word; rewrite B_eq; split_and; lia.
  - destruct (d <=? r); cbn [fst snd] in *;
      unfold word; rewrite B_eq; split_and; lia.
Qed.

(** ** Division of three words by two normalized words *)

(** The core inequality behind the remainder window of [udivrem_3by2],
    [b (u2 k + u1 c + u0 b) < b^2 c + d^2] with [c = b^2 - d], in the
    three cases of its proof. *)
Lemma div3by2_core_lt b d1 d0 d c k u2 u1 u0 :
  0 < b -> 1 <= d1 -> 0 <= d0 -> d = d1 * b + d0 -> d + c = b * b -> 0 < c ->
  0 <= k <= d -> 0 <= u2 <= d1 - 1 -> 0 <= u1 < b -> 0 <= u0 < b ->
  b * (u2 * k + u1 * c + u0 * b) < b * b * c + d * d.
Proof.
  intros Hb Hd1 Hd0 Ed Hdc Hc Hk Hu2 Hu1 Hu0.
  assert (A1 : u2 * k <= (d1 - 1) * d) by (clear - Hk Hu2; nia).
  assert (A2 : b * ((d1 - 1) * d) <= (d - b) * d).
  { assert (b * (d1 - 1) <= d - b) by (clear - Ed Hd0 Hb; nia).
    assert (0 <= d) by (clear - Hk; lia).
    replace (b * ((d1 - 1) * d)) with ((b * (d1 - 1)) * d) by ring.
    apply Z.mul_le_mono_nonneg_r; assumption. }
  assert (A3 : u1 * c <= (b - 1) * c) by (clear - Hu1 Hc; nia).
  assert (A4 : u0 * b <= (b - 1) * b) by (clear - Hu0 Hb; nia).
  assert (A5 : b * (u2 * k) <= b * ((d1 - 1) * d))
    by (apply Z.mul_le_mono_nonneg_l; lia).
  assert (A6 : b * (u1 * c) <= b * ((b - 1) * c))
    by (apply Z.mul_le_mono_nonneg_l; lia).
  assert (A7 : b * (u0 * b) <= b * ((b - 1) * b))
    by (apply Z.mul_le_mono_nonneg_l; lia).
  assert (A8 : b * (d + c) = b * (b * b)) by (rewrite Hdc; reflexivity).
  assert (A9 : 0 < b * b) by (clear - Hb; nia).
  clear - A2 A5 A6 A7 A8 A9. nia.
Qed.

Lemma div3by2_core_max b d0 d c k u1 u0 :
  2 <= b -> 1 <= d0 < b -> d = (b - 1) * b + d0 -> d + c = b * b ->
  0 <= k <= b * c -> 0 <= u1 <= d0 - 1 -> 0 <= u0 < b ->
  b * ((b - 1) * k + u1 * c + u0 * b) < b * b * c + d * d.
Proof.
  intros Hb Hd0 Ed Hdc Hk Hu1 Hu0.
  assert (Ec : c = b - d0) by (clear - Ed Hdc; nia).
  assert (Hc : 1 <= c <= b - 1) by lia.
  assert (A1 : (b - 1) * k <= (b - 1) * (b * c))
    by (apply Z.mul_le_mono_nonneg_l; lia).
  assert (A3 : u1 * c <= (b - c - 1) * c) by (clear - Hu1 Hc Ec; nia).
  assert (A4 : u0 * b <= (b - 1) * b) by (clear - Hu0 Hb; nia).
  assert (A5 : b * ((b - 1) * k + u1 * c + u0 * b)
               <= b * ((b - 1) * (b * c) + (b - c - 1) * c + (b - 1) * b)).
  { apply Z.mul_le_mono_nonneg_l; lia. }
  assert (Ed' : d = b * b - c) by lia.
  assert (A6 : b * ((b - 1) * (b * c) + (b - c - 1) * c + (b - 1) * b)
               < b * b * c + (b * b - c) * (b * b - c)).
  { clear - Hb Hc.
    destruct (Z.eq_dec c (b - 1)) as [->|Hne].
    - nia.
    - assert (Hm : 1 <= b - 1 - c) by lia.
      assert (H1 : b * b * b * 1 <= b * b * b * (b - 1 - c))
        by (apply Z.mul_le_mono_nonneg_l; nia).
      assert (H2 : b * b * (c - 1) <= b * b * (b - 3))
        by (apply Z.mul_le_mono_nonneg_l; nia).
      assert (H3 : 0 <= c * c * (1 + b)) by nia.
      assert (H4 : 0 < b * c) by nia.
      assert (H5 : 0 < b * b) by nia.
      nia. }
  rewrite <- Ed' in A6. lia.
Qed.

Lemma div3by2_core_eq b d1 d0 d c k u1 u0 :
  2 <= b -> b <= 2 * d1 -> d1 <= b - 2 -> 1 <= d0 < b ->
  d = d1 * b + d0 -> d + c = b * b ->
  0 <= k <= d -> 0 <= u1 <= d0 - 1 -> 0 <= u0 < b ->
  b * (d1 * k + u1 * c + u0 * b) < b * b * c + d * d.
Proof.
  intros Hb Hn Hd1 Hd0 Ed Hdc Hk Hu1 Hu0.
  set (a := b - d1). assert (Ha : 2 <= a) by (subst a; lia).
  assert (Ec : c = a * b - d0) by (subst a; clear - Ed Hdc; nia).
  assert (Hcge : (a - 1) * b + 1 <= c) by (clear - Ec Hd0; nia).
  assert (Hc0 : 0 < c) by (clear - Hcge Ha Hb; nia).
  assert (Hd : 0 <= d) by lia.
  assert (A1 : b * (d1 * k) <= (d - d0) * d).
  { replace (d - d0) with (b * d1) by (clear - Ed; nia).
    replace (b * (d1 * k)) with (b * d1 * k) by ring.
    apply Z.mul_le_mono_nonneg_l; [clear - Hb Hn; nia | lia]. }
  assert (A3 : b * (u1 * c) <= b * ((d0 - 1) * c)).
  { apply Z.mul_le_mono_nonneg_l; [lia|].
    apply Z.mul_le_mono_nonneg_r; lia. }
  assert (A4 : b * (u0 * b) <= b * ((b - 1) * b)).
  { apply Z.mul_le_mono_nonneg_l; [lia|].
    apply Z.mul_le_mono_nonneg_r; lia. }
  (* the remaining inequality only involves b, a, d0 *)
  assert (G1 : c * d0 <= ((a - 1) * b + 1) * (b - 1)).
  { rewrite Ec. clear - Ha Hd0 Hb.
    assert (H : 0 <= (b - 1 - d0) * ((a - 2) * b + 2 + (b - 1 - d0))).
    { apply Z.mul_nonneg_nonneg; [lia|].
      assert (0 <= (a - 2) * b) by (apply Z.mul_nonneg_nonneg; lia). lia. }
    replace (((a - 1) * b + 1) * (b - 1))
      with ((a * b - d0) * d0
            + (b - 1 - d0) * ((a - 2) * b + 2 + (b - 1 - d0))) by ring.
    lia. }
  assert (G2 : c * d0 * (b + 1) <= ((a - 1) * b + 1) * (b - 1) * (b + 1)).
  { apply Z.mul_le_mono_nonneg_r; lia. }
  assert (G3 : ((a - 1) * b + 1) * b <= c * b).
  { apply Z.mul_le_mono_nonneg_r; lia. }
  assert (G4 : 0 < ((a - 1) * b + 1) * (b + 1)) by (clear - Ha Hb; nia).
  assert (F : b * b * b - b * b < d0 * d + c * (b * (b - d0 + 1))).
  { replace d with (b * b - c) by lia.
    replace (d0 * (b * b - c) + c * (b * (b - d0 + 1)))
      with (b * b * (d0 + c - b + 1) - (c * d0 * (b + 1) - c * b)
            + (b * b * b - b * b)) by ring.
    replace (d0 + c - b + 1) with ((a - 1) * b + 1) by (rewrite Ec; ring).
    clear - G2 G3 G4.
    replace (((a - 1) * b + 1) * (b - 1) * (b + 1))
      with (((a - 1) * b + 1) * (b * b) - ((a - 1) * b + 1)) in G2 by ring.
    replace (((a - 1) * b + 1) * (b + 1))
      with (((a - 1) * b + 1) * b + ((a - 1) * b + 1)) in G4 by ring.
    replace (b * b * ((a - 1) * b + 1)) with (((a - 1) * b + 1) * (b * b)) by ring.
    lia. }
  clear - A1 A3 A4 F. nia.
Qed.

Lemma div3by2_core b d1 d0 d c k u2 u1 u0 :
  2 <= b -> b <= 2 * d1 -> 0 <= d1 < b -> 0 <= d0 < b ->
  d = d1 * b + d0 -> d + c = b * b ->
  0 <= k <= d -> k <= b * c ->
  0 <= u2 -> 0 <= u1 < b -> 0 <= u0 < b ->
  u2 * b + u1 < d ->
  b * (u2 * k + u1 * c + u0 * b) < b * b * c + d * d.
Proof.
  intros Hb Hn Hd1 Hd0 Ed Hdc Hk Hk' Hu2 Hu1 Hu0 Hlt.
  assert (Hu2le : u2 <= d1) by (clear - Hlt Ed Hu1 Hd0 Hb Hu2; nia).
  assert (Hc : 0 < c) by (clear - Hdc Ed Hd1 Hd0 Hb; nia).
  destruct (Z.eq_dec u2 d1) as [Heq|Hne].
  - subst u2. assert (Hu1' : u1 <= d0 - 1) by (clear - Hlt Ed; nia).
    destruct (Z.eq_dec d1 (b - 1)) as [Hd1max|Hd1lt].
    + subst d1. apply div3by2_core_max with (d0 := d0); auto; lia.
    + apply div3by2_core_eq with (d0 := d0); auto; lia.
  - apply div3by2_core_lt with (d1 := d1) (d0 := d0); auto; lia.
Qed.

(** The candidate remainder of [udivrem_3by2], before reduction modulo
    [B^2], lies in a window that the comparison of its high word with [q0]
    resolves. *)
Lemma div3by2_candidate b d1 d0 d v k u2 u1 u0 q1 q0 :
  2 <= b -> b <= 2 * d1 -> 0 <= d1 < b -> 0 <= d0 < b ->
  d = d1 * b + d0 ->
  (b + v) * d = b * b * b - k -> 1 <= k <= d -> 0 <= v ->
  0 <= u2 -> 0 <= u1 < b -> 0 <= u0 < b -> u2 * b + u1 < d ->
  v * u2 + (u1 + b * u2) = q0 + b * q1 -> 0 <= q0 < b ->
  let rt := u0 + b * u1 + b * b * u2 - (q1 + 1) * d in
  - d <= rt /\ q0 * b - b * b < rt /\ (rt < b * b - d \/ rt < q0 * b)
  /\ 0 <= q1 /\ q1 + 1 <= b /\ (0 <= rt -> q1 + 1 < b)
  /\ (d <= rt -> q1 + 2 < b).
Proof.
  intros Hb Hn Hd1 Hd0 Ed Hk Hk' Hv Hu2 Hu1 Hu0 Hlt Hq Hq0 rt.
  set (c := b * b - d).
  assert (Hdc : d + c = b * b) by (subst c; ring).
  assert (Hdlt : d < b * b) by (clear - Ed Hd1 Hd0 Hb; nia).
  assert (Hdpos : 0 < d) by lia.
  assert (Hkc : k <= b * c).
  { assert (0 <= v * d) by (apply Z.mul_nonneg_nonneg; lia).
    replace (b * c) with (b * (b * b) - b * d) by (subst c; ring).
    clear - Hk H. nia. }
  assert (Key : b * rt = u2 * k + u1 * c + u0 * b + q0 * d - b * d).
  { subst rt c.
    replace (b * (u0 + b * u1 + b * b * u2 - (q1 + 1) * d))
      with (b * u0 + b * b * u1 + u2 * (b * b * b) - (b * q1) * d - b * d) by ring.
    replace (b * q1) with (v * u2 + (u1 + b * u2) - q0) by lia.
    replace (b * b * b) with ((b + v) * d + k) by lia. ring. }
  pose proof (div3by2_core b d1 d0 d c k u2 u1 u0 Hb Hn Hd1 Hd0 Ed Hdc
                ltac:(lia) Hkc Hu2 Hu1 Hu0 Hlt) as Core.
  assert (HU : u0 + b * u1 + b * b * u2 < b * d) by (clear - Hlt Hu0 Hb; nia).
  assert (Hrt : rt + (q1 + 1) * d = u0 + b * u1 + b * b * u2) by (subst rt; ring).
  clearbody rt c.
  assert (P1 : 0 <= u2 * k) by (apply Z.mul_nonneg_nonneg; lia).
  assert (P2 : 0 <= u1 * c) by (apply Z.mul_nonneg_nonneg; lia).
  assert (P3 : 0 <= u0 * b) by (apply Z.mul_nonneg_nonneg; lia).
  assert (P4 : 0 <= q0 * d) by (apply Z.mul_nonneg_nonneg; lia).
  assert (Hlo1 : - d <= rt) by (clear - Key P1 P2 P3 P4 Hb; nia).
  assert (Hlo2 : q0 * b - b * b < rt).
  { assert ((q0 - b) * d <= b * rt) by (clear - Key P1 P2 P3; lia).
    assert ((b - q0) * d < (b - q0) * (b * b))
      by (apply Z.mul_lt_mono_pos_l; lia).
    assert (b * (q0 * b - b * b) < b * rt) by (clear - H H0; nia).
    clear - H1 Hb. nia. }
  assert (Hup : rt < c \/ rt < q0 * b).
  { destruct (Z.lt_ge_cases rt (q0 * b)) as [|Hge1]; [right; assumption|]. left.
    destruct (Z.lt_ge_cases rt c) as [|Hge2]; [assumption|]. exfalso.
    assert (T1 : b * (q0 * d) <= rt * d).
    { replace (b * (q0 * d)) with (q0 * b * d) by ring.
      apply Z.mul_le_mono_nonneg_r; lia. }
    assert (T2 : b * (b * rt) < b * b * c + d * d + rt * d - b * (b * d)).
    { rewrite Key. clear - Core T1.
      replace (b * (u2 * k + u1 * c + u0 * b + q0 * d - b * d))
        with (b * (u2 * k + u1 * c + u0 * b) + b * (q0 * d) - b * (b * d)) by ring.
      lia. }
    assert (T3 : rt * c < c * c).
    { replace c with (b * b - d) at 1 by lia.
      replace (c * c) with (b * b * c - d * c) by (rewrite <- Hdc; ring).
      replace (d * c) with (d * (b * b) - d * d) by (rewrite <- Hdc; ring).
      clear - T2. lia. }
    assert (0 < c) by lia.
    clear - T3 Hge2 H. nia. }
  assert (Hq1 : 0 <= q1).
  { assert (0 <= v * u2) by (apply Z.mul_nonneg_nonneg; lia).
    assert (0 <= b * u2) by (apply Z.mul_nonneg_nonneg; lia).
    clear - Hq Hq0 H H0 Hu1 Hb. nia. }
  replace (b * b - d) with c by lia.
  split_and; auto.
  - clear - Hrt HU Hlo1 Hdpos. nia.
  - intros Hr0. clear - Hrt HU Hr0 Hdpos. nia.
  - intros Hr0. clear - Hrt HU Hr0 Hdpos. nia.
Qed.

(** The two corrections of [udivrem_3by2] select the true quotient. *)
Lemma div3by2_select d q0 q1 rt :
  0 < d < 2 ^ 128 -> 2 ^ 128 <= 2 * d -> 0 <= q0 < 2 ^ 64 ->
  - d <= rt -> q0 * 2 ^ 64 - 2 ^ 128 < rt ->
  (rt < 2 ^ 128 - d \/ rt < q0 * 2 ^ 64) ->
  0 <= q1 -> q1 + 1 <= 2 ^ 64 -> (0 <= rt -> q1 + 1 < 2 ^ 64) ->
  (d <= rt -> q1 + 2 < 2 ^ 64) ->
  let q1' := (q1 + 1) mod 2 ^ 64 in
  let r := rt mod 2 ^ 128 in
  let a := if q0 <=? r / 2 ^ 64
           then ((q1' - 1) mod 2 ^ 64, (r + d) mod 2 ^ 128)
           else (q1', r) in
  let c := if negb (snd a <? d)
           then ((fst a + 1) mod 2 ^ 64, (snd a - d) mod 2 ^ 128)
           else a in
  rt + (q1 + 1) * d = fst c * d + snd c /\ 0 <= snd c < d
  /\ 0 <= fst c < 2 ^ 64.
Proof.
  intros Hd Hn Hq0 Hlo1 Hlo2 Hup Hq1 Hq1' Hq1a Hq1b q1' r a c.
  destruct (Z.lt_ge_cases rt 0) as [Hneg|Hpos].
  - (* the candidate is one too large *)
    assert (Er : r = rt + 2 ^ 128) by (apply mod_below; lia).
    assert (Ea : a = (q1, rt + d)).
    { subst a. rewrite Er.
      assert (q0 <= (rt + 2 ^ 128) / 2 ^ 64)
        by (apply Z.div_le_lower_bound; lia).
      destruct (Z.leb_spec q0 ((rt + 2 ^ 128) / 2 ^ 64)); [|lia].
      f_equal.
      - subst q1'. rewrite Zminus_mod_idemp_l.
        replace (q1 + 1 - 1) with q1 by ring. apply Z.mod_small. lia.
      - replace (rt + 2 ^ 128 + d) with (rt + d + 1 * 2 ^ 128) by ring.
        rewrite Z.mod_add by lia. apply Z.mod_small. lia. }
    subst c. rewrite Ea. cbn [fst snd].
    destruct (Z.ltb_spec (rt + d) d); [|lia]. cbn [fst snd negb].
    split_and; try lia; ring.
  - assert (Hlt : rt < 2 ^ 128) by lia.
    assert (Er : r = rt) by (apply Z.mod_small; lia).
    assert (Eq : q1' = q1 + 1) by (apply Z.mod_small; lia).
    destruct (Z.le_gt_cases (q0 * 2 ^ 64) rt) as [Hge|Hlt'].
    + (* first correction undone by the second *)
      assert (Ea : a = (q1, rt + d)).
      { subst a. rewrite Er.
        assert (q0 <= rt / 2 ^ 64) by (apply Z.div_le_lower_bound; lia).
        destruct (Z.leb_spec q0 (rt / 2 ^ 64)); [|lia]. f_equal.
        - rewrite Eq. replace (q1 + 1 - 1) with q1 by ring.
          apply Z.mod_small. lia.
        - apply Z.mod_small. lia. }
      subst c. rewrite Ea. cbn [fst snd].
      destruct (Z.ltb_spec (rt + d) d); [lia|]. cbn [fst snd negb].
      replace (rt + d - d) with rt by ring.
      rewrite !Z.mod_small by lia. split_and; try lia; ring.
    + assert (Ea : a = (q1 + 1, rt)).
      { subst a. rewrite Er, Eq.
        assert (rt / 2 ^ 64 < q0) by (apply Z.div_lt_upper_bound; lia).
        destruct (Z.leb_spec q0 (rt / 2 ^ 64)); [lia|].
        reflexivity. }
      subst c. rewrite Ea. cbn [fst snd].
      destruct (Z.ltb_spec rt d); cbn [fst snd negb].
      * split_and; try lia; ring.
      * specialize (Hq1b ltac:(lia)).
        rewrite !Z.mod_small by lia. split_and; try lia; ring.
Qed.

(** What the 3-by-2 reciprocal means. *)
Lemma reciprocal3_gap b d v :
  0 < d -> v = (b * b * b - 1) / d - b ->
  exists k, (b + v) * d = b * b * b - k /\ 1 <= k <= d.
Proof.
  intros Hd ->.
  pose proof (Z.div_mod (b * b * b - 1) d ltac:(lia)) as E.
  pose proof (Z.mod_pos_bound (b * b * b - 1) d Hd) as Hr.
  exists ((b * b * b - 1) mod d + 1). split; [|lia].
  replace (b + ((b * b * b - 1) / d - b)) with ((b * b * b - 1) / d) by ring. lia.
Qed.

Lemma reciprocal3_range d1 d0 v :
  2 ^ 63 <= d1 < 2 ^ 64 -> 0 <= d0 < 2 ^ 64 ->
  v = (2 ^ 192 - 1) / (d0 + 2 ^ 64 * d1) - 2 ^ 64 -> 0 <= v < 2 ^ 64.
Proof.
  intros Hd1 Hd0 Ev.
  destruct (reciprocal3_gap (2 ^ 64) (d0 + 2 ^ 64 * d1) v ltac:(lia) Ev)
    as (k & Hk & Hk').
  change (2 ^ 64 * 2 ^ 64 * 2 ^ 64) with (2 ^ 192) in Hk. nia.
Qed.
Lemma div3by2_q_range b d v k u2 u1 :
  0 < b -> 0 <= v -> (b + v) * d = b * b * b - k -> 1 <= k ->
  0 <= u2 -> 0 <= u1 -> u2 * b + u1 < d ->
  v * u2 + (u1 + b * u2) < b * b.
Proof.
  intros Hb Hv Hk Hk' Hu2 Hu1 Hlt.
  assert (H1 : (b + v) * (u2 * b + u1) <= (b + v) * (d - 1))
    by (apply Z.mul_le_mono_nonneg_l; lia).
  assert (H2 : 0 <= v * u1) by (apply Z.mul_nonneg_nonneg; lia).
  assert (H3 : b * (v * u2 + (u1 + b * u2)) < b * (b * b)).
  { replace (b * (v * u2 + (u1 + b * u2)))
      with ((b + v) * (u2 * b + u1) - v * u1) by ring.
    replace ((b + v) * (d - 1)) with (b * b * b - k - b - v) in H1
      by (rewrite <- Hk; ring).
    replace (b * (b * b)) with (b * b * b) by ring. lia. }
  apply Z.mul_lt_mono_pos_l in H3; assumption.
Qed.

Lemma rem3by2_code u2 u1 u0 d0 d1 q1 :
  word u0 -> word d0 -> word d1 -> word q1 ->
  value (usub (usub [u0; w64 (u1 - w64 (q1 * d1))] (umul64 d0 q1)) [d0; d1])
  = (u0 + 2 ^ 64 * u1 + 2 ^ 64 * 2 ^ 64 * u2 - (q1 + 1) * (d0 + 2 ^ 64 * d1))
      mod 2 ^ 128
  /\ words (usub (usub [u0; w64 (u1 - w64 (q1 * d1))] (umul64 d0 q1)) [d0; d1])
  /\ length (usub (usub [u0; w64 (u1 - w64 (q1 * d1))] (umul64 d0 q1)) [d0; d1])
     = 2%nat.
Proof.
  intros Hu0 Hd0 Hd1 Hq1.
  assert (Wt : words (umul64 d0 q1)) by (apply umul64_words; assumption).
  assert (Lt : length (umul64 d0 q1) = 2%nat)
    by (rewrite umul64_spec by assumption; reflexivity).
  assert (Vt : value (umul64 d0 q1) = d0 * q1) by (apply umul64_value; assumption).
  assert (W1 : words [u0; w64 (u1 - w64 (q1 * d1))])
    by (apply words_2; auto using w64_range).
  assert (Wd : words [d0; d1]) by (apply words_2; assumption).
  generalize dependent (umul64 d0 q1). intros t Wt Lt Vt.
  assert (W2 : words (usub [u0; w64 (u1 - w64 (q1 * d1))] t))
    by (apply usub_words; auto).
  assert (L2 : length (usub [u0; w64 (u1 - w64 (q1 * d1))] t) = 2%nat)
    by (rewrite usub_length; auto).
  split_and.
  - rewrite usub_value by auto. rewrite L2.
    rewrite usub_value by auto. cbn [length]. rewrite Zminus_mod_idemp_l.
    rewrite !value_2, Vt, w64_sub_r. rewrite w64_mod, B_pow.
    change ((2 ^ 64) ^ Z.of_nat 2) with (2 ^ 128).
    pose proof (Z.div_mod (u1 - q1 * d1) (2 ^ 64) ltac:(lia)) as E.
    replace ((u1 - q1 * d1) mod 2 ^ 64)
      with (u1 - q1 * d1 - 2 ^ 64 * ((u1 - q1 * d1) / 2 ^ 64)) by lia.
    generalize ((u1 - q1 * d1) / 2 ^ 64). intros m. clear E.
    replace (u0 + 2 ^ 64 * (u1 - q1 * d1 - 2 ^ 64 * m) - d0 * q1 - (d0 + 2 ^ 64 * d1))
      with (u0 + 2 ^ 64 * u1 + 2 ^ 64 * 2 ^ 64 * u2 - (q1 + 1) * (d0 + 2 ^ 64 * d1)
            + (- m - u2) * 2 ^ 128) by ring.
    apply Z.mod_add. lia.
  - apply usub_words; auto.
  - rewrite usub_length; auto.
Qed.
(** ** The reciprocal of a normalized two-word divisor *)

Lemma recip_nonneg b d1 d0 v :
  0 < d1 < b -> 0 <= d0 < b -> b * b - (b + v) * d1 - d0 <= d1 -> 0 <= v.
Proof.
  intros Hd Hd0 H. destruct (Z.lt_ge_cases v 0) as [Hneg|]; [exfalso|assumption].
  assert ((b + v + 1) * d1 <= b * d1) by (apply Z.mul_le_mono_nonneg_r; lia).
  assert (b * d1 <= b * (b - 1)) by (apply Z.mul_le_mono_nonneg_l; lia).
  lia.
Qed.

Lemma recip3_unique b d v :
  0 < d -> 0 < b * b * b - (b + v) * d <= d ->
  v = (b * b * b - 1) / d - b.
Proof.
  intros Hd H.
  assert (b + v = (b * b * b - 1) / d); [|lia].
  apply Z.div_unique with (b * b * b - 1 - (b + v) * d); [lia|ring].
Qed.

Lemma w64_below x : - B <= x < 0 -> w64 x = x + B.
Proof. intros. rewrite w64_mod. apply mod_below; [apply B_pos|assumption]. Qed.

Lemma w64_above x : B <= x < 2 * B -> w64 x = x - B.
Proof. intros. rewrite w64_mod. apply mod_above; [apply B_pos|assumption]. Qed.

Lemma recip32_stage2 d1 d0 v K :
  B <= 2 * d1 -> d1 < B -> word d0 -> word v ->
  K = B * B - (B + v) * d1 - d0 -> 1 <= K <= d1 ->
  (let t := umul64 v d0 in
   let p := w64 (B - K + t#[1]) in
   if p <? t#[1] then
     let v := w64 (v - 1) in
     if d1 <=? p then
       if (d1 <? p) || (d0 <=? t#[0]) then w64 (v - 1) else v
     else v
   else v)
  = (B * B * B - 1) / (d0 + B * d1) - B.
Proof.
  intros Hn Hd1 Hd0 Hv EK HK. cbv zeta.
  rewrite umul64_at0, umul64_at1 by assumption.
  pose proof B_pos as HB.
  pose proof (Z.div_mod (v * d0) B ltac:(lia)) as Et.
  pose proof (Z.mod_pos_bound (v * d0) B HB) as Ht0.
  assert (Ht1 : 0 <= v * d0 / B < B).
  { unfold word in *. split; [apply Z.div_pos; nia|].
    apply Z.div_lt_upper_bound; nia. }
  generalize dependent (v * d0 / B). intros t1 Et Ht1.
  generalize dependent ((v * d0) mod B). intros t0 Ht0 Et.
  unfold word in Hd0, Hv.
  set (D := d0 + B * d1).
  assert (HD : 0 < D) by (subst D; nia).
  assert (HD2 : B * B <= 2 * D) by (subst D; nia).
  assert (ER : B * B * B - (B + v) * D = B * K - (B * t1 + t0)).
  { subst D. rewrite EK, <- Et. ring. }
  assert (ER1 : B * B * B - (B + (v - 1)) * D = B * K - (B * t1 + t0) + D)
    by (rewrite <- ER; ring).
  assert (ER2 : B * B * B - (B + (v - 2)) * D = B * K - (B * t1 + t0) + 2 * D)
    by (rewrite <- ER; ring).
  assert (Hnn : forall r, B * B * B - (B + r) * D <= D -> 0 <= r).
  { intros r Hr. destruct (Z.lt_ge_cases r 0) as [Hneg|]; [exfalso|assumption].
    assert ((B + r + 1) * D <= B * D) by (apply Z.mul_le_mono_nonneg_r; lia).
    assert (D < B * B) by (subst D; nia).
    assert (B * D < B * (B * B)) by (apply Z.mul_lt_mono_pos_l; lia).
    lia. }
  assert (HBK : B * K <= B * d1) by (apply Z.mul_le_mono_nonneg_l; lia).
  assert (HBK1 : B * 1 <= B * K) by (apply Z.mul_le_mono_nonneg_l; lia).
  destruct (Z.lt_ge_cases t1 K) as [Hlt|Hge].
  - rewrite (w64_small (B - K + t1)) by (unfold word; lia).
    destruct (Z.ltb_spec (B - K + t1) t1); [lia|].
    apply recip3_unique; [assumption|]. fold D. rewrite ER.
    assert (B * (t1 + 1) <= B * K) by (apply Z.mul_le_mono_nonneg_l; lia).
    subst D. lia.
  - rewrite (w64_above (B - K + t1)) by lia.
    replace (B - K + t1 - B) with (t1 - K) by ring.
    destruct (Z.ltb_spec (t1 - K) t1); [|lia].
    assert (Ep : B * K - (B * t1 + t0) = - (B * (t1 - K) + t0)) by ring.
    rewrite Ep in *. clear Ep.
    assert (Hp : 0 <= t1 - K < B) by lia.
    generalize dependent (t1 - K). intros p ER ER1 ER2 _ Hp.
    assert (Hpb : B * p <= B * (B - 1)) by (apply Z.mul_le_mono_nonneg_l; lia).
    assert (Ecmp : (d1 <=? p) && ((d1 <? p) || (d0 <=? t0)) = (D <=? B * p + t0)).
    { subst D. destruct (Z.leb_spec d1 p) as [h1|h1];
        destruct (Z.ltb_spec d1 p) as [h2|h2];
        destruct (Z.leb_spec d0 t0) as [h3|h3];
        destruct (Z.leb_spec (d0 + B * d1) (B * p + t0)) as [h4|h4];
        cbn [andb orb]; try reflexivity; exfalso;
        clear - HB Ht0 Hd0 h1 h2 h3 h4; nia. }
    assert (Hv1 : 0 <= v - 1).
    { apply Hnn. destruct (Z.le_gt_cases D (B * p + t0)); [|lia].
      assert (0 <= v - 2) by (apply Hnn; lia). lia. }
    rewrite (w64_small (v - 1)) by (unfold word; lia).
    destruct (Z.leb_spec D (B * p + t0)) as [Hc|Hc].
    + assert (Hbr : (d1 <=? p) = true /\ (d1 <? p) || (d0 <=? t0) = true).
      { destruct (d1 <=? p); [|discriminate]. split; [reflexivity|].
        exact Ecmp. }
      destruct Hbr as [-> ->].
      assert (Hv2 : 0 <= v - 2) by (apply Hnn; lia).
      rewrite (w64_small (v - 1 - 1)) by (unfold word; lia).
      apply recip3_unique; [assumption|]. fold D.
      replace (v - 1 - 1) with (v - 2) by ring. lia.
    + assert (Hres : (if d1 <=? p
                      then if (d1 <? p) || (d0 <=? t0) then w64 (v - 1 - 1) else v - 1
                      else v - 1) = v - 1).
      { destruct (d1 <=? p); [|reflexivity]. cbn [andb] in Ecmp.
        rewrite Ecmp. reflexivity. }
      rewrite Hres. apply recip3_unique; [assumption|]. fold D. lia.
Qed.

Lemma reciprocal_3by2_correct d0 d1 :
  word d0 -> 2 ^ 63 <= d1 < 2 ^ 64 ->
  reciprocal_3by2 [d0; d1] = (2 ^ 192 - 1) / (d0 + 2 ^ 64 * d1) - 2 ^ 64.
Proof.
  intros Hd0 Hd1.
  change (2 ^ 192) with (2 ^ 64 * 2 ^ 64 * 2 ^ 64). rewrite <- !B_pow.
  pose proof (reciprocal_range d1 _ Hd1 eq_refl) as Hv0.
  destruct (reciprocal_gap (2 ^ 64) d1 _ ltac:(lia) eq_refl) as (K0 & HK0 & HK0').
  change (2 ^ 64 * 2 ^ 64) with (2 ^ 128) in HK0.
  cbv beta zeta delta [reciprocal_3by2]. rewrite !at_cons_S, !at_cons_0.
  rewrite reciprocal_2by1_correct by assumption.
  generalize dependent ((2 ^ 128 - 1) / d1 - 2 ^ 64). intros v0 Hv0 HK0.
  change (2 ^ 128) with (2 ^ 64 * 2 ^ 64) in HK0.
  rewrite <- !B_pow in *. pose proof B_pos as HB.
  assert (Hn : B <= 2 * d1) by (rewrite B_pow; lia).
  unfold word in Hd0.
  assert (E0 : w64 (d1 * v0) = B - K0).
  { apply w64_unique with (B - d1 - 1); [|unfold word; lia].
    replace (d1 * v0) with (B * B - K0 - B * d1) by lia. ring. }
  rewrite E0.
  assert (Hfin : forall v K,
    word v -> K = B * B - (B + v) * d1 - d0 -> 1 <= K <= d1 ->
    (if w64 (B - K + (umul64 v d0)#[1]) <? (umul64 v d0)#[1]
     then if d1 <=? w64 (B - K + (umul64 v d0)#[1])
          then if (d1 <? w64 (B - K + (umul64 v d0)#[1]))
                  || (d0 <=? (umul64 v d0)#[0])
               then w64 (w64 (v - 1) - 1) else w64 (v - 1)
          else w64 (v - 1)
     else v) = (B * B * B - 1) / (d0 + B * d1) - B).
  { intros v K Hv EK HK.
    exact (recip32_stage2 d1 d0 v K Hn ltac:(lia) Hd0 Hv EK HK). }
  destruct (Z.lt_ge_cases d0 K0) as [Hlt|Hge].
  - rewrite (w64_small (B - K0 + d0)) by (unfold word; lia).
    destruct (Z.ltb_spec (B - K0 + d0) d0); [lia|].
    replace (B - K0 + d0) with (B - (K0 - d0)) by ring.
    apply Hfin; [unfold word; lia| lia | lia].
  - rewrite (w64_above (B - K0 + d0)) by lia.
    replace (B - K0 + d0 - B) with (d0 - K0) by ring.
    destruct (Z.ltb_spec (d0 - K0) d0); [|lia].
    assert (Hp : 0 <= d0 - K0 < B) by lia.
    assert (EK1 : d1 - (d0 - K0) = B * B - (B + (v0 - 1)) * d1 - d0) by lia.
    generalize dependent (d0 - K0). intros p _ Hp EK1.
    destruct (Z.leb_spec d1 p) as [Hc|Hc].
    + assert (Hv2 : 0 <= v0 - 2).
      { apply (recip_nonneg B d1 d0); lia. }
      rewrite (w64_small (v0 - 1)) by (unfold word; lia).
      rewrite (w64_small (v0 - 1 - 1)) by (unfold word; lia).
      rewrite (w64_small (p - d1)) by (unfold word; lia).
      rewrite (w64_below (p - d1 - d1)) by lia.
      replace (p - d1 - d1 + B) with (B - (2 * d1 - p)) by ring.
      apply Hfin; [unfold word; lia| lia | lia].
    + assert (Hv1 : 0 <= v0 - 1).
      { apply (recip_nonneg B d1 d0); lia. }
      rewrite (w64_small (v0 - 1)) by (unfold word; lia).
      rewrite (w64_below (p - d1)) by lia.
      replace (p - d1 + B) with (B - (d1 - p)) by ring.
      apply Hfin; [unfold word; lia| lia | lia].
Qed.

(** [udivrem_3by2] divides a three-word number whose two high words are
    below the normalized two-word divisor. *)
Lemma udivrem_3by2_correct u2 u1 u0 d0 d1 v :
  word u0 -> word u1 -> word u2 -> word d0 -> 2 ^ 63 <= d1 < 2 ^ 64 ->
  u1 + B * u2 < d0 + B * d1 ->
  v = (2 ^ 192 - 1) / (d0 + 2 ^ 64 * d1) - 2 ^ 64 ->
  u0 + B * u1 + B * B * u2
  = fst (udivrem_3by2 u2 u1 u0 [d0; d1] v) * (d0 + B * d1)
    + value (snd (udivrem_3by2 u2 u1 u0 [d0; d1] v))
  /\ 0 <= value (snd (udivrem_3by2 u2 u1 u0 [d0; d1] v)) < d0 + B * d1
  /\ word (fst (udivrem_3by2 u2 u1 u0 [d0; d1] v))
  /\ words (snd (udivrem_3by2 u2 u1 u0 [d0; d1] v))
  /\ length (snd (udivrem_3by2 u2 u1 u0 [d0; d1] v)) = 2%nat.
Proof.
  intros Hu0 Hu1 Hu2 Hd0 Hd1 Hlt Ev.
  assert (Hd1w : word d1) by (unfold word; rewrite B_eq; lia).
  assert (Wd : words [d0; d1]) by (apply words_2; assumption).
  unfold word in Hu0, Hu1, Hu2, Hd0. rewrite B_pow in Hu0, Hu1, Hu2, Hd0, Hlt.
  pose proof (reciprocal3_range d1 d0 v Hd1 Hd0 Ev) as Hv.
  destruct (reciprocal3_gap (2 ^ 64) (d0 + 2 ^ 64 * d1) v ltac:(lia) Ev)
    as (k & Hk & Hk').
  assert (Hvw : word v) by (unfold word; rewrite B_pow; lia).
  assert (Hu0w : word u0) by (unfold word; rewrite B_pow; lia).
  assert (Hu1w : word u1) by (unfold word; rewrite B_pow; lia).
  assert (Hu2w : word u2) by (unfold word; rewrite B_pow; lia).
  assert (Hd0w : word d0) by (unfold word; rewrite B_pow; lia).
  pose proof (div3by2_q_range (2 ^ 64) (d0 + 2 ^ 64 * d1) v k u2 u1
                ltac:(lia) ltac:(lia) Hk ltac:(lia) ltac:(lia) ltac:(lia)
                ltac:(lia)) as Hqr.
  assert (Hq : value (fast_add (umul64 v u2) [u1; u2]) = v * u2 + (u1 + 2 ^ 64 * u2)).
  { unfold fast_add. rewrite uadd_value, umul64_value, value_2;
      auto using umul64_words, words_2.
    change (length (umul64 v u2)) with 2%nat. change (Z.of_nat 2) with 2.
    rewrite B_pow. change ((2 ^ 64) ^ 2) with (2 ^ 128).
    apply Z.mod_small. nia. }
  assert (Hql : length (fast_add (umul64 v u2) [u1; u2]) = 2%nat).
  { unfold fast_add. rewrite uadd_length; auto using umul64_words, words_2. }
  assert (Hqw : words (fast_add (umul64 v u2) [u1; u2])).
  { unfold fast_add. apply uadd_words; auto using umul64_words, words_2. }
  cbv beta zeta delta [udivrem_3by2].
  generalize dependent (fast_add (umul64 v u2) [u1; u2]). intros q Hq Hql Hqw.
  destruct q as [|q0 [|q1 [|? ?]]]; try discriminate. clear Hql.
  apply words_inv in Hqw as [Hq0w Hqw]. apply words_inv in Hqw as [Hq1w _].
  rewrite value_2, B_pow in Hq.
  assert (Hq0 := Hq0w). assert (Hq1 := Hq1w).
  unfold word in Hq0, Hq1. rewrite B_pow in Hq0, Hq1.
  rewrite !at_cons_S, !at_cons_0.
  destruct (rem3by2_code u2 u1 u0 d0 d1 q1 Hu0w Hd0w Hd1w Hq1w) as (VR & WR & LR).
  destruct (div3by2_candidate (2 ^ 64) d1 d0 (d0 + 2 ^ 64 * d1) v k u2 u1 u0 q1 q0)
    as (Hlo1 & Hlo2 & Hup & Hq1a & Hq1b & Hq1c & Hq1d); try lia.
  pose proof (div3by2_select (d0 + 2 ^ 64 * d1) q0 q1
                (u0 + 2 ^ 64 * u1 + 2 ^ 64 * 2 ^ 64 * u2
                 - (q1 + 1) * (d0 + 2 ^ 64 * d1))
                ltac:(lia) ltac:(lia) ltac:(lia) Hlo1 ltac:(lia) ltac:(lia)
                Hq1a Hq1b Hq1c Hq1d)
    as Hsel.
  cbv zeta in Hsel.
  rewrite <- VR in Hsel.
  clear Hlo1 Hlo2 Hup Hq1a Hq1b Hq1c Hq1d.
  assert (Eu : u0 + B * u1 + B * B * u2
               = (u0 + 2 ^ 64 * u1 + 2 ^ 64 * 2 ^ 64 * u2
                  - (q1 + 1) * (d0 + 2 ^ 64 * d1)) + (q1 + 1) * (d0 + 2 ^ 64 * d1))
    by (rewrite B_pow; ring).
  rewrite Eu. clear Eu VR.
  generalize dependent (u0 + 2 ^ 64 * u1 + 2 ^ 64 * 2 ^ 64 * u2
                        - (q1 + 1) * (d0 + 2 ^ 64 * d1)).
  intros rt Hsel.
  destruct (at1_value2 _ LR WR) as [E1 _]. rewrite B_pow in E1.
  generalize dependent
    (usub (usub [u0; w64 (u1 - w64 (q1 * d1))] (umul64 d0 q1)) [d0; d1]).
  intros R WR LR Hsel E1.
  rewrite E1.
  assert (VD : value [d0; d1] = d0 + 2 ^ 64 * d1) by (rewrite value_2, B_pow; ring).
  assert (VA : value (uadd R [d0; d1]) = (value R + (d0 + 2 ^ 64 * d1)) mod 2 ^ 128).
  { rewrite uadd_value, LR, VD by auto. rewrite B_pow. reflexivity. }
  assert (WA : words (uadd R [d0; d1])) by (apply uadd_words; auto).
  assert (LA : length (uadd R [d0; d1]) = 2%nat) by (rewrite uadd_length; auto).
  unfold w64. rewrite !B_pow.
  destruct (q0 <=? value R / 2 ^ 64); cbv beta iota; cbn [fst snd] in Hsel.
  - rewrite ult128_spec, VD, VA by auto.
    destruct ((value R + (d0 + 2 ^ 64 * d1)) mod 2 ^ 128 <? d0 + 2 ^ 64 * d1);
      cbn [negb fst snd] in *.
    + rewrite VA. unfold word. rewrite B_pow. split_and; auto; lia.
    + rewrite usub_value, LA, VD, VA by auto. rewrite B_pow.
      change ((2 ^ 64) ^ Z.of_nat 2) with (2 ^ 128).
      unfold word. rewrite B_pow. split_and; try lia.
      * apply usub_words; auto.
      * rewrite usub_length; auto.
  - rewrite ult128_spec, VD by auto.
    destruct (value R <? d0 + 2 ^ 64 * d1); cbn [negb fst snd] in *.
    + unfold word. rewrite B_pow. split_and; auto; lia.
    + rewrite usub_value, LR, VD by auto. rewrite B_pow.
      change ((2 ^ 64) ^ Z.of_nat 2) with (2 ^ 128).
      unfold word. rewrite B_pow. split_and; try lia.
      * apply usub_words; auto.
      * rewrite usub_length; auto.
Qed.

(** ** Counting leading zeros *)

Fixpoint halving (ss : list Z) (k : Z) : Prop :=
  match ss with
  | [] => k = 1
  | s :: ss' => k = 2 * s /\ 0 < s /\ halving ss' s
  end.

Lemma clz_loop_spec ss : forall n x k,
  halving ss k -> 0 < x < 2 ^ k ->
  snd (clz_loop ss n x) = 1
  /\ exists t, 0 <= t < k /\ fst (clz_loop ss n x) = n - t /\ x / 2 ^ t = 1.
Proof.
  induction ss as [|s ss IH]; intros n x k Hk Hx.
  - cbn [halving] in Hk. subst k. cbn [clz_loop fst snd].
    change (2 ^ 1) with 2 in Hx. split; [lia|].
    exists 0. split_and; try lia. change (2 ^ 0) with 1. rewrite Z.div_1_r. lia.
  - cbn [halving] in Hk. destruct Hk as (-> & Hs & Hk).
    cbn [clz_loop]. rewrite shr64_div by lia.
    assert (Hp : 0 < 2 ^ s) by (apply Z.pow_pos_nonneg; lia).
    assert (E2 : 2 ^ (2 * s) = 2 ^ s * 2 ^ s)
      by (rewrite <- Z.pow_add_r by lia; f_equal; lia).
    destruct (Z.eqb_spec (x / 2 ^ s) 0) as [E|E]; cbn [negb].
    + assert (Hx' : 0 < x < 2 ^ s).
      { split; [lia|]. apply Z.div_small_iff in E; lia. }
      destruct (IH n x s Hk Hx') as (H1 & t & Ht & H2 & H3).
      split; [assumption|]. exists t. split_and; auto; lia.
    + assert (Hx' : 0 < x / 2 ^ s < 2 ^ s).
      { split.
        - assert (0 <= x / 2 ^ s) by (apply Z.div_pos; lia). lia.
        - apply Z.div_lt_upper_bound; lia. }
      destruct (IH (n - s) (x / 2 ^ s) s Hk Hx') as (H1 & t & Ht & H2 & H3).
      split; [assumption|]. exists (s + t). split_and; try lia.
      rewrite Z.pow_add_r, <- Z.div_div by lia. assumption.
Qed.

Lemma clz64_spec x :
  0 < x < 2 ^ 64 ->
  0 <= clz64 x <= 63 /\ 2 ^ 63 <= x * 2 ^ clz64 x < 2 ^ 64.
Proof.
  intros Hx. unfold clz64.
  destruct (clz_loop_spec [32; 16; 8; 4; 2; 1] 64 x 64) as (H1 & t & Ht & H2 & H3).
  { cbn [halving]. lia. }
  { assumption. }
  cbv zeta. rewrite H1, H2.
  assert (Hp : 0 < 2 ^ t) by (apply Z.pow_pos_nonneg; lia).
  pose proof (Z.div_mod x (2 ^ t) ltac:(lia)) as E.
  pose proof (Z.mod_pos_bound x (2 ^ t) Hp) as Hm.
  rewrite H3 in E.
  replace (64 - t - 1) with (63 - t) by ring.
  assert (Hq : 0 < 2 ^ (63 - t)) by (apply Z.pow_pos_nonneg; lia).
  assert (E2 : 2 ^ t * 2 ^ (63 - t) = 2 ^ 63)
    by (rewrite <- Z.pow_add_r by lia; f_equal; lia).
  split; [lia|]. nia.
Qed.

Lemma clz64_normalized x :
  0 < x < 2 ^ 64 -> clz64 x = 0 -> 2 ^ 63 <= x.
Proof.
  intros Hx E. destruct (clz64_spec x Hx) as (_ & H). rewrite E in H.
  change (2 ^ 0) with 1 in H. lia.
Qed.

(** ** Words shifted across word boundaries *)

Lemma pow_split s : 0 <= s <= 64 -> 2 ^ s * 2 ^ (64 - s) = B.
Proof.
  intros Hs. rewrite <- Z.pow_add_r, B_pow by lia. f_equal. lia.
Qed.

Lemma shl64_split x s :
  0 <= s < 64 -> shl64 x s = (x mod 2 ^ (64 - s)) * 2 ^ s.
Proof.
  intros Hs. rewrite shl64_mul by lia. rewrite <- (pow_split s) by lia.
  rewrite (Z.mul_comm (2 ^ s) (2 ^ (64 - s))).
  assert (0 < 2 ^ s) by (apply Z.pow_pos_nonneg; lia).
  assert (0 < 2 ^ (64 - s)) by (apply Z.pow_pos_nonneg; lia).
  apply Z.mul_mod_distr_r; lia.
Qed.

Lemma shr_part_range x s :
  0 <= s <= 64 -> word x -> 0 <= x / 2 ^ (64 - s) < 2 ^ s.
Proof.
  intros Hs Hx. unfold word in Hx. rewrite <- (pow_split s) in Hx by lia.
  assert (0 < 2 ^ (64 - s)) by (apply Z.pow_pos_nonneg; lia).
  split; [apply Z.div_pos; lia|]. apply Z.div_lt_upper_bound; lia.
Qed.

(** [(hi << s) | (lo >> (64 - s))], the word of a shifted number that
    straddles [lo] and [hi]. *)
Lemma lor_shift hi lo s :
  0 < s < 64 -> word lo ->
  Z.lor (shl64 hi s) (shr64 lo (64 - s))
  = (hi mod 2 ^ (64 - s)) * 2 ^ s + lo / 2 ^ (64 - s).
Proof.
  intros Hs Hlo. rewrite shl64_split, shr64_div by lia.
  apply lor_disjoint; [lia|]. apply shr_part_range; [lia|assumption].
Qed.

Lemma lor_shift_word hi lo s :
  0 < s < 64 -> word lo -> word (Z.lor (shl64 hi s) (shr64 lo (64 - s))).
Proof.
  intros Hs Hlo. apply lor_word; [apply shl64_word|].
  apply shr64_word; [assumption|lia].
Qed.

(** [(lo >> s) | (hi << (64 - s))], the same for a right shift. *)
Lemma lor_unshift hi lo s :
  0 < s < 64 -> word lo ->
  Z.lor (shr64 lo s) (shl64 hi (64 - s))
  = lo / 2 ^ s + (hi mod 2 ^ s) * 2 ^ (64 - s).
Proof.
  intros Hs Hlo. rewrite Z.lor_comm.
  pose proof (lor_shift hi lo (64 - s) ltac:(lia) Hlo) as E.
  replace (64 - (64 - s)) with s in E by ring. rewrite E. ring.
Qed.

(** A word as its low [64 - s] bits and its high [s] bits. *)
Lemma word_parts x s :
  0 <= s <= 64 ->
  x = x mod 2 ^ (64 - s) + 2 ^ (64 - s) * (x / 2 ^ (64 - s)).
Proof.
  intros Hs. assert (0 < 2 ^ (64 - s)) by (apply Z.pow_pos_nonneg; lia).
  pose proof (Z.div_mod x (2 ^ (64 - s)) ltac:(lia)). lia.
Qed.

Lemma land_all_ones a : word a -> Z.land a (w64 (0 - 1)) = a.
Proof.
  intros Ha. change (w64 (0 - 1)) with (Z.ones 64).
  rewrite Z.land_ones by lia. apply Z.mod_small. unfold word in Ha.
  rewrite B_pow in Ha. assumption.
Qed.

Lemma shl64_twice x s :
  0 <= s < 64 -> shl64 (shl64 x 1) (63 - s) = (x mod 2 ^ s) * 2 ^ (64 - s).
Proof.
  intros Hs. rewrite (shl64_mul x 1) by lia. rewrite shl64_mul by lia.
  pose proof B_pos. rewrite Z.mul_mod_idemp_l by lia.
  replace (x * 2 ^ 1 * 2 ^ (63 - s)) with (x * 2 ^ (64 - s)).
  2:{ rewrite <- Z.mul_assoc, <- Z.pow_add_r by lia. do 2 f_equal. lia. }
  rewrite <- (pow_split s) by lia.
  assert (0 < 2 ^ s) by (apply Z.pow_pos_nonneg; lia).
  assert (0 < 2 ^ (64 - s)) by (apply Z.pow_pos_nonneg; lia).
  apply Z.mul_mod_distr_r; lia.
Qed.

(** [x >> s] on [uint128] for a shift below 64. *)
Lemma shr128_value x0 x1 s :
  word x0 -> word x1 -> 0 <= s < 64 ->
  value (shr128 [x0; x1] s) = (x0 + B * x1) / 2 ^ s
  /\ words (shr128 [x0; x1] s) /\ length (shr128 [x0; x1] s) = 2%nat.
Proof.
  intros H0 H1 Hs. unfold shr128.
  destruct (Z.ltb_spec s 64); [|lia]. rewrite !at_cons_S, !at_cons_0.
  assert (Hp : 0 < 2 ^ s) by (apply Z.pow_pos_nonneg; lia).
  assert (Hq : 0 < 2 ^ (64 - s)) by (apply Z.pow_pos_nonneg; lia).
  pose proof (pow_split s ltac:(lia)) as EB.
  assert (Hlow : 0 <= x0 / 2 ^ s < 2 ^ (64 - s)).
  { unfold word in H0. split; [apply Z.div_pos; lia|].
    apply Z.div_lt_upper_bound; lia. }
  assert (E : Z.lor (shr64 x0 s) (shl64 (shl64 x1 1) (63 - s))
              = x0 / 2 ^ s + (x1 mod 2 ^ s) * 2 ^ (64 - s)).
  { rewrite shl64_twice, shr64_div by lia. rewrite Z.lor_comm.
    rewrite lor_disjoint by lia. ring. }
  split_and.
  - rewrite E, value_2, shr64_div by lia.
    pose proof (Z.div_mod x1 (2 ^ s) ltac:(lia)) as E1.
    pose proof (Z.div_mod x0 (2 ^ s) ltac:(lia)) as E0.
    pose proof (Z.mod_pos_bound x0 (2 ^ s) Hp) as B0.
    apply Z.div_unique with (x0 mod 2 ^ s); [lia|].
    rewrite <- EB. clear E Hlow.
    rewrite E0 at 1. rewrite E1 at 1. ring.
  - apply words_2.
    + apply lor_word; [apply shr64_word; auto; lia | apply shl64_word].
    + apply shr64_word; auto; lia.
  - reflexivity.
Qed.

(** ** Division on [uint128] *)

(** The three words of [x << s] for a two-word [x]. *)
Lemma norm_words3 x0 x1 s :
  0 <= s < 64 ->
  (x0 mod 2 ^ (64 - s)) * 2 ^ s
  + B * ((x1 mod 2 ^ (64 - s)) * 2 ^ s + x0 / 2 ^ (64 - s))
  + B * B * (x1 / 2 ^ (64 - s))
  = 2 ^ s * (x0 + B * x1).
Proof.
  intros Hs. pose proof (pow_split s ltac:(lia)) as EB.
  pose proof (word_parts x0 s ltac:(lia)) as E0.
  pose proof (word_parts x1 s ltac:(lia)) as E1.
  rewrite E0 at 3. rewrite E1 at 3. rewrite <- EB. ring.
Qed.

(** The words [udivrem(uint128)] builds for a one-word divisor: the mask
    cancels the shifted-in bits when the shift is zero. *)
Lemma norm128_hi x1 x0 lsh :
  word x0 -> word x1 -> 0 <= lsh < 64 ->
  Z.lor (shl64 x1 lsh)
        (Z.land (shr64 x0 ((64 - lsh) mod 64)) (w64 (Z.b2z (lsh =? 0) - 1)))
  = (x1 mod 2 ^ (64 - lsh)) * 2 ^ lsh + x0 / 2 ^ (64 - lsh).
Proof.
  intros H0 H1 Hs. destruct (Z.eqb_spec lsh 0) as [->|Hne].
  - change (w64 (Z.b2z true - 1)) with 0. rewrite Z.land_0_r, Z.lor_0_r.
    rewrite shl64_split by lia. change (64 - 0) with 64.
    unfold word in H0. rewrite B_pow in H0. rewrite (Z.div_small x0) by lia. ring.
  - change (w64 (Z.b2z false - 1)) with (w64 (0 - 1)).
    rewrite Z.mod_small by lia.
    rewrite land_all_ones by (apply shr64_word; auto; lia).
    apply lor_shift; [lia|assumption].
Qed.

Lemma norm128_ex x1 lsh :
  word x1 -> 0 <= lsh < 64 ->
  Z.land (shr64 x1 ((64 - lsh) mod 64)) (w64 (Z.b2z (lsh =? 0) - 1))
  = x1 / 2 ^ (64 - lsh).
Proof.
  intros H1 Hs. destruct (Z.eqb_spec lsh 0) as [->|Hne].
  - change (w64 (Z.b2z true - 1)) with 0. rewrite Z.land_0_r.
    change (64 - 0) with 64.
    unfold word in H1. rewrite B_pow in H1. rewrite (Z.div_small x1) by lia. ring.
  - change (w64 (Z.b2z false - 1)) with (w64 (0 - 1)).
    rewrite Z.mod_small by lia.
    rewrite land_all_ones by (apply shr64_word; auto; lia).
    apply shr64_div. lia.
Qed.

Lemma udivrem128_by1 x0 x1 y0 :
  word x0 -> word x1 -> word y0 -> 0 < y0 ->
  let r := udivrem128 [x0; x1] [y0; 0] in
  x0 + B * x1 = value (fst r) * y0 + value (snd r)
  /\ 0 <= value (snd r) < y0
  /\ words (fst r) /\ length (fst r) = 2%nat
  /\ words (snd r) /\ length (snd r) = 2%nat.
Proof.
  intros H0 H1 Hy0 Hpos. cbv zeta. unfold udivrem128.
  rewrite !at_cons_S, !at_cons_0. rewrite Z.eqb_refl.
  assert (Hy : 0 < y0 < 2 ^ 64) by (unfold word in Hy0; rewrite B_pow in Hy0; lia).
  destruct (clz64_spec y0 Hy) as (Hs & Hn).
  generalize dependent (clz64 y0). intros s Hs Hn.
  cbv zeta.
  rewrite norm128_hi, norm128_ex by (auto; lia).
  rewrite (shl64_split x0) by lia.
  assert (Eyn : shl64 y0 s = y0 * 2 ^ s).
  { rewrite shl64_mul by lia. apply Z.mod_small. rewrite B_pow. lia. }
  rewrite Eyn.
  pose proof (norm_words3 x0 x1 s ltac:(lia)) as EN.
  pose proof (pow_split s ltac:(lia)) as EB.
  assert (Hp : 0 < 2 ^ s) by (apply Z.pow_pos_nonneg; lia).
  assert (Hq : 0 < 2 ^ (64 - s)) by (apply Z.pow_pos_nonneg; lia).
  assert (Hex : 0 <= x1 / 2 ^ (64 - s) < 2 ^ s) by (apply shr_part_range; auto; lia).
  assert (Hx0 : 0 <= x0 / 2 ^ (64 - s) < 2 ^ s) by (apply shr_part_range; auto; lia).
  pose proof (Z.mod_pos_bound x0 (2 ^ (64 - s)) Hq) as Hl0.
  pose proof (Z.mod_pos_bound x1 (2 ^ (64 - s)) Hq) as Hl1.
  assert (Wlo : word ((x0 mod 2 ^ (64 - s)) * 2 ^ s)) by (unfold word; nia).
  assert (Whi : word ((x1 mod 2 ^ (64 - s)) * 2 ^ s + x0 / 2 ^ (64 - s)))
    by (unfold word; nia).
  assert (Wex : word (x1 / 2 ^ (64 - s))) by (unfold word; nia).
  set (xlo := (x0 mod 2 ^ (64 - s)) * 2 ^ s) in *.
  set (xhi := (x1 mod 2 ^ (64 - s)) * 2 ^ s + x0 / 2 ^ (64 - s)) in *.
  set (xex := x1 / 2 ^ (64 - s)) in *.
  clearbody xlo xhi xex.
  clear Hx0 Hl0 Hl1.
  assert (Hyn : 2 ^ 63 <= y0 * 2 ^ s < 2 ^ 64) by lia.
  assert (Hps : 2 ^ s <= 2 ^ 63) by (apply Z.pow_le_mono_r; lia).
  rewrite reciprocal_2by1_correct by assumption.
  destruct (udivrem_2by1_correct xhi xex (y0 * 2 ^ s) _ Whi Wex ltac:(lia) Hyn eq_refl)
    as (E1 & R1 & Q1).
  generalize dependent (udivrem_2by1 [xhi; xex] (y0 * 2 ^ s)
                          ((2 ^ 128 - 1) / (y0 * 2 ^ s) - 2 ^ 64)).
  intros [q1 r1]. cbn [fst snd]. intros E1 R1 Q1.
  assert (Wr1 : word r1) by (unfold word; rewrite B_pow; lia).
  destruct (udivrem_2by1_correct xlo r1 (y0 * 2 ^ s) _ Wlo Wr1 ltac:(lia) Hyn eq_refl)
    as (E2 & R2 & Q2).
  generalize dependent (udivrem_2by1 [xlo; r1] (y0 * 2 ^ s)
                          ((2 ^ 128 - 1) / (y0 * 2 ^ s) - 2 ^ 64)).
  intros [q2 r2]. cbn [fst snd]. intros E2 R2 Q2.
  assert (Er : r2 = 2 ^ s * (x0 + B * x1 - (q2 + B * q1) * y0)).
  { assert (E1' : B * r1 = B * (xhi + B * xex) - B * (q1 * (y0 * 2 ^ s)))
      by (rewrite E1; ring).
    clear - E1' E2 EN. lia. }
  assert (Hr : shr64 r2 s = x0 + B * x1 - (q2 + B * q1) * y0).
  { rewrite shr64_div by lia. rewrite Er.
    rewrite (Z.mul_comm (2 ^ s)). apply Z.div_mul. lia. }
  rewrite Hr, of_u64_2, !value_2.
  set (r := x0 + B * x1 - (q2 + B * q1) * y0) in *.
  assert (Ex : x0 + B * x1 = (q2 + B * q1) * y0 + r) by (subst r; ring).
  clearbody r.
  assert (Hrr : 0 <= r < y0) by (clear - Er R2 Hp; nia).
  split_and; try lia.
  - apply words_2; assumption.
  - reflexivity.
  - apply words_2; [unfold word in *; lia | apply word_0].
  - reflexivity.
Qed.

Lemma lor_bits a b : Z.lor (Z.b2z a) (Z.b2z b) = Z.b2z (a || b).
Proof. destruct a, b; reflexivity. Qed.

Lemma udivrem128_by2 x0 x1 y0 y1 :
  word x0 -> word x1 -> word y0 -> word y1 -> 0 < y1 ->
  let r := udivrem128 [x0; x1] [y0; y1] in
  x0 + B * x1 = value (fst r) * (y0 + B * y1) + value (snd r)
  /\ 0 <= value (snd r) < y0 + B * y1
  /\ words (fst r) /\ length (fst r) = 2%nat
  /\ words (snd r) /\ length (snd r) = 2%nat.
Proof.
  intros H0 H1 Hy0 Hy1 Hpos. cbv zeta. unfold udivrem128.
  rewrite !at_cons_S, !at_cons_0.
  destruct (Z.eqb_spec y1 0) as [|_]; [lia|].
  pose proof B_pos as HB.
  assert (X0 := H0). assert (X1 := H1). assert (Y0 := Hy0). assert (Y1 := Hy1).
  unfold word in X0, X1, Y0, Y1.
  destruct (Z.ltb_spec x1 y1) as [Hlt|Hge].
  - (* the numerator is below the divisor *)
    cbn [fst snd]. rewrite of_u64_2, !value_2.
    split_and; try nia; try reflexivity; apply words_2; auto using word_0.
  - assert (Hy : 0 < y1 < 2 ^ 64) by (rewrite <- B_pow; lia).
    destruct (clz64_spec y1 Hy) as (Hs & Hn).
    pose proof (clz64_normalized y1 Hy) as Hnorm.
    generalize dependent (clz64 y1). intros s Hs Hn Hnorm.
    destruct (Z.eqb_spec s 0) as [->|Hne].
    + (* the divisor is normalized already: the quotient is 0 or 1 *)
      specialize (Hnorm eq_refl). rewrite lor_bits.
      assert (Hq : (y1 <? x1) || (y0 <=? x0) = (y0 + B * y1 <=? x0 + B * x1)).
      { destruct (Z.ltb_spec y1 x1); destruct (Z.leb_spec y0 x0);
          destruct (Z.leb_spec (y0 + B * y1) (x0 + B * x1));
          cbn [orb]; try reflexivity; exfalso; nia. }
      rewrite Hq. cbn [fst snd].
      assert (HB2 : B * B <= 2 * (y0 + B * y1)) by (rewrite B_pow in *; nia).
      assert (Hx : 0 <= x0 + B * x1 < B * B) by nia.
      assert (LB : B ^ Z.of_nat 2 = B * B) by (change (Z.of_nat 2) with 2; ring).
      destruct (Z.leb_spec (y0 + B * y1) (x0 + B * x1)) as [Hle|Hgt].
      * change (negb (Z.b2z true =? 0)) with true. cbv iota.
        rewrite usub_value by (auto using words_2).
        cbn [length]. rewrite LB, !value_2, of_u64_2, value_2.
        rewrite Z.mod_small by lia. cbn [Z.b2z].
        split_and; try lia.
        -- apply words_2; [unfold word; lia | apply word_0].
        -- reflexivity.
        -- apply usub_words; auto using words_2.
        -- rewrite usub_length; auto using words_2.
      * change (negb (Z.b2z false =? 0)) with false. cbv iota.
        rewrite usub_value by (auto using words_2, of_u64_words, word_0).
        cbn [length]. rewrite LB, !value_2, !of_u64_2, !value_2.
        rewrite Z.mod_small by lia. cbn [Z.b2z].
        split_and; try lia.
        -- apply words_2; apply word_0.
        -- reflexivity.
        -- apply usub_words; auto using words_2, word_0.
        -- rewrite usub_length; auto using words_2, word_0.
    + (* normalize, then one 3-by-2 division *)
      clear Hnorm.
      rewrite !lor_shift by (auto; lia). rewrite !shl64_split by lia.
      rewrite (shr64_div x1) by lia.
      pose proof (norm_words3 x0 x1 s ltac:(lia)) as EN.
      pose proof (norm_words3 y0 y1 s ltac:(lia)) as EM.
      pose proof (pow_split s ltac:(lia)) as EB.
      assert (Hp : 0 < 2 ^ s) by (apply Z.pow_pos_nonneg; lia).
      assert (Hq : 0 < 2 ^ (64 - s)) by (apply Z.pow_pos_nonneg; lia).
      assert (Hps : 2 ^ s <= 2 ^ 63) by (apply Z.pow_le_mono_r; lia).
      assert (Hy1q : y1 < 2 ^ (64 - s)).
      { rewrite B_pow in EB. nia. }
      rewrite (Z.mod_small y1) in * by lia.
      rewrite (Z.div_small y1) in EM by lia.
      assert (Hex : 0 <= x1 / 2 ^ (64 - s) < 2 ^ s) by (apply shr_part_range; auto; lia).
      assert (Hx0 : 0 <= x0 / 2 ^ (64 - s) < 2 ^ s) by (apply shr_part_range; auto; lia).
      assert (Hy0' : 0 <= y0 / 2 ^ (64 - s) < 2 ^ s) by (apply shr_part_range; auto; lia).
      pose proof (Z.mod_pos_bound x0 (2 ^ (64 - s)) Hq) as Hl0.
      pose proof (Z.mod_pos_bound x1 (2 ^ (64 - s)) Hq) as Hl1.
      pose proof (Z.mod_pos_bound y0 (2 ^ (64 - s)) Hq) as Hm0.
      assert (Wlo : word ((x0 mod 2 ^ (64 - s)) * 2 ^ s))
        by (unfold word; clear - Hl0 Hp Hq EB; nia).
      assert (Whi : word ((x1 mod 2 ^ (64 - s)) * 2 ^ s + x0 / 2 ^ (64 - s)))
        by (unfold word; clear - Hl1 Hx0 Hp Hq EB; nia).
      assert (Wex : word (x1 / 2 ^ (64 - s)))
        by (unfold word; clear - Hex Hp Hq EB; nia).
      assert (Vlo : word ((y0 mod 2 ^ (64 - s)) * 2 ^ s))
        by (unfold word; clear - Hm0 Hp Hq EB; nia).
      assert (Vhi : 2 ^ 63 <= y1 * 2 ^ s + y0 / 2 ^ (64 - s) < 2 ^ 64)
        by (rewrite B_pow in EB; nia).
      assert (Hpre : (x1 mod 2 ^ (64 - s)) * 2 ^ s + x0 / 2 ^ (64 - s)
                     + B * (x1 / 2 ^ (64 - s))
                     < (y0 mod 2 ^ (64 - s)) * 2 ^ s
                       + B * (y1 * 2 ^ s + y0 / 2 ^ (64 - s))).
      { pose proof (word_parts x1 s ltac:(lia)) as E1.
        assert (E1' : (x1 mod 2 ^ (64 - s)) * 2 ^ s + B * (x1 / 2 ^ (64 - s))
                      = 2 ^ s * x1) by (rewrite E1 at 3; rewrite <- EB; ring).
        assert (2 ^ s * x1 + 2 ^ s <= 2 ^ s * B) by nia.
        assert (2 ^ s * B <= B * (y1 * 2 ^ s)) by nia.
        assert (0 <= (y0 mod 2 ^ (64 - s)) * 2 ^ s)
          by (apply Z.mul_nonneg_nonneg; lia).
        assert (0 <= B * (y0 / 2 ^ (64 - s)))
          by (apply Z.mul_nonneg_nonneg; [pose proof B_pos; lia|lia]).
        lia. }
      set (xlo := (x0 mod 2 ^ (64 - s)) * 2 ^ s) in *.
      set (xhi := (x1 mod 2 ^ (64 - s)) * 2 ^ s + x0 / 2 ^ (64 - s)) in *.
      set (xex := x1 / 2 ^ (64 - s)) in *.
      set (ylo := (y0 mod 2 ^ (64 - s)) * 2 ^ s) in *.
      set (yhi := y1 * 2 ^ s + y0 / 2 ^ (64 - s)) in *.
      clearbody xlo xhi xex ylo yhi. clear Hx0 Hl0 Hl1 Hm0 Hy0'.
      rewrite reciprocal_3by2_correct by (auto; lia).
      destruct (udivrem_3by2_correct xex xhi xlo ylo yhi _ Wlo Whi Wex Vlo Vhi
                  Hpre ltac:(rewrite <- B_pow; reflexivity))
        as (E & R & Q & WR & LR).
      rewrite B_pow in E, R. rewrite <- B_pow in E, R.
      set (res := udivrem_3by2 xex xhi xlo [ylo; yhi] _) in *.
      clearbody res. destruct res as [q r]. cbn [fst snd] in *.
      destruct r as [|r0 [|r1 [|? ?]]]; try discriminate.
      apply words_inv in WR as [Wr0 WR]. apply words_inv in WR as [Wr1 _].
      destruct (shr128_value r0 r1 s Wr0 Wr1 ltac:(lia)) as (VS & WS & LS).
      rewrite VS, of_u64_2, value_2. rewrite value_2 in E, R.
      assert (Er : r0 + B * r1 = 2 ^ s * (x0 + B * x1 - q * (y0 + B * y1))).
      { clear - E EN EM. 
        replace (ylo + B * yhi) with (2 ^ s * (y0 + B * y1)) in E by lia. lia. }
      rewrite Er. rewrite (Z.mul_comm (2 ^ s)), Z.div_mul by lia.
      set (r := x0 + B * x1 - q * (y0 + B * y1)) in *.
      assert (Ex : x0 + B * x1 = q * (y0 + B * y1) + r) by (subst r; ring).
      clearbody r.
      assert (Hrr : 0 <= r < y0 + B * y1).
      { replace (ylo + B * yhi) with (2 ^ s * (y0 + B * y1)) in R by lia.
        clear - R Er Hp. nia. }
      split_and; try lia; auto.
      * apply words_2; [assumption | apply word_0].
Qed.

(** [udivrem(uint128, uint128)] returns the quotient and the remainder. *)
Lemma udivrem128_correct x y :
  length x = 2%nat -> length y = 2%nat -> words x -> words y ->
  value y <> 0 ->
  value x = value (fst (udivrem128 x y)) * value y + value (snd (udivrem128 x y))
  /\ 0 <= value (snd (udivrem128 x y)) < value y
  /\ words (fst (udivrem128 x y)) /\ length (fst (udivrem128 x y)) = 2%nat
  /\ words (snd (udivrem128 x y)) /\ length (snd (udivrem128 x y)) = 2%nat.
Proof.
  intros Lx Ly Wx Wy Hy.
  destruct x as [|x0 [|x1 [|? ?]]]; try discriminate.
  destruct y as [|y0 [|y1 [|? ?]]]; try discriminate.
  apply words_inv in Wx as [H0 Wx]. apply words_inv in Wx as [H1 _].
  apply words_inv in Wy as [Hy0 Wy]. apply words_inv in Wy as [Hy1 _].
  rewrite !value_2 in *.
  destruct (Z.eq_dec y1 0) as [->|Hne].
  - replace (y0 + B * 0) with y0 in * by ring.
    apply udivrem128_by1; auto. unfold word in Hy0. lia.
  - apply udivrem128_by2; auto. unfold word in Hy1. lia.
Qed.

(** ** Equality and order *)

Lemma ueq_loop_false x : forall y, ueq_loop x y false = false.
Proof.
  induction x as [|xi x IH]; intros [|yi y]; cbn [ueq_loop]; auto.
Qed.

Lemma ueq_generic_spec x : forall y,
  length x = length y -> ueq_generic x y = true <-> x = y.
Proof.
  unfold ueq_generic.
  induction x as [|xi x IH]; intros [|yi y] L; try discriminate.
  - cbn [ueq_loop]. tauto.
  - cbn [ueq_loop andb]. cbn [length] in L. injection L as L.
    destruct (Z.eqb_spec xi yi) as [->|Hne].
    + rewrite IH by assumption. split; [intros ->; reflexivity|].
      intros H. injection H as H. assumption.
    + rewrite ueq_loop_false. split; [discriminate|].
      intros H. injection H as H _. contradiction.
Qed.

Lemma ueq_spec x y :
  length x = length y -> words x -> words y ->
  ueq x y = (value x =? value y).
Proof.
  intros L Wx Wy. unfold ueq.
  assert (G : ueq_generic x y = (value x =? value y)).
  { destruct (ueq_generic x y) eqn:E.
    - apply ueq_generic_spec in E; [|assumption]. subst y.
      symmetry. apply Z.eqb_refl.
    - symmetry. apply Z.eqb_neq. intros Hv.
      apply value_inj in Hv; auto.
      apply (ueq_generic_spec x y L) in Hv. congruence. }
  destruct (length x) as [|[|[|n]]] eqn:E; try exact G.
  apply ueq128_spec; congruence.
Qed.

Lemma une_spec x y :
  length x = length y -> words x -> words y ->
  une x y = negb (value x =? value y).
Proof.
  intros L Wx Wy.
  assert (G : negb (ueq_generic x y) = negb (value x =? value y)).
  { f_equal. destruct (ueq_generic x y) eqn:E.
    - apply ueq_generic_spec in E; [|assumption]. subst y.
      symmetry. apply Z.eqb_refl.
    - symmetry. apply Z.eqb_neq. intros Hv.
      apply value_inj in Hv; auto.
      apply (ueq_generic_spec x y L) in Hv. congruence. }
  unfold une.
  destruct (length x) as [|[|[|n]]] eqn:E; try exact G.
  destruct x as [|x0 [|x1 [|? ?]]]; try discriminate.
  destruct y as [|y0 [|y1 [|? ?]]]; try discriminate.
  apply words_inv in Wx as [H0 Wx]. apply words_inv in Wx as [H1 _].
  apply words_inv in Wy as [Hy0 Wy]. apply words_inv in Wy as [Hy1 _].
  unfold une128. rewrite !at_cons_S, !at_cons_0, !value_2.
  unfold word in *. pose proof B_pos.
  destruct (Z.eqb_spec x0 y0); destruct (Z.eqb_spec x1 y1);
    destruct (Z.eqb_spec (x0 + B * x1) (y0 + B * y1));
    cbn [negb orb]; try reflexivity; exfalso; nia.
Qed.

Lemma ule_spec x y :
  length x = length y -> words x -> words y ->
  ule x y = (value x <=? value y).
Proof.
  intros L Wx Wy. unfold ule. rewrite ult_spec by auto.
  destruct (Z.ltb_spec (value y) (value x)); destruct (Z.leb_spec (value x) (value y));
    cbn [negb]; try reflexivity; lia.
Qed.

Lemma ugt_spec x y :
  length x = length y -> words x -> words y ->
  ugt x y = (value y <? value x).
Proof. intros L Wx Wy. unfold ugt. apply ult_spec; auto. Qed.

Lemma uge_spec x y :
  length x = length y -> words x -> words y ->
  uge x y = (value y <=? value x).
Proof.
  intros L Wx Wy. unfold uge. rewrite ult_spec by auto.
  destruct (Z.ltb_spec (value x) (value y)); destruct (Z.leb_spec (value y) (value x));
    cbn [negb]; try reflexivity; lia.
Qed.

(** ** The signed reading *)

Lemma value_top x : forall n,
  length x = S n -> value x = value (firstn n x) + B ^ Z.of_nat n * x#[n].
Proof.
  intros n L.
  rewrite <- (firstn_skipn n x) at 1. rewrite value_app.
  rewrite length_firstn, L, Nat.min_l by lia.
  rewrite (skipn_at x n) by lia.
  rewrite (skipn_all2 x (n := S n)) by lia.
  rewrite value_cons. cbn [value]. ring.
Qed.

Lemma to_int64_neg w : word w -> (to_int64 w <? 0) = (2 ^ 63 <=? w).
Proof.
  unfold word, to_int64. rewrite B_pow. intros Hw.
  destruct (Z.ltb_spec w (2 ^ 63)); destruct (Z.leb_spec (2 ^ 63) w);
    lia.
Qed.

(** The sign bit of the top word decides the sign of the whole number. *)
Lemma signed_top x n :
  length x = S n -> words x ->
  (2 ^ 63 <=? x#[n]) = (signed x <? 0)
  /\ - (B ^ Z.of_nat (S n) / 2) <= signed x < B ^ Z.of_nat (S n) / 2.
Proof.
  intros L W. unfold signed. rewrite L.
  pose proof (value_range x W) as R. rewrite L in R.
  pose proof (value_top x n L) as E.
  pose proof (value_range (firstn n x) (words_firstn x n W)) as Rl.
  rewrite length_firstn, L, Nat.min_l in Rl by lia.
  pose proof (at_word x n W) as Wt. unfold word in Wt.
  rewrite Bpow_S in *. rewrite B_pow in Wt.
  assert (Hhalf : B * B ^ Z.of_nat n / 2 = 2 ^ 63 * B ^ Z.of_nat n).
  { rewrite B_pow at 1. change (2 ^ 64) with (2 ^ 63 * 2).
    rewrite <- Z.mul_assoc, (Z.mul_comm 2), Z.mul_assoc. apply Z.div_mul. lia. }
  rewrite Hhalf.
  pose proof (Bpow_pos n) as Hp.
  generalize dependent (B ^ Z.of_nat n). intros P R E Rl Hhalf Hp.
  generalize dependent (value (firstn n x)). intros lo E Rl.
  generalize dependent (x#[n]). intros t Wt E.
  generalize dependent (value x). intros v R E. subst v.
  assert (HB : B = 2 ^ 63 * 2) by (rewrite B_pow; reflexivity).
  rewrite HB in *.
  destruct (Z.leb_spec (2 ^ 63) t); destruct (Z.ltb_spec (lo + P * t) (2 ^ 63 * P)).
  - exfalso; nia.
  - split; [symmetry; apply Z.ltb_lt; nia | nia].
  - split; [symmetry; apply Z.ltb_ge; nia | nia].
  - exfalso; nia.
Qed.

Lemma slt_spec x y :
  length x = length y -> (0 < length x)%nat -> words x -> words y ->
  slt x y = (signed x <? signed y).
Proof.
  intros L Hn Wx Wy. unfold slt. cbv zeta.
  destruct (length x) as [|n] eqn:Lx; [lia|].
  replace (S n - 1)%nat with n by lia.
  rewrite !to_int64_neg by (apply at_word; assumption).
  destruct (signed_top x n Lx Wx) as [Ex Rx].
  destruct (signed_top y n (eq_sym L) Wy) as [Ey Ry].
  rewrite Ex, Ey.
  assert (U : ult x y = (value x <? value y)) by (apply ult_spec; auto; congruence).
  rewrite U. clear U Ex Ey.
  pose proof (value_range x Wx) as Vx. pose proof (value_range y Wy) as Vy.
  unfold signed in *. rewrite <- L, Lx in *.
  generalize dependent (B ^ Z.of_nat (S n) / 2).
  generalize dependent (B ^ Z.of_nat (S n)). intros N Vx Vy h Rx Ry.
  destruct (Z.ltb_spec (value x) h); destruct (Z.ltb_spec (value y) h);
    match goal with
    | |- context [xorb (?a <? 0) (?b <? 0)] =>
        destruct (Z.ltb_spec a 0); destruct (Z.ltb_spec b 0)
    end; cbn [xorb]; lia.
Qed.

(** ** Bitwise operators and negation *)

Lemma not64_value w : word w -> not64 w = B - 1 - w.
Proof.
  intros Hw. unfold not64. unfold word in Hw.
  pose proof (Z.add_lnot_diag w) as E.
  replace (Z.lnot w) with (- 1 - w) by lia.
  rewrite w64_below by lia. ring.
Qed.

Lemma unot_spec x :
  words x ->
  value (unot x) = B ^ Z.of_nat (length x) - 1 - value x
  /\ words (unot x) /\ length (unot x) = length x.
Proof.
  induction x as [|w x IH]; intros W.
  - cbn. split_and; auto using words_nil.
  - apply words_inv in W as [Hw W]. destruct (IH W) as (V & Ws & L).
    unfold unot in *. cbn [map length]. rewrite Bpow_S, !value_cons, V.
    rewrite not64_value by assumption. split_and.
    + ring.
    + apply words_cons; [|assumption]. unfold word in *. lia.
    + cbn [length]. congruence.
Qed.

(** Unary minus, in both forms, is negation modulo [2^N]. *)
Lemma uneg_generic_spec x :
  words x -> (0 < length x)%nat ->
  value (uneg_generic x) = (- value x) mod B ^ Z.of_nat (length x)
  /\ words (uneg_generic x) /\ length (uneg_generic x) = length x.
Proof.
  intros W Hn. destruct (unot_spec x W) as (V & Ws & L).
  unfold uneg_generic.
  assert (L1 : length (unot x) = length (of_u64 (length x) 1))
    by (rewrite of_u64_length; assumption).
  assert (W1 : words (of_u64 (length x) 1))
    by (apply of_u64_words; unfold word; rewrite B_eq; lia).
  split_and.
  - rewrite uadd_value by auto. rewrite V, L, of_u64_value by assumption.
    replace (B ^ Z.of_nat (length x) - 1 - value x + 1)
      with (- value x + 1 * B ^ Z.of_nat (length x)) by ring.
    apply Z.mod_add. pose proof (Bpow_pos (length x)). lia.
  - apply uadd_words; auto.
  - rewrite uadd_length; auto.
Qed.

Lemma uneg128_spec x :
  words x -> length x = 2%nat ->
  value (uneg128 x) = (- value x) mod B ^ 2
  /\ words (uneg128 x) /\ length (uneg128 x) = 2%nat.
Proof.
  intros W L. unfold uneg128.
  assert (W0 : words (of_u64 2 0)) by (apply of_u64_words, word_0).
  split_and.
  - rewrite usub_value by auto. rewrite of_u64_length, of_u64_value by lia.
    reflexivity.
  - apply usub_words; auto.
  - rewrite usub_length; auto.
Qed.

(** The bit [n] of a number given by its low word and the rest. *)
Lemma testbit_cons a x n :
  word a -> 0 <= n ->
  Z.testbit (a + B * x) n = if n <? 64 then Z.testbit a n else Z.testbit x (n - 64).
Proof.
  intros Ha Hn. unfold word in Ha. rewrite B_pow in *.
  rewrite Z.add_comm, Z.mul_comm, <- lor_disjoint by lia.
  rewrite Z.lor_spec, <- Z.shiftl_mul_pow2 by lia.
  destruct (Z.ltb_spec n 64).
  - rewrite Z.shiftl_spec_low by lia. reflexivity.
  - rewrite Z.shiftl_spec by lia.
    replace (Z.testbit a n) with false; [apply orb_false_r|].
    symmetry. rewrite <- (Z.mod_small a (2 ^ 64)) by lia.
    apply Z.mod_pow2_bits_high. lia.
Qed.

Section Bitwise.
Variable op : Z -> Z -> Z.
Variable bop : bool -> bool -> bool.
Hypothesis op_spec : forall a b n, Z.testbit (op a b) n = bop (Z.testbit a n) (Z.testbit b n).
Hypothesis op_word : forall a b, word a -> word b -> word (op a b).

Lemma bitwise_spec x : forall y,
  length x = length y -> words x -> words y ->
  value (map (fun p => op (fst p) (snd p)) (combine x y)) = op (value x) (value y)
  /\ words (map (fun p => op (fst p) (snd p)) (combine x y))
  /\ length (map (fun p => op (fst p) (snd p)) (combine x y)) = length x.
Proof.
  induction x as [|a x IH]; intros [|b y] L Wx Wy; try discriminate.
  - cbn [combine map value length]. split_and; auto using words_nil.
    symmetry. apply Z.bits_inj'. intros m Hm. rewrite op_spec, !Z.bits_0.
    destruct (bop false false) eqn:Eb; [|reflexivity].
    exfalso. pose proof (op_word 0 0 word_0 word_0) as H.
    pose proof (op_spec 0 0 64) as E64.
    rewrite !Z.bits_0, Eb in E64.
    unfold word in H. rewrite B_pow in H.
    rewrite <- (Z.mod_small (op 0 0) (2 ^ 64)) in E64 by lia.
    rewrite Z.mod_pow2_bits_high in E64 by lia. discriminate.
  - cbn [length] in L. injection L as L.
    apply words_inv in Wx as [Ha Wx]. apply words_inv in Wy as [Hb Wy].
    destruct (IH y L Wx Wy) as (V & Ws & Ln).
    cbn [combine map fst snd length]. rewrite !value_cons, V. split_and.
    + apply Z.bits_inj'. intros n Hn.
      rewrite op_spec, !testbit_cons by auto.
      destruct (n <? 64); apply op_spec.
    + apply words_cons; auto.
    + cbn [length]. congruence.
Qed.
End Bitwise.

Lemma uor_spec x y :
  length x = length y -> words x -> words y ->
  value (uor x y) = Z.lor (value x) (value y)
  /\ words (uor x y) /\ length (uor x y) = length x.
Proof.
  apply (bitwise_spec Z.lor orb); [apply Z.lor_spec | apply lor_word].
Qed.

Lemma uand_spec x y :
  length x = length y -> words x -> words y ->
  value (uand x y) = Z.land (value x) (value y)
  /\ words (uand x y) /\ length (uand x y) = length x.
Proof.
  apply (bitwise_spec Z.land andb); [apply Z.land_spec |].
  intros a b Ha _. apply land_word. assumption.
Qed.

Lemma lxor_word a b : word a -> word b -> word (Z.lxor a b).
Proof.
  unfold word. rewrite B_pow. intros Ha Hb. split.
  - apply Z.lxor_nonneg. lia.
  - assert (E : Z.lxor a b = Z.lxor a b mod 2 ^ 64).
    { apply Z.bits_inj'. intros n Hn.
      destruct (Z.ltb_spec n 64).
      - rewrite Z.mod_pow2_bits_low by lia. reflexivity.
      - rewrite Z.mod_pow2_bits_high by lia. rewrite Z.lxor_spec.
        rewrite <- (Z.mod_small a (2 ^ 64)), <- (Z.mod_small b (2 ^ 64)) by lia.
        rewrite !Z.mod_pow2_bits_high by lia. reflexivity. }
    rewrite E. apply Z.mod_pos_bound. lia.
Qed.

Lemma uxor_spec x y :
  length x = length y -> words x -> words y ->
  value (uxor x y) = Z.lxor (value x) (value y)
  /\ words (uxor x y) /\ length (uxor x y) = length x.
Proof.
  apply (bitwise_spec Z.lxor xorb); [apply Z.lxor_spec | apply lxor_word].
Qed.

(** ** The one-word carry primitives *)

Lemma add_with_carry64_spec x y k :
  word x -> word y ->
  fst (add_with_carry64 x y k) + B * Z.b2z (snd (add_with_carry64 x y k))
  = x + y + Z.b2z k
  /\ word (fst (add_with_carry64 x y k)).
Proof.
  intros Hx Hy. unfold add_with_carry64. cbv zeta. cbn [fst snd].
  split; [|apply w64_range].
  destruct (Z.ltb_spec (w64 (x + y)) x);
    destruct (Z.ltb_spec (w64 (w64 (x + y) + Z.b2z k)) (w64 (x + y)));
    destruct k; cbn [orb Z.b2z] in *; word_lia.
Qed.

Lemma sub_with_carry64_spec x y k :
  word x -> word y ->
  fst (sub_with_carry64 x y k) - B * Z.b2z (snd (sub_with_carry64 x y k))
  = x - y - Z.b2z k
  /\ word (fst (sub_with_carry64 x y k)).
Proof.
  intros Hx Hy. unfold sub_with_carry64. cbv zeta. cbn [fst snd].
  split; [|apply w64_range].
  destruct (Z.ltb_spec x y);
    destruct (Z.ltb_spec (w64 (x - y)) (Z.b2z k));
    destruct k; cbn [orb Z.b2z] in *; word_lia.
Qed.

(** ** Significant words, bytes and leading zeros *)

Lemma csw_loop_trim x i : csw_loop x i = trim_words x i.
Proof.
  induction i as [|i IH]; [reflexivity|].
  cbn [csw_loop trim_words]. destruct (x#[i] =? 0); cbn [negb]; auto.
Qed.

Lemma trim_words_spec x : forall m,
  (trim_words x m <= m)%nat
  /\ (forall i, (trim_words x m <= i < m)%nat -> x#[i] = 0)
  /\ ((0 < trim_words x m)%nat -> x#[trim_words x m - 1] <> 0).
Proof.
  induction m as [|m IH]; cbn [trim_words].
  - split_and; lia.
  - destruct (Z.eqb_spec x#[m] 0) as [E|E].
    + destruct IH as (H1 & H2 & H3). split_and; auto.
      intros i Hi. destruct (Nat.eq_dec i m) as [->|Hne]; [assumption|].
      apply H2. lia.
    + split_and; try lia.
      intros _. replace (S m - 1)%nat with m by lia. assumption.
Qed.

(** A number whose words from [k] on are zero is given by its first [k]
    words. *)
Lemma value_firstn_zeros x : forall k,
  (forall i, (k <= i < length x)%nat -> x#[i] = 0) ->
  value x = value (firstn k x).
Proof.
  induction x as [|w x IH]; intros k H.
  - rewrite firstn_nil. reflexivity.
  - destruct k as [|k].
    + cbn [firstn]. rewrite value_cons.
      rewrite (IH 0%nat).
      * cbn [firstn value]. pose proof (H 0%nat ltac:(cbn [length]; lia)) as H0.
        rewrite at_cons_0 in H0. lia.
      * intros i Hi. specialize (H (S i) ltac:(cbn [length]; lia)).
        rewrite at_cons_S in H. assumption.
    + cbn [firstn]. rewrite !value_cons. f_equal. f_equal. apply IH.
      intros i Hi. specialize (H (S i) ltac:(cbn [length]; lia)).
      rewrite at_cons_S in H. assumption.
Qed.

(** [count_significant_words]: the words from the count on are zero, and
    the word below the count is not. *)
Lemma count_significant_words_spec x :
  words x ->
  let k := count_significant_words x in
  (k <= length x)%nat
  /\ value x < B ^ Z.of_nat k
  /\ ((0 < k)%nat -> x#[k - 1] <> 0 /\ B ^ Z.of_nat (k - 1) <= value x)
  /\ (k = 0%nat <-> value x = 0).
Proof.
  intros W k. subst k. unfold count_significant_words.
  rewrite csw_loop_trim.
  destruct (trim_words_spec x (length x)) as (H1 & H2 & H3).
  set (k := trim_words x (length x)) in *.
  pose proof (value_firstn_zeros x k H2) as E.
  pose proof (value_range (firstn k x) (words_firstn x k W)) as R.
  rewrite length_firstn, Nat.min_l in R by assumption.
  assert (Hpos : (0 < k)%nat -> x#[k - 1] <> 0 /\ B ^ Z.of_nat (k - 1) <= value x).
  { intros Hk. specialize (H3 Hk). split; [assumption|].
    rewrite E. destruct k as [|k']; [lia|].
    replace (S k' - 1)%nat with k' in * by lia.
    rewrite (value_top (firstn (S k') x) k')
      by (rewrite length_firstn; lia).
    pose proof (value_range (firstn k' (firstn (S k') x))
                  (words_firstn _ k' (words_firstn x (S k') W))) as R'.
    assert (Et : (firstn (S k') x)#[k'] = x#[k']).
    { change (firstn (S k') x) with (window x 0 (S k')).
      rewrite window_at by lia. reflexivity. }
    rewrite Et. pose proof (at_word x k' W) as Wt. unfold word in Wt.
    pose proof (Bpow_pos k'). nia. }
  clearbody k.
  split_and; auto; try lia. split.
  - intros ->. rewrite E. reflexivity.
  - intros Hv. destruct k as [|k']; [reflexivity|].
    destruct (Hpos ltac:(lia)) as [_ Hge].
    pose proof (Bpow_pos (S k' - 1)). lia.
Qed.

Lemma clz64_zero : clz64 0 = 64.
Proof. reflexivity. Qed.

Lemma clz64_bitlen x :
  0 < x < 2 ^ 64 -> 2 ^ (63 - clz64 x) <= x < 2 ^ (64 - clz64 x).
Proof.
  intros Hx. destruct (clz64_spec x Hx) as (Hc & Hn).
  set (c := clz64 x) in *. clearbody c.
  assert (Hp : 0 < 2 ^ c) by (apply Z.pow_pos_nonneg; lia).
  assert (E1 : 2 ^ 63 = 2 ^ (63 - c) * 2 ^ c)
    by (rewrite <- Z.pow_add_r by lia; f_equal; lia).
  assert (E2 : 2 ^ 64 = 2 ^ (64 - c) * 2 ^ c)
    by (rewrite <- Z.pow_add_r by lia; f_equal; lia).
  rewrite E1, E2 in Hn. nia.
Qed.

Lemma clz32_spec x :
  0 < x < 2 ^ 32 ->
  0 <= clz32 x <= 31 /\ 2 ^ 31 <= x * 2 ^ clz32 x < 2 ^ 32.
Proof.
  intros Hx. unfold clz32.
  destruct (clz_loop_spec [16; 8; 4; 2; 1] 32 x 32) as (H1 & t & Ht & H2 & H3).
  { cbn [halving]. lia. }
  { assumption. }
  cbv zeta. rewrite H1, H2.
  assert (Hp : 0 < 2 ^ t) by (apply Z.pow_pos_nonneg; lia).
  pose proof (Z.div_mod x (2 ^ t) ltac:(lia)) as E.
  pose proof (Z.mod_pos_bound x (2 ^ t) Hp) as Hm.
  rewrite H3 in E.
  replace (32 - t - 1) with (31 - t) by ring.
  assert (Hq : 0 < 2 ^ (31 - t)) by (apply Z.pow_pos_nonneg; lia).
  assert (E2 : 2 ^ t * 2 ^ (31 - t) = 2 ^ 31)
    by (rewrite <- Z.pow_add_r by lia; f_equal; lia).
  split; [lia|]. nia.
Qed.

(** A non-zero number is its top significant word on top of the words
    below it. *)
Lemma significant_top x :
  words x -> (0 < count_significant_words x)%nat ->
  let k := count_significant_words x in
  exists lo, value x = lo + B ^ Z.of_nat (k - 1) * x#[k - 1]
             /\ 0 <= lo < B ^ Z.of_nat (k - 1)
             /\ 0 < x#[k - 1] < 2 ^ 64 /\ (k <= length x)%nat.
Proof.
  intros W Hk k. subst k. unfold count_significant_words in *.
  rewrite csw_loop_trim in *.
  destruct (trim_words_spec x (length x)) as (H1 & H2 & H3).
  set (k := trim_words x (length x)) in *. clearbody k.
  pose proof (value_firstn_zeros x k H2) as E.
  destruct k as [|k']; [lia|].
  replace (S k' - 1)%nat with k' in * by lia.
  exists (value (firstn k' (firstn (S k') x))).
  assert (Et : (firstn (S k') x)#[k'] = x#[k']).
  { change (firstn (S k') x) with (window x 0 (S k')).
    rewrite window_at by lia. reflexivity. }
  pose proof (value_range (firstn k' (firstn (S k') x))
                (words_firstn _ k' (words_firstn x (S k') W))) as R'.
  rewrite !length_firstn in R'.
  replace (Init.Nat.min k' (Init.Nat.min (S k') (length x))) with k' in R' by lia.
  pose proof (at_word x k' W) as Wt. unfold word in Wt. rewrite B_pow in Wt.
  specialize (H3 Hk).
  split_and; try lia.
  rewrite E. rewrite (value_top (firstn (S k') x) k')
    by (rewrite length_firstn; lia).
  rewrite Et. reflexivity.
Qed.

(** [clz(const uint<N>&)] is the width minus the bit length. *)
Lemma clz_spec x :
  words x ->
  (value x = 0 -> clz x = 64 * Z.of_nat (length x))
  /\ (value x <> 0 ->
      0 <= clz x < 64 * Z.of_nat (length x)
      /\ 2 ^ (64 * Z.of_nat (length x) - 1 - clz x) <= value x
         < 2 ^ (64 * Z.of_nat (length x) - clz x)).
Proof.
  intros W. unfold clz. cbv zeta.
  destruct (count_significant_words_spec x W) as (Hle & Hlt & Hpos & Hz).
  cbv zeta in Hle, Hlt, Hpos, Hz.
  destruct (Nat.eqb_spec (count_significant_words x) 0) as [E0|E0].
  - split; [intros _; ring|]. intros Hne. apply Hz in E0. contradiction.
  - split; [intros Hv; apply Hz in Hv; contradiction|]. intros _.
    destruct (significant_top x W ltac:(lia)) as (lo & E & Rlo & Rt & _).
    cbv zeta in E, Rlo, Rt.
    set (k := count_significant_words x) in *. clearbody k.
    destruct (clz64_spec _ Rt) as (Hc & _).
    pose proof (clz64_bitlen _ Rt) as Hb.
    set (c := clz64 x#[k - 1]) in *. clearbody c.
    set (t := x#[k - 1]) in *. clearbody t.
    rewrite Bpow_two in E, Rlo.
    set (n := Z.of_nat (length x)) in *.
    assert (Hk : 1 <= Z.of_nat k <= n) by (subst n; lia).
    replace (Z.of_nat (k - 1)) with (Z.of_nat k - 1) in * by lia.
    set (kk := Z.of_nat k) in *. clearbody kk n.
    replace (64 * n - 1 - (c + (n - kk) * 64)) with (64 * (kk - 1) + (63 - c)) by ring.
    replace (64 * n - (c + (n - kk) * 64)) with (64 * (kk - 1) + (64 - c)) by ring.
    rewrite !Z.pow_add_r by lia.
    assert (Hp : 0 < 2 ^ (64 * (kk - 1))) by (apply Z.pow_pos_nonneg; lia).
    rewrite E. split; [lia|]. nia.
Qed.

Lemma clz128_spec x :
  words x -> length x = 2%nat ->
  (value x = 0 -> clz128 x = 128)
  /\ (value x <> 0 ->
      0 <= clz128 x < 128
      /\ 2 ^ (127 - clz128 x) <= value x < 2 ^ (128 - clz128 x)).
Proof.
  intros W L. destruct x as [|x0 [|x1 [|? ?]]]; try discriminate.
  apply words_inv in W as [W0 W]. apply words_inv in W as [W1 _].
  unfold clz128. rewrite at_cons_S, !at_cons_0, value_2.
  unfold word in W0, W1. rewrite B_pow in *.
  destruct (Z.eqb_spec x1 0) as [->|H1].
  - replace (x0 + 2 ^ 64 * 0) with x0 by ring. split.
    + intros ->. reflexivity.
    + intros H0. assert (R0 : 0 < x0 < 2 ^ 64) by lia.
      destruct (clz64_spec _ R0) as (Hc & _).
      pose proof (clz64_bitlen _ R0) as Hb.
      set (c := clz64 x0) in *. clearbody c.
      replace (127 - (c + 64)) with (63 - c) by ring.
      replace (128 - (c + 64)) with (64 - c) by ring. lia.
  - split; [intros Hv; exfalso; lia|]. intros _.
    assert (R1 : 0 < x1 < 2 ^ 64) by lia.
    destruct (clz64_spec _ R1) as (Hc & _).
    pose proof (clz64_bitlen _ R1) as Hb.
    set (c := clz64 x1) in *. clearbody c.
    replace (127 - c) with (64 + (63 - c)) by ring.
    replace (128 - c) with (64 + (64 - c)) by ring.
    rewrite !Z.pow_add_r by lia. split; [lia|]. nia.
Qed.

Lemma div8_ceiling b : 0 <= b -> 8 * ((b + 7) / 8 - 1) < b <= 8 * ((b + 7) / 8).
Proof. intros Hb. pose proof (Z.div_mod (b + 7) 8 ltac:(lia)).
  pose proof (Z.mod_pos_bound (b + 7) 8 ltac:(lia)). lia. Qed.

Lemma count_significant_bytes64_spec x :
  0 < x < 2 ^ 64 ->
  1 <= count_significant_bytes64 x <= 8
  /\ 256 ^ (count_significant_bytes64 x - 1) <= x < 256 ^ count_significant_bytes64 x.
Proof.
  intros Hx. unfold count_significant_bytes64.
  destruct (clz64_spec _ Hx) as (Hc & _).
  pose proof (clz64_bitlen _ Hx) as Hb.
  set (c := clz64 x) in *. clearbody c.
  pose proof (div8_ceiling (64 - c) ltac:(lia)) as Hk.
  set (k := (64 - c + 7) / 8) in *. clearbody k.
  change 256 with (2 ^ 8). rewrite <- !Z.pow_mul_r by lia.
  assert (2 ^ (8 * (k - 1)) <= 2 ^ (63 - c)) by (apply Z.pow_le_mono_r; lia).
  assert (2 ^ (64 - c) <= 2 ^ (8 * k)) by (apply Z.pow_le_mono_r; lia).
  lia.
Qed.

(** [count_significant_bytes]: the length of the shortest base-256
    writing. *)
Lemma count_significant_bytes_spec x :
  words x ->
  (value x = 0 -> count_significant_bytes x = 0)
  /\ (value x <> 0 ->
      1 <= count_significant_bytes x <= 8 * Z.of_nat (length x)
      /\ 256 ^ (count_significant_bytes x - 1) <= value x
         < 256 ^ count_significant_bytes x).
Proof.
  intros W. unfold count_significant_bytes. cbv zeta.
  destruct (count_significant_words_spec x W) as (Hle & Hlt & Hpos & Hz).
  cbv zeta in Hle, Hlt, Hpos, Hz.
  destruct (Nat.eqb_spec (count_significant_words x) 0) as [E0|E0]; cbn [negb].
  - split; [reflexivity|]. intros Hne. apply Hz in E0. contradiction.
  - split; [intros Hv; apply Hz in Hv; contradiction|]. intros _.
    destruct (significant_top x W ltac:(lia)) as (lo & E & Rlo & Rt & _).
    cbv zeta in E, Rlo, Rt.
    set (k := count_significant_words x) in *. clearbody k.
    destruct (count_significant_bytes64_spec _ Rt) as (Hc & Hb).
    set (c := count_significant_bytes64 x#[k - 1]) in *. clearbody c.
    set (t := x#[k - 1]) in *. clearbody t.
    rewrite Bpow_two in E, Rlo.
    set (n := Z.of_nat (length x)) in *.
    assert (Hk : 1 <= Z.of_nat k <= n) by (subst n; lia).
    replace (Z.of_nat (k - 1)) with (Z.of_nat k - 1) in * by lia.
    set (kk := Z.of_nat k) in *. clearbody kk n.
    replace (c + (kk - 1) * 8 - 1) with ((kk - 1) * 8 + (c - 1)) by ring.
    replace (c + (kk - 1) * 8) with ((kk - 1) * 8 + c) at 2 by ring.
    rewrite !Z.pow_add_r by lia.
    assert (E8 : 256 ^ ((kk - 1) * 8) = 2 ^ (64 * (kk - 1))).
    { change 256 with (2 ^ 8). rewrite <- Z.pow_mul_r by lia. f_equal. lia. }
    rewrite E8.
    assert (Hp : 0 < 2 ^ (64 * (kk - 1))) by (apply Z.pow_pos_nonneg; lia).
    rewrite E. split; [lia|]. nia.
Qed.

(** ** The 64-character alphabet *)

Lemma EncodeChar_range c : 0 <= EncodeChar c <= 64.
Proof.
  unfold EncodeChar.
  repeat match goal with
         | |- context [if ?b then _ else _] => destruct b eqn:?
         end; lia.
Qed.

Lemma EncodeChar_DecodeChar n : 0 <= n <= 63 -> EncodeChar (DecodeChar n) = n.
Proof.
  intros Hn. unfold DecodeChar.
  repeat match goal with
         | |- context [if ?b then _ else _] => destruct b eqn:?
         end; unfold EncodeChar;
  repeat match goal with
         | |- context [if ?b then _ else _] => destruct b eqn:?
         end; lia.
Qed.

Lemma DecodeChar_EncodeChar c : EncodeChar c <> 64 -> DecodeChar (EncodeChar c) = c.
Proof.
  unfold EncodeChar.
  repeat match goal with
         | |- context [if ?b then _ else _] => destruct b eqn:?
         end; intros Hn; unfold DecodeChar;
  repeat match goal with
         | |- context [if ?b then _ else _] => destruct b eqn:?
         end; lia.
Qed.

Lemma DecodeChar_outside n : DecodeChar n = 0 <-> (n < 0 \/ 63 < n).
Proof.
  unfold DecodeChar.
  repeat match goal with
         | |- context [if ?b then _ else _] => destruct b eqn:?
         end; lia.
Qed.

(** ** Horner folds on [u5] *)

Lemma of_int_spec nw v :
  (0 < nw)%nat ->
  value (of_int nw v) = v mod 2 ^ 64 /\ words (of_int nw v)
  /\ length (of_int nw v) = nw.
Proof.
  intros Hn. unfold of_int. split_and.
  - rewrite of_u64_value by assumption. rewrite w64_mod, B_pow. reflexivity.
  - apply of_u64_words, w64_range.
  - apply of_u64_length.
Qed.

(** One step [result * b + v] of the folds. *)
Lemma horner_step nw r b v :
  (0 < nw)%nat -> words r -> length r = nw ->
  let r' := uadd (umult r (of_int nw b)) (of_int nw v) in
  value r' = (value r * (b mod 2 ^ 64) + v mod 2 ^ 64) mod B ^ Z.of_nat nw
  /\ words r' /\ length r' = nw.
Proof.
  intros Hn W L r'. subst r'.
  destruct (of_int_spec nw b Hn) as (Vb & Wb & Lb).
  destruct (of_int_spec nw v Hn) as (Vv & Wv & Lv).
  destruct (umult_spec r (of_int nw b) ltac:(congruence) W Wb) as (Vm & Wm & Lm).
  split_and.
  - rewrite uadd_value by (auto; congruence).
    rewrite Vm, Vb, Vv, Lm, L.
    pose proof (Bpow_pos nw). rewrite Z.add_mod_idemp_l by lia. reflexivity.
  - apply uadd_words; auto; congruence.
  - rewrite uadd_length; auto; congruence.
Qed.

Lemma horner_mod b M : 0 < M -> forall pre x y,
  x mod M = y mod M ->
  horner b (pre ++ [x]) mod M = horner b (pre ++ [y]) mod M.
Proof.
  intros HM. induction pre as [|p pre IH]; intros x y E.
  - cbn [app horner fold_right]. rewrite !Z.mul_0_r, !Z.add_0_r. assumption.
  - cbn [app horner fold_right].
    fold (horner b (pre ++ [x])). fold (horner b (pre ++ [y])).
    set (h1 := horner b (pre ++ [x])). set (h2 := horner b (pre ++ [y])).
    rewrite <- (Z.add_mod_idemp_r p (b * h1)) by lia.
    rewrite <- (Z.mul_mod_idemp_r b h1) by lia.
    unfold h1. rewrite (IH x y E). fold h2.
    rewrite (Z.mul_mod_idemp_r b h2) by lia.
    rewrite (Z.add_mod_idemp_r p (b * h2)) by lia. reflexivity.
Qed.

Lemma horner_snoc b pre x y :
  horner b (pre ++ [x; y]) = horner b (pre ++ [x + b * y]).
Proof.
  induction pre as [|p pre IH]; cbn [app horner fold_right].
  - ring.
  - fold (horner b (pre ++ [x; y])). fold (horner b (pre ++ [x + b * y])).
    rewrite IH. reflexivity.
Qed.

Lemma horner_fold nw b (f : Z -> Z) : forall l r,
  (0 < nw)%nat -> words r -> length r = nw ->
  let r' := fold_left (fun result v => uadd (umult result (of_int nw b)) (of_int nw (f v)))
              l r in
  value r'
  = horner (b mod 2 ^ 64) (rev (map (fun v => f v mod 2 ^ 64) l) ++ [value r])
      mod B ^ Z.of_nat nw
  /\ words r' /\ length r' = nw.
Proof.
  induction l as [|v l IH]; intros r Hn W L r'; subst r'.
  - cbn [fold_left map rev app horner fold_right]. split_and; auto.
    pose proof (value_range r W) as R. rewrite L in R.
    rewrite Z.mul_0_r, Z.add_0_r. symmetry. apply Z.mod_small. assumption.
  - cbn [fold_left].
    destruct (horner_step nw r b (f v) Hn W L) as (V1 & W1 & L1).
    cbv zeta in V1, W1, L1.
    destruct (IH _ Hn W1 L1) as (V2 & W2 & L2).
    cbv zeta in V2, W2, L2.
    split_and; auto.
    rewrite V2, V1.
    cbn [map rev]. rewrite <- !app_assoc. cbn [app].
    rewrite horner_snoc.
    pose proof (Bpow_pos nw) as HP.
    apply horner_mod; [assumption|].
    rewrite Z.mod_mod by lia. f_equal. ring.
Qed.

(** The value written by [n] digits, each at most [m]. *)
Lemma horner_bound b m : 0 <= m -> 1 <= b -> forall l,
  (forall v, In v l -> 0 <= v <= m) ->
  0 <= horner b l /\ (b - 1) * horner b l <= m * (b ^ Z.of_nat (length l) - 1).
Proof.
  intros Hm Hb. induction l as [|v l IH]; intros H.
  - cbn. lia.
  - cbn [horner fold_right length]. fold (horner b l).
    destruct IH as [I1 I2]; [intros; apply H; right; assumption|].
    specialize (H v ltac:(left; reflexivity)).
    rewrite Nat2Z.inj_succ, Z.pow_succ_r by lia.
    set (P := b ^ Z.of_nat (length l)) in *.
    assert (0 < P) by (apply Z.pow_pos_nonneg; lia).
    clearbody P. split; [nia|]. nia.
Qed.

Lemma horner_app_zero b l : horner b (l ++ [0]) = horner b l.
Proof.
  induction l as [|v l IH]; cbn [app horner fold_right].
  - ring.
  - fold (horner b (l ++ [0])). fold (horner b l). rewrite IH. reflexivity.
Qed.


Lemma of_int_0 : of_int 8 0 = zeros 8.
Proof. reflexivity. Qed.


Lemma StringTou5_spec s :
  value (StringTou5 s)
  = horner 10 (rev (map (fun c => (c - 48) mod 2 ^ 64) s)) mod 2 ^ 512
  /\ words (StringTou5 s) /\ length (StringTou5 s) = 8%nat.
Proof.
  unfold StringTou5.
  destruct (horner_fold 8 10 (fun c => c - 48) s (of_int 8 0)
              ltac:(lia) ltac:(rewrite of_int_0; apply words_zeros) eq_refl)
    as (V & W & L).
  cbv zeta in V, W, L. split_and; auto.
  rewrite V. rewrite of_int_0, value_zeros, horner_app_zero.
  rewrite Z.mod_small with (a := 10) by lia. reflexivity.
Qed.



(** ** Modular exponentiation on [uint64_t] *)





(** ** More on windows *)

Lemma at_upd l i j v :
  (upd l i v)#[j] = if (j =? i)%nat && (i <? length l)%nat then v else l#[j].
Proof.
  destruct (Nat.eqb_spec j i) as [->|Hne]; cbn [andb].
  - destruct (Nat.ltb_spec i (length l)).
    + apply at_upd_same. assumption.
    + rewrite upd_beyond by assumption. reflexivity.
  - apply at_upd_other. congruence.
Qed.

Lemma window_ext a b : forall cnt i,
  (i + cnt <= length a)%nat -> (i + cnt <= length b)%nat ->
  (forall t, (i <= t < i + cnt)%nat -> a#[t] = b#[t]) ->
  window a i cnt = window b i cnt.
Proof.
  induction cnt as [|cnt IH]; intros i La Lb H.
  - reflexivity.
  - rewrite !window_S by lia. rewrite (H i) by lia. f_equal.
    apply IH; try lia. intros t Ht. apply H. lia.
Qed.

Lemma window_value_split x : forall a i b,
  (i + a + b <= length x)%nat ->
  value (window x i (a + b))
  = value (window x i a) + B ^ Z.of_nat a * value (window x (i + a) b).
Proof.
  induction a as [|a IH]; intros i b H.
  - cbn [Nat.add]. rewrite window_0, Nat.add_0_r. cbn [value].
    change (Z.of_nat 0) with 0. rewrite Z.pow_0_r. ring.
  - destruct (Nat.eq_dec b 0) as [->|Hb].
    + rewrite Nat.add_0_r, window_0. cbn [value]. ring.
    + cbn [Nat.add]. rewrite !window_value_S by lia.
      rewrite IH by lia. rewrite Bpow_S.
      replace (S i + a)%nat with (i + S a)%nat by lia. ring.
Qed.

Lemma window_value_range x i cnt :
  words x -> (i + cnt <= length x)%nat ->
  0 <= value (window x i cnt) < B ^ Z.of_nat cnt.
Proof.
  intros W H. pose proof (value_range _ (window_words x i cnt W)) as R.
  rewrite window_length in R by assumption. assumption.
Qed.

Lemma value_window_all x : value (window x 0 (length x)) = value x.
Proof. rewrite window_all. reflexivity. Qed.

(** ** The in-place subtract-and-multiply and add loops *)

Lemma submul_step x borrow di m :
  word x -> word borrow -> word di -> word m ->
  let s := sub_with_carry64 x borrow false in
  let p := umul64 di m in
  let t := sub_with_carry64 (fst s) p#[0] false in
  let borrow' := w64 (w64 (p#[1] + Z.b2z (snd s)) + Z.b2z (snd t)) in
  fst t - B * borrow' = x - borrow - di * m /\ word (fst t) /\ word borrow'.
Proof.
  intros Hx Hb Hd Hm s p t borrow'.
  destruct (sub_with_carry64_spec x borrow false Hx Hb) as (Es & Ws).
  fold s in Es, Ws.
  assert (Wp0 : word p#[0]) by (apply at_word, umul64_words; assumption).
  assert (Wp1 : word p#[1]) by (apply at_word, umul64_words; assumption).
  destruct (sub_with_carry64_spec (fst s) p#[0] false Ws Wp0) as (Et & Wt).
  fold t in Et, Wt.
  assert (Ep : p#[0] + B * p#[1] = di * m).
  { subst p. rewrite umul64_at0, umul64_at1 by assumption.
    pose proof B_pos. pose proof (Z.div_mod (di * m) B ltac:(lia)). lia. }
  pose proof (mul_words_range di m Hd Hm) as Rp.
  cbn [Z.b2z] in Es, Et. rewrite Z.sub_0_r in Es, Et.
  pose proof (b2z_range (snd s)) as Rs. pose proof (b2z_range (snd t)) as Rt.
  assert (Enw : borrow' = p#[1] + Z.b2z (snd s) + Z.b2z (snd t)).
  { subst borrow'. rewrite w64_add_l. apply w64_small.
    unfold word in *. pose proof B_pos. nia. }
  split_and; [|assumption|rewrite Enw; unfold word in *; pose proof B_pos; nia].
  rewrite Enw. lia.
Qed.

Lemma submul_loop_S cnt i j u d m borrow :
  submul_loop (S cnt) i j u d m borrow
  = submul_loop cnt (S i) j
      (upd u (j + i)
         (fst (sub_with_carry64 (fst (sub_with_carry64 u#[j + i] borrow false))
                 (umul64 d#[i] m)#[0] false)))
      d m
      (w64 (w64 ((umul64 d#[i] m)#[1]
                 + Z.b2z (snd (sub_with_carry64 u#[j + i] borrow false)))
            + Z.b2z (snd (sub_with_carry64
                            (fst (sub_with_carry64 u#[j + i] borrow false))
                            (umul64 d#[i] m)#[0] false)))).
Proof. reflexivity. Qed.

Lemma submul_loop_spec d m j : forall cnt i u borrow,
  words u -> words d -> word m -> word borrow ->
  (j + i + cnt <= length u)%nat -> (i + cnt <= length d)%nat ->
  value (window (fst (submul_loop cnt i j u d m borrow)) (j + i) cnt)
    - B ^ Z.of_nat cnt * snd (submul_loop cnt i j u d m borrow)
  = value (window u (j + i) cnt) - m * value (window d i cnt) - borrow
  /\ word (snd (submul_loop cnt i j u d m borrow))
  /\ words (fst (submul_loop cnt i j u d m borrow))
  /\ length (fst (submul_loop cnt i j u d m borrow)) = length u
  /\ (forall t, (t < j + i \/ j + i + cnt <= t)%nat ->
                (fst (submul_loop cnt i j u d m borrow))#[t] = u#[t]).
Proof.
  induction cnt as [|cnt IH]; intros i u borrow Wu Wd Wm Wb Lu Ld.
  - cbn [submul_loop fst snd]. rewrite !window_0. cbn [value].
    change (Z.of_nat 0) with 0. rewrite Z.pow_0_r.
    split_and; auto. lia.
  - rewrite submul_loop_S.
    destruct (submul_step u#[j + i] borrow d#[i] m
                (at_word u _ Wu) Wb (at_word d _ Wd) Wm) as (Es & Wt & Wb').
    cbv zeta in Es, Wt, Wb'.
    set (tv := fst (sub_with_carry64 (fst (sub_with_carry64 u#[j + i] borrow false))
                      (umul64 d#[i] m)#[0] false)) in *.
    set (b' := w64 (w64 ((umul64 d#[i] m)#[1]
                         + Z.b2z (snd (sub_with_carry64 u#[j + i] borrow false)))
                    + Z.b2z (snd (sub_with_carry64
                                    (fst (sub_with_carry64 u#[j + i] borrow false))
                                    (umul64 d#[i] m)#[0] false)))) in *.
    clearbody tv b'.
    assert (Wu1 : words (upd u (j + i) tv)) by (apply words_upd; assumption).
    destruct (IH (S i) (upd u (j + i) tv) b' Wu1 Wd Wm Wb'
                ltac:(rewrite length_upd; lia) ltac:(lia))
      as (E & Wr & Wf & Lf & Fr).
    set (r := submul_loop cnt (S i) j (upd u (j + i) tv) d m b') in *.
    clearbody r. rewrite length_upd in Lf.
    split_and; auto.
    + rewrite (window_value_S _ (j + i)) by lia.
      rewrite (window_value_S u (j + i)) by lia.
      rewrite (window_value_S d i) by lia.
      rewrite Fr by lia. rewrite at_upd_same by lia.
      replace (j + S i)%nat with (S (j + i)) in E by lia.
      rewrite window_upd_before in E by lia.
      rewrite Bpow_S.
      set (A := value (window (fst r) (S (j + i)) cnt)) in *.
      set (U := value (window u (S (j + i)) cnt)) in *.
      set (D := value (window d (S i) cnt)) in *.
      clearbody A U D. nia.
    + intros t Ht. rewrite Fr by lia. apply at_upd_other. lia.
Qed.

Lemma submul_spec u j d len m :
  words u -> words d -> word m ->
  (j + len <= length u)%nat -> (len <= length d)%nat ->
  value (window (fst (submul u j d len m)) j len)
    - B ^ Z.of_nat len * snd (submul u j d len m)
  = value (window u j len) - m * value (window d 0 len)
  /\ word (snd (submul u j d len m))
  /\ words (fst (submul u j d len m))
  /\ length (fst (submul u j d len m)) = length u
  /\ (forall t, (t < j \/ j + len <= t)%nat -> (fst (submul u j d len m))#[t] = u#[t]).
Proof.
  intros Wu Wd Wm Lu Ld. unfold submul.
  destruct (submul_loop_spec d m j len 0 u 0 Wu Wd Wm word_0
              ltac:(lia) ltac:(lia)) as (E & Wr & Wf & Lf & Fr).
  rewrite Nat.add_0_r in *. split_and; auto. lia.
Qed.

Lemma add_loop_S cnt i j u d carry :
  add_loop (S cnt) i j u d carry
  = add_loop cnt (S i) j
      (upd u (j + i) (fst (add_with_carry64 u#[j + i] d#[i] carry))) d
      (snd (add_with_carry64 u#[j + i] d#[i] carry)).
Proof. reflexivity. Qed.

Lemma add_loop_spec d j : forall cnt i u carry,
  words u -> words d ->
  (j + i + cnt <= length u)%nat -> (i + cnt <= length d)%nat ->
  value (window (fst (add_loop cnt i j u d carry)) (j + i) cnt)
    + B ^ Z.of_nat cnt * Z.b2z (snd (add_loop cnt i j u d carry))
  = value (window u (j + i) cnt) + value (window d i cnt) + Z.b2z carry
  /\ words (fst (add_loop cnt i j u d carry))
  /\ length (fst (add_loop cnt i j u d carry)) = length u
  /\ (forall t, (t < j + i \/ j + i + cnt <= t)%nat ->
                (fst (add_loop cnt i j u d carry))#[t] = u#[t]).
Proof.
  induction cnt as [|cnt IH]; intros i u carry Wu Wd Lu Ld.
  - cbn [add_loop fst snd]. rewrite !window_0. cbn [value].
    change (Z.of_nat 0) with 0. rewrite Z.pow_0_r.
    split_and; auto. lia.
  - rewrite add_loop_S.
    destruct (add_with_carry64_spec u#[j + i] d#[i] carry
                (at_word u _ Wu) (at_word d _ Wd)) as (Es & Wt).
    set (tv := fst (add_with_carry64 u#[j + i] d#[i] carry)) in *.
    set (c' := snd (add_with_carry64 u#[j + i] d#[i] carry)) in *.
    clearbody tv c'.
    assert (Wu1 : words (upd u (j + i) tv)) by (apply words_upd; assumption).
    destruct (IH (S i) (upd u (j + i) tv) c' Wu1 Wd
                ltac:(rewrite length_upd; lia) ltac:(lia))
      as (E & Wf & Lf & Fr).
    set (r := add_loop cnt (S i) j (upd u (j + i) tv) d c') in *.
    clearbody r. rewrite length_upd in Lf.
    split_and; auto.
    + rewrite (window_value_S _ (j + i)) by lia.
      rewrite (window_value_S u (j + i)) by lia.
      rewrite (window_value_S d i) by lia.
      rewrite Fr by lia. rewrite at_upd_same by lia.
      replace (j + S i)%nat with (S (j + i)) in E by lia.
      rewrite window_upd_before in E by lia.
      rewrite Bpow_S.
      set (A := value (window (fst r) (S (j + i)) cnt)) in *.
      set (U := value (window u (S (j + i)) cnt)) in *.
      set (D := value (window d (S i) cnt)) in *.
      clearbody A U D. nia.
    + intros t Ht. rewrite Fr by lia. apply at_upd_other. lia.
Qed.

Lemma add_spec u j d len :
  words u -> words d ->
  (j + len <= length u)%nat -> (len <= length d)%nat ->
  value (window (fst (add u j d len)) j len)
    + B ^ Z.of_nat len * Z.b2z (snd (add u j d len))
  = value (window u j len) + value (window d 0 len)
  /\ words (fst (add u j d len))
  /\ length (fst (add u j d len)) = length u
  /\ (forall t, (t < j \/ j + len <= t)%nat -> (fst (add u j d len))#[t] = u#[t]).
Proof.
  intros Wu Wd Lu Ld. unfold add.
  destruct (add_loop_spec d j len 0 u false Wu Wd ltac:(lia) ltac:(lia))
    as (E & Wf & Lf & Fr).
  rewrite Nat.add_0_r in *. cbn [Z.b2z] in E. split_and; auto. lia.
Qed.

(** ** One quotient digit of Knuth's algorithm D *)

(** The top two words of the window are at most the top two words of the
    divisor. *)
Lemma knuth_top_bound b P Dlow Dtop Wlow u0 t :
  0 < b -> 0 < P -> 0 <= Dlow < P -> 0 <= Wlow -> 0 <= u0 ->
  Wlow + P * (u0 + b * t) < b * (Dlow + P * Dtop) ->
  t <= Dtop.
Proof.
  intros Hb HP HD HW Hu H.
  destruct (Z.le_gt_cases t Dtop) as [|Hgt]; [assumption|exfalso].
  assert (H1 : b * (P * (Dtop + 1)) <= b * (P * t)).
  { apply Z.mul_le_mono_nonneg_l; [lia|].
    apply Z.mul_le_mono_nonneg_l; lia. }
  assert (H2 : b * Dlow < b * P) by (apply Z.mul_lt_mono_pos_l; lia).
  assert (H3 : 0 <= P * u0) by (apply Z.mul_nonneg_nonneg; lia).
  lia.
Qed.

(** When the top two words equal those of the divisor the digit is
    [b - 1]. *)
Lemma knuth_overflow_math b P Dlow Dtop Wlow u0 :
  0 < b -> 0 < P -> 0 <= Dlow < P -> b <= Dtop -> 0 <= Wlow -> 0 <= u0 ->
  Wlow + P * (u0 + b * Dtop) < b * (Dlow + P * Dtop) ->
  0 <= Wlow + P * (u0 + b * Dtop) - (b - 1) * (Dlow + P * Dtop)
    < Dlow + P * Dtop.
Proof.
  intros Hb HP HD HDt HW Hu H.
  split; [|lia].
  assert (H1 : (b - 1) * Dlow <= (b - 1) * P) by (apply Z.mul_le_mono_nonneg_l; lia).
  assert (H2 : P * b <= P * Dtop) by (apply Z.mul_le_mono_nonneg_l; lia).
  assert (H3 : 0 <= P * u0) by (apply Z.mul_nonneg_nonneg; lia).
  lia.
Qed.

(** The 3-by-2 estimate is the digit or one more. *)
Lemma knuth_estimate_math b P Dlow Dtop Wlow T3 qhat rhat :
  0 < b -> 0 < P -> 0 <= Dlow < P -> b <= Dtop -> 0 <= Wlow < P ->
  T3 = qhat * Dtop + rhat -> 0 <= rhat < Dtop -> 0 <= qhat < b ->
  - (Dlow + P * Dtop) <= Wlow + P * T3 - qhat * (Dlow + P * Dtop)
    < Dlow + P * Dtop.
Proof.
  intros Hb HP HD HDt HW ET Hr Hq. subst T3.
  assert (H1 : qhat * Dlow <= (b - 1) * P).
  { transitivity (qhat * P).
    - apply Z.mul_le_mono_nonneg_l; lia.
    - apply Z.mul_le_mono_nonneg_r; lia. }
  assert (H2 : P * b <= P * Dtop) by (apply Z.mul_le_mono_nonneg_l; lia).
  assert (H3 : P * (rhat + 1) <= P * Dtop) by (apply Z.mul_le_mono_nonneg_l; lia).
  assert (H4 : 0 <= P * rhat) by (apply Z.mul_nonneg_nonneg; lia).
  assert (H5 : 0 <= qhat * Dlow) by (apply Z.mul_nonneg_nonneg; lia).
  split; lia.
Qed.

(** A number congruent to [x] modulo [M], both in [0, M), is [x]. *)
Lemma congruent_in_range M v x k :
  0 <= v < M -> 0 <= x < M -> v = x + k * M -> v = x.
Proof. intros Hv Hx E. assert (k = 0) by nia. subst k. lia. Qed.

Lemma window3 u i :
  (i + 2 < length u)%nat ->
  value (window u i 3) = u#[i] + B * (u#[S i] + B * u#[S (S i)]).
Proof.
  intros H. rewrite !window_value_S by lia. rewrite window_0. cbn [value]. ring.
Qed.

Lemma window2 u i :
  (i + 1 < length u)%nat ->
  value (window u i 2) = u#[i] + B * u#[S i].
Proof.
  intros H. rewrite !window_value_S by lia. rewrite window_0. cbn [value]. ring.
Qed.

Lemma knuth_step_spec j q u d n2 :
  words u -> words d ->
  (j + S (S n2) < length u)%nat -> (S (S n2) <= length d)%nat ->
  2 ^ 63 <= d#[S n2] ->
  value (window u j (S (S (S n2)))) < B * value (window d 0 (S (S n2))) ->
  exists qhat,
    fst (knuth_step j q u d (S (S n2)) [d#[n2]; d#[S n2]]
           (reciprocal_3by2 [d#[n2]; d#[S n2]])) = upd q j qhat
    /\ word qhat
    /\ value (window u j (S (S (S n2))))
       = qhat * value (window d 0 (S (S n2)))
         + value (window (snd (knuth_step j q u d (S (S n2)) [d#[n2]; d#[S n2]]
                                 (reciprocal_3by2 [d#[n2]; d#[S n2]]))) j (S (S n2)))
    /\ 0 <= value (window (snd (knuth_step j q u d (S (S n2)) [d#[n2]; d#[S n2]]
                                  (reciprocal_3by2 [d#[n2]; d#[S n2]]))) j (S (S n2)))
       < value (window d 0 (S (S n2)))
    /\ words (snd (knuth_step j q u d (S (S n2)) [d#[n2]; d#[S n2]]
                     (reciprocal_3by2 [d#[n2]; d#[S n2]])))
    /\ length (snd (knuth_step j q u d (S (S n2)) [d#[n2]; d#[S n2]]
                      (reciprocal_3by2 [d#[n2]; d#[S n2]]))) = length u
    /\ (forall t, (t < j)%nat ->
          (snd (knuth_step j q u d (S (S n2)) [d#[n2]; d#[S n2]]
                  (reciprocal_3by2 [d#[n2]; d#[S n2]])))#[t] = u#[t]).
Proof.
  intros Wu Wd Lu Ld Hn HW.
  pose proof B_pos as HB.
  (* the divisor and the window, split at the top words *)
  assert (ED : value (window d 0 (S (S n2)))
               = value (window d 0 n2) + B ^ Z.of_nat n2 * (d#[n2] + B * d#[S n2])).
  { replace (S (S n2)) with (n2 + 2)%nat by lia.
    rewrite window_value_split by lia. rewrite window2 by lia. reflexivity. }
  assert (EW : value (window u j (S (S (S n2))))
               = value (window u j n2)
                 + B ^ Z.of_nat n2
                   * (u#[j + n2] + B * (u#[j + S n2] + B * u#[j + S (S n2)]))).
  { replace (S (S (S n2))) with (n2 + 3)%nat by lia.
    rewrite window_value_split by lia. rewrite window3 by lia.
    replace (S (j + n2)) with (j + S n2)%nat by lia.
    replace (S (j + S n2)) with (j + S (S n2))%nat by lia. reflexivity. }
  pose proof (window_value_range d 0 n2 Wd ltac:(lia)) as RDl.
  pose proof (window_value_range u j n2 Wu ltac:(lia)) as RWl.
  pose proof (Bpow_pos n2) as HP.
  pose proof (at_word u (j + n2) Wu) as Wu0.
  pose proof (at_word u (j + S n2) Wu) as Wu1.
  pose proof (at_word u (j + S (S n2)) Wu) as Wu2.
  pose proof (at_word d n2 Wd) as Wd0.
  pose proof (at_word d (S n2) Wd) as Wd1.
  assert (HDt : B <= d#[n2] + B * d#[S n2]).
  { unfold word in Wd0. rewrite B_pow in *. nia. }
  unfold knuth_step.
  replace (j + S (S n2) - 1)%nat with (j + S n2)%nat by lia.
  replace (j + S (S n2) - 2)%nat with (j + n2)%nat by lia.
  replace (S (S n2) - 2)%nat with n2 by lia.
  replace (S (S n2) - 1)%nat with (S n2) by lia.
  rewrite ueq128_pair by assumption.
  set (P := B ^ Z.of_nat n2) in *.
  set (Dlow := value (window d 0 n2)) in *.
  set (Wlow := value (window u j n2)) in *.
  set (D := value (window d 0 (S (S n2)))) in *.
  set (W := value (window u j (S (S (S n2))))) in *.
  set (u0 := u#[j + n2]) in *. set (u1 := u#[j + S n2]) in *.
  set (u2 := u#[j + S (S n2)]) in *.
  set (d0 := d#[n2]) in *. set (d1 := d#[S n2]) in *.
  assert (Htop : u1 + B * u2 <= d0 + B * d1).
  { unfold word in Wu0.
    apply (knuth_top_bound B P Dlow (d0 + B * d1) Wlow u0 (u1 + B * u2)
             HB HP RDl ltac:(lia) ltac:(lia)).
    rewrite <- EW, <- ED. exact HW. }
  assert (BP : B ^ Z.of_nat (S (S n2)) = P * (B * B)).
  { rewrite !Bpow_S. fold P. ring. }
  destruct (Z.eqb_spec (u1 + B * u2) (d0 + B * d1)) as [Eov|Eno]; cbn [fst snd].
  - (* the estimate would not fit in a word *)
    exists (not64 0).
    assert (Eq : not64 0 = B - 1) by (rewrite not64_value by apply word_0; ring).
    assert (Wq : word (not64 0)) by (rewrite Eq; unfold word; lia).
    destruct (submul_spec u j d (S (S n2)) (not64 0) Wu Wd Wq ltac:(lia) Ld)
      as (Es & Wb & Ws & Ls & Fs).
    set (sm := submul u j d (S (S n2)) (not64 0)) in *. clearbody sm.
    fold D in Es. rewrite Eq in Es.
    assert (EW2 : W = value (window u j (S (S n2))) + B ^ Z.of_nat (S (S n2)) * u2).
    { subst W u2. replace (S (S (S n2))) with (S (S n2) + 1)%nat by lia.
      rewrite window_value_split by lia.
      rewrite (window_value_S u (j + S (S n2)) 0) by lia.
      rewrite window_0. cbn [value]. ring. }
    pose proof (knuth_overflow_math B P Dlow (d0 + B * d1) Wlow u0 HB HP RDl HDt
                  ltac:(lia) ltac:(unfold word in Wu0; lia)) as HR.
    assert (EW' : W = Wlow + P * (u0 + B * (d0 + B * d1)))
      by (rewrite EW, Eov; reflexivity).
    rewrite <- EW', <- ED in HR. specialize (HR HW).
    pose proof (window_value_range (fst sm) j (S (S n2)) Ws ltac:(lia)) as Rs.
    pose proof (window_value_range d 0 (S (S n2)) Wd ltac:(lia)) as RD. fold D in RD.
    assert (Ev : value (window (fst sm) j (S (S n2))) = W - (B - 1) * D).
    { apply (congruent_in_range (B ^ Z.of_nat (S (S n2))) _ _ (snd sm - u2));
        [assumption | lia | lia]. }
    assert (Ebeta : snd sm = u2).
    { pose proof (Bpow_pos (S (S n2))). nia. }
    rewrite window_upd_after by lia.
    split_and; auto; try lia.
    + apply words_upd; [assumption | apply w64_range].
    + rewrite length_upd. assumption.
    + intros t Ht. rewrite at_upd_other by lia. apply Fs. lia.
  - (* the 3-by-2 estimate *)
    assert (Hlt : u1 + B * u2 < d0 + B * d1) by lia.
    assert (Hd1 : 2 ^ 63 <= d1 < 2 ^ 64)
      by (unfold word in Wd1; rewrite B_pow in Wd1; lia).
    rewrite reciprocal_3by2_correct by assumption.
    destruct (udivrem_3by2_correct u2 u1 u0 d0 d1 _ Wu0 Wu1 Wu2 Wd0 Hd1 Hlt eq_refl)
      as (E3 & R3 & Q3 & WR & LR).
    set (res := udivrem_3by2 u2 u1 u0 [d0; d1] _) in *. clearbody res.
    destruct res as [qhat rhat]. cbn [fst snd] in *.
    destruct rhat as [|r0 [|r1 [|? ?]]]; try discriminate. clear LR.
    apply words_inv in WR as [Wr0 WR]. apply words_inv in WR as [Wr1 _].
    rewrite value_2 in E3, R3. rewrite !at_cons_S, !at_cons_0.
    destruct (submul_spec u j d n2 qhat Wu Wd Q3 ltac:(lia) ltac:(lia))
      as (Es & Wb & Ws & Ls & Fs).
    set (sm := submul u j d n2 qhat) in *. clearbody sm.
    fold Wlow Dlow P in Es.
    destruct (sub_with_carry64_spec r0 (snd sm) false Wr0 Wb) as (E0 & W0).
    set (s0 := sub_with_carry64 r0 (snd sm) false) in *. clearbody s0.
    destruct (sub_with_carry64_spec r1 (Z.b2z (snd s0)) false Wr1 (word_b2z _))
      as (E1 & W1).
    set (s1 := sub_with_carry64 r1 (Z.b2z (snd s0)) false) in *. clearbody s1.
    cbn [Z.b2z] in E0, E1. rewrite Z.sub_0_r in E0, E1.
    set (ua := upd (upd (fst sm) (j + n2) (fst s0)) (j + S n2) (fst s1)) in *.
    assert (Wua : words ua) by (subst ua; auto using words_upd).
    assert (Lua : length ua = length u) by (subst ua; rewrite !length_upd; assumption).
    assert (Fua : forall t, (t < j)%nat -> ua#[t] = u#[t]).
    { intros t Ht. subst ua. rewrite !at_upd_other by lia. apply Fs. lia. }
    assert (Eua : value (window ua j (S (S n2)))
                  = value (window (fst sm) j n2) + P * (fst s0 + B * fst s1)).
    { replace (S (S n2)) with (n2 + 2)%nat by lia.
      rewrite window_value_split by lia. rewrite window2 by lia.
      subst ua. rewrite !window_upd_after by lia.
      replace (S (j + n2)) with (j + S n2)%nat by lia.
      rewrite at_upd_same by (rewrite length_upd; lia).
      rewrite at_upd_other by lia. rewrite at_upd_same by lia. reflexivity. }
    pose proof (knuth_estimate_math B P Dlow (d0 + B * d1) Wlow
                  (u0 + B * u1 + B * B * u2) qhat (r0 + B * r1)
                  HB HP RDl HDt RWl E3 R3 Q3) as HX.
    replace (Wlow + P * (u0 + B * u1 + B * B * u2)) with W in HX by (rewrite EW; ring).
    rewrite <- ED in HX.
    pose proof (window_value_range ua j (S (S n2)) Wua ltac:(lia)) as Rua.
    pose proof (window_value_range d 0 (S (S n2)) Wd ltac:(lia)) as RD. fold D in RD.
    assert (EX : value (window ua j (S (S n2)))
                 = W - qhat * D + B ^ Z.of_nat (S (S n2)) * Z.b2z (snd s1)).
    { rewrite Eua, BP, EW, ED.
      replace (u0 + B * (u1 + B * u2)) with (qhat * (d0 + B * d1) + (r0 + B * r1))
        by (rewrite <- E3; ring).
      set (A := value (window (fst sm) j n2)) in *.
      clearbody A P Dlow Wlow. clear - Es E0 E1. nia. }
    clearbody ua.
    destruct (snd s1) eqn:Ec; cbn [fst snd Z.b2z] in *.
    + (* one too many: add the divisor back *)
      exists (w64 (qhat - 1)).
      assert (Hq1 : 1 <= qhat).
      { destruct (Z.le_gt_cases 1 qhat) as [|Hq0]; [assumption|exfalso].
        unfold word in Q3. assert (qhat = 0) by lia. subst qhat.
        pose proof (window_value_range u j (S (S (S n2))) Wu ltac:(lia)) as RW.
        fold W in RW. lia. }
      rewrite (w64_small (qhat - 1)) by (unfold word in *; lia).
      destruct (add_spec ua j d (S n2) Wua Wd ltac:(lia) ltac:(lia))
        as (Ea & Wad & Lad & Fad).
      set (ad := add ua j d (S n2)) in *. clearbody ad.
      rewrite (Fad (j + S n2)%nat) by lia.
      set (top := w64 (ua#[j + S n2] + w64 (d1 + Z.b2z (snd ad)))) in *.
      assert (Wtop : word top) by (subst top; apply w64_range).
      assert (Etop : exists k, top = ua#[j + S n2] + d1 + Z.b2z (snd ad) + k * B).
      { subst top. rewrite w64_add_r.
        destruct (w64_ex (ua#[j + S n2] + (d1 + Z.b2z (snd ad)))) as (k & Ek).
        exists k. rewrite Ek. ring. }
      destruct Etop as (k & Etop). clearbody top.
      set (uf := upd (fst ad) (j + S n2) top) in *.
      assert (Wuf : words uf) by (subst uf; auto using words_upd).
      assert (Euf : value (window uf j (S (S n2)))
                    = value (window (fst ad) j (S n2)) + top * B ^ Z.of_nat (S n2)).
      { rewrite window_value_snoc by (subst uf; rewrite length_upd; lia).
        subst uf. rewrite window_upd_after by lia.
        rewrite at_upd_same by lia. reflexivity. }
      assert (Eua2 : value (window ua j (S (S n2)))
                     = value (window ua j (S n2)) + ua#[j + S n2] * B ^ Z.of_nat (S n2)).
      { apply window_value_snoc. lia. }
      assert (ED2 : D = value (window d 0 (S n2)) + d1 * B ^ Z.of_nat (S n2)).
      { subst D d1. rewrite window_value_snoc by lia. reflexivity. }
      pose proof (window_value_range uf j (S (S n2)) Wuf
                    ltac:(subst uf; rewrite length_upd; lia)) as Ruf.
      assert (Ev : value (window uf j (S (S n2))) = W - (qhat - 1) * D).
      { apply (congruent_in_range (B ^ Z.of_nat (S (S n2))) _ _ (k + 1));
          [assumption | lia |].
        rewrite Euf, Etop. rewrite (Bpow_S (S n2)) in EX |- *.
        set (Q := B ^ Z.of_nat (S n2)) in *.
        set (A := value (window (fst ad) j (S n2))) in *.
        set (A2 := value (window ua j (S n2))) in *.
        set (A3 := value (window d 0 (S n2))) in *.
        set (VU := value (window ua j (S (S n2)))) in *.
        clearbody Q A A2 A3 VU D W.
        clear - Ea Eua2 ED2 EX. nia. }
      assert (Luf : length uf = length u)
        by (subst uf; rewrite length_upd; congruence).
      assert (Fuf : forall t, (t < j)%nat -> uf#[t] = u#[t]).
      { intros t Ht. subst uf. rewrite at_upd_other by lia.
        rewrite Fad by lia. apply Fua. assumption. }
      clearbody uf.
      split_and; auto; try lia.
      unfold word in *. lia.
    + (* the estimate is the digit *)
      exists qhat. split_and; auto; try lia.
Qed.

Lemma knuth_loop_S cnt q u d dlen divisor reciprocal :
  knuth_loop (S cnt) q u d dlen divisor reciprocal
  = knuth_loop cnt (fst (knuth_step cnt q u d dlen divisor reciprocal))
      (snd (knuth_step cnt q u d dlen divisor reciprocal)) d dlen divisor reciprocal.
Proof. reflexivity. Qed.

(** The loop of [udivrem_knuth]: the quotient digits and, in the low words
    of the numerator, the remainder. *)
Lemma knuth_loop_spec d n2 :
  words d -> (S (S n2) <= length d)%nat -> 2 ^ 63 <= d#[S n2] ->
  forall cnt q u,
  words u -> words q ->
  (cnt + S (S n2) <= length u)%nat -> (cnt <= length q)%nat ->
  value (window u 0 (cnt + S (S n2)))
    < B ^ Z.of_nat cnt * value (window d 0 (S (S n2))) ->
  value (window u 0 (cnt + S (S n2)))
  = value (window (fst (knuth_loop cnt q u d (S (S n2)) [d#[n2]; d#[S n2]]
                          (reciprocal_3by2 [d#[n2]; d#[S n2]]))) 0 cnt)
    * value (window d 0 (S (S n2)))
    + value (window (snd (knuth_loop cnt q u d (S (S n2)) [d#[n2]; d#[S n2]]
                            (reciprocal_3by2 [d#[n2]; d#[S n2]]))) 0 (S (S n2)))
  /\ 0 <= value (window (snd (knuth_loop cnt q u d (S (S n2)) [d#[n2]; d#[S n2]]
                            (reciprocal_3by2 [d#[n2]; d#[S n2]]))) 0 (S (S n2)))
     < value (window d 0 (S (S n2)))
  /\ words (fst (knuth_loop cnt q u d (S (S n2)) [d#[n2]; d#[S n2]]
                   (reciprocal_3by2 [d#[n2]; d#[S n2]])))
  /\ length (fst (knuth_loop cnt q u d (S (S n2)) [d#[n2]; d#[S n2]]
                    (reciprocal_3by2 [d#[n2]; d#[S n2]]))) = length q
  /\ (forall t, (cnt <= t)%nat ->
        (fst (knuth_loop cnt q u d (S (S n2)) [d#[n2]; d#[S n2]]
                (reciprocal_3by2 [d#[n2]; d#[S n2]])))#[t] = q#[t])
  /\ words (snd (knuth_loop cnt q u d (S (S n2)) [d#[n2]; d#[S n2]]
                   (reciprocal_3by2 [d#[n2]; d#[S n2]])))
  /\ length (snd (knuth_loop cnt q u d (S (S n2)) [d#[n2]; d#[S n2]]
                    (reciprocal_3by2 [d#[n2]; d#[S n2]]))) = length u.
Proof.
  intros Wd Ld Hn.
  pose proof (window_value_range d 0 (S (S n2)) Wd ltac:(lia)) as RD.
  set (D := value (window d 0 (S (S n2)))) in *.
  induction cnt as [|j IH]; intros q u Wu Wq Lu Lq HW.
  - cbn [knuth_loop fst snd]. cbn [Nat.add] in *. rewrite window_0. cbn [value].
    change (Z.of_nat 0) with 0 in HW. rewrite Z.pow_0_r in HW.
    pose proof (window_value_range u 0 (S (S n2)) Wu ltac:(lia)).
    split_and; auto; lia.
  - rewrite knuth_loop_S.
    pose proof (Bpow_pos j) as HP.
    assert (Esplit : value (window u 0 (S j + S (S n2)))
                     = value (window u 0 j)
                       + B ^ Z.of_nat j * value (window u j (S (S (S n2))))).
    { replace (S j + S (S n2))%nat with (j + S (S (S n2)))%nat by lia.
      rewrite window_value_split by lia. reflexivity. }
    pose proof (window_value_range u 0 j Wu ltac:(lia)) as Rlow.
    assert (HWj : value (window u j (S (S (S n2)))) < B * D).
    { rewrite Esplit, Bpow_S in HW.
      set (Wj := value (window u j (S (S (S n2))))) in *. clearbody Wj D.
      assert (B ^ Z.of_nat j * Wj < B ^ Z.of_nat j * (B * D)) by lia.
      apply Z.mul_lt_mono_pos_l in H; assumption. }
    destruct (knuth_step_spec j q u d n2 Wu Wd ltac:(lia) Ld Hn HWj)
      as (qhat & Eq & Wqh & Ediv & Rrem & Wu1 & Lu1 & Fu1).
    set (st := knuth_step j q u d (S (S n2)) [d#[n2]; d#[S n2]]
                 (reciprocal_3by2 [d#[n2]; d#[S n2]])) in *.
    clearbody st. destruct st as [q1 u1]. cbn [fst snd] in *. subst q1.
    fold D in Ediv, Rrem.
    assert (Elow : window u1 0 j = window u 0 j).
    { apply window_ext; try lia. intros t Ht. apply Fu1. lia. }
    assert (Esplit1 : value (window u1 0 (j + S (S n2)))
                      = value (window u 0 j)
                        + B ^ Z.of_nat j * value (window u1 j (S (S n2)))).
    { rewrite window_value_split by lia. rewrite Elow. reflexivity. }
    assert (HW1 : value (window u1 0 (j + S (S n2))) < B ^ Z.of_nat j * D).
    { rewrite Esplit1.
      set (R1 := value (window u1 j (S (S n2)))) in *. clearbody R1 D.
      assert (B ^ Z.of_nat j * (R1 + 1) <= B ^ Z.of_nat j * D)
        by (apply Z.mul_le_mono_nonneg_l; lia).
      lia. }
    destruct (IH (upd q j qhat) u1 Wu1 (words_upd _ _ _ Wq Wqh)
                ltac:(lia) ltac:(rewrite length_upd; lia) HW1)
      as (E & R & Wf & Lf & Ff & Ws & Ls).
    set (r := knuth_loop j (upd q j qhat) u1 d (S (S n2)) [d#[n2]; d#[S n2]]
                (reciprocal_3by2 [d#[n2]; d#[S n2]])) in *.
    clearbody r. rewrite length_upd in Lf.
    split_and; auto; try lia.
    + rewrite Esplit, Ediv.
      rewrite (window_value_snoc (fst r) j 0) by lia. cbn [Nat.add].
      rewrite (Ff j) by lia. rewrite at_upd_same by lia.
      set (Q := value (window (fst r) 0 j)) in *.
      set (R0 := value (window (snd r) 0 (S (S n2)))) in *.
      set (R1 := value (window u1 j (S (S n2)))) in *.
      set (V1 := value (window u1 0 (j + S (S n2)))) in *.
      set (Lw := value (window u 0 j)) in *.
      clearbody Q R0 R1 V1 Lw D. clear - E Esplit1. nia.
    + intros t Ht. rewrite Ff by lia. apply at_upd_other. lia.
Qed.

(** ** Division by a one-word and by a two-word divisor *)

Lemma udivrem_2by1_recip u0 u1 d :
  word u0 -> word u1 -> u1 < d -> 2 ^ 63 <= d < 2 ^ 64 ->
  u0 + B * u1 = fst (udivrem_2by1 [u0; u1] d (reciprocal_2by1 d)) * d
                + snd (udivrem_2by1 [u0; u1] d (reciprocal_2by1 d))
  /\ 0 <= snd (udivrem_2by1 [u0; u1] d (reciprocal_2by1 d)) < d
  /\ word (fst (udivrem_2by1 [u0; u1] d (reciprocal_2by1 d))).
Proof.
  intros Hu0 Hu1 Hlt Hd.
  apply udivrem_2by1_correct; auto. apply reciprocal_2by1_correct. assumption.
Qed.

Lemma udivrem_3by2_recip u2 u1 u0 d0 d1 :
  word u0 -> word u1 -> word u2 -> word d0 -> 2 ^ 63 <= d1 < 2 ^ 64 ->
  u1 + B * u2 < d0 + B * d1 ->
  u0 + B * u1 + B * B * u2
  = fst (udivrem_3by2 u2 u1 u0 [d0; d1] (reciprocal_3by2 [d0; d1])) * (d0 + B * d1)
    + value (snd (udivrem_3by2 u2 u1 u0 [d0; d1] (reciprocal_3by2 [d0; d1])))
  /\ 0 <= value (snd (udivrem_3by2 u2 u1 u0 [d0; d1] (reciprocal_3by2 [d0; d1])))
     < d0 + B * d1
  /\ word (fst (udivrem_3by2 u2 u1 u0 [d0; d1] (reciprocal_3by2 [d0; d1])))
  /\ words (snd (udivrem_3by2 u2 u1 u0 [d0; d1] (reciprocal_3by2 [d0; d1])))
  /\ length (snd (udivrem_3by2 u2 u1 u0 [d0; d1] (reciprocal_3by2 [d0; d1]))) = 2%nat.
Proof.
  intros Hu0 Hu1 Hu2 Hd0 Hd1 Hlt.
  apply udivrem_3by2_correct; auto. apply reciprocal_3by2_correct; assumption.
Qed.

Lemma by1_loop_S i u d reciprocal rem :
  by1_loop (S i) u d reciprocal rem
  = by1_loop i (upd u i (fst (udivrem_2by1 [u#[i]; rem] d reciprocal))) d reciprocal
      (snd (udivrem_2by1 [u#[i]; rem] d reciprocal)).
Proof. lazy beta iota zeta delta [by1_loop]; fold by1_loop. reflexivity. Qed.

Lemma by1_loop_spec d :
  2 ^ 63 <= d < 2 ^ 64 ->
  forall i u rem,
  words u -> (i <= length u)%nat -> 0 <= rem < d ->
  value (window u 0 i) + B ^ Z.of_nat i * rem
  = value (window (fst (by1_loop i u d (reciprocal_2by1 d) rem)) 0 i) * d
    + snd (by1_loop i u d (reciprocal_2by1 d) rem)
  /\ 0 <= snd (by1_loop i u d (reciprocal_2by1 d) rem) < d
  /\ words (fst (by1_loop i u d (reciprocal_2by1 d) rem))
  /\ length (fst (by1_loop i u d (reciprocal_2by1 d) rem)) = length u
  /\ (forall t, (i <= t)%nat ->
        (fst (by1_loop i u d (reciprocal_2by1 d) rem))#[t] = u#[t]).
Proof.
  intros Hd. induction i as [|i IH]; intros u rem Wu Lu Hr.
  - cbn [by1_loop fst snd]. rewrite window_0. cbn [value].
    change (Z.of_nat 0) with 0. rewrite Z.pow_0_r. split_and; auto; lia.
  - rewrite by1_loop_S.
    assert (Wrem : word rem) by (unfold word; rewrite B_pow; lia).
    destruct (udivrem_2by1_recip u#[i] rem d (at_word u i Wu) Wrem
                ltac:(lia) Hd) as (E & R & Q).
    set (res := udivrem_2by1 [u#[i]; rem] d _) in *. clearbody res.
    destruct res as [q rem']. cbn [fst snd] in *.
    destruct (IH (upd u i q) rem' (words_upd _ _ _ Wu Q)
                ltac:(rewrite length_upd; lia) R) as (E' & R' & Wf & Lf & Ff).
    set (r := by1_loop i (upd u i q) d (reciprocal_2by1 d) rem') in *.
    clearbody r. rewrite length_upd in Lf.
    rewrite window_upd_after in E' by lia.
    split_and; auto; try lia.
    + rewrite (window_value_snoc u i 0), (window_value_snoc (fst r) i 0) by lia.
      cbn [Nat.add]. rewrite (Ff i) by lia. rewrite at_upd_same by lia.
      rewrite Bpow_S.
      set (P := B ^ Z.of_nat i) in *.
      set (A := value (window u 0 i)) in *.
      set (Q' := value (window (fst r) 0 i)) in *.
      clearbody P A Q'. clear - E E'. nia.
    + intros t Ht. rewrite Ff by lia. apply at_upd_other. lia.
Qed.

Lemma udivrem_by1_spec u len d :
  words u -> (1 <= len <= length u)%nat -> 2 ^ 63 <= d < 2 ^ 64 ->
  u#[len - 1] < d ->
  value (window u 0 len)
  = value (window (fst (udivrem_by1 u len d)) 0 len) * d + snd (udivrem_by1 u len d)
  /\ 0 <= snd (udivrem_by1 u len d) < d
  /\ words (fst (udivrem_by1 u len d))
  /\ length (fst (udivrem_by1 u len d)) = length u
  /\ (forall t, (len <= t)%nat -> (fst (udivrem_by1 u len d))#[t] = u#[t]).
Proof.
  intros Wu Hlen Hd Htop. unfold udivrem_by1.
  destruct len as [|n]; [lia|]. replace (S n - 1)%nat with n in * by lia.
  pose proof (at_word u n Wu) as Wt. unfold word in Wt.
  destruct (by1_loop_spec d Hd n (upd u n 0) u#[n]
              (words_upd _ _ _ Wu word_0) ltac:(rewrite length_upd; lia)
              ltac:(lia)) as (E & R & Wf & Lf & Ff).
  set (r := by1_loop n (upd u n 0) d (reciprocal_2by1 d) u#[n]) in *.
  clearbody r. rewrite length_upd in Lf.
  rewrite window_upd_after in E by lia.
  split_and; auto; try lia.
  - rewrite (window_value_snoc u n 0), (window_value_snoc (fst r) n 0) by lia.
    cbn [Nat.add]. rewrite (Ff n) by lia. rewrite at_upd_same by lia.
    rewrite Z.mul_0_l, Z.add_0_r. rewrite <- E. ring.
  - intros t Ht. rewrite Ff by lia. apply at_upd_other. lia.
Qed.

Lemma by2_loop_S i u d reciprocal rem :
  by2_loop (S i) u d reciprocal rem
  = by2_loop i (upd u i (fst (udivrem_3by2 rem#[1] rem#[0] u#[i] d reciprocal)))
      d reciprocal (snd (udivrem_3by2 rem#[1] rem#[0] u#[i] d reciprocal)).
Proof. lazy beta iota zeta delta [by2_loop]; fold by2_loop. reflexivity. Qed.

Lemma by2_loop_spec d0 d1 :
  word d0 -> 2 ^ 63 <= d1 < 2 ^ 64 ->
  forall i u rem,
  words u -> (i <= length u)%nat ->
  words rem -> length rem = 2%nat -> value rem < d0 + B * d1 ->
  value (window u 0 i) + B ^ Z.of_nat i * value rem
  = value (window (fst (by2_loop i u [d0; d1] (reciprocal_3by2 [d0; d1]) rem)) 0 i)
    * (d0 + B * d1)
    + value (snd (by2_loop i u [d0; d1] (reciprocal_3by2 [d0; d1]) rem))
  /\ 0 <= value (snd (by2_loop i u [d0; d1] (reciprocal_3by2 [d0; d1]) rem))
     < d0 + B * d1
  /\ words (snd (by2_loop i u [d0; d1] (reciprocal_3by2 [d0; d1]) rem))
  /\ length (snd (by2_loop i u [d0; d1] (reciprocal_3by2 [d0; d1]) rem)) = 2%nat
  /\ words (fst (by2_loop i u [d0; d1] (reciprocal_3by2 [d0; d1]) rem))
  /\ length (fst (by2_loop i u [d0; d1] (reciprocal_3by2 [d0; d1]) rem)) = length u
  /\ (forall t, (i <= t)%nat ->
        (fst (by2_loop i u [d0; d1] (reciprocal_3by2 [d0; d1]) rem))#[t] = u#[t]).
Proof.
  intros Hd0 Hd1. induction i as [|i IH]; intros u rem Wu Lu Wr Lr Hr.
  - cbn [by2_loop fst snd]. rewrite window_0. cbn [value].
    change (Z.of_nat 0) with 0. rewrite Z.pow_0_r.
    pose proof (value_range rem Wr). split_and; auto; lia.
  - rewrite by2_loop_S.
    destruct rem as [|r0 [|r1 [|? ?]]]; try discriminate.
    apply words_inv in Wr as [Wr0 Wr]. apply words_inv in Wr as [Wr1 _].
    rewrite !at_cons_S, !at_cons_0. rewrite value_2 in *.
    destruct (udivrem_3by2_recip r1 r0 u#[i] d0 d1 (at_word u i Wu) Wr0 Wr1
                Hd0 Hd1 Hr) as (E & R & Q & WR & LR).
    set (res := udivrem_3by2 r1 r0 u#[i] [d0; d1] _) in *. clearbody res.
    destruct res as [q rem']. cbn [fst snd] in *.
    destruct (IH (upd u i q) rem' (words_upd _ _ _ Wu Q)
                ltac:(rewrite length_upd; lia) WR LR ltac:(lia))
      as (E' & R' & Ws & Ls & Wf & Lf & Ff).
    set (r := by2_loop i (upd u i q) [d0; d1] (reciprocal_3by2 [d0; d1]) rem') in *.
    clearbody r. rewrite length_upd in Lf.
    rewrite window_upd_after in E' by lia.
    split_and; auto; try lia.
    + rewrite (window_value_snoc u i 0), (window_value_snoc (fst r) i 0) by lia.
      cbn [Nat.add]. rewrite (Ff i) by lia. rewrite at_upd_same by lia.
      rewrite Bpow_S.
      set (P := B ^ Z.of_nat i) in *.
      set (A := value (window u 0 i)) in *.
      set (Q' := value (window (fst r) 0 i)) in *.
      set (D := d0 + B * d1) in *.
      clearbody P A Q' D. clear - E E'. nia.
    + intros t Ht. rewrite Ff by lia. apply at_upd_other. lia.
Qed.

Lemma udivrem_by2_spec u len d0 d1 :
  words u -> (2 <= len <= length u)%nat -> word d0 -> 2 ^ 63 <= d1 < 2 ^ 64 ->
  u#[len - 2] + B * u#[len - 1] < d0 + B * d1 ->
  value (window u 0 len)
  = value (window (fst (udivrem_by2 u len [d0; d1])) 0 len) * (d0 + B * d1)
    + value (snd (udivrem_by2 u len [d0; d1]))
  /\ 0 <= value (snd (udivrem_by2 u len [d0; d1])) < d0 + B * d1
  /\ words (snd (udivrem_by2 u len [d0; d1]))
  /\ length (snd (udivrem_by2 u len [d0; d1])) = 2%nat
  /\ words (fst (udivrem_by2 u len [d0; d1]))
  /\ length (fst (udivrem_by2 u len [d0; d1])) = length u
  /\ (forall t, (len <= t)%nat -> (fst (udivrem_by2 u len [d0; d1]))#[t] = u#[t]).
Proof.
  intros Wu Hlen Hd0 Hd1 Htop. unfold udivrem_by2.
  destruct len as [|[|n]]; try lia.
  replace (S (S n) - 2)%nat with n in * by lia.
  replace (S (S n) - 1)%nat with (S n) in * by lia.
  set (u' := upd (upd u n 0) (S n) 0).
  assert (Wu' : words u') by (subst u'; auto using words_upd, word_0).
  assert (Lu' : length u' = length u) by (subst u'; rewrite !length_upd; reflexivity).
  destruct (by2_loop_spec d0 d1 Hd0 Hd1 n u' [u#[n]; u#[S n]] Wu' ltac:(lia)
              (words_2 _ _ (at_word u n Wu) (at_word u (S n) Wu)) eq_refl
              ltac:(rewrite value_2; exact Htop))
    as (E & R & Ws & Ls & Wf & Lf & Ff).
  set (r := by2_loop n u' [d0; d1] (reciprocal_3by2 [d0; d1]) [u#[n]; u#[S n]]) in *.
  clearbody r.
  assert (Ew : window u' 0 n = window u 0 n).
  { subst u'. rewrite !window_upd_after by lia. reflexivity. }
  rewrite Ew, value_2 in E.
  split_and; auto; try lia.
  - replace (S (S n)) with (n + 2)%nat by lia.
    rewrite !window_value_split by lia. rewrite !window2 by lia.
    cbn [Nat.add]. rewrite (Ff n), (Ff (S n)) by lia.
    subst u'. rewrite (at_upd_other _ (S n) n) by lia.
    rewrite at_upd_same by lia.
    rewrite at_upd_same by (rewrite length_upd; lia).
    rewrite E. ring.
  - intros t Ht. rewrite Ff by lia. subst u'. rewrite !at_upd_other by lia.
    reflexivity.
Qed.

(** A quotient and a remainder are determined by the division law. *)
Lemma quot_rem_unique a d q r :
  a = q * d + r -> 0 <= r < d -> q = a / d /\ r = a mod d.
Proof.
  intros E R. split.
  - apply Z.div_unique with r; [lia|]. rewrite E. ring.
  - apply Z.mod_unique with q; [lia|]. rewrite E. ring.
Qed.

(** ** Word lists compared word by word *)

Lemma value_all_zero x : (forall k, x#[k] = 0) -> value x = 0.
Proof.
  induction x as [|a x IH]; intros H; [reflexivity|].
  rewrite value_cons. pose proof (H 0%nat) as H0. rewrite at_cons_0 in H0.
  rewrite IH; [lia|]. intros k. specialize (H (S k)). rewrite at_cons_S in H. exact H.
Qed.

Lemma value_ext x : forall y, (forall k, x#[k] = y#[k]) -> value x = value y.
Proof.
  induction x as [|a x IH]; intros y H.
  - symmetry. apply value_all_zero. intros k. rewrite <- H. destruct k; reflexivity.
  - destruct y as [|b y].
    + apply value_all_zero. intros k. rewrite H. destruct k; reflexivity.
    + rewrite !value_cons. pose proof (H 0%nat) as H0. rewrite !at_cons_0 in H0.
      rewrite (IH y); [lia|]. intros k. specialize (H (S k)).
      rewrite !at_cons_S in H. exact H.
Qed.

Lemma at_firstn (x : list Z) : forall n k,
  (firstn n x)#[k] = if (k <? n)%nat then x#[k] else 0.
Proof.
  induction x as [|a x IH]; intros n k.
  - rewrite firstn_nil. destruct (k <? n)%nat; destruct k; reflexivity.
  - destruct n as [|n]; [destruct k; reflexivity|].
    destruct k as [|k]; [reflexivity|].
    cbn [firstn]. rewrite !at_cons_S, IH. reflexivity.
Qed.

Lemma at_app (x y : list Z) k :
  (x ++ y)#[k] = if (k <? length x)%nat then x#[k] else y#[k - length x].
Proof.
  unfold at_. destruct (Nat.ltb_spec k (length x)).
  - apply app_nth1. assumption.
  - apply app_nth2. lia.
Qed.

Lemma at_resize nw x k :
  (resize nw x)#[k] = if (k <? nw)%nat then x#[k] else 0.
Proof.
  unfold resize. rewrite at_app, at_firstn, length_firstn.
  destruct (Nat.ltb_spec k (Nat.min nw (length x))).
  - destruct (Nat.ltb_spec k nw); [reflexivity|lia].
  - rewrite at_zeros. destruct (Nat.ltb_spec k nw); [|reflexivity].
    symmetry. apply at_beyond. lia.
Qed.

Lemma length_resize nw x : length (resize nw x) = nw.
Proof. unfold resize. rewrite length_app, length_firstn, length_zeros. lia. Qed.

Lemma words_resize nw x : words x -> words (resize nw x).
Proof.
  intros W. unfold resize, words. apply Forall_app. split.
  - apply words_firstn. assumption.
  - apply words_zeros.
Qed.

Lemma value_resize nw x :
  (forall k, (nw <= k)%nat -> x#[k] = 0) -> value (resize nw x) = value x.
Proof.
  intros H. apply value_ext. intros k. rewrite at_resize.
  destruct (Nat.ltb_spec k nw); [reflexivity|]. symmetry. apply H. assumption.
Qed.

Lemma value_resize_small nw x :
  words x -> value x < B ^ Z.of_nat nw -> value (resize nw x) = value x.
Proof.
  intros W H. apply value_resize. intros k Hk.
  apply (value_small_at x nw k); assumption.
Qed.

Lemma value_window_zeros x m :
  (forall k, (m <= k)%nat -> x#[k] = 0) -> value (window x 0 m) = value x.
Proof.
  intros H. apply value_ext. intros k. unfold window. cbn [skipn].
  rewrite at_firstn. destruct (Nat.ltb_spec k m); [reflexivity|].
  symmetry. apply H. assumption.
Qed.

(** ** Shifting a word list by less than a word *)

(** Word [k] of the shifted list takes the low bits of word [k] and the
    high bits of word [k - 1]; [c] enters at the bottom. *)
Lemma shifted_value s : 0 <= s < 64 -> forall x y c,
  length y = S (length x) ->
  y#[0] = (x#[0] mod 2 ^ (64 - s)) * 2 ^ s + c ->
  (forall k, (k < length x)%nat ->
     y#[S k] = (x#[S k] mod 2 ^ (64 - s)) * 2 ^ s + x#[k] / 2 ^ (64 - s)) ->
  value y = 2 ^ s * value x + c.
Proof.
  intros Hs. induction x as [|a x IH]; intros y c L H0 HS.
  - destruct y as [|y0 [|? ?]]; try discriminate.
    unfold at_ in H0. cbn [nth] in H0. rewrite Zmod_0_l in H0.
    cbn [value]. lia.
  - destruct y as [|y0 y]; [discriminate|].
    rewrite !value_cons. rewrite at_cons_0 in H0.
    rewrite (IH y (a / 2 ^ (64 - s))).
    + rewrite H0. rewrite at_cons_0.
      pose proof (word_parts a s ltac:(lia)) as Ea.
      pose proof (pow_split s ltac:(lia)) as EB.
      set (lo := a mod 2 ^ (64 - s)) in *. set (hi := a / 2 ^ (64 - s)) in *.
      clearbody lo hi. set (p := 2 ^ s) in *. set (p' := 2 ^ (64 - s)) in *.
      clearbody p p'. rewrite <- EB. rewrite Ea. ring.
    + cbn [length] in L. lia.
    + specialize (HS 0%nat ltac:(cbn [length]; lia)).
      rewrite !at_cons_S, at_cons_0 in HS. exact HS.
    + intros k Hk. specialize (HS (S k) ltac:(cbn [length]; lia)).
      rewrite !at_cons_S in HS. exact HS.
Qed.

(** The inverse: word [k] of the result takes the high bits of word [k]
    and the low bits of word [k + 1]. *)
Lemma unshifted_value s : 0 <= s < 64 -> forall x y,
  length y = length x ->
  (forall k, (k < length x)%nat ->
     y#[k] = x#[k] / 2 ^ s + (x#[S k] mod 2 ^ s) * 2 ^ (64 - s)) ->
  2 ^ s * value y + x#[0] mod 2 ^ s = value x.
Proof.
  intros Hs. induction x as [|a x IH]; intros y L H.
  - destruct y; [|discriminate]. unfold at_. cbn [nth value]. rewrite Zmod_0_l. lia.
  - destruct y as [|b y]; [discriminate|].
    rewrite !value_cons, at_cons_0.
    assert (E : 2 ^ s * value y + x#[0] mod 2 ^ s = value x).
    { apply IH; [cbn [length] in L; lia|].
      intros k Hk. specialize (H (S k) ltac:(cbn [length]; lia)).
      rewrite !at_cons_S in H. exact H. }
    specialize (H 0%nat ltac:(cbn [length]; lia)).
    rewrite !at_cons_0, at_cons_S in H. rewrite H.
    pose proof (pow_split s ltac:(lia)) as EB.
    pose proof (Z.div_mod a (2 ^ s) ltac:(lia)) as Ea.
    set (lo := a mod 2 ^ s) in *. set (hi := a / 2 ^ s) in *.
    set (t := x#[0] mod 2 ^ s) in *. clearbody lo hi t.
    set (p := 2 ^ s) in *. set (p' := 2 ^ (64 - s)) in *. clearbody p p'.
    rewrite <- E, <- EB. rewrite Ea. ring.
Qed.

(** ** Normalization of the operands *)

Lemma norm_loop_S i v s vn :
  norm_loop (S i) v s vn
  = norm_loop i v s (upd vn (S i) (Z.lor (shl64 v#[S i] s) (shr64 v#[i] (64 - s)))).
Proof. reflexivity. Qed.

Lemma norm_loop_length v s : forall i vn, length (norm_loop i v s vn) = length vn.
Proof.
  induction i as [|i IH]; intros vn; [reflexivity|].
  rewrite norm_loop_S, IH, length_upd. reflexivity.
Qed.

Lemma norm_loop_at v s : forall i vn k,
  (norm_loop i v s vn)#[k]
  = if ((1 <=? k) && (k <=? i) && (k <? length vn))%nat
    then Z.lor (shl64 v#[k] s) (shr64 v#[k - 1] (64 - s))
    else vn#[k].
Proof.
  induction i as [|i IH]; intros vn k.
  - cbn [norm_loop]. destruct (Nat.leb_spec 1 k), (Nat.leb_spec k 0); try reflexivity. lia.
  - rewrite norm_loop_S, IH, length_upd, at_upd.
    destruct (Nat.leb_spec 1 k), (Nat.leb_spec k i), (Nat.leb_spec k (S i)),
      (Nat.ltb_spec k (length vn)), (Nat.eqb_spec k (S i)),
      (Nat.ltb_spec (S i) (length vn)); cbn [andb]; try reflexivity; try lia.
    subst k. replace (S i - 1)%nat with i by lia. reflexivity.
Qed.

Lemma normalize_shift oob u v :
  shift (normalize oob u v) = clz64 v#[trim_words v (length v) - 1].
Proof.
  unfold normalize.
  destruct (negb (clz64 v#[trim_words v (length v) - 1] =? 0)); reflexivity.
Qed.

Lemma normalize_num_divisor_words oob u v :
  num_divisor_words (normalize oob u v) = trim_words v (length v).
Proof.
  unfold normalize.
  destruct (negb (clz64 v#[trim_words v (length v) - 1] =? 0)); reflexivity.
Qed.

Lemma normalize_divisor oob u v :
  divisor (normalize oob u v)
  = let s := clz64 v#[trim_words v (length v) - 1] in
    if negb (s =? 0)
    then upd (norm_loop (length v - 1) v s (zeros (length v))) 0 (shl64 v#[0] s)
    else v.
Proof.
  unfold normalize.
  destruct (negb (clz64 v#[trim_words v (length v) - 1] =? 0)); reflexivity.
Qed.

Lemma normalize_numerator oob u v :
  numerator (normalize oob u v)
  = let s := clz64 v#[trim_words v (length v) - 1] in
    if negb (s =? 0)
    then upd (norm_loop (length u - 1) u s
                (upd (zeros (length u + 1)) (length u)
                   (shr64 u#[length u - 1] (64 - s))))
           0 (shl64 u#[0] s)
    else resize (length u + 1) u.
Proof.
  unfold normalize.
  destruct (negb (clz64 v#[trim_words v (length v) - 1] =? 0)); reflexivity.
Qed.

Lemma normalize_num_numerator_words oob u v :
  num_numerator_words (normalize oob u v)
  = let m := trim_words u (length u) in
    let n := trim_words v (length v) in
    let un := numerator (normalize oob u v) in
    let vn := divisor (normalize oob u v) in
    let un_below := match m with O => oob | S m' => un#[m'] end in
    if negb (un#[m] =? 0) || (vn#[n - 1] <=? un_below) then S m else m.
Proof.
  unfold normalize.
  destruct (negb (clz64 v#[trim_words v (length v) - 1] =? 0)); reflexivity.
Qed.

Lemma words_pointwise l : (forall k, (k < length l)%nat -> word l#[k]) -> words l.
Proof.
  induction l as [|a l IH]; intros H; [apply words_nil|].
  apply words_cons.
  - apply (H 0%nat). cbn [length]. lia.
  - apply IH. intros k Hk. apply (H (S k)). cbn [length]. lia.
Qed.

Lemma shifted_word_range s x y :
  0 <= s < 64 -> word y ->
  0 <= (x mod 2 ^ (64 - s)) * 2 ^ s + y / 2 ^ (64 - s) < B.
Proof.
  intros Hs Wy.
  pose proof (pow_split s ltac:(lia)) as EB.
  pose proof (shr_part_range y s ltac:(lia) Wy) as Hy.
  pose proof (Z.mod_pos_bound x (2 ^ (64 - s)) ltac:(apply Z.pow_pos_nonneg; lia)) as Hx.
  set (lo := x mod 2 ^ (64 - s)) in *. set (hi := y / 2 ^ (64 - s)) in *.
  clearbody lo hi.
  assert (Hp : 0 < 2 ^ s) by (apply Z.pow_pos_nonneg; lia).
  set (p := 2 ^ s) in *. set (p' := 2 ^ (64 - s)) in *. clearbody p p'.
  clear - EB Hy Hx Hp. nia.
Qed.

Lemma unshifted_low x : word x -> (x mod 2 ^ (64 - 0)) * 2 ^ 0 = x.
Proof.
  intros W. unfold word in W. rewrite B_pow in W.
  change (64 - 0) with 64. rewrite Z.mod_small by lia. lia.
Qed.

Lemma unshifted_high x : word x -> x / 2 ^ (64 - 0) = 0.
Proof.
  intros W. unfold word in W. rewrite B_pow in W.
  change (64 - 0) with 64. apply Z.div_small. lia.
Qed.

(** Word [k] of a normalized operand: [base] is the buffer the loop
    writes into. *)
Lemma normalized_at x s base :
  0 < s < 64 -> words x -> (1 <= length base)%nat ->
  let y := upd (norm_loop (length x - 1) x s base) 0 (shl64 x#[0] s) in
  length y = length base
  /\ y#[0] = (x#[0] mod 2 ^ (64 - s)) * 2 ^ s
  /\ (forall k, (S k < length x)%nat -> (S k < length base)%nat ->
        y#[S k] = (x#[S k] mod 2 ^ (64 - s)) * 2 ^ s + x#[k] / 2 ^ (64 - s))
  /\ (forall k, (length x <= k)%nat -> (1 <= k)%nat -> y#[k] = base#[k]).
Proof.
  intros Hs Wx Lb y. subst y. split_and.
  - rewrite length_upd, norm_loop_length. reflexivity.
  - rewrite at_upd_same by (rewrite norm_loop_length; lia).
    apply shl64_split. lia.
  - intros k Hk Hkb. rewrite at_upd_other by lia. rewrite norm_loop_at.
    destruct (Nat.leb_spec 1 (S k)); [|lia].
    destruct (Nat.leb_spec (S k) (length x - 1)); [|lia].
    destruct (Nat.ltb_spec (S k) (length base)); [|lia].
    cbn [andb]. replace (S k - 1)%nat with k by lia.
    apply lor_shift; [assumption|]. apply at_word. assumption.
  - intros k Hk Hk1. rewrite at_upd_other by lia. rewrite norm_loop_at.
    destruct (Nat.leb_spec k (length x - 1)); [lia|].
    rewrite Bool.andb_false_r. reflexivity.
Qed.


Lemma value_ge_top y : forall t, words y -> y#[t] * B ^ Z.of_nat t <= value y.
Proof.
  induction y as [|b y IH]; intros t W.
  - destruct t; cbn; lia.
  - apply words_inv in W as [Wb W]. rewrite value_cons.
    pose proof (value_range y W) as R. pose proof B_pos as HB. unfold word in Wb.
    destruct t as [|t].
    + rewrite at_cons_0. cbn [Z.of_nat]. rewrite Z.pow_0_r. nia.
    + rewrite at_cons_S, Bpow_S. specialize (IH t W).
      set (P := B ^ Z.of_nat t) in *. clearbody P. nia.
Qed.

(** A list whose top word is smaller denotes a smaller number. *)
Lemma value_lt_top : forall t x y,
  words x -> words y -> (forall k, (S t <= k)%nat -> x#[k] = 0) ->
  x#[t] < y#[t] -> value x < value y.
Proof.
  induction t as [|t IH]; intros x y Wx Wy Hz Hlt.
  - assert (Ex : value x = x#[0]).
    { destruct x as [|a x]; [reflexivity|]. rewrite value_cons, at_cons_0.
      rewrite (value_all_zero x); [lia|]. intros k.
      specialize (Hz (S k) ltac:(lia)). rewrite at_cons_S in Hz. exact Hz. }
    pose proof (value_ge_top y 0 Wy) as Hy. cbn [Z.of_nat] in Hy.
    rewrite Z.pow_0_r in Hy. lia.
  - destruct y as [|b y].
    { pose proof (at_word x (S t) Wx) as W. unfold word in W.
      unfold at_ in Hlt at 2. cbn [nth] in Hlt. lia. }
    apply words_inv in Wy as [Wb Wy]. rewrite at_cons_S in Hlt.
    pose proof B_pos as HB. unfold word in Wb.
    destruct x as [|a x].
    + assert (H : value [] < value y).
      { apply (IH [] y); auto using words_nil.
        - intros k _. destruct k; reflexivity.
        - unfold at_ in Hlt at 1. cbn [nth] in Hlt.
          unfold at_ at 1. destruct t; cbn [nth]; exact Hlt. }
      rewrite value_cons. change (value []) with 0 in *. nia.
    + apply words_inv in Wx as [Wa Wx]. rewrite at_cons_S in Hlt.
      assert (H : value x < value y).
      { apply (IH x y); auto. intros k Hk. specialize (Hz (S k) ltac:(lia)).
        rewrite at_cons_S in Hz. exact Hz. }
      rewrite !value_cons. unfold word in Wa. nia.
Qed.

Section Normalize.

Variables (oob : Z) (u v : list Z).
Hypothesis Wu : words u.
Hypothesis Wv : words v.
Hypothesis Lu : (1 <= length u)%nat.
Hypothesis Vnz : value v <> 0.

Local Abbreviation na := (normalize oob u v).
Local Abbreviation sh := (shift (normalize oob u v)).
Local Abbreviation nd := (num_divisor_words (normalize oob u v)).
Local Abbreviation un := (numerator (normalize oob u v)).
Local Abbreviation vn := (divisor (normalize oob u v)).

Lemma normalize_divisor_top :
  (1 <= nd <= length v)%nat /\ 0 < v#[nd - 1] < 2 ^ 64
  /\ (forall k, (nd <= k)%nat -> v#[k] = 0)
  /\ B ^ Z.of_nat (nd - 1) <= value v.
Proof.
  rewrite normalize_num_divisor_words.
  pose proof (count_significant_words_spec v Wv) as H. cbv zeta in H.
  unfold count_significant_words in H. rewrite csw_loop_trim in H.
  destruct (trim_words_spec v (length v)) as (T1 & T2 & T3).
  destruct H as (K1 & K2 & K3 & K4).
  assert (Hn : (0 < trim_words v (length v))%nat).
  { destruct (trim_words v (length v)); [|lia]. exfalso. apply Vnz.
    apply K4. reflexivity. }
  destruct (K3 Hn) as [K5 K6].
  pose proof (at_word v (trim_words v (length v) - 1) Wv) as W.
  unfold word in W. rewrite B_pow in W.
  split_and; try lia; auto.
  intros k Hk. destruct (Nat.lt_ge_cases k (length v)).
  - apply T2. lia.
  - apply at_beyond. assumption.
Qed.

Lemma normalize_shift_range :
  0 <= sh < 64 /\ 2 ^ 63 <= v#[nd - 1] * 2 ^ sh < 2 ^ 64
  /\ v#[nd - 1] < 2 ^ (64 - sh).
Proof.
  destruct normalize_divisor_top as (_ & Hv & _).
  rewrite normalize_shift, <- (normalize_num_divisor_words oob u v).
  pose proof (clz64_spec _ Hv) as [H1 H2].
  pose proof (clz64_bitlen _ Hv) as H3.
  split_and; lia.
Qed.

Lemma normalize_numerator_at :
  length un = S (length u)
  /\ un#[0] = (u#[0] mod 2 ^ (64 - sh)) * 2 ^ sh
  /\ (forall k, (k < length u)%nat ->
        un#[S k] = (u#[S k] mod 2 ^ (64 - sh)) * 2 ^ sh + u#[k] / 2 ^ (64 - sh)).
Proof.
  destruct normalize_shift_range as (Hs & _).
  revert Hs. rewrite normalize_numerator, normalize_shift. cbv zeta.
  set (s := clz64 v#[trim_words v (length v) - 1]). clearbody s. intros Hs.
  destruct (Z.eqb_spec s 0) as [E|E]; cbn [negb].
  - subst s. split_and.
    + rewrite length_resize. lia.
    + rewrite at_resize. destruct (Nat.ltb_spec 0 (length u + 1)); [|lia].
      symmetry. apply unshifted_low. apply at_word. assumption.
    + intros k Hk. rewrite at_resize.
      destruct (Nat.ltb_spec (S k) (length u + 1)); [|lia].
      rewrite unshifted_low, unshifted_high by (apply at_word; assumption). lia.
  - set (base := upd (zeros (length u + 1)) (length u)
                   (shr64 u#[length u - 1] (64 - s))).
    assert (Lb : length base = S (length u)).
    { subst base. rewrite length_upd, length_zeros. lia. }
    destruct (normalized_at u s base ltac:(lia) Wu ltac:(lia)) as (L & H0 & HS & HB).
    cbv zeta in L, H0, HS, HB. split_and.
    + rewrite L. exact Lb.
    + exact H0.
    + intros k Hk. destruct (Nat.lt_ge_cases (S k) (length u)) as [Hlt|Hge].
      * apply HS; lia.
      * assert (Ek : S k = length u) by lia.
        rewrite HB by lia. subst base. rewrite Ek.
        rewrite at_upd_same by (rewrite length_zeros; lia).
        rewrite (at_beyond u (length u)) by lia. rewrite Zmod_0_l.
        replace (length u - 1)%nat with k by lia.
        rewrite shr64_div by lia. lia.
Qed.

Lemma normalize_divisor_at :
  length vn = length v
  /\ vn#[0] = (v#[0] mod 2 ^ (64 - sh)) * 2 ^ sh
  /\ (forall k, (S k < length v)%nat ->
        vn#[S k] = (v#[S k] mod 2 ^ (64 - sh)) * 2 ^ sh + v#[k] / 2 ^ (64 - sh)).
Proof.
  destruct normalize_shift_range as (Hs & _).
  destruct normalize_divisor_top as (Hn & _).
  revert Hs. rewrite normalize_divisor, normalize_shift. cbv zeta.
  set (s := clz64 v#[trim_words v (length v) - 1]). clearbody s. intros Hs.
  destruct (Z.eqb_spec s 0) as [E|E]; cbn [negb].
  - subst s. split_and.
    + reflexivity.
    + symmetry. apply unshifted_low. apply at_word. assumption.
    + intros k Hk.
      rewrite unshifted_low, unshifted_high by (apply at_word; assumption). lia.
  - destruct (normalized_at v s (zeros (length v)) ltac:(lia) Wv
                ltac:(rewrite length_zeros; lia)) as (L & H0 & HS & HB).
    cbv zeta in L, H0, HS, HB. rewrite length_zeros in *. split_and.
    + exact L.
    + exact H0.
    + intros k Hk. apply HS; lia.
Qed.


Lemma normalize_numerator_value :
  words un /\ value un = 2 ^ sh * value u.
Proof.
  destruct normalize_shift_range as (Hs & _).
  destruct normalize_numerator_at as (L & H0 & HS).
  split.
  - apply words_pointwise. intros k Hk. unfold word.
    destruct k as [|k].
    + rewrite H0.
      pose proof (shifted_word_range sh u#[0] 0 Hs word_0) as R.
      rewrite Zdiv_0_l, Z.add_0_r in R. exact R.
    + rewrite HS by lia. apply shifted_word_range; [assumption|].
      apply at_word. assumption.
  - rewrite (shifted_value sh Hs u un 0); [lia|exact L| |exact HS].
    rewrite H0. lia.
Qed.

Lemma normalize_divisor_top_high : v#[length v - 1] / 2 ^ (64 - sh) = 0.
Proof.
  destruct normalize_shift_range as (Hs & _ & Hb).
  destruct normalize_divisor_top as (Hn & Hv & Hz & _).
  destruct (Nat.eq_dec nd (length v)) as [E|E].
  - rewrite <- E. apply Z.div_small. lia.
  - rewrite Hz by lia. apply Zdiv_0_l.
Qed.

Lemma normalize_divisor_value :
  words vn /\ value vn = 2 ^ sh * value v
  /\ 2 ^ 63 <= vn#[nd - 1]
  /\ (forall k, (nd <= k)%nat -> vn#[k] = 0).
Proof.
  destruct normalize_shift_range as (Hs & Hn1 & Hb).
  destruct normalize_divisor_top as (Hn & Hv & Hz & _).
  destruct normalize_divisor_at as (L & H0 & HS).
  pose proof normalize_divisor_top_high as Htop.
  assert (Hlow : forall x, 0 <= x < 2 ^ (64 - sh) -> x mod 2 ^ (64 - sh) = x)
    by (intros x Hx; apply Z.mod_small; exact Hx).
  split_and.
  - apply words_pointwise. intros k Hk. unfold word.
    destruct k as [|k].
    + rewrite H0.
      pose proof (shifted_word_range sh v#[0] 0 Hs word_0) as R.
      rewrite Zdiv_0_l, Z.add_0_r in R. exact R.
    + rewrite HS by lia. apply shifted_word_range; [assumption|].
      apply at_word. assumption.
  - assert (E : value (vn ++ [0]) = 2 ^ sh * value v + 0).
    { apply (shifted_value sh Hs).
      - rewrite length_app, L. cbn [length]. lia.
      - rewrite at_app. destruct (Nat.ltb_spec 0 (length vn)); [|lia].
        rewrite H0. lia.
      - intros k Hk. rewrite at_app.
        destruct (Nat.ltb_spec (S k) (length vn)) as [Hlt|Hge].
        + apply HS. lia.
        + assert (Ek : S k = length v) by lia.
          replace (S k - length vn)%nat with 0%nat by lia.
          rewrite (at_beyond v (S k)) by lia. rewrite Zmod_0_l.
          replace k with (length v - 1)%nat by lia. rewrite Htop.
          reflexivity. }
    rewrite value_app in E. cbn [value] in E. lia.
  - assert (Ht : v#[nd - 1] * 2 ^ sh <= vn#[nd - 1]).
    { destruct (nd - 1)%nat as [|k] eqn:Ek.
      - rewrite H0. rewrite Hlow by lia. lia.
      - rewrite HS by lia. rewrite Hlow by lia.
        pose proof (shr_part_range v#[k] sh ltac:(lia) (at_word v k Wv)). lia. }
    lia.
  - intros k Hk. destruct (Nat.lt_ge_cases k (length v)) as [Hlt|Hge].
    + destruct k as [|k]; [lia|]. rewrite HS by lia.
      rewrite (Hz (S k)) by lia. rewrite Zmod_0_l.
      destruct (Nat.eq_dec (S k) nd) as [E|E].
      * replace k with (nd - 1)%nat by lia. rewrite Z.div_small by lia. lia.
      * rewrite (Hz k) by lia. rewrite Zdiv_0_l. lia.
    + apply at_beyond. lia.
Qed.


(** The numerator either has no more significant words than the divisor,
    and is then the smaller number, or its top counted word is below the
    divisor's top word and nothing lies above it. *)
Lemma normalize_numerator_count :
  ((num_numerator_words na <= nd)%nat /\ value u < value v)
  \/ ((nd < num_numerator_words na <= S (length u))%nat
      /\ un#[num_numerator_words na - 1] < vn#[nd - 1]
      /\ (forall k, (num_numerator_words na <= k)%nat -> un#[k] = 0)).
Proof.
  destruct normalize_shift_range as (Hs & _ & _).
  destruct normalize_divisor_top as (Hn & Hv & Hz & Hvlow).
  destruct normalize_numerator_at as (L & H0 & HS).
  destruct normalize_numerator_value as (Wun & Vun).
  destruct normalize_divisor_value as (Wvn & Vvn & Htop & _).
  destruct (trim_words_spec u (length u)) as (T1 & T2 & _).
  rewrite normalize_num_numerator_words. cbv zeta.
  rewrite <- (normalize_num_divisor_words oob u v).
  set (m0 := trim_words u (length u)) in *. clearbody m0.
  assert (uz : forall k, (m0 <= k)%nat -> u#[k] = 0).
  { intros k Hk. destruct (Nat.lt_ge_cases k (length u)).
    - apply T2. lia.
    - apply at_beyond. assumption. }
  assert (unz : forall k, (m0 < k)%nat -> un#[k] = 0).
  { intros k Hk. destruct k as [|k]; [lia|].
    destruct (Nat.lt_ge_cases k (length u)).
    - rewrite HS by assumption. rewrite (uz (S k)), (uz k) by lia.
      rewrite Zmod_0_l, Zdiv_0_l. lia.
    - apply at_beyond. lia. }
  assert (Hu : 0 <= value u < B ^ Z.of_nat m0).
  { rewrite <- (value_window_zeros u m0 uz).
    apply window_value_range; [assumption|lia]. }
  assert (Hp : 0 < 2 ^ sh) by (apply Z.pow_pos_nonneg; lia).
  assert (Hsmall : (m0 < nd)%nat -> value u < value v).
  { intros Hlt.
    assert (B ^ Z.of_nat m0 <= B ^ Z.of_nat (nd - 1)).
    { apply Z.pow_le_mono_r; [apply B_pos|lia]. }
    lia. }
  set (cond := negb (un#[m0] =? 0) || _).
  destruct m0 as [|m'].
  - left. pose proof (value_range v Wv) as Rv.
    cbn [Z.of_nat] in Hu. rewrite Z.pow_0_r in Hu.
    split; [destruct cond; lia|lia].
  - assert (Hspill : un#[S m'] < 2 ^ sh).
    { rewrite HS by lia. rewrite (uz (S m')) by lia. rewrite Zmod_0_l.
      pose proof (shr_part_range u#[m'] sh ltac:(lia) (at_word u m' Wu)). lia. }
    destruct cond eqn:C.
    + destruct (le_gt_dec (S (S m')) nd) as [Hle|Hgt].
      * left. split; [assumption|]. apply Hsmall. lia.
      * right. split_and; try lia.
        -- replace (S (S m') - 1)%nat with (S m') by lia.
           assert (2 ^ sh <= 2 ^ 63) by (apply Z.pow_le_mono_r; lia). lia.
        -- intros k Hk. apply unz. lia.
    + subst cond. apply Bool.orb_false_elim in C as [C1 C2].
      apply Bool.negb_false_iff in C1. apply Z.eqb_eq in C1.
      apply Z.leb_gt in C2.
      assert (unz' : forall k, (S m' <= k)%nat -> un#[k] = 0).
      { intros k Hk. destruct (Nat.eq_dec k (S m')) as [->|Hne];
          [exact C1|apply unz; lia]. }
      destruct (le_gt_dec (S m') nd) as [Hle|Hgt].
      * left. split; [assumption|].
        destruct (Nat.eq_dec (S m') nd) as [E|E]; [|apply Hsmall; lia].
        replace (nd - 1)%nat with m' in C2 by lia.
        pose proof (value_lt_top m' un vn Wun Wvn unz' C2) as Hlt.
        rewrite Vun, Vvn in Hlt.
        apply Z.mul_lt_mono_pos_l in Hlt; assumption.
      * right. split_and; try lia.
        -- replace (S m' - 1)%nat with m' by lia. exact C2.
        -- exact unz'.
Qed.

(** What [normalize] hands to the division routes. *)
Lemma normalize_spec :
  0 <= sh < 64
  /\ (1 <= nd <= length v)%nat
  /\ words vn /\ length vn = length v /\ value vn = 2 ^ sh * value v
  /\ 2 ^ 63 <= vn#[nd - 1] /\ (forall k, (nd <= k)%nat -> vn#[k] = 0)
  /\ words un /\ length un = S (length u) /\ value un = 2 ^ sh * value u
  /\ (((num_numerator_words na <= nd)%nat /\ value u < value v)
      \/ ((nd < num_numerator_words na <= S (length u))%nat
          /\ un#[num_numerator_words na - 1] < vn#[nd - 1]
          /\ (forall k, (num_numerator_words na <= k)%nat -> un#[k] = 0))).
Proof.
  destruct normalize_shift_range as (Hs & _ & _).
  destruct normalize_divisor_top as (Hn & _).
  destruct normalize_numerator_at as (Lun & _).
  destruct normalize_divisor_at as (Lvn & _).
  destruct normalize_numerator_value as (Wun & Vun).
  destruct normalize_divisor_value as (Wvn & Vvn & Htop & Hvz).
  pose proof normalize_numerator_count as Hc.
  pose proof Wu. pose proof Lu. pose proof Vnz.
  repeat (split; [assumption|]). assumption.
Qed.

End Normalize.

(** ** Shifting the remainder back *)

Lemma unnorm_loop_S cnt i un s rw :
  unnorm_loop (S cnt) i un s rw
  = unnorm_loop cnt (S i) un s
      (upd rw i (if negb (s =? 0)
                 then Z.lor (shr64 un#[i] s) (shl64 un#[i + 1] (64 - s))
                 else un#[i])).
Proof. reflexivity. Qed.

Lemma unnorm_loop_length un s : forall cnt i rw,
  length (unnorm_loop cnt i un s rw) = length rw.
Proof.
  induction cnt as [|cnt IH]; intros i rw; [reflexivity|].
  rewrite unnorm_loop_S, IH, length_upd. reflexivity.
Qed.

Lemma unnorm_loop_at un s : forall cnt i rw k,
  (unnorm_loop cnt i un s rw)#[k]
  = if ((i <=? k) && (k <? i + cnt) && (k <? length rw))%nat
    then (if negb (s =? 0)
          then Z.lor (shr64 un#[k] s) (shl64 un#[k + 1] (64 - s))
          else un#[k])
    else rw#[k].
Proof.
  induction cnt as [|cnt IH]; intros i rw k.
  - cbn [unnorm_loop].
    destruct (Nat.leb_spec i k), (Nat.ltb_spec k (i + 0)); try reflexivity. lia.
  - rewrite unnorm_loop_S, IH, length_upd, at_upd.
    destruct (Nat.leb_spec (S i) k), (Nat.leb_spec i k),
      (Nat.ltb_spec k (S i + cnt)), (Nat.ltb_spec k (i + S cnt)),
      (Nat.ltb_spec k (length rw)), (Nat.eqb_spec k i),
      (Nat.ltb_spec i (length rw)); cbn [andb]; try reflexivity; try lia.
    subst k. reflexivity.
Qed.

Lemma unshifted_word s lo hi :
  0 <= s < 64 -> word lo -> word hi ->
  (if negb (s =? 0) then Z.lor (shr64 lo s) (shl64 hi (64 - s)) else lo)
  = lo / 2 ^ s + (hi mod 2 ^ s) * 2 ^ (64 - s).
Proof.
  intros Hs Wlo Whi. destruct (Z.eqb_spec s 0) as [->|E]; cbn [negb].
  - rewrite Z.pow_0_r, Z.div_1_r, Z.mod_1_r. lia.
  - apply lor_unshift; [lia|assumption].
Qed.

(** The remainder words read back from the normalized buffer. *)
Lemma unnormalized_value un s n rw0 :
  0 <= s < 64 -> words un -> (1 <= n)%nat -> (n <= length un)%nat ->
  (n <= length rw0)%nat -> (forall k, rw0#[k] = 0) ->
  let rw := upd (unnorm_loop (n - 1) 0 un s rw0) (n - 1) (shr64 un#[n - 1] s) in
  2 ^ s * value rw + un#[0] mod 2 ^ s = value (window un 0 n)
  /\ length rw = length rw0
  /\ (forall k, (k < length rw)%nat -> 0 <= rw#[k] < B).
Proof.
  intros Hs Wun Hn Lun Lrw Hz rw.
  assert (Lr : length rw = length rw0).
  { subst rw. rewrite length_upd, unnorm_loop_length. reflexivity. }
  assert (Hat : forall k, (k < n)%nat ->
            rw#[k] = (window un 0 n)#[k] / 2 ^ s
                     + ((window un 0 n)#[S k] mod 2 ^ s) * 2 ^ (64 - s)).
  { intros k Hk. rewrite window_at by lia. cbn [Nat.add]. subst rw.
    destruct (Nat.eq_dec k (n - 1)) as [->|Hne].
    - rewrite at_upd_same by (rewrite unnorm_loop_length; lia).
      rewrite (at_beyond (window un 0 n)) by (rewrite window_length; lia).
      rewrite Zmod_0_l. rewrite shr64_div by lia. lia.
    - rewrite at_upd_other by lia. rewrite unnorm_loop_at.
      destruct (Nat.leb_spec 0 k); [|lia].
      destruct (Nat.ltb_spec k (0 + (n - 1))); [|lia].
      destruct (Nat.ltb_spec k (length rw0)); [|lia]. cbn [andb].
      rewrite window_at by lia. cbn [Nat.add].
      replace (k + 1)%nat with (S k) by lia.
      apply unshifted_word; auto using at_word. }
  assert (Hbeyond : forall k, (n <= k)%nat -> rw#[k] = 0).
  { intros k Hk. subst rw. rewrite at_upd_other by lia. rewrite unnorm_loop_at.
    destruct (Nat.ltb_spec k (0 + (n - 1))); [lia|].
    rewrite Bool.andb_false_r. cbn [andb]. apply Hz. }
  split_and.
  - rewrite <- (value_window_zeros rw n Hbeyond).
    pose proof (unshifted_value s Hs (window un 0 n) (window rw 0 n)) as H.
    rewrite !window_length in H by lia. specialize (H eq_refl).
    rewrite (window_at un 0 n 0) in H by lia. cbn [Nat.add] in H.
    apply H. intros k Hk. rewrite (window_at rw) by lia. cbn [Nat.add].
    apply Hat. assumption.
  - exact Lr.
  - intros k Hk. destruct (Nat.lt_ge_cases k n) as [Hlt|Hge].
    + rewrite Hat by assumption.
      pose proof (window_words un 0 n Wun) as Ww.
      pose proof (at_word _ k Ww) as W1. pose proof (at_word _ (S k) Ww) as W2.
      set (lo := (window un 0 n)#[k]) in *. set (hi := (window un 0 n)#[S k]) in *.
      clearbody lo hi. unfold word in W1.
      pose proof (pow_split s ltac:(lia)) as EB.
      assert (Hp : 0 < 2 ^ s) by (apply Z.pow_pos_nonneg; lia).
      pose proof (Z.mod_pos_bound hi (2 ^ s) Hp) as Hm.
      assert (Hd : 0 <= lo / 2 ^ s < 2 ^ (64 - s)).
      { split; [apply Z.div_pos; lia|].
        apply Z.div_lt_upper_bound; [exact Hp|]. rewrite EB. exact (proj2 W1). }
      set (a := lo / 2 ^ s) in *. set (b := hi mod 2 ^ s) in *. clearbody a b.
      set (p := 2 ^ s) in *. set (p' := 2 ^ (64 - s)) in *. clearbody p p'.
      clear - EB Hp Hm Hd. nia.
    + rewrite Hbeyond by assumption. pose proof B_pos. lia.
Qed.

(** Undoing the normalization in the division law. *)
Lemma unnormalize_law p U V Q R r t :
  0 < p -> p * U = Q * (p * V) + R -> 0 <= R < p * V ->
  R = p * r + t -> 0 <= t < p ->
  Q = U / V /\ r = U mod V.
Proof.
  intros Hp E HR Er Ht.
  assert (Ez : p * (U - Q * V - r) = t) by (rewrite Er in E; lia).
  assert (Hz : U - Q * V - r = 0) by (clear - Hp Ez Ht; nia).
  assert (Ht0 : t = 0) by (rewrite Hz in Ez; lia).
  rewrite Ht0, Z.add_0_r in Er. rewrite Er in HR. clear Ez Ht.
  assert (0 <= r < V).
  { split.
    - apply (Z.mul_le_mono_pos_l 0 r p Hp). lia.
    - apply (Z.mul_lt_mono_pos_l p r V Hp). lia. }
  split.
  - apply Z.div_unique with r; [lia|]. lia.
  - apply Z.mod_unique with Q; [lia|]. lia.
Qed.

(** ** The three division routes of [udivrem] *)

Lemma quotient_fits U V mw :
  0 <= U < B ^ Z.of_nat mw -> 0 < V -> 0 <= U / V < B ^ Z.of_nat mw.
Proof.
  intros HU HV. split; [apply Z.div_pos; lia|].
  assert (U / V <= U); [|lia].
  apply Z.div_le_upper_bound; [assumption|]. nia.
Qed.

Lemma by1_route un m d sh U V mw nw :
  words un -> length un = S mw -> (2 <= m <= S mw)%nat -> (1 <= nw)%nat ->
  0 <= sh < 64 -> value un = 2 ^ sh * U -> d = 2 ^ sh * V ->
  2 ^ 63 <= d < 2 ^ 64 -> un#[m - 1] < d ->
  (forall k, (m <= k)%nat -> un#[k] = 0) -> 0 <= U < B ^ Z.of_nat mw ->
  value (resize mw (fst (udivrem_by1 un m d))) = U / V
  /\ value (of_u64 nw (shr64 (snd (udivrem_by1 un m d)) sh)) = U mod V
  /\ words (resize mw (fst (udivrem_by1 un m d)))
  /\ words (of_u64 nw (shr64 (snd (udivrem_by1 un m d)) sh)).
Proof.
  intros Wun Lun Hm Hnw Hs Vun Ed Hd Htop Hz HU.
  destruct (udivrem_by1_spec un m d Wun ltac:(lia) Hd Htop)
    as (E & R & Wf & Lf & Ff).
  set (r := udivrem_by1 un m d) in *. clearbody r.
  destruct r as [q rem]. cbn [fst snd] in *.
  assert (Hp : 0 < 2 ^ sh) by (apply Z.pow_pos_nonneg; lia).
  assert (HV : 0 < V) by (clear - Hp Ed Hd; nia).
  rewrite (value_window_zeros un m Hz), Vun in E.
  assert (Hqz : forall k, (m <= k)%nat -> q#[k] = 0).
  { intros k Hk. rewrite Ff by assumption. apply Hz. assumption. }
  rewrite (value_window_zeros q m Hqz) in E.
  destruct (unnormalize_law (2 ^ sh) U V (value q) rem (rem / 2 ^ sh)
              (rem mod 2 ^ sh) Hp) as [EQ ER].
  - rewrite E, Ed. ring.
  - rewrite <- Ed. exact R.
  - apply Z.div_mod. lia.
  - apply Z.mod_pos_bound. exact Hp.
  - pose proof (quotient_fits U V mw HU HV) as HQ.
    assert (Wr : word (shr64 rem sh)).
    { rewrite shr64_div by lia. rewrite ER. unfold word. rewrite B_pow.
      pose proof (Z.mod_pos_bound U V HV). clear - H Ed Hd Hp HV. nia. }
    split_and.
    + rewrite value_resize_small; [exact EQ|exact Wf|rewrite EQ; apply HQ].
    + rewrite of_u64_value by lia. rewrite shr64_div by lia. exact ER.
    + apply words_resize. exact Wf.
    + apply of_u64_words. exact Wr.
Qed.

Lemma by2_route un m d0 d1 sh U V mw nw :
  words un -> length un = S mw -> (3 <= m <= S mw)%nat -> (2 <= nw)%nat ->
  0 <= sh < 64 -> value un = 2 ^ sh * U -> d0 + B * d1 = 2 ^ sh * V ->
  word d0 -> 2 ^ 63 <= d1 < 2 ^ 64 -> un#[m - 1] < d1 ->
  (forall k, (m <= k)%nat -> un#[k] = 0) -> 0 <= U < B ^ Z.of_nat mw ->
  value (resize mw (fst (udivrem_by2 un m [d0; d1]))) = U / V
  /\ value (resize nw (ushr_small (snd (udivrem_by2 un m [d0; d1])) sh)) = U mod V
  /\ words (resize mw (fst (udivrem_by2 un m [d0; d1])))
  /\ words (resize nw (ushr_small (snd (udivrem_by2 un m [d0; d1])) sh)).
Proof.
  intros Wun Lun Hm Hnw Hs Vun Ed Wd0 Hd1 Htop Hz HU.
  assert (Htop2 : un#[m - 2] + B * un#[m - 1] < d0 + B * d1).
  { pose proof (at_word un (m - 2) Wun) as W. unfold word in *.
    clear - W Wd0 Htop. nia. }
  destruct (udivrem_by2_spec un m d0 d1 Wun ltac:(lia) Wd0 Hd1 Htop2)
    as (E & R & Ws & Ls & Wf & Lf & Ff).
  set (r := udivrem_by2 un m [d0; d1]) in *. clearbody r.
  destruct r as [q rem]. cbn [fst snd] in *.
  destruct rem as [|r0 [|r1 [|? ?]]]; try discriminate.
  apply words_inv in Ws as [Wr0 Ws]. apply words_inv in Ws as [Wr1 _].
  rewrite value_2 in *.
  assert (Hp : 0 < 2 ^ sh) by (apply Z.pow_pos_nonneg; lia).
  assert (HV : 0 < V).
  { unfold word in Wd0. pose proof B_pos. rewrite B_pow in *.
    clear - Hp Ed Hd1 Wd0. nia. }
  rewrite (value_window_zeros un m Hz), Vun in E.
  assert (Hqz : forall k, (m <= k)%nat -> q#[k] = 0).
  { intros k Hk. rewrite Ff by assumption. apply Hz. assumption. }
  rewrite (value_window_zeros q m Hqz) in E.
  destruct (shr128_value r0 r1 sh Wr0 Wr1 Hs) as (Vs & Wsr & Lsr).
  assert (Es : ushr_small [r0; r1] sh = shr128 [r0; r1] sh).
  { unfold ushr_small. cbn [length].
    destruct (Z.ltb_spec sh (Z.of_nat (64 * 2))); [reflexivity|lia]. }
  rewrite Es.
  destruct (unnormalize_law (2 ^ sh) U V (value q) (r0 + B * r1)
              ((r0 + B * r1) / 2 ^ sh) ((r0 + B * r1) mod 2 ^ sh) Hp)
    as [EQ ER].
  - rewrite E, Ed. ring.
  - rewrite <- Ed. exact R.
  - apply Z.div_mod. lia.
  - apply Z.mod_pos_bound. exact Hp.
  - pose proof (quotient_fits U V mw HU HV) as HQ.
    split_and.
    + rewrite value_resize_small; [exact EQ|exact Wf|rewrite EQ; apply HQ].
    + rewrite value_resize; [rewrite Vs; exact ER|].
      intros k Hk. apply at_beyond. lia.
    + apply words_resize. exact Wf.
    + apply words_resize. exact Wsr.
Qed.

Lemma knuth_precondition un vn m nd :
  words un -> words vn -> (1 <= nd)%nat -> (nd < m <= length un)%nat ->
  (nd <= length vn)%nat -> un#[m - 1] < vn#[nd - 1] ->
  value (window un 0 m) < B ^ Z.of_nat (m - nd) * value (window vn 0 nd).
Proof.
  intros Wun Wvn Hnd Hm Lvn Htop.
  destruct m as [|m1]; [lia|]. replace (S m1 - 1)%nat with m1 in Htop by lia.
  rewrite window_value_snoc by lia. cbn [Nat.add].
  pose proof (window_value_range un 0 m1 Wun ltac:(lia)) as R1.
  pose proof (value_ge_top (window vn 0 nd) (nd - 1) (window_words vn 0 nd Wvn)) as R2.
  rewrite window_at in R2 by lia. cbn [Nat.add] in R2.
  assert (Em : B ^ Z.of_nat m1 = B ^ Z.of_nat (S m1 - nd) * B ^ Z.of_nat (nd - 1)).
  { rewrite <- Bpow_add. f_equal. f_equal. lia. }
  rewrite Em in *.
  pose proof (Bpow_pos (S m1 - nd)) as P1. pose proof (Bpow_pos (nd - 1)) as P2.
  set (D := value (window vn 0 nd)) in *.
  set (W := value (window un 0 m1)) in *.
  set (a := un#[m1]) in *. set (b := vn#[nd - 1]) in *.
  set (p1 := B ^ Z.of_nat (S m1 - nd)) in *. set (p2 := B ^ Z.of_nat (nd - 1)) in *.
  clearbody D W a b p1 p2.
  assert (p1 * (b * p2) <= p1 * D) by (apply Z.mul_le_mono_nonneg_l; lia).
  assert ((a + 1) * (p1 * p2) <= b * (p1 * p2))
    by (apply Z.mul_le_mono_nonneg_r; [nia|lia]).
  lia.
Qed.

Lemma knuth_route un vn m n2 sh U V mw nw :
  words un -> words vn -> length un = S mw -> length vn = nw ->
  (S (S n2) <= nw)%nat -> (S (S n2) < m <= S mw)%nat ->
  0 <= sh < 64 -> value un = 2 ^ sh * U -> value vn = 2 ^ sh * V ->
  2 ^ 63 <= vn#[S n2] -> (forall k, (S (S n2) <= k)%nat -> vn#[k] = 0) ->
  un#[m - 1] < vn#[S n2] -> (forall k, (m <= k)%nat -> un#[k] = 0) ->
  let k := udivrem_knuth (zeros mw) un m vn (S (S n2)) in
  let rw := upd (unnorm_loop (S (S n2) - 1) 0 (snd k) sh (zeros nw))
              (S (S n2) - 1) (shr64 (snd k)#[S (S n2) - 1] sh) in
  value (fst k) = U / V /\ value rw = U mod V
  /\ words (fst k) /\ length (fst k) = mw
  /\ words rw /\ length rw = nw.
Proof.
  intros Wun Wvn Lun Lvn Hn Hm Hs Vun Vvn Hd Hvz Htop Hz k rw.
  assert (Hpre : value (window un 0 m)
                 < B ^ Z.of_nat (m - S (S n2)) * value (window vn 0 (S (S n2)))).
  { assert (Htop' : un#[m - 1] < vn#[S (S n2) - 1])
      by (replace (S (S n2) - 1)%nat with (S n2) by lia; exact Htop).
    apply knuth_precondition; auto; lia. }
  pose proof (knuth_loop_spec vn n2 Wvn ltac:(lia) Hd (m - S (S n2))%nat
                (zeros mw) un Wun (words_zeros mw)) as H.
  replace (m - S (S n2) + S (S n2))%nat with m in H by lia.
  rewrite length_zeros in H.
  specialize (H ltac:(lia) ltac:(lia) Hpre).
  assert (Ek : k = knuth_loop (m - S (S n2)) (zeros mw) un vn (S (S n2))
                     [vn#[n2]; vn#[S n2]] (reciprocal_3by2 [vn#[n2]; vn#[S n2]])).
  { subst k. unfold udivrem_knuth.
    replace (S (S n2) - 2)%nat with n2 by lia.
    replace (S (S n2) - 1)%nat with (S n2) by lia. reflexivity. }
  rewrite <- Ek in H. clearbody k. clear Ek.
  destruct H as (E & R & Wq & Lq & Fq & Wr & Lr).
  destruct k as [q un']. cbn [fst snd] in *.
  assert (Hp : 0 < 2 ^ sh) by (apply Z.pow_pos_nonneg; lia).
  rewrite (value_window_zeros un m Hz), (value_window_zeros vn _ Hvz) in E.
  rewrite (value_window_zeros vn _ Hvz) in R.
  rewrite Vun, Vvn in *.
  assert (Hqz : forall t, (m - S (S n2) <= t)%nat -> q#[t] = 0).
  { intros t Ht. rewrite Fq by assumption. apply at_zeros. }
  rewrite (value_window_zeros q _ Hqz) in E.
  destruct (unnormalized_value un' sh (S (S n2)) (zeros nw) Hs Wr ltac:(lia)
              ltac:(lia) ltac:(rewrite length_zeros; lia) (at_zeros nw))
    as (Erw & Lrw & Wrw).
  fold rw in Erw, Lrw, Wrw. clearbody rw. rewrite length_zeros in Lrw.
  destruct (unnormalize_law (2 ^ sh) U V (value q)
              (value (window un' 0 (S (S n2)))) (value rw)
              (un'#[0] mod 2 ^ sh) Hp) as [EQ ER].
  - rewrite E. ring.
  - exact R.
  - rewrite <- Erw. reflexivity.
  - apply Z.mod_pos_bound. exact Hp.
  - split_and; auto.
    apply words_pointwise. exact Wrw.
Qed.

(** ** Generic division *)

Lemma udivrem_correct oob u v :
  words u -> words v -> (1 <= length u)%nat -> value v <> 0 ->
  value (fst (udivrem oob u v)) = value u / value v
  /\ value (snd (udivrem oob u v)) = value u mod value v
  /\ words (fst (udivrem oob u v)) /\ length (fst (udivrem oob u v)) = length u
  /\ words (snd (udivrem oob u v)) /\ length (snd (udivrem oob u v)) = length v.
Proof.
  intros Wu Wv Lu Vnz.
  destruct (normalize_spec oob u v Wu Wv Lu Vnz)
    as (Hs & Hn & Wvn & Lvn & Vvn & Htop & Hvz & Wun & Lun & Vun & Hcount).
  pose proof (value_range u Wu) as RU. pose proof (value_range v Wv) as RV.
  unfold udivrem. cbv zeta.
  set (sh := shift (normalize oob u v)) in *.
  set (nd := num_divisor_words (normalize oob u v)) in *.
  set (m := num_numerator_words (normalize oob u v)) in *.
  set (un := numerator (normalize oob u v)) in *.
  set (vn := divisor (normalize oob u v)) in *.
  clearbody sh nd m un vn.
  destruct (Nat.leb_spec m nd) as [Hle|Hgt].
  { destruct Hcount as [[_ Hlt]|[Hc _]]; [|lia]. cbn [fst snd].
    split_and.
    - rewrite of_u64_value by lia. symmetry. apply Z.div_small. lia.
    - rewrite value_resize_small by (auto; lia). symmetry. apply Z.mod_small. lia.
    - apply of_u64_words, word_0.
    - apply of_u64_length.
    - apply words_resize. assumption.
    - apply length_resize. }
  destruct Hcount as [[Hc _]|(Hm & Hlt & Hz)]; [lia|].
  destruct (Nat.eqb_spec nd 1) as [E1|N1].
  { rewrite E1 in *. change (1 - 1)%nat with 0%nat in *.
    assert (Ed : vn#[0] = 2 ^ sh * value v).
    { rewrite <- Vvn. symmetry. apply value_low_word. exact Hvz. }
    pose proof (at_word vn 0 Wvn) as Wd. unfold word in Wd. rewrite B_pow in Wd.
    destruct (by1_route un m vn#[0] sh (value u) (value v) (length u) (length v)
                Wun Lun ltac:(lia) ltac:(lia) Hs Vun Ed ltac:(lia) Hlt Hz RU)
      as (Q & R & WQ & WR).
    cbn [fst snd]. split_and; auto using length_resize, of_u64_length. }
  destruct (Nat.eqb_spec nd 2) as [E2|N2].
  { rewrite E2 in *. change (2 - 1)%nat with 1%nat in *.
    assert (Ed : vn#[0] + B * vn#[1] = 2 ^ sh * value v).
    { rewrite <- Vvn, <- (value_window_zeros vn 2 Hvz). symmetry.
      apply window2. lia. }
    pose proof (at_word vn 1 Wvn) as Wd. unfold word in Wd. rewrite B_pow in Wd.
    destruct (by2_route un m vn#[0] vn#[1] sh (value u) (value v) (length u)
                (length v) Wun Lun ltac:(lia) ltac:(lia) Hs Vun Ed
                (at_word vn 0 Wvn) ltac:(lia) Hlt Hz RU)
      as (Q & R & WQ & WR).
    cbn [fst snd]. split_and; auto using length_resize. }
  destruct nd as [|[|[|n2]]]; try lia.
  replace (S (S (S n2)) - 1)%nat with (S (S n2)) in Htop, Hlt by lia.
  destruct (knuth_route un vn m (S n2) sh (value u) (value v) (length u) (length v)
              Wun Wvn Lun Lvn ltac:(lia) ltac:(lia) Hs Vun Vvn Htop Hvz Hlt Hz)
    as (Q & R & WQ & LQ & WR & LR).
  cbn [fst snd]. split_and; assumption.
Qed.

(** ** Shifting a pair of digits *)

Lemma pow2_split w s : 0 <= s <= w -> 2 ^ s * 2 ^ (w - s) = 2 ^ w.
Proof. intros H. rewrite <- Z.pow_add_r by lia. f_equal. lia. Qed.

Lemma shl_mod_low w s x :
  0 <= s <= w -> (2 ^ s * x) mod 2 ^ w = 2 ^ s * (x mod 2 ^ (w - s)).
Proof.
  intros H. rewrite <- (pow2_split w s H).
  rewrite Z.mul_mod_distr_l; [reflexivity| |];
    apply Z.pow_nonzero; lia.
Qed.

Lemma shl_div_high w s x :
  0 <= s <= w -> (2 ^ s * x) / 2 ^ w = x / 2 ^ (w - s).
Proof.
  intros H. rewrite <- (pow2_split w s H).
  rewrite Z.div_mul_cancel_l; [reflexivity| |]; apply Z.pow_nonzero; lia.
Qed.

(** The two digits of [(L + 2^w H) << s] in base [2^w]. *)
Lemma shl_pair_law w s L H :
  0 <= s <= w -> 0 <= L < 2 ^ w -> 0 <= H ->
  (2 ^ s * L) mod 2 ^ w + 2 ^ w * ((2 ^ s * H) mod 2 ^ w + L / 2 ^ (w - s))
  = (2 ^ s * (L + 2 ^ w * H)) mod (2 ^ w * 2 ^ w)
  /\ 0 <= (2 ^ s * H) mod 2 ^ w + L / 2 ^ (w - s) < 2 ^ w.
Proof.
  intros Hs HL HH.
  assert (Pw : 0 < 2 ^ w) by (apply Z.pow_pos_nonneg; lia).
  assert (Ps : 0 < 2 ^ s) by (apply Z.pow_pos_nonneg; lia).
  assert (Pq : 0 < 2 ^ (w - s)) by (apply Z.pow_pos_nonneg; lia).
  pose proof (pow2_split w s Hs) as EB.
  pose proof (Z.div_mod (2 ^ s * L) (2 ^ w) ltac:(lia)) as E1.
  rewrite (shl_div_high w s L Hs) in E1.
  pose proof (Z.div_mod (2 ^ s * H) (2 ^ w) ltac:(lia)) as E2.
  pose proof (Z.mod_pos_bound (2 ^ s * L) (2 ^ w) Pw) as R1.
  assert (R3 : 0 <= L / 2 ^ (w - s) < 2 ^ s).
  { split; [apply Z.div_pos; lia|]. apply Z.div_lt_upper_bound; [lia|].
    rewrite Z.mul_comm, EB. lia. }
  assert (R2 : 0 <= (2 ^ s * H) mod 2 ^ w <= 2 ^ w - 2 ^ s).
  { rewrite (shl_mod_low w s H Hs).
    pose proof (Z.mod_pos_bound H (2 ^ (w - s)) Pq) as R.
    set (m := H mod 2 ^ (w - s)) in *. clearbody m.
    set (p := 2 ^ s) in *. set (q := 2 ^ (w - s)) in *. clearbody p q.
    clear - R Ps EB. nia. }
  assert (R4 : 0 <= (2 ^ s * H) / 2 ^ w) by (apply Z.div_pos; nia).
  set (a := (2 ^ s * L) mod 2 ^ w) in *.
  set (b := (2 ^ s * H) mod 2 ^ w) in *.
  set (c := L / 2 ^ (w - s)) in *.
  set (k := (2 ^ s * H) / 2 ^ w) in *.
  clearbody a b c k.
  split; [|lia].
  apply Z.mod_unique with k.
  - left. set (W := 2 ^ w) in *. clearbody W. clear - Pw R1 R2 R3. nia.
  - set (W := 2 ^ w) in *. set (p := 2 ^ s) in *. clearbody W p.
    replace (p * (L + W * H)) with (p * L + W * (p * H)) by ring.
    rewrite E1, E2. ring.
Qed.

(** The two digits of [(L + 2^w H) >> s] in base [2^w]. *)
Lemma shr_pair_law w s L H :
  0 <= s <= w -> 0 <= L < 2 ^ w -> 0 <= H ->
  L / 2 ^ s + (H mod 2 ^ s) * 2 ^ (w - s) + 2 ^ w * (H / 2 ^ s)
  = (L + 2 ^ w * H) / 2 ^ s
  /\ 0 <= L / 2 ^ s + (H mod 2 ^ s) * 2 ^ (w - s) < 2 ^ w.
Proof.
  intros Hs HL HH.
  assert (Pw : 0 < 2 ^ w) by (apply Z.pow_pos_nonneg; lia).
  assert (Ps : 0 < 2 ^ s) by (apply Z.pow_pos_nonneg; lia).
  assert (Pq : 0 < 2 ^ (w - s)) by (apply Z.pow_pos_nonneg; lia).
  pose proof (pow2_split w s Hs) as EB.
  pose proof (Z.div_mod H (2 ^ s) ltac:(lia)) as E2.
  pose proof (Z.mod_pos_bound H (2 ^ s) Ps) as R2.
  assert (R1 : 0 <= L / 2 ^ s < 2 ^ (w - s)).
  { split; [apply Z.div_pos; lia|]. apply Z.div_lt_upper_bound; [lia|].
    rewrite EB. lia. }
  split.
  - replace (L + 2 ^ w * H)
      with (L + (2 ^ (w - s) * (H mod 2 ^ s) + 2 ^ w * (H / 2 ^ s)) * 2 ^ s).
    + rewrite Z.div_add by lia. ring.
    + rewrite E2 at 3. rewrite <- EB. ring.
  - set (a := L / 2 ^ s) in *. set (m := H mod 2 ^ s) in *. clearbody a m.
    rewrite <- EB. set (p := 2 ^ s) in *. set (q := 2 ^ (w - s)) in *.
    clearbody p q. clear - R1 R2 Ps Pq. nia.
Qed.

(** ** Shifts of [uint128] *)

Lemma BB_pow : B * B = 2 ^ 64 * 2 ^ 64.
Proof. rewrite B_pow. reflexivity. Qed.

Lemma shl128_value x0 x1 s :
  word x0 -> word x1 -> 0 <= s ->
  value (shl128 [x0; x1] s) = (2 ^ s * (x0 + B * x1)) mod (B * B)
  /\ words (shl128 [x0; x1] s) /\ length (shl128 [x0; x1] s) = 2%nat.
Proof.
  intros W0 W1 Hs. unfold shl128. rewrite !at_cons_S, !at_cons_0.
  pose proof B_pos as HB.
  destruct (Z.ltb_spec s 64) as [H64|H64].
  - rewrite !shl64_mul by assumption. rewrite !shr64_div by lia.
    rewrite Z.div_div by (try apply Z.pow_pos_nonneg; lia).
    rewrite <- Z.pow_add_r by lia.
    replace (1 + (63 - s)) with (64 - s) by lia.
    rewrite B_pow in *. unfold word in W0, W1. rewrite B_pow in W0, W1.
    rewrite !(Z.mul_comm _ (2 ^ s)).
    destruct (shl_pair_law 64 s x0 x1 ltac:(lia) W0 ltac:(lia)) as [E R].
    assert (Elor : Z.lor ((2 ^ s * x1) mod 2 ^ 64) (x0 / 2 ^ (64 - s))
                   = (2 ^ s * x1) mod 2 ^ 64 + x0 / 2 ^ (64 - s)).
    { rewrite (shl_mod_low 64 s x1) by lia. rewrite (Z.mul_comm (2 ^ s)).
      apply lor_disjoint; [lia|].
      split; [apply Z.div_pos; [lia|apply Z.pow_pos_nonneg; lia]|].
      apply Z.div_lt_upper_bound; [apply Z.pow_pos_nonneg; lia|].
      rewrite Z.mul_comm, (pow2_split 64 s) by lia. lia. }
    rewrite Elor, value_2.
    split_and.
    + rewrite B_pow. exact E.
    + apply words_2; unfold word; rewrite B_pow; [|exact R].
      apply Z.mod_pos_bound. lia.
    + reflexivity.
  - destruct (Z.ltb_spec s 128) as [H128|H128].
    + rewrite shl64_mul by lia. rewrite value_2.
      assert (Ep : 2 ^ s = B * 2 ^ (s - 64)).
      { rewrite B_pow, <- Z.pow_add_r by lia. f_equal. lia. }
      split_and.
      * rewrite Ep.
        replace (B * 2 ^ (s - 64) * (x0 + B * x1))
          with (B * (x0 * 2 ^ (s - 64)) + (2 ^ (s - 64) * x1) * (B * B)) by ring.
        rewrite Z.mod_add by lia.
        rewrite Z.mul_mod_distr_l by lia. lia.
      * apply words_2; [apply word_0|]. unfold word. apply Z.mod_pos_bound. lia.
      * reflexivity.
    + rewrite of_u64_2, value_2.
      assert (Ep : 2 ^ s = 2 ^ (s - 128) * (B * B)).
      { rewrite B_pow, <- !Z.pow_add_r by lia. f_equal. lia. }
      split_and.
      * rewrite Ep.
        replace (2 ^ (s - 128) * (B * B) * (x0 + B * x1))
          with ((2 ^ (s - 128) * (x0 + B * x1)) * (B * B)) by ring.
        rewrite Z.mod_mul by lia. lia.
      * apply words_2; apply word_0.
      * reflexivity.
Qed.

Lemma shr128_value_any x0 x1 s :
  word x0 -> word x1 -> 0 <= s ->
  value (shr128 [x0; x1] s) = (x0 + B * x1) / 2 ^ s
  /\ words (shr128 [x0; x1] s) /\ length (shr128 [x0; x1] s) = 2%nat.
Proof.
  intros W0 W1 Hs.
  destruct (Z.lt_ge_cases s 64) as [H64|H64]; [apply shr128_value; auto; lia|].
  unfold shr128. rewrite !at_cons_S, !at_cons_0.
  pose proof B_pos as HB.
  destruct (Z.ltb_spec s 64) as [|_]; [lia|].
  destruct (Z.ltb_spec s 128) as [H128|H128].
  - rewrite shr64_div by lia. rewrite of_u64_2, value_2.
    assert (Ep : 2 ^ s = B * 2 ^ (s - 64)).
    { rewrite B_pow, <- Z.pow_add_r by lia. f_equal. lia. }
    assert (Pq : 0 < 2 ^ (s - 64)) by (apply Z.pow_pos_nonneg; lia).
    split_and.
    + rewrite Ep, <- Z.div_div by lia.
      rewrite word_div_add by assumption. lia.
    + apply words_2; [|apply word_0]. unfold word in *.
      split; [apply Z.div_pos; lia|].
      apply Z.div_lt_upper_bound; [lia|]. nia.
    + reflexivity.
  - rewrite of_u64_2, value_2.
    split_and.
    + symmetry. rewrite Z.mul_0_r, Z.add_0_r. apply Z.div_small.
      unfold word in *. rewrite B_pow in *.
      assert (2 ^ 128 <= 2 ^ s) by (apply Z.pow_le_mono_r; lia). lia.
    + apply words_2; apply word_0.
    + reflexivity.
Qed.

(** ** Shifts of [uint256] *)

Lemma pair_value l :
  length l = 2%nat -> words l ->
  value l = l#[0] + B * l#[1] /\ word l#[0] /\ word l#[1]
  /\ words [l#[0]; l#[1]].
Proof.
  intros L W. rewrite (list2 l L) at 1. rewrite value_2.
  split_and; auto using at_word, words_2.
Qed.

Lemma B2_pow : B * B = 2 ^ 128.
Proof. rewrite B_pow. reflexivity. Qed.

Lemma B4_pow : B ^ Z.of_nat 4 = 2 ^ 128 * 2 ^ 128.
Proof. rewrite B_pow. reflexivity. Qed.

Lemma value_4 a b c d :
  value [a; b; c; d] = (a + B * b) + B * B * (c + B * d).
Proof. cbn [value]. ring. Qed.

Lemma shl256_value x0 x1 x2 x3 s :
  word x0 -> word x1 -> word x2 -> word x3 -> 0 <= s ->
  let x := [x0; x1; x2; x3] in
  value (shl256 x s) = (2 ^ s * value x) mod B ^ Z.of_nat 4
  /\ words (shl256 x s) /\ length (shl256 x s) = 4%nat.
Proof.
  intros W0 W1 W2 W3 Hs x. subst x. unfold shl256. cbv zeta.
  rewrite !at_cons_S, !at_cons_0.
  assert (RL : 0 <= x0 + B * x1 < 2 ^ 128).
  { pose proof (value_range [x0; x1] (words_2 _ _ W0 W1)) as R.
    rewrite value_2 in R. cbn [length] in R.
    change (B ^ Z.of_nat 2) with (B ^ 2) in R.
    replace (B ^ 2) with (B * B) in R by ring. rewrite B2_pow in R. exact R. }
  assert (RH : 0 <= x2 + B * x3 < 2 ^ 128).
  { pose proof (value_range [x2; x3] (words_2 _ _ W2 W3)) as R.
    rewrite value_2 in R. cbn [length] in R.
    change (B ^ Z.of_nat 2) with (B ^ 2) in R.
    replace (B ^ 2) with (B * B) in R by ring. rewrite B2_pow in R. exact R. }
  rewrite value_4, B4_pow.
  destruct (Z.leb_spec 256 s) as [H256|H256].
  - rewrite of_u64_0. split_and.
    + rewrite value_zeros.
      assert (Ep : 2 ^ s = 2 ^ (s - 256) * (2 ^ 128 * 2 ^ 128)).
      { rewrite <- !Z.pow_add_r by lia. f_equal. lia. }
      rewrite Ep, <- Z.mul_assoc, (Z.mul_comm (2 ^ 128 * 2 ^ 128)), Z.mul_assoc.
      rewrite Z.mod_mul; [reflexivity|].
      apply Z.neq_mul_0; split; apply Z.pow_nonzero; lia.
    + apply words_zeros.
    + apply length_zeros.
  - destruct (Z.ltb_spec s 128) as [H128|H128].
    + destruct (shl128_value x0 x1 s W0 W1 Hs) as (Vlo & Wlo & Llo).
      destruct (shl128_value x2 x3 s W2 W3 Hs) as (Vhi & Whi & Lhi).
      destruct (shr128_value_any x0 x1 (128 - s - 1) W0 W1 ltac:(lia))
        as (Vt & Wt & Lt).
      set (lo := shl128 [x0; x1] s) in *.
      set (hs := shl128 [x2; x3] s) in *.
      set (t := shr128 [x0; x1] (128 - s - 1)) in *.
      clearbody lo hs t.
      destruct (pair_value t Lt Wt) as (Et & Wt0 & Wt1 & _).
      rewrite (list2 t Lt).
      destruct (shr128_value_any t#[0] t#[1] 1 Wt0 Wt1 ltac:(lia))
        as (Vo & Wo & Lo).
      rewrite <- Et, Vt in Vo.
      rewrite Z.div_div in Vo by (try apply Z.pow_pos_nonneg; lia).
      rewrite <- Z.pow_add_r in Vo by lia.
      replace (128 - s - 1 + 1) with (128 - s) in Vo by lia.
      set (ov := shr128 [t#[0]; t#[1]] 1) in *. clearbody ov.
      destruct (uor_spec hs ov ltac:(congruence) Whi Wo) as (Vh & Wh & Lh).
      set (hi := uor hs ov) in *. clearbody hi.
      rewrite Lhi in Lh.
      destruct (pair_value lo Llo Wlo) as (Elo & Wl0 & Wl1 & _).
      destruct (pair_value hi Lh Wh) as (Ehi & Wh0 & Wh1 & _).
      rewrite value_4, <- Elo, <- Ehi, Vh, Vlo, Vhi, Vo, B2_pow.
      destruct (shl_pair_law 128 s (x0 + B * x1) (x2 + B * x3) ltac:(lia) RL
                  ltac:(lia)) as [E R].
      assert (Elor : Z.lor ((2 ^ s * (x2 + B * x3)) mod 2 ^ 128)
                       ((x0 + B * x1) / 2 ^ (128 - s))
                     = (2 ^ s * (x2 + B * x3)) mod 2 ^ 128
                       + (x0 + B * x1) / 2 ^ (128 - s)).
      { rewrite (shl_mod_low 128 s) by lia. rewrite (Z.mul_comm (2 ^ s)).
        apply lor_disjoint; [lia|].
        split; [apply Z.div_pos; [lia|apply Z.pow_pos_nonneg; lia]|].
        apply Z.div_lt_upper_bound; [apply Z.pow_pos_nonneg; lia|].
        rewrite (Z.mul_comm (2 ^ (128 - s))), (pow2_split 128 s) by lia. lia. }
      rewrite Elor. split_and.
      * exact E.
      * repeat apply words_cons; auto using words_nil.
      * reflexivity.
    + destruct (shl128_value x0 x1 (s - 128) W0 W1 ltac:(lia)) as (Vlo & Wlo & Llo).
      set (hi := shl128 [x0; x1] (s - 128)) in *. clearbody hi.
      destruct (pair_value hi Llo Wlo) as (Ehi & Wh0 & Wh1 & _).
      rewrite value_4, <- Ehi, Vlo, B2_pow. split_and.
      * assert (Ep : 2 ^ s = 2 ^ 128 * 2 ^ (s - 128)).
        { rewrite <- Z.pow_add_r by lia. f_equal. lia. }
        rewrite Ep.
        replace (2 ^ 128 * 2 ^ (s - 128) * (x0 + B * x1 + 2 ^ 128 * (x2 + B * x3)))
          with (2 ^ 128 * (2 ^ (s - 128) * (x0 + B * x1))
                + (2 ^ (s - 128) * (x2 + B * x3)) * (2 ^ 128 * 2 ^ 128)) by ring.
        rewrite Z.mod_add by (apply Z.neq_mul_0; split; apply Z.pow_nonzero; lia).
        rewrite Z.mul_mod_distr_l by (apply Z.pow_nonzero; lia). lia.
      * repeat apply words_cons; auto using words_nil, word_0.
      * reflexivity.
Qed.

Lemma shr256_value x0 x1 x2 x3 s :
  word x0 -> word x1 -> word x2 -> word x3 -> 0 <= s ->
  let x := [x0; x1; x2; x3] in
  value (shr256 x s) = value x / 2 ^ s
  /\ words (shr256 x s) /\ length (shr256 x s) = 4%nat.
Proof.
  intros W0 W1 W2 W3 Hs x. subst x. unfold shr256. cbv zeta.
  rewrite !at_cons_S, !at_cons_0.
  assert (RL : 0 <= x0 + B * x1 < 2 ^ 128).
  { pose proof (value_range [x0; x1] (words_2 _ _ W0 W1)) as R.
    rewrite value_2 in R. cbn [length] in R.
    change (B ^ Z.of_nat 2) with (B ^ 2) in R.
    replace (B ^ 2) with (B * B) in R by ring. rewrite B2_pow in R. exact R. }
  assert (RH : 0 <= x2 + B * x3 < 2 ^ 128).
  { pose proof (value_range [x2; x3] (words_2 _ _ W2 W3)) as R.
    rewrite value_2 in R. cbn [length] in R.
    change (B ^ Z.of_nat 2) with (B ^ 2) in R.
    replace (B ^ 2) with (B * B) in R by ring. rewrite B2_pow in R. exact R. }
  rewrite value_4, B2_pow.
  destruct (Z.leb_spec 256 s) as [H256|H256].
  - rewrite of_u64_0. split_and.
    + rewrite value_zeros. symmetry. apply Z.div_small.
      assert (2 ^ 256 <= 2 ^ s) by (apply Z.pow_le_mono_r; lia).
      assert (2 ^ 128 * (x2 + B * x3) <= 2 ^ 128 * (2 ^ 128 - 1))
        by (apply Z.mul_le_mono_nonneg_l; lia).
      change (2 ^ 256) with (2 ^ 128 * 2 ^ 128) in *. lia.
    + apply words_zeros.
    + apply length_zeros.
  - destruct (Z.ltb_spec s 128) as [H128|H128].
    + destruct (shr128_value_any x2 x3 s W2 W3 Hs) as (Vhi & Whi & Lhi).
      destruct (shr128_value_any x0 x1 s W0 W1 Hs) as (Vlo & Wlo & Llo).
      destruct (shl128_value x2 x3 (128 - s - 1) W2 W3 ltac:(lia))
        as (Vt & Wt & Lt).
      set (hi := shr128 [x2; x3] s) in *.
      set (ls := shr128 [x0; x1] s) in *.
      set (t := shl128 [x2; x3] (128 - s - 1)) in *.
      clearbody hi ls t.
      destruct (pair_value t Lt Wt) as (Et & Wt0 & Wt1 & _).
      rewrite (list2 t Lt).
      destruct (shl128_value t#[0] t#[1] 1 Wt0 Wt1 ltac:(lia))
        as (Vo & Wo & Lo).
      rewrite <- Et, Vt, B2_pow in Vo.
      rewrite Z.mul_mod_idemp_r in Vo by lia.
      rewrite Z.mul_assoc, <- Z.pow_add_r in Vo by lia.
      replace (1 + (128 - s - 1)) with (128 - s) in Vo by lia.
      rewrite (shl_mod_low 128 (128 - s)) in Vo by lia.
      replace (128 - (128 - s)) with s in Vo by lia.
      set (ov := shl128 [t#[0]; t#[1]] 1) in *. clearbody ov.
      destruct (uor_spec ls ov ltac:(congruence) Wlo Wo) as (Vl & Wl & Ll).
      set (lo := uor ls ov) in *. clearbody lo.
      rewrite Llo in Ll.
      destruct (pair_value lo Ll Wl) as (Elo & Wl0 & Wl1 & _).
      destruct (pair_value hi Lhi Whi) as (Ehi & Wh0 & Wh1 & _).
      rewrite value_4, B2_pow, <- Elo, <- Ehi, Vl, Vlo, Vhi, Vo.
      destruct (shr_pair_law 128 s (x0 + B * x1) (x2 + B * x3) ltac:(lia) RL
                  ltac:(lia)) as [E R].
      assert (Elor : Z.lor ((x0 + B * x1) / 2 ^ s)
                       (2 ^ (128 - s) * ((x2 + B * x3) mod 2 ^ s))
                     = (x0 + B * x1) / 2 ^ s
                       + (x2 + B * x3) mod 2 ^ s * 2 ^ (128 - s)).
      { rewrite Z.lor_comm, (Z.mul_comm (2 ^ (128 - s))).
        rewrite (Z.add_comm ((x0 + B * x1) / 2 ^ s)).
        apply lor_disjoint; [lia|].
        split; [apply Z.div_pos; [lia|apply Z.pow_pos_nonneg; lia]|].
        apply Z.div_lt_upper_bound; [apply Z.pow_pos_nonneg; lia|].
        rewrite (pow2_split 128 s) by lia. lia. }
      rewrite Elor. split_and.
      * exact E.
      * repeat apply words_cons; auto using words_nil.
      * reflexivity.
    + destruct (shr128_value_any x2 x3 (s - 128) W2 W3 ltac:(lia)) as (Vlo & Wlo & Llo).
      set (lo := shr128 [x2; x3] (s - 128)) in *. clearbody lo.
      destruct (pair_value lo Llo Wlo) as (Elo & Wl0 & Wl1 & _).
      rewrite value_4, B2_pow, <- Elo, Vlo. split_and.
      * assert (Ep : 2 ^ s = 2 ^ 128 * 2 ^ (s - 128)).
        { rewrite <- Z.pow_add_r by lia. f_equal. lia. }
        rewrite Ep, <- Z.div_div by (try apply Z.pow_pos_nonneg; lia).
        rewrite (Z.mul_comm (2 ^ 128) (x2 + B * x3)).
        rewrite Z.div_add by lia. rewrite (Z.div_small (x0 + B * x1)) by lia.
        cbn [value]. ring_simplify. reflexivity.
      * repeat apply words_cons; auto using words_nil, word_0.
      * reflexivity.
Qed.

(** ** The generic shift loops *)

Lemma carry_up x s :
  0 <= s < 64 -> shr64 (shr64 x (64 - s - 1)) 1 = x / 2 ^ (64 - s).
Proof.
  intros Hs. rewrite !shr64_div by lia.
  rewrite Z.div_div by (try apply Z.pow_pos_nonneg; lia).
  rewrite <- Z.pow_add_r by lia. f_equal. f_equal. lia.
Qed.

Lemma carry_down x s :
  0 <= s < 64 -> shl64 (shl64 x (64 - s - 1)) 1 = (x mod 2 ^ s) * 2 ^ (64 - s).
Proof.
  intros Hs. rewrite !shl64_mul by lia. rewrite B_pow.
  rewrite Z.mul_mod_idemp_l by lia.
  rewrite <- Z.mul_assoc, <- Z.pow_add_r by lia.
  replace (64 - s - 1 + 1) with (64 - s) by lia.
  rewrite (Z.mul_comm x), (shl_mod_low 64 (64 - s)) by lia.
  replace (64 - (64 - s)) with s by lia. ring.
Qed.

Lemma lor_shl_word x y s :
  0 <= s < 64 -> word y ->
  Z.lor (shl64 x s) (y / 2 ^ (64 - s))
  = (x mod 2 ^ (64 - s)) * 2 ^ s + y / 2 ^ (64 - s).
Proof.
  intros Hs Wy. rewrite shl64_split by assumption.
  apply lor_disjoint; [lia|]. apply shr_part_range; [lia|assumption].
Qed.

Lemma lor_shr_word x y s :
  0 <= s < 64 -> word x ->
  Z.lor (shr64 x s) ((y mod 2 ^ s) * 2 ^ (64 - s))
  = x / 2 ^ s + (y mod 2 ^ s) * 2 ^ (64 - s).
Proof.
  intros Hs Wx. rewrite shr64_div by lia.
  rewrite Z.lor_comm, Z.add_comm. apply lor_disjoint; [lia|].
  unfold word in Wx. rewrite B_pow in Wx.
  split; [apply Z.div_pos; [lia|apply Z.pow_pos_nonneg; lia]|].
  apply Z.div_lt_upper_bound; [apply Z.pow_pos_nonneg; lia|].
  rewrite (pow2_split 64 s) by lia. lia.
Qed.

Lemma shl_loop_S cnt i skip s x r carry :
  shl_loop (S cnt) i skip s x r carry
  = shl_loop cnt (S i) skip s x (upd r (i + skip) (Z.lor (shl64 x#[i] s) carry))
      (shr64 (shr64 x#[i] (64 - s - 1)) 1).
Proof. reflexivity. Qed.

Lemma shl_loop_length x s skip : forall cnt i r carry,
  length (shl_loop cnt i skip s x r carry) = length r.
Proof.
  induction cnt as [|cnt IH]; intros i r carry; [reflexivity|].
  rewrite shl_loop_S, IH, length_upd. reflexivity.
Qed.

Lemma shl_loop_at x s skip : forall cnt i r carry k,
  (shl_loop cnt i skip s x r carry)#[k]
  = if ((i + skip <=? k) && (k <? i + skip + cnt) && (k <? length r))%nat
    then Z.lor (shl64 x#[k - skip] s)
           (if (k =? i + skip)%nat then carry
            else shr64 (shr64 x#[k - skip - 1] (64 - s - 1)) 1)
    else r#[k].
Proof.
  induction cnt as [|cnt IH]; intros i r carry k.
  - cbn [shl_loop].
    destruct (Nat.leb_spec (i + skip) k), (Nat.ltb_spec k (i + skip + 0));
      try reflexivity. lia.
  - rewrite shl_loop_S, IH, length_upd.
    destruct (Nat.eq_dec k (i + skip)) as [->|Hne].
    + destruct (Nat.leb_spec (S i + skip) (i + skip)); [lia|]. cbn [andb].
      destruct (Nat.leb_spec (i + skip) (i + skip)); [|lia].
      destruct (Nat.ltb_spec (i + skip) (i + skip + S cnt)); [|lia].
      rewrite Nat.eqb_refl. cbn [andb].
      destruct (Nat.ltb_spec (i + skip) (length r)).
      * rewrite at_upd_same by assumption.
        replace (i + skip - skip)%nat with i by lia. reflexivity.
      * rewrite upd_beyond by assumption. reflexivity.
    + rewrite at_upd_other by lia.
      destruct (Nat.eqb_spec k (i + skip)); [lia|].
      replace (S i + skip + cnt)%nat with (i + skip + S cnt)%nat by (clear; lia).
      assert (E1 : (S i + skip <=? k)%nat = (i + skip <=? k)%nat).
      { destruct (Nat.leb_spec (S i + skip) k), (Nat.leb_spec (i + skip) k);
          try reflexivity; exfalso; lia. }
      rewrite E1.
      destruct ((i + skip <=? k) && (k <? i + skip + S cnt)
                && (k <? length r))%nat; [|reflexivity].
      destruct (Nat.eqb_spec k (S i + skip)) as [->|]; [|reflexivity].
      replace (S i + skip - skip - 1)%nat with i by (clear; lia). reflexivity.
Qed.

Lemma shr_loop_S cnt i skip nw s x r carry :
  shr_loop (S cnt) i skip nw s x r carry
  = shr_loop cnt (S i) skip nw s x
      (upd r (nw - 1 - i - skip) (Z.lor (shr64 x#[nw - 1 - i] s) carry))
      (shl64 (shl64 x#[nw - 1 - i] (64 - s - 1)) 1).
Proof. reflexivity. Qed.

Lemma shr_loop_length x s skip nw : forall cnt i r carry,
  length (shr_loop cnt i skip nw s x r carry) = length r.
Proof.
  induction cnt as [|cnt IH]; intros i r carry; [reflexivity|].
  rewrite shr_loop_S, IH, length_upd. reflexivity.
Qed.

Lemma shr_loop_at x s skip nw : forall cnt i r carry k,
  (i + cnt + skip <= nw)%nat ->
  (shr_loop cnt i skip nw s x r carry)#[k]
  = if ((nw - (i + cnt) - skip <=? k) && (k <? nw - i - skip)
        && (k <? length r))%nat
    then Z.lor (shr64 x#[k + skip] s)
           (if (k =? nw - 1 - i - skip)%nat then carry
            else shl64 (shl64 x#[k + skip + 1] (64 - s - 1)) 1)
    else r#[k].
Proof.
  induction cnt as [|cnt IH]; intros i r carry k Hb.
  - cbn [shr_loop].
    destruct (Nat.leb_spec (nw - (i + 0) - skip) k), (Nat.ltb_spec k (nw - i - skip));
      try reflexivity. lia.
  - rewrite shr_loop_S, IH, length_upd by lia.
    destruct (Nat.eq_dec k (nw - 1 - i - skip)) as [->|Hne].
    + destruct (Nat.ltb_spec (nw - 1 - i - skip) (nw - S i - skip)); [lia|].
      rewrite Bool.andb_false_r. cbn [andb].
      destruct (Nat.leb_spec (nw - (i + S cnt) - skip) (nw - 1 - i - skip)); [|lia].
      destruct (Nat.ltb_spec (nw - 1 - i - skip) (nw - i - skip)); [|lia].
      rewrite Nat.eqb_refl. cbn [andb].
      destruct (Nat.ltb_spec (nw - 1 - i - skip) (length r)).
      * rewrite at_upd_same by assumption.
        replace (nw - 1 - i - skip + skip)%nat with (nw - 1 - i)%nat by lia.
        reflexivity.
      * rewrite upd_beyond by assumption. reflexivity.
    + rewrite at_upd_other by lia.
      destruct (Nat.eqb_spec k (nw - 1 - i - skip)); [lia|].
      replace (nw - (S i + cnt) - skip)%nat with (nw - (i + S cnt) - skip)%nat
        by (clear; lia).
      assert (E2 : (k <? nw - S i - skip)%nat = (k <? nw - i - skip)%nat).
      { destruct (Nat.ltb_spec k (nw - S i - skip)), (Nat.ltb_spec k (nw - i - skip));
          try reflexivity; exfalso; lia. }
      rewrite E2.
      destruct ((nw - (i + S cnt) - skip <=? k) && (k <? nw - i - skip)
                && (k <? length r))%nat; [|reflexivity].
      destruct (Nat.eqb_spec k (nw - 1 - S i - skip)) as [->|]; [|reflexivity].
      replace (nw - 1 - S i - skip + skip + 1)%nat with (nw - 1 - i)%nat by lia.
      reflexivity.
Qed.

(** ** The value of a generic shift *)

Lemma shifted_value_mod s x y :
  0 <= s < 64 -> words x -> length y = length x ->
  y#[0] = (x#[0] mod 2 ^ (64 - s)) * 2 ^ s ->
  (forall k, (S k < length x)%nat ->
     y#[S k] = (x#[S k] mod 2 ^ (64 - s)) * 2 ^ s + x#[k] / 2 ^ (64 - s)) ->
  value y = (2 ^ s * value x) mod B ^ Z.of_nat (length x) /\ words y.
Proof.
  intros Hs Wx L H0 HS.
  assert (Wy : words y).
  { apply words_pointwise. intros k Hk. unfold word.
    destruct k as [|k].
    - rewrite H0.
      pose proof (shifted_word_range s x#[0] 0 Hs word_0) as R.
      rewrite Zdiv_0_l, Z.add_0_r in R. exact R.
    - rewrite HS by lia. apply shifted_word_range; [assumption|].
      apply at_word. assumption. }
  split; [|exact Wy].
  set (h := x#[length x - 1] / 2 ^ (64 - s)).
  assert (E : value (y ++ [h]) = 2 ^ s * value x + 0).
  { apply (shifted_value s Hs).
    - rewrite length_app, L. cbn [length]. lia.
    - rewrite at_app. destruct (Nat.ltb_spec 0 (length y)) as [Hlt|Hge].
      + rewrite H0. lia.
      + assert (Lx : length x = 0%nat) by lia.
        replace (0 - length y)%nat with 0%nat by lia. rewrite at_cons_0.
        subst h. rewrite Lx. cbn [Nat.sub].
        rewrite (at_beyond x 0) by lia. rewrite Zmod_0_l, Zdiv_0_l. lia.
    - intros k Hk. rewrite at_app.
      destruct (Nat.ltb_spec (S k) (length y)) as [Hlt|Hge].
      + apply HS. lia.
      + replace (S k - length y)%nat with 0%nat by lia. rewrite at_cons_0.
        rewrite (at_beyond x (S k)) by lia. rewrite Zmod_0_l.
        subst h. replace (length x - 1)%nat with k by lia. lia. }
  rewrite value_app in E. cbn [value] in E. rewrite L in E.
  pose proof (value_range y Wy) as R. rewrite L in R.
  apply Z.mod_unique with h; [left; exact R|]. lia.
Qed.

Lemma at_skipn (l : list Z) m j : (skipn m l)#[j] = l#[m + j].
Proof. unfold at_. apply nth_skipn. Qed.

Lemma value_skipn_low_zero x m :
  (m <= length x)%nat -> (forall k, (k < m)%nat -> x#[k] = 0) ->
  value x = B ^ Z.of_nat m * value (skipn m x).
Proof.
  intros L H. rewrite (value_window_prefix x m L).
  rewrite (value_all_zero (window x 0 m)); [lia|].
  intros k. unfold window. cbn [skipn]. rewrite at_firstn.
  destruct (Nat.ltb_spec k m); [apply H; assumption|reflexivity].
Qed.

Lemma pow2_words skip s :
  0 <= s -> 2 ^ (64 * Z.of_nat skip + s) = B ^ Z.of_nat skip * 2 ^ s.
Proof. intros H. rewrite Z.pow_add_r by lia. rewrite Bpow_two. reflexivity. Qed.

Lemma shl_generic_value x s :
  words x -> 0 <= s ->
  value (shl_generic x s) = (2 ^ s * value x) mod B ^ Z.of_nat (length x)
  /\ words (shl_generic x s) /\ length (shl_generic x s) = length x.
Proof.
  intros Wx Hs. unfold shl_generic. cbv zeta.
  pose proof (Bpow_pos (length x)) as PB.
  destruct (Z.leb_spec (Z.of_nat (64 * length x)) s) as [Hbig|Hin].
  - rewrite of_u64_0. split_and.
    + rewrite value_zeros.
      replace s with (64 * Z.of_nat (length x) + (s - 64 * Z.of_nat (length x))) by lia.
      rewrite pow2_words by lia.
      rewrite <- Z.mul_assoc, Z.mul_comm, Z.mod_mul by lia. reflexivity.
    + apply words_zeros.
    + apply length_zeros.
  - pose proof (Z.div_mod s 64 ltac:(lia)) as Es.
    pose proof (Z.mod_pos_bound s 64 ltac:(lia)) as Rs.
    assert (Hq : 0 <= s / 64) by (apply Z.div_pos; lia).
    assert (Hskip : (Z.to_nat (s / 64) < length x)%nat) by lia.
    assert (Eskip : Z.of_nat (Z.to_nat (s / 64)) = s / 64) by lia.
    set (skip := Z.to_nat (s / 64)) in *. clearbody skip.
    set (s' := s mod 64) in *. clearbody s'.
    set (R := shl_loop (length x - skip) 0 skip s' x (zeros (length x)) 0).
    assert (LR : length R = length x).
    { subst R. rewrite shl_loop_length, length_zeros. reflexivity. }
    assert (Rat : forall k, R#[k]
              = if ((skip <=? k) && (k <? length x))%nat
                then Z.lor (shl64 x#[k - skip] s')
                       (if (k =? skip)%nat then 0
                        else shr64 (shr64 x#[k - skip - 1] (64 - s' - 1)) 1)
                else 0).
    { intros k. subst R. rewrite shl_loop_at, length_zeros, at_zeros.
      cbn [Nat.add].
      replace (skip + (length x - skip))%nat with (length x) by lia.
      destruct (Nat.leb_spec skip k), (Nat.ltb_spec k (length x));
        cbn [andb]; reflexivity. }
    clearbody R.
    set (T := skipn skip R).
    assert (LT : length T = length (firstn (length x - skip) x)).
    { subst T. rewrite length_skipn, length_firstn, LR. lia. }
    destruct (shifted_value_mod s' (firstn (length x - skip) x) T ltac:(lia)
                (words_firstn _ _ Wx) LT) as [VT WT].
    + subst T. rewrite at_skipn, Rat, at_firstn.
      replace (skip + 0)%nat with skip by lia.
      destruct (Nat.leb_spec skip skip); [|lia].
      destruct (Nat.ltb_spec skip (length x)); [|lia]. cbn [andb].
      rewrite Nat.eqb_refl, Z.lor_0_r.
      replace (skip - skip)%nat with 0%nat by lia.
      destruct (Nat.ltb_spec 0 (length x - skip)); [|lia].
      apply shl64_split. lia.
    + intros k Hk. rewrite length_firstn in Hk.
      subst T. rewrite at_skipn, Rat, !at_firstn.
      destruct (Nat.leb_spec skip (skip + S k)); [|lia].
      destruct (Nat.ltb_spec (skip + S k) (length x)); [|lia]. cbn [andb].
      destruct (Nat.eqb_spec (skip + S k) skip); [lia|].
      replace (skip + S k - skip)%nat with (S k) by lia.
      replace (S k - 1)%nat with k by lia.
      destruct (Nat.ltb_spec (S k) (length x - skip)); [|lia].
      destruct (Nat.ltb_spec k (length x - skip)); [|lia].
      rewrite carry_up by lia. apply lor_shl_word; [lia|].
      apply at_word. assumption.
    + rewrite length_firstn in VT.
      replace (Nat.min (length x - skip) (length x)) with (length x - skip)%nat
        in VT by lia.
      assert (VR : value R = B ^ Z.of_nat skip * value T).
      { apply value_skipn_low_zero; [lia|]. intros k Hk. rewrite Rat.
        destruct (Nat.leb_spec skip k); [lia|]. reflexivity. }
      split_and.
      * rewrite VR, VT.
        rewrite Es at 1. rewrite <- Eskip, pow2_words by lia.
        rewrite (value_window_prefix x (length x - skip)) by lia.
        unfold window. cbn [skipn].
        set (lo := value (firstn (length x - skip) x)).
        set (hi := value (skipn (length x - skip) x)).
        pose proof (Bpow_pos skip) as P1. pose proof (Bpow_pos (length x - skip)) as P2.
        assert (EB : B ^ Z.of_nat (length x)
                     = B ^ Z.of_nat skip * B ^ Z.of_nat (length x - skip)).
        { rewrite <- Bpow_add. f_equal. f_equal. lia. }
        rewrite EB.
        replace (B ^ Z.of_nat skip * 2 ^ s' * (lo + B ^ Z.of_nat (length x - skip) * hi))
          with (B ^ Z.of_nat skip * (2 ^ s' * lo)
                + (2 ^ s' * hi) * (B ^ Z.of_nat skip * B ^ Z.of_nat (length x - skip)))
          by ring.
        rewrite Z.mod_add by lia.
        rewrite Z.mul_mod_distr_l by lia. reflexivity.
      * apply words_pointwise. intros k Hk. rewrite Rat.
        destruct ((skip <=? k) && (k <? length x))%nat eqn:C; [|apply word_0].
        apply Bool.andb_true_iff in C as [C1 C2].
        apply Nat.leb_le in C1. apply Nat.ltb_lt in C2.
        pose proof (at_word T (k - skip) WT) as W. subst T.
        rewrite at_skipn, Rat in W.
        replace (skip + (k - skip))%nat with k in W by lia.
        destruct (Nat.leb_spec skip k); [|lia].
        destruct (Nat.ltb_spec k (length x)); [|lia]. exact W.
      * exact LR.
Qed.

Lemma shr_generic_value x s :
  words x -> 0 <= s ->
  value (shr_generic x s) = value x / 2 ^ s
  /\ words (shr_generic x s) /\ length (shr_generic x s) = length x.
Proof.
  intros Wx Hs. unfold shr_generic. cbv zeta.
  pose proof (Bpow_pos (length x)) as PB.
  pose proof (value_range x Wx) as RX.
  destruct (Z.leb_spec (Z.of_nat (64 * length x)) s) as [Hbig|Hin].
  - rewrite of_u64_0. split_and.
    + rewrite value_zeros. symmetry. apply Z.div_small.
      rewrite Bpow_two in RX.
      assert (2 ^ (64 * Z.of_nat (length x)) <= 2 ^ s)
        by (apply Z.pow_le_mono_r; lia).
      lia.
    + apply words_zeros.
    + apply length_zeros.
  - pose proof (Z.div_mod s 64 ltac:(lia)) as Es.
    pose proof (Z.mod_pos_bound s 64 ltac:(lia)) as Rs.
    assert (Hq : 0 <= s / 64) by (apply Z.div_pos; lia).
    assert (Hskip : (Z.to_nat (s / 64) < length x)%nat) by lia.
    assert (Eskip : Z.of_nat (Z.to_nat (s / 64)) = s / 64) by lia.
    set (skip := Z.to_nat (s / 64)) in *. clearbody skip.
    set (s' := s mod 64) in *. clearbody s'.
    set (nw := length x) in *.
    set (R := shr_loop (nw - skip) 0 skip nw s' x (zeros nw) 0).
    assert (LR : length R = nw).
    { subst R. rewrite shr_loop_length, length_zeros. reflexivity. }
    assert (Rat : forall k, R#[k]
              = if (k <? nw - skip)%nat
                then x#[k + skip] / 2 ^ s'
                     + (x#[k + skip + 1] mod 2 ^ s') * 2 ^ (64 - s')
                else 0).
    { intros k. subst R. rewrite shr_loop_at, length_zeros, at_zeros by lia.
      cbn [Nat.add].
      replace (nw - (nw - skip) - skip)%nat with 0%nat by lia.
      replace (nw - 0 - skip)%nat with (nw - skip)%nat by lia.
      destruct (Nat.leb_spec 0 k); [|lia].
      destruct (Nat.ltb_spec k (nw - skip)); [|reflexivity].
      destruct (Nat.ltb_spec k nw); [|lia]. cbn [andb].
      destruct (Nat.eqb_spec k (nw - 1 - 0 - skip)) as [->|Hne].
      - rewrite (at_beyond x (nw - 1 - 0 - skip + skip + 1)) by (subst nw; lia).
        rewrite Zmod_0_l, Z.mul_0_l, Z.add_0_r, Z.lor_0_r.
        apply shr64_div. lia.
      - rewrite carry_down by lia. apply lor_shr_word; [lia|].
        apply at_word. assumption. }
    clearbody R.
    assert (Rz : forall k, (nw - skip <= k)%nat -> R#[k] = 0).
    { intros k Hk. rewrite Rat. destruct (Nat.ltb_spec k (nw - skip)); [lia|].
      reflexivity. }
    assert (LY : length (firstn (nw - skip) R) = length (skipn skip x)).
    { rewrite length_firstn, length_skipn, LR. subst nw. lia. }
    pose proof (unshifted_value s' ltac:(lia) (skipn skip x) (firstn (nw - skip) R) LY)
      as E.
    assert (Hat : forall k, (k < length (skipn skip x))%nat ->
              (firstn (nw - skip) R)#[k]
              = (skipn skip x)#[k] / 2 ^ s'
                + ((skipn skip x)#[S k] mod 2 ^ s') * 2 ^ (64 - s')).
    { intros k Hk. rewrite length_skipn in Hk. fold nw in Hk.
      rewrite at_firstn, Rat, !at_skipn.
      destruct (Nat.ltb_spec k (nw - skip)); [|lia].
      replace (k + skip)%nat with (skip + k)%nat by lia.
      replace (skip + k + 1)%nat with (skip + S k)%nat by lia. reflexivity. }
    specialize (E Hat).
    assert (VR : value R = value (firstn (nw - skip) R)).
    { symmetry. apply (value_window_zeros R (nw - skip) Rz). }
    assert (WR : words R).
    { apply words_pointwise. intros k Hk. rewrite Rat.
      destruct (Nat.ltb_spec k (nw - skip)); [|apply word_0].
      pose proof (at_word x (k + skip) Wx) as W1. unfold word in *.
      pose proof (pow_split s' ltac:(lia)) as EB.
      assert (Hp : 0 < 2 ^ s') by (apply Z.pow_pos_nonneg; lia).
      pose proof (Z.mod_pos_bound x#[k + skip + 1] (2 ^ s') Hp) as Hm.
      assert (Hd : 0 <= x#[k + skip] / 2 ^ s' < 2 ^ (64 - s')).
      { split; [apply Z.div_pos; lia|].
        apply Z.div_lt_upper_bound; [exact Hp|]. rewrite EB. exact (proj2 W1). }
      set (a := x#[k + skip] / 2 ^ s') in *.
      set (b := x#[k + skip + 1] mod 2 ^ s') in *. clearbody a b.
      set (p := 2 ^ s') in *. set (p' := 2 ^ (64 - s')) in *. clearbody p p'.
      clear - EB Hp Hm Hd. nia. }
    split_and; [|exact WR|exact LR].
    rewrite VR.
    assert (Hp : 0 < 2 ^ s') by (apply Z.pow_pos_nonneg; lia).
    pose proof (Z.mod_pos_bound (skipn skip x)#[0] (2 ^ s') Hp) as Hm.
    assert (EY : value (firstn (nw - skip) R) = value (skipn skip x) / 2 ^ s').
    { apply Z.div_unique with ((skipn skip x)#[0] mod 2 ^ s'); [left; exact Hm|].
      rewrite <- E. reflexivity. }
    rewrite EY.
    rewrite Es at 1. rewrite <- Eskip, pow2_words by lia.
    pose proof (Bpow_pos skip) as P1.
    rewrite <- Z.div_div by lia. f_equal.
    rewrite (value_window_prefix x skip) by (subst nw; lia).
    pose proof (window_value_range x 0 skip Wx ltac:(subst nw; lia)) as RW.
    rewrite Z.mul_comm, Z.div_add by lia.
    rewrite Z.div_small by lia. reflexivity.
Qed.

(** Shifts by an in-range or out-of-range amount, as selected by overload
    resolution. *)
Lemma ushl_value x s :
  words x -> 0 <= s ->
  value (ushl x s) = (2 ^ s * value x) mod B ^ Z.of_nat (length x)
  /\ words (ushl x s) /\ length (ushl x s) = length x.
Proof.
  intros W Hs. unfold ushl.
  destruct (length x) as [|[|[|[|[|n]]]]] eqn:L;
    try (rewrite <- L; apply shl_generic_value; assumption).
  - rewrite (list2 x L) in *. apply words_inv in W as [W0 W].
    apply words_inv in W as [W1 _].
    change (B ^ Z.of_nat 2) with (B ^ 2). replace (B ^ 2) with (B * B) by ring.
    rewrite value_2. apply shl128_value; assumption.
  - rewrite (list4 x L) in *. apply words_inv in W as [W0 W].
    apply words_inv in W as [W1 W]. apply words_inv in W as [W2 W].
    apply words_inv in W as [W3 _].
    apply (shl256_value _ _ _ _ s W0 W1 W2 W3 Hs).
Qed.

Lemma ushr_value x s :
  words x -> 0 <= s ->
  value (ushr x s) = value x / 2 ^ s
  /\ words (ushr x s) /\ length (ushr x s) = length x.
Proof.
  intros W Hs. unfold ushr.
  destruct (length x) as [|[|[|[|[|n]]]]] eqn:L;
    try (rewrite <- L; apply shr_generic_value; assumption).
  - rewrite (list2 x L) in *. apply words_inv in W as [W0 W].
    apply words_inv in W as [W1 _].
    rewrite value_2. apply shr128_value_any; assumption.
  - rewrite (list4 x L) in *. apply words_inv in W as [W0 W].
    apply words_inv in W as [W1 W]. apply words_inv in W as [W2 W].
    apply words_inv in W as [W3 _].
    apply (shr256_value _ _ _ _ s W0 W1 W2 W3 Hs).
Qed.

(** ** Shifts by a [uint<N>] amount *)

Lemma shl_beyond_value x s :
  words x -> 64 * Z.of_nat (length x) <= s ->
  (2 ^ s * value x) mod B ^ Z.of_nat (length x) = 0
  /\ value x / 2 ^ s = 0.
Proof.
  intros W H. pose proof (value_range x W) as R.
  pose proof (Bpow_pos (length x)) as PB. split.
  - replace s with (64 * Z.of_nat (length x) + (s - 64 * Z.of_nat (length x))) by lia.
    rewrite pow2_words by lia.
    rewrite <- Z.mul_assoc, Z.mul_comm, Z.mod_mul by lia. reflexivity.
  - apply Z.div_small. rewrite Bpow_two in R.
    assert (2 ^ (64 * Z.of_nat (length x)) <= 2 ^ s) by (apply Z.pow_le_mono_r; lia).
    lia.
Qed.

Lemma ushl_wide_value x sh :
  words x -> words sh -> length sh = length x ->
  Z.of_nat (64 * length x) <= 2 ^ 64 ->
  value (ushl_wide x sh) = (2 ^ value sh * value x) mod B ^ Z.of_nat (length x)
  /\ value (ushr_wide x sh) = value x / 2 ^ value sh
  /\ words (ushl_wide x sh) /\ length (ushl_wide x sh) = length x
  /\ words (ushr_wide x sh) /\ length (ushr_wide x sh) = length x.
Proof.
  intros Wx Ws L Hn.
  destruct (Z.eq_dec (high_words_fold sh) 0) as [Hz|Hnz].
  - pose proof (proj1 (high_words_fold_zero sh) Hz) as Hall.
    rewrite (value_low_word sh Hall).
    pose proof (at_word sh 0 Ws) as W0. unfold word in W0.
    destruct (ushl_value x sh#[0] Wx ltac:(lia)) as (V1 & W1 & L1).
    destruct (ushr_value x sh#[0] Wx ltac:(lia)) as (V2 & W2 & L2).
    assert (E1 : ushl_wide x sh = ushl x sh#[0]).
    { unfold ushl_wide. rewrite Hz. cbn [Z.eqb negb].
      rewrite (Hall 1%nat) by lia. cbn [Z.eqb negb].
      unfold ushl. destruct (length x) as [|[|[|n]]]; reflexivity. }
    assert (E2 : ushr_wide x sh = ushr x sh#[0]).
    { unfold ushr_wide. rewrite Hz. cbn [Z.eqb negb].
      rewrite (Hall 1%nat) by lia. cbn [Z.eqb negb].
      unfold ushr. destruct (length x) as [|[|[|n]]]; reflexivity. }
    rewrite E1, E2. split_and; assumption.
  - assert (Hbig : 64 * Z.of_nat (length x) <= value sh).
    { destruct sh as [|w t].
      { exfalso. apply Hnz. reflexivity. }
      apply words_inv in Ws as [Ww Wt]. rewrite value_cons.
      pose proof (value_range t Wt) as Rt. unfold word in Ww.
      destruct (Z.eq_dec (value t) 0) as [Ht|Ht].
      - exfalso. apply Hnz. apply high_words_fold_zero. intros i Hi.
        destruct i as [|i]; [lia|]. rewrite at_cons_S.
        rewrite (value_zero_inv t Wt Ht). apply at_zeros.
      - rewrite B_pow in *. nia. }
    destruct (ushl_wide_large x sh L Ws Hbig) as [E1 E2].
    destruct (shl_beyond_value x (value sh) Wx Hbig) as [Z1 Z2].
    rewrite E1, E2, Z1, Z2, value_zeros.
    split_and; auto using words_zeros, length_zeros.
Qed.

(** ** Modular addition and multiplication *)

Lemma addmod_spec oob x y m :
  length x = 4%nat -> length y = 4%nat -> length m = 4%nat ->
  words x -> words y -> words m -> value m <> 0 ->
  value (addmod oob x y m) = (value x + value y) mod value m
  /\ words (addmod oob x y m) /\ length (addmod oob x y m) = 4%nat.
Proof.
  intros Lx Ly Lm Wx Wy Wm Hm. unfold addmod. cbv zeta.
  destruct (add_with_carry_spec x y false ltac:(congruence) Wx Wy)
    as (E & Ws & Ls).
  cbv zeta in E, Ws, Ls. rewrite Lx in E, Ls. cbn [Z.b2z] in E.
  set (s := add_with_carry x y false) in *. clearbody s.
  destruct s as [sv c]. cbn [fst snd] in *.
  set (n := upd (resize 5 sv) 4 (Z.b2z c)).
  assert (Wn : words n).
  { subst n. apply words_upd; [apply words_resize; assumption|apply word_b2z]. }
  assert (Ln : length n = 5%nat).
  { subst n. rewrite length_upd, length_resize. reflexivity. }
  assert (Vn : value n = value x + value y).
  { subst n. rewrite value_upd by (rewrite length_resize; lia).
    rewrite at_resize. cbn [Nat.ltb Nat.leb].
    rewrite (at_beyond sv 4) by lia.
    rewrite value_resize by (intros k Hk; apply at_beyond; lia). lia. }
  destruct (udivrem_correct oob n m Wn Wm ltac:(lia) Hm)
    as (_ & R & _ & _ & Wr & Lr).
  rewrite R, Vn, Lr, Lm. split_and; auto.
Qed.

Lemma mulmod_spec oob x y m :
  length x = 4%nat -> length y = 4%nat -> length m = 4%nat ->
  words x -> words y -> words m -> value m <> 0 ->
  value (mulmod oob x y m) = (value x * value y) mod value m
  /\ words (mulmod oob x y m) /\ length (mulmod oob x y m) = 4%nat.
Proof.
  intros Lx Ly Lm Wx Wy Wm Hm. unfold mulmod.
  destruct (umul_spec x y ltac:(congruence) Wx Wy) as (V & W & L).
  destruct (udivrem_correct oob (umul x y) m W Wm ltac:(lia) Hm)
    as (_ & R & _ & _ & Wr & Lr).
  rewrite R, V, Lr, Lm. split_and; auto.
Qed.

(** ** Signed division *)

Lemma land_pow2 x k :
  0 <= k -> Z.land x (2 ^ k) = if Z.testbit x k then 2 ^ k else 0.
Proof.
  intros Hk. apply Z.bits_inj'. intros m Hm.
  rewrite Z.land_spec, Z.pow2_bits_eqb by assumption.
  destruct (Z.eqb_spec k m) as [->|Hne].
  - destruct (Z.testbit x m) eqn:E.
    + rewrite Z.pow2_bits_eqb, Z.eqb_refl by assumption. reflexivity.
    + rewrite Z.bits_0. reflexivity.
  - rewrite Bool.andb_false_r.
    destruct (Z.testbit x k).
    + rewrite Z.pow2_bits_eqb by assumption. symmetry. apply Z.eqb_neq. assumption.
    + rewrite Z.bits_0. reflexivity.
Qed.

Lemma top_bit x k :
  0 <= k -> 0 <= x < 2 ^ (k + 1) -> Z.testbit x k = (2 ^ k <=? x).
Proof.
  intros Hk Hx. rewrite Z.pow_add_r, Z.pow_1_r in Hx by lia.
  assert (Hp : 0 < 2 ^ k) by (apply Z.pow_pos_nonneg; lia).
  rewrite Z.testbit_eqb by assumption.
  destruct (Z.leb_spec (2 ^ k) x) as [Hge|Hlt].
  - replace x with ((x - 2 ^ k) + 1 * 2 ^ k) by ring.
    rewrite Z.div_add by lia. rewrite Z.div_small by lia. reflexivity.
  - rewrite Z.div_small by lia. reflexivity.
Qed.

Lemma ueq_generic_value x y :
  length x = length y -> words x -> words y ->
  ueq_generic x y = (value x =? value y).
Proof.
  intros L Wx Wy. destruct (ueq_generic x y) eqn:E.
  - apply ueq_generic_spec in E; [|assumption]. subst y.
    symmetry. apply Z.eqb_refl.
  - symmetry. apply Z.eqb_neq. intros Hv.
    apply (value_inj x y L Wx Wy) in Hv.
    apply (ueq_generic_spec x y L) in Hv. congruence.
Qed.

Lemma half_width nw :
  (0 < nw)%nat ->
  B ^ Z.of_nat nw = 2 * 2 ^ (Z.of_nat (64 * nw) - 1)
  /\ B ^ Z.of_nat nw / 2 = 2 ^ (Z.of_nat (64 * nw) - 1)
  /\ 0 < 2 ^ (Z.of_nat (64 * nw) - 1).
Proof.
  intros H. rewrite Bpow_two.
  assert (E : 2 ^ (64 * Z.of_nat nw) = 2 * 2 ^ (Z.of_nat (64 * nw) - 1)).
  { rewrite <- (Z.pow_1_r 2) at 2. rewrite <- Z.pow_add_r by lia. f_equal. lia. }
  assert (P : 0 < 2 ^ (Z.of_nat (64 * nw) - 1)) by (apply Z.pow_pos_nonneg; lia).
  split_and; [exact E| |exact P].
  rewrite E, Z.mul_comm, Z.div_mul by lia. reflexivity.
Qed.

(** The sign test of [sdivrem]: [(x & (1 << (N - 1))) != 0]. *)
Lemma sign_test x :
  words x -> (0 < length x)%nat ->
  let nw := length x in
  let sign_mask := ushl (of_u64 nw 1) (Z.of_nat (64 * nw) - 1) in
  negb (ueq_generic (uand x sign_mask) (of_u64 nw 0)) = (signed x <? 0).
Proof.
  intros W Hn nw sign_mask.
  destruct (half_width nw Hn) as (EM & EH & PH).
  pose proof (value_range x W) as R. fold nw in R.
  set (h := 2 ^ (Z.of_nat (64 * nw) - 1)) in *.
  assert (W1 : words (of_u64 nw 1)).
  { apply of_u64_words. unfold word. rewrite B_eq. lia. }
  destruct (ushl_value (of_u64 nw 1) (Z.of_nat (64 * nw) - 1) W1 ltac:(lia))
    as (Vm & Wm & Lm).
  fold sign_mask in Vm, Wm, Lm. rewrite of_u64_length in Vm, Lm.
  rewrite of_u64_value in Vm by assumption. fold h in Vm.
  rewrite Z.mul_1_r, Z.mod_small in Vm by lia.
  destruct (uand_spec x sign_mask ltac:(rewrite Lm; reflexivity) W Wm)
    as (Va & Wa & La).
  rewrite ueq_generic_value;
    [|rewrite La, of_u64_length; reflexivity|assumption
     |apply of_u64_words, word_0].
  rewrite of_u64_value by assumption. rewrite Va, Vm. subst h.
  rewrite land_pow2 by lia.
  rewrite top_bit by (try lia; replace (Z.of_nat (64 * nw) - 1 + 1)
                         with (64 * Z.of_nat nw) by lia; rewrite <- Bpow_two; exact R).
  unfold signed. fold nw. rewrite EH.
  set (h := 2 ^ (Z.of_nat (64 * nw) - 1)) in *.
  destruct (Z.leb_spec h (value x)); destruct (Z.ltb_spec (value x) h); lia.
Qed.

Lemma signed_range x :
  words x -> (0 < length x)%nat ->
  let h := 2 ^ (Z.of_nat (64 * length x) - 1) in
  - h <= signed x < h
  /\ (signed x < 0 -> value x = signed x + 2 * h)
  /\ (0 <= signed x -> value x = signed x).
Proof.
  intros W Hn h.
  destruct (half_width (length x) Hn) as (EM & EH & PH).
  pose proof (value_range x W) as R.
  unfold signed. cbv zeta. rewrite EH. fold h in EM, PH |- *. rewrite EM in *.
  destruct (Z.ltb_spec (value x) h); split_and; lia.
Qed.

Lemma signed_of_value x z :
  words x -> (0 < length x)%nat ->
  value x = z mod B ^ Z.of_nat (length x) ->
  - 2 ^ (Z.of_nat (64 * length x) - 1) <= z < 2 ^ (Z.of_nat (64 * length x) - 1) ->
  signed x = z.
Proof.
  intros W Hn E Hz.
  destruct (half_width (length x) Hn) as (EM & EH & PH).
  unfold signed. cbv zeta. rewrite EH.
  set (h := 2 ^ (Z.of_nat (64 * length x) - 1)) in *. rewrite EM in *.
  destruct (Z.lt_ge_cases z 0) as [Hneg|Hpos].
  - assert (Ez : z mod (2 * h) = z + 2 * h).
    { symmetry. apply Z.mod_unique with (-1); [left; lia|ring]. }
    rewrite E, Ez. destruct (Z.ltb_spec (z + 2 * h) h); lia.
  - rewrite Z.mod_small in E by lia. rewrite E.
    destruct (Z.ltb_spec z h); lia.
Qed.

(** The absolute value taken by [sdivrem]. *)
Lemma signed_abs x :
  words x -> (0 < length x)%nat ->
  value (if signed x <? 0 then uneg_generic x else x) = Z.abs (signed x)
  /\ words (if signed x <? 0 then uneg_generic x else x)
  /\ length (if signed x <? 0 then uneg_generic x else x) = length x.
Proof.
  intros W Hn.
  destruct (signed_range x W Hn) as (R & Eneg & Epos). cbv zeta in R, Eneg, Epos.
  destruct (half_width (length x) Hn) as (EM & EH & PH).
  destruct (uneg_generic_spec x W Hn) as (V & Wn & Ln).
  destruct (Z.ltb_spec (signed x) 0) as [Hneg|Hpos].
  - split_and; auto. rewrite V, EM, (Eneg Hneg).
    set (h := 2 ^ (Z.of_nat (64 * length x) - 1)) in *.
    rewrite Z.abs_neq by lia. symmetry.
    apply Z.mod_unique with (-1); [left; lia|ring].
  - split_and; auto. rewrite (Epos Hpos). rewrite Z.abs_eq by lia. reflexivity.
Qed.

(** Truncating division from the division of the absolute values. *)
Lemma signed_division_law M a b :
  0 < M -> b <> 0 -> Z.abs a < M ->
  let Q := Z.abs a / Z.abs b in
  let R := Z.abs a mod Z.abs b in
  (if xorb (a <? 0) (b <? 0) then (- Q) mod M else Q) = (Z.quot a b) mod M
  /\ (if a <? 0 then (- R) mod M else R) = (Z.rem a b) mod M.
Proof.
  intros HM Hb Ha Q R.
  rewrite (Z.quot_div a b Hb), (Z.rem_mod a b Hb). fold Q R.
  assert (Pb : 0 < Z.abs b) by lia.
  assert (HQ : 0 <= Q < M).
  { subst Q. split; [apply Z.div_pos; lia|].
    apply Z.div_lt_upper_bound; [assumption|]. nia. }
  assert (HR : 0 <= R < M).
  { subst R. pose proof (Z.mod_pos_bound (Z.abs a) (Z.abs b) Pb).
    pose proof (Z.mod_le (Z.abs a) (Z.abs b) ltac:(lia) Pb). lia. }
  assert (HQ0 : a = 0 -> Q = 0).
  { intros ->. subst Q. reflexivity. }
  assert (HR0 : a = 0 -> R = 0).
  { intros ->. subst R. reflexivity. }
  clearbody Q R.
  destruct (Z.ltb_spec a 0) as [Ha0|Ha0]; destruct (Z.ltb_spec b 0) as [Hb0|Hb0];
    cbn [xorb].
  - rewrite (Z.sgn_neg a), (Z.sgn_neg b) by lia. split.
    + replace (-1 * -1 * Q) with Q by ring. symmetry. apply Z.mod_small. lia.
    + f_equal; ring.
  - rewrite (Z.sgn_neg a), (Z.sgn_pos b) by lia. split; f_equal; ring.
  - destruct (Z.eq_dec a 0) as [E|E].
    + rewrite (HQ0 E), (HR0 E), E. cbn. rewrite ?Zmod_0_l. split; reflexivity.
    + rewrite (Z.sgn_pos a), (Z.sgn_neg b) by lia. split.
      * f_equal; ring.
      * rewrite Z.mul_1_l. symmetry. apply Z.mod_small. lia.
  - destruct (Z.eq_dec a 0) as [E|E].
    + rewrite (HQ0 E), (HR0 E), E. cbn. rewrite ?Zmod_0_l. split; reflexivity.
    + rewrite (Z.sgn_pos a), (Z.sgn_pos b) by lia. split.
      * replace (1 * 1 * Q) with Q by ring. symmetry. apply Z.mod_small. lia.
      * rewrite Z.mul_1_l. symmetry. apply Z.mod_small. lia.
Qed.

Lemma sdivrem_spec oob u v :
  words u -> words v -> length v = length u -> (0 < length u)%nat ->
  value v <> 0 ->
  value (fst (sdivrem oob u v))
  = (Z.quot (signed u) (signed v)) mod B ^ Z.of_nat (length u)
  /\ value (snd (sdivrem oob u v))
     = (Z.rem (signed u) (signed v)) mod B ^ Z.of_nat (length u)
  /\ words (fst (sdivrem oob u v)) /\ length (fst (sdivrem oob u v)) = length u
  /\ words (snd (sdivrem oob u v)) /\ length (snd (sdivrem oob u v)) = length u.
Proof.
  intros Wu Wv Lv Hn Hv.
  pose proof (sign_test u Wu Hn) as Su. cbv zeta in Su.
  pose proof (sign_test v Wv ltac:(lia)) as Sv. cbv zeta in Sv. rewrite Lv in Sv.
  unfold sdivrem. cbv zeta. rewrite Su, Sv.
  destruct (signed_abs u Wu Hn) as (Vua & Wua & Lua).
  destruct (signed_abs v Wv ltac:(lia)) as (Vva & Wva & Lva).
  destruct (signed_range u Wu Hn) as (Ru & _). cbv zeta in Ru.
  destruct (signed_range v Wv ltac:(lia)) as (Rv & Ev1 & Ev2). cbv zeta in Rv, Ev1, Ev2.
  destruct (half_width (length u) Hn) as (EM & EH & PH).
  rewrite Lv in *.
  set (h := 2 ^ (Z.of_nat (64 * length u) - 1)) in *.
  assert (Hb : signed v <> 0).
  { intros E. apply Hv. rewrite Ev2 by lia. exact E. }
  set (ua := if signed u <? 0 then uneg_generic u else u) in *.
  set (va := if signed v <? 0 then uneg_generic v else v) in *.
  clearbody ua va.
  destruct (udivrem_correct oob ua va Wua Wva ltac:(lia) ltac:(lia))
    as (Q & R & Wq & Lq & Wr & Lr).
  rewrite Vua, Vva in Q, R. rewrite Lua in Lq. rewrite Lva in Lr.
  set (res := udivrem oob ua va) in *. clearbody res.
  destruct res as [q r]. cbn [fst snd] in *.
  destruct (signed_division_law (B ^ Z.of_nat (length u)) (signed u) (signed v)
              ltac:(lia) Hb ltac:(lia)) as [EQ ER].
  cbv zeta in EQ, ER. rewrite <- Q in EQ. rewrite <- R in ER.
  destruct (uneg_generic_spec q Wq ltac:(lia)) as (Vnq & Wnq & Lnq).
  destruct (uneg_generic_spec r Wr ltac:(lia)) as (Vnr & Wnr & Lnr).
  rewrite Lq in Vnq, Lnq. rewrite Lr in Vnr, Lnr.
  split_and.
  - rewrite <- EQ. destruct (xorb (signed u <? 0) (signed v <? 0)); auto.
  - rewrite <- ER. destruct (signed u <? 0); auto.
  - destruct (xorb (signed u <? 0) (signed v <? 0)); auto.
  - destruct (xorb (signed u <? 0) (signed v <? 0)); auto.
  - destruct (signed u <? 0); auto.
  - destruct (signed u <? 0); auto.
Qed.

Lemma uneg128_generic x :
  words x -> length x = 2%nat -> uneg128 x = uneg_generic x.
Proof.
  intros W L.
  destruct (uneg128_spec x W L) as (V1 & W1 & L1).
  destruct (uneg_generic_spec x W ltac:(lia)) as (V2 & W2 & L2).
  apply value_inj; try assumption; [congruence|].
  rewrite V1, V2, L. reflexivity.
Qed.

Lemma sdivrem128_spec x y :
  words x -> words y -> length x = 2%nat -> length y = 2%nat ->
  value y <> 0 ->
  value (fst (sdivrem128 x y)) = (Z.quot (signed x) (signed y)) mod B ^ 2
  /\ value (snd (sdivrem128 x y)) = (Z.rem (signed x) (signed y)) mod B ^ 2
  /\ words (fst (sdivrem128 x y)) /\ length (fst (sdivrem128 x y)) = 2%nat
  /\ words (snd (sdivrem128 x y)) /\ length (snd (sdivrem128 x y)) = 2%nat.
Proof.
  intros Wx Wy Lx Ly Hy.
  assert (S : forall z, words z -> length z = 2%nat ->
            une128 (uand z (shl128 (of_u64 2 1) 127)) (of_u64 2 0)
            = (signed z <? 0)).
  { intros z Wz Lz.
    pose proof (sign_test z Wz ltac:(lia)) as S. cbv zeta in S. rewrite Lz in S.
    change (ushl (of_u64 2 1) (Z.of_nat (64 * 2) - 1))
      with (shl128 (of_u64 2 1) 127) in S.
    rewrite <- S.
    assert (Wm : words (shl128 (of_u64 2 1) 127))
      by (apply wordsb_ok; vm_compute; reflexivity).
    destruct (uand_spec z (shl128 (of_u64 2 1) 127) Lz Wz Wm) as (_ & Wa & La).
    rewrite Lz in La.
    assert (W0 : words (of_u64 2 0)) by (apply of_u64_words, word_0).
    rewrite ueq_generic_value by (auto; rewrite La; reflexivity).
    rewrite <- (une_spec _ _ (eq_trans La (eq_sym (of_u64_length 2 0))) Wa W0).
    unfold une. rewrite La. reflexivity. }
  pose proof (S x Wx Lx) as Sx. pose proof (S y Wy Ly) as Sy. clear S.
  unfold sdivrem128. cbv zeta. rewrite Sx, Sy.
  rewrite (uneg128_generic x Wx Lx), (uneg128_generic y Wy Ly).
  destruct (signed_abs x Wx ltac:(lia)) as (Vxa & Wxa & Lxa).
  destruct (signed_abs y Wy ltac:(lia)) as (Vya & Wya & Lya).
  destruct (signed_range x Wx ltac:(lia)) as (Rx & _). cbv zeta in Rx.
  destruct (signed_range y Wy ltac:(lia)) as (Ry & Ey1 & Ey2). cbv zeta in Ry, Ey1, Ey2.
  destruct (half_width 2 ltac:(lia)) as (EM & EH & PH).
  rewrite Lx in *. rewrite Ly in *.
  set (h := 2 ^ (Z.of_nat (64 * 2) - 1)) in *.
  assert (Hb : signed y <> 0).
  { intros E. apply Hy. rewrite Ey2 by lia. exact E. }
  set (xa := if signed x <? 0 then uneg_generic x else x) in *.
  set (ya := if signed y <? 0 then uneg_generic y else y) in *.
  clearbody xa ya.
  destruct (udivrem128_correct xa ya Lxa Lya Wxa Wya ltac:(lia))
    as (E & R & Wq & Lq & Wr & Lr).
  destruct (quot_rem_unique _ _ _ _ E R) as [Q R'].
  rewrite Vxa, Vya in Q, R'.
  set (res := udivrem128 xa ya) in *. clearbody res.
  destruct res as [q r]. cbn [fst snd] in *.
  change (B ^ Z.of_nat 2) with (B ^ 2) in EM.
  destruct (signed_division_law (B ^ 2) (signed x) (signed y)
              ltac:(lia) Hb ltac:(lia)) as [EQ ER].
  cbv zeta in EQ, ER. rewrite <- Q in EQ. rewrite <- R' in ER.
  rewrite (uneg128_generic q Wq Lq), (uneg128_generic r Wr Lr).
  destruct (uneg_generic_spec q Wq ltac:(lia)) as (Vnq & Wnq & Lnq).
  destruct (uneg_generic_spec r Wr ltac:(lia)) as (Vnr & Wnr & Lnr).
  rewrite Lq in Vnq, Lnq. rewrite Lr in Vnr, Lnr.
  change (B ^ Z.of_nat 2) with (B ^ 2) in Vnq, Vnr.
  split_and.
  - rewrite <- EQ. destruct (xorb (signed x <? 0) (signed y <? 0)); auto.
  - rewrite <- ER. destruct (signed x <? 0); auto.
  - destruct (xorb (signed x <? 0) (signed y <? 0)); auto.
  - destruct (xorb (signed x <? 0) (signed y <? 0)); auto.
  - destruct (signed x <? 0); auto.
  - destruct (signed x <? 0); auto.
Qed.

(** ** The reciprocal of a normalized word *)

(** C2.  For every 64-bit [d] with bit 63 set, [reciprocal_2by1 d] is
    exactly [floor((2^128 - 1) / d) - 2^64], a 64-bit value; the table that
    seeds the refinement has 256 entries, and the index [(d >> 55) - 256]
    taken from the top nine bits of [d] falls inside it, where it finds
    [floor(523520 / (d >> 55))] (that is [0x7fd00 / d9]). *)
Theorem reciprocal_2by1_exact d :
  word d -> Z.testbit d 63 = true ->
  reciprocal_2by1 d = (2 ^ 128 - 1) / d - 2 ^ 64
  /\ word (reciprocal_2by1 d)
  /\ length reciprocal_table = 256%nat
  /\ 0 <= shr64 d 55 - 256 < 256
  /\ nth (Z.to_nat (shr64 d 55 - 256)) reciprocal_table 0 = 523520 / shr64 d 55.
Proof.
  intros Hd Hb. unfold word in Hd. rewrite B_pow in Hd.
  pose proof (testbit63_normalized d Hd Hb) as Hn.
  assert (Hd9 : 256 <= shr64 d 55 <= 511).
  { rewrite shr64_div by lia. split.
    - apply Z.div_le_lower_bound; lia.
    - assert (d / 2 ^ 55 < 512) by (apply Z.div_lt_upper_bound; lia). lia. }
  split_and.
  - apply reciprocal_2by1_correct. lia.
  - rewrite reciprocal_2by1_correct by lia.
    pose proof (reciprocal_range d _ ltac:(lia) eq_refl).
    unfold word. rewrite B_pow. lia.
  - reflexivity.
  - lia.
  - lia.
  - apply recip_table_entry. assumption.
Qed.

Lemma reciprocal_2by1_exact_witness :
  reciprocal_2by1 (2 ^ 63 + 12345) = (2 ^ 128 - 1) / (2 ^ 63 + 12345) - 2 ^ 64.
Proof.
  destruct (reciprocal_2by1_exact (2 ^ 63 + 12345)) as (H & _).
  - unfold word. rewrite B_eq. lia.
  - reflexivity.
  - exact H.
Defined.

(** * Further properties of the code *)

(** ** The division primitives *)

(** X1.  [udivrem(uint128, uint128)]: for every non-zero divisor the
    result is the quotient and the remainder: [x = q * y + r] over the
    integers with [r < y], and both are 128-bit values. *)
Theorem udivrem128_division_law (x y : list Z) :
  length x = 2%nat -> length y = 2%nat -> words x -> words y ->
  value y <> 0 ->
  value x = value (fst (udivrem128 x y)) * value y + value (snd (udivrem128 x y))
  /\ value (snd (udivrem128 x y)) < value y
  /\ value (fst (udivrem128 x y)) = value x / value y
  /\ value (snd (udivrem128 x y)) = value x mod value y
  /\ words (fst (udivrem128 x y)) /\ length (fst (udivrem128 x y)) = 2%nat
  /\ words (snd (udivrem128 x y)) /\ length (snd (udivrem128 x y)) = 2%nat.
Proof.
  intros Lx Ly Wx Wy Hy.
  destruct (udivrem128_correct x y Lx Ly Wx Wy Hy) as (E & R & Wq & Lq & Wr & Lr).
  set (res := udivrem128 x y) in *. clearbody res.
  destruct (quot_rem_unique _ _ _ _ E R) as [Hq Hr].
  split_and; auto; lia.
Qed.

Lemma udivrem128_division_law_witness :
  let x := [7; 3] in
  let y := [5; 0] in
  value (fst (udivrem128 x y)) = value x / value y
  /\ value (snd (udivrem128 x y)) = value x mod value y.
Proof.
  intros x y.
  destruct (udivrem128_division_law x y) as (_ & _ & Hq & Hr & _).
  - reflexivity.
  - reflexivity.
  - apply wordsb_ok. vm_compute. reflexivity.
  - apply wordsb_ok. vm_compute. reflexivity.
  - vm_compute. discriminate.
  - split; [exact Hq | exact Hr].
Defined.

(** X2.  [udivrem_2by1]: given a normalized divisor [d] (bit 63 set), its
    reciprocal [v = reciprocal_2by1(d)] and a two-word numerator whose high
    word is below [d], the result is the one-word quotient and the
    remainder of the numerator by [d]. *)
Theorem udivrem_2by1_divides (u0 u1 d : Z) :
  word u0 -> word u1 -> word d -> Z.testbit d 63 = true -> u1 < d ->
  let res := udivrem_2by1 [u0; u1] d (reciprocal_2by1 d) in
  fst res = (u0 + 2 ^ 64 * u1) / d
  /\ snd res = (u0 + 2 ^ 64 * u1) mod d
  /\ word (fst res).
Proof.
  intros Hu0 Hu1 Hd Hb Hlt res. subst res.
  unfold word in Hd. rewrite B_pow in Hd.
  pose proof (testbit63_normalized d Hd Hb) as Hn.
  rewrite reciprocal_2by1_correct by lia.
  destruct (udivrem_2by1_correct u0 u1 d _ Hu0 Hu1 Hlt ltac:(lia) eq_refl)
    as (E & R & Q).
  rewrite B_pow in E.
  set (res := udivrem_2by1 _ _ _) in *. clearbody res.
  destruct (quot_rem_unique _ _ _ _ E R) as [Hq Hr].
  split_and; auto.
Qed.

Lemma udivrem_2by1_divides_witness :
  let d := 2 ^ 63 + 5 in
  fst (udivrem_2by1 [11; 3] d (reciprocal_2by1 d)) = (11 + 2 ^ 64 * 3) / d
  /\ snd (udivrem_2by1 [11; 3] d (reciprocal_2by1 d)) = (11 + 2 ^ 64 * 3) mod d.
Proof.
  intros d.
  destruct (udivrem_2by1_divides 11 3 d) as (Hq & Hr & _).
  - unfold word. rewrite B_eq. lia.
  - unfold word. rewrite B_eq. lia.
  - unfold word, d. rewrite B_eq. lia.
  - reflexivity.
  - unfold d. lia.
  - split; [exact Hq | exact Hr].
Defined.

(** X3.  [reciprocal_3by2]: for a two-word divisor [d] whose top bit is
    set the result is exactly [floor((2^192 - 1) / d) - 2^64], a 64-bit
    value. *)
Theorem reciprocal_3by2_exact (d0 d1 : Z) :
  word d0 -> word d1 -> Z.testbit d1 63 = true ->
  reciprocal_3by2 [d0; d1] = (2 ^ 192 - 1) / (d0 + 2 ^ 64 * d1) - 2 ^ 64
  /\ word (reciprocal_3by2 [d0; d1]).
Proof.
  intros Hd0 Hd1 Hb.
  assert (Hd1' := Hd1). unfold word in Hd1'. rewrite B_pow in Hd1'.
  pose proof (testbit63_normalized d1 Hd1' Hb) as Hn.
  rewrite reciprocal_3by2_correct by (auto; lia).
  split; [reflexivity|].
  assert (Hd0' := Hd0). unfold word in Hd0'. rewrite B_pow in Hd0'.
  pose proof (reciprocal3_range d1 d0 _ ltac:(lia) Hd0' eq_refl).
  unfold word. rewrite B_pow. assumption.
Qed.

Lemma reciprocal_3by2_exact_witness :
  reciprocal_3by2 [12345; 2 ^ 63 + 99]
  = (2 ^ 192 - 1) / (12345 + 2 ^ 64 * (2 ^ 63 + 99)) - 2 ^ 64.
Proof.
  destruct (reciprocal_3by2_exact 12345 (2 ^ 63 + 99)) as (H & _).
  - unfold word. rewrite B_eq. lia.
  - unfold word. rewrite B_eq. lia.
  - reflexivity.
  - exact H.
Defined.

(** X4.  [udivrem_3by2]: given a normalized two-word divisor [d], its
    reciprocal [reciprocal_3by2(d)] and a three-word numerator whose two
    high words are below [d], the result is the one-word quotient and the
    two-word remainder of the numerator by [d]. *)
Theorem udivrem_3by2_divides (u2 u1 u0 d0 d1 : Z) :
  word u0 -> word u1 -> word u2 -> word d0 -> word d1 ->
  Z.testbit d1 63 = true ->
  u1 + 2 ^ 64 * u2 < d0 + 2 ^ 64 * d1 ->
  let d := d0 + 2 ^ 64 * d1 in
  let u := u0 + 2 ^ 64 * u1 + 2 ^ 128 * u2 in
  let res := udivrem_3by2 u2 u1 u0 [d0; d1] (reciprocal_3by2 [d0; d1]) in
  fst res = u / d /\ value (snd res) = u mod d
  /\ word (fst res) /\ words (snd res) /\ length (snd res) = 2%nat.
Proof.
  intros Hu0 Hu1 Hu2 Hd0 Hd1 Hb Hlt d u res. subst res.
  assert (Hd1' := Hd1). unfold word in Hd1'. rewrite B_pow in Hd1'.
  pose proof (testbit63_normalized d1 Hd1' Hb) as Hn.
  rewrite reciprocal_3by2_correct by (auto; lia).
  destruct (udivrem_3by2_correct u2 u1 u0 d0 d1 _ Hu0 Hu1 Hu2 Hd0 ltac:(lia)
              ltac:(rewrite B_pow; exact Hlt) eq_refl) as (E & R & Q & WR & LR).
  rewrite B_pow in E, R.
  change (2 ^ 64 * 2 ^ 64) with (2 ^ 128) in E.
  fold d in E, R |- *. fold u in E.
  set (res := udivrem_3by2 _ _ _ _ _) in *. clearbody res.
  clearbody u d.
  destruct (quot_rem_unique _ _ _ _ E R) as [Hq Hr].
  split_and; auto.
Qed.

Lemma udivrem_3by2_divides_witness :
  let d0 := 12345 in
  let d1 := 2 ^ 63 + 99 in
  let res := udivrem_3by2 5 6 7 [d0; d1] (reciprocal_3by2 [d0; d1]) in
  fst res = (7 + 2 ^ 64 * 6 + 2 ^ 128 * 5) / (d0 + 2 ^ 64 * d1)
  /\ value (snd res) = (7 + 2 ^ 64 * 6 + 2 ^ 128 * 5) mod (d0 + 2 ^ 64 * d1).
Proof.
  intros d0 d1 res.
  destruct (udivrem_3by2_divides 5 6 7 d0 d1) as (Hq & Hr & _).
  - unfold word. rewrite B_eq. lia.
  - unfold word. rewrite B_eq. lia.
  - unfold word. rewrite B_eq. lia.
  - unfold word, d0. rewrite B_eq. lia.
  - unfold word, d1. rewrite B_eq. lia.
  - reflexivity.
  - unfold d0, d1. lia.
  - split; [exact Hq | exact Hr].
Defined.

(** ** Counting leading zeros and significant digits *)

(** X5.  [clz_generic(uint64_t)]: for a non-zero 64-bit [x] the result
    [c] is the number of leading zero bits, that is [c <= 63] and
    [2^(63 - c) <= x < 2^(64 - c)], so that [x << c] has bit 63 set; for 0
    the result is 64.  The 32-bit loop does the same for width 32. *)
Theorem clz_generic_counts_leading_zeros (x : Z) :
  0 < x < 2 ^ 64 ->
  0 <= clz64 x <= 63
  /\ 2 ^ (63 - clz64 x) <= x < 2 ^ (64 - clz64 x)
  /\ Z.testbit (shl64 x (clz64 x)) 63 = true
  /\ clz64 0 = 64
  /\ (x < 2 ^ 32 -> 0 <= clz32 x <= 31 /\ 2 ^ 31 <= x * 2 ^ clz32 x < 2 ^ 32)
  /\ clz32 0 = 32.
Proof.
  intros Hx. destruct (clz64_spec x Hx) as (Hc & Hn).
  pose proof (clz64_bitlen x Hx) as Hb.
  split_and; try lia; try reflexivity;
    try (intros H32; apply clz32_spec; lia).
  rewrite shl64_mul by lia. rewrite Z.mod_small by (rewrite B_pow; lia).
  apply Z.testbit_true; [lia|].
  set (y := x * 2 ^ clz64 x) in *. clearbody y.
  assert (E : y / 2 ^ 63 = 1).
  { symmetry. apply Z.div_unique with (y - 2 ^ 63); lia. }
  rewrite E. reflexivity.
Qed.

Lemma clz_generic_counts_leading_zeros_witness :
  0 <= clz64 12345 <= 63
  /\ 2 ^ (63 - clz64 12345) <= 12345 < 2 ^ (64 - clz64 12345).
Proof.
  destruct (clz_generic_counts_leading_zeros 12345) as (H1 & H2 & H3 & _).
  - lia.
  - split; [exact H1 | exact H2].
Defined.

(** X6.  [clz(const uint<N>&)] and [clz(uint128)]: for a non-zero value
    the result is the width minus the bit length; for zero it is the
    width. *)
Theorem clz_is_width_minus_bit_length (x : list Z) :
  words x -> value x <> 0 ->
  0 <= clz x < 64 * Z.of_nat (length x)
  /\ 2 ^ (64 * Z.of_nat (length x) - 1 - clz x) <= value x
     < 2 ^ (64 * Z.of_nat (length x) - clz x)
  /\ clz (zeros (length x)) = 64 * Z.of_nat (length x)
  /\ (length x = 2%nat ->
      0 <= clz128 x < 128
      /\ 2 ^ (127 - clz128 x) <= value x < 2 ^ (128 - clz128 x)
      /\ clz128 [0; 0] = 128).
Proof.
  intros W Hv. destruct (clz_spec x W) as (_ & H). specialize (H Hv).
  destruct (clz_spec (zeros (length x)) (words_zeros _)) as (Hz & _).
  rewrite value_zeros, length_zeros in Hz.
  split_and; try lia; try (apply Hz; reflexivity).
  intros L. destruct (clz128_spec x W L) as (_ & H2). specialize (H2 Hv).
  split_and; try reflexivity; lia.
Qed.

Lemma clz_is_width_minus_bit_length_witness :
  let x := [5; 7; 0; 0] in
  2 ^ (64 * 4 - 1 - clz x) <= value x < 2 ^ (64 * 4 - clz x).
Proof.
  intros x.
  destruct (clz_is_width_minus_bit_length x) as (_ & H1 & _).
  - apply wordsb_ok. vm_compute. reflexivity.
  - vm_compute. discriminate.
  - exact H1.
Defined.

(** X7.  [count_significant_words] and [count_significant_bytes]: the
    count [k] of words satisfies [value x < 2^(64 k)], with [x[k-1] != 0]
    when [k > 0], and is 0 exactly for the value 0; the count of bytes of a
    non-zero value is the length of its shortest base-256 writing. *)
Theorem significant_counts (x : list Z) :
  words x ->
  let k := count_significant_words x in
  (k <= length x)%nat
  /\ value x < 2 ^ (64 * Z.of_nat k)
  /\ ((0 < k)%nat -> x#[k - 1] <> 0 /\ 2 ^ (64 * Z.of_nat (k - 1)) <= value x)
  /\ (k = 0%nat <-> value x = 0)
  /\ (value x = 0 -> count_significant_bytes x = 0)
  /\ (value x <> 0 ->
      1 <= count_significant_bytes x <= 8 * Z.of_nat (length x)
      /\ 256 ^ (count_significant_bytes x - 1) <= value x
         < 256 ^ count_significant_bytes x).
Proof.
  intros W k.
  destruct (count_significant_words_spec x W) as (H1 & H2 & H3 & H4).
  destruct (count_significant_bytes_spec x W) as (H5 & H6).
  cbv zeta in H1, H2, H3, H4. fold k in H1, H2, H3, H4.
  rewrite !Bpow_two in *.
  split_and; auto.
Qed.

Lemma significant_counts_witness :
  let x := [5; 300; 0; 0] in
  count_significant_words x = 2%nat /\ count_significant_bytes x = 10
  /\ 256 ^ (count_significant_bytes x - 1) <= value x
     < 256 ^ count_significant_bytes x.
Proof.
  intros x.
  destruct (significant_counts x) as (_ & _ & _ & _ & _ & H).
  - apply wordsb_ok. vm_compute. reflexivity.
  - destruct H as (_ & H1); [vm_compute; discriminate|].
    split; [reflexivity | split; [reflexivity | exact H1]].
Defined.

(** ** Comparisons *)

(** X8.  [operator==] and [operator!=], on [uint128] and on [uint<N>]:
    the result of [==] is true exactly when the two values are the same
    number (and then the word arrays are equal), and [!=] is its
    negation. *)
Theorem equality_operators (x y : list Z) :
  length x = length y -> words x -> words y ->
  ueq x y = (value x =? value y)
  /\ une x y = negb (ueq x y)
  /\ (ueq x y = true <-> x = y)
  /\ ueq_generic x y = ueq x y.
Proof.
  intros L Wx Wy.
  pose proof (ueq_spec x y L Wx Wy) as E.
  pose proof (une_spec x y L Wx Wy) as N.
  assert (G : ueq_generic x y = (value x =? value y)).
  { destruct (ueq_generic x y) eqn:Eg.
    - apply ueq_generic_spec in Eg; [|assumption]. subst y.
      symmetry. apply Z.eqb_refl.
    - symmetry. apply Z.eqb_neq. intros Hv.
      apply value_inj in Hv; auto.
      apply (ueq_generic_spec x y L) in Hv. congruence. }
  split_and.
  - exact E.
  - rewrite N, E. reflexivity.
  - rewrite E. split.
    + intros H. apply Z.eqb_eq in H. apply value_inj; auto.
    + intros ->. apply Z.eqb_refl.
  - rewrite E. exact G.
Qed.

Lemma equality_operators_witness :
  ueq [1; 2; 3] [1; 2; 4] = false /\ une [1; 2; 3] [1; 2; 4] = true.
Proof.
  destruct (equality_operators [1; 2; 3] [1; 2; 4]) as (H1 & H2 & _).
  - reflexivity.
  - apply wordsb_ok. vm_compute. reflexivity.
  - apply wordsb_ok. vm_compute. reflexivity.
  - split; [rewrite H1 | rewrite H2, H1]; reflexivity.
Defined.

(** X9.  [operator<=], [operator>] and [operator>=], which the code writes
    through [operator<], are the order of the denoted numbers, for every
    width (including the [uint128] and [uint256] overloads of [<]). *)
Theorem ordering_operators (x y : list Z) :
  length x = length y -> words x -> words y ->
  ule x y = (value x <=? value y)
  /\ ugt x y = (value y <? value x)
  /\ uge x y = (value y <=? value x)
  /\ ule x y = negb (ugt x y)
  /\ uge x y = negb (ult x y).
Proof.
  intros L Wx Wy.
  rewrite ule_spec, ugt_spec, uge_spec, ult_spec by auto.
  split_and; try reflexivity.
  - destruct (Z.leb_spec (value x) (value y)); destruct (Z.ltb_spec (value y) (value x));
      cbn [negb]; try reflexivity; lia.
  - destruct (Z.leb_spec (value y) (value x)); destruct (Z.ltb_spec (value x) (value y));
      cbn [negb]; try reflexivity; lia.
Qed.

Lemma ordering_operators_witness :
  ule [7; 1] [3; 2] = true /\ uge [7; 1] [3; 2] = false.
Proof.
  destruct (ordering_operators [7; 1] [3; 2]) as (H1 & _ & H3 & _).
  - reflexivity.
  - apply wordsb_ok. vm_compute. reflexivity.
  - apply wordsb_ok. vm_compute. reflexivity.
  - split; [rewrite H1 | rewrite H3]; reflexivity.
Defined.

(** X10.  [slt]: signed less-than.  The result is the order of the
    two's-complement readings of [x] and [y]. *)
Theorem slt_is_signed_order (x y : list Z) :
  length x = length y -> (0 < length x)%nat -> words x -> words y ->
  slt x y = (signed x <? signed y).
Proof. apply slt_spec. Qed.

Lemma slt_is_signed_order_witness :
  let x := [0; 2 ^ 64 - 1] in
  let y := [5; 0] in
  slt x y = true /\ ult x y = false.
Proof.
  intros x y. split; [|reflexivity].
  rewrite (slt_is_signed_order x y).
  - reflexivity.
  - reflexivity.
  - cbn. lia.
  - apply wordsb_ok. vm_compute. reflexivity.
  - apply wordsb_ok. vm_compute. reflexivity.
Defined.

(** ** Bitwise operators and negation *)

(** X11.  [operator~] and unary [operator-]: [~x] is [2^N - 1 - x], and
    [-x], both as [~x + 1] on [uint<N>] and as [0 - x] on [uint128], is
    [(2^N - x) mod 2^N], so that [x + (-x)] wraps to 0. *)
Theorem complement_and_negation (x : list Z) :
  words x -> (0 < length x)%nat ->
  value (unot x) = 2 ^ (64 * Z.of_nat (length x)) - 1 - value x
  /\ value (uneg_generic x) = (- value x) mod 2 ^ (64 * Z.of_nat (length x))
  /\ value (uadd x (uneg_generic x)) = 0
  /\ length (unot x) = length x /\ length (uneg_generic x) = length x
  /\ (length x = 2%nat -> uneg128 x = uneg_generic x).
Proof.
  intros W Hn.
  destruct (unot_spec x W) as (V & Ws & L).
  destruct (uneg_generic_spec x W Hn) as (V2 & W2 & L2).
  rewrite <- !Bpow_two.
  pose proof (Bpow_pos (length x)) as HP.
  split_and; auto.
  - rewrite uadd_value by auto. rewrite V2.
    rewrite Z.add_mod_idemp_r by lia.
    replace (value x + - value x) with 0 by ring.
    apply Z.mod_0_l. lia.
  - intros L3. destruct (uneg128_spec x W L3) as (V3 & W3 & L4).
    apply value_inj; auto; [congruence|].
    rewrite V3, V2, L3. reflexivity.
Qed.

Lemma complement_and_negation_witness :
  let x := [5; 0; 0] in
  value (uneg_generic x) = 2 ^ 192 - 5.
Proof.
  intros x.
  destruct (complement_and_negation x) as (_ & H & _).
  - apply wordsb_ok. vm_compute. reflexivity.
  - cbn. lia.
  - rewrite H. reflexivity.
Defined.

(** X12.  [operator|], [operator&] and [operator^] act bit by bit on the
    denoted numbers: the value of the result is the bitwise or, and,
    exclusive or of the two values. *)
Theorem bitwise_operators (x y : list Z) :
  length x = length y -> words x -> words y ->
  value (uor x y) = Z.lor (value x) (value y)
  /\ value (uand x y) = Z.land (value x) (value y)
  /\ value (uxor x y) = Z.lxor (value x) (value y)
  /\ (forall n, Z.testbit (value (uxor x y)) n
                = xorb (Z.testbit (value x) n) (Z.testbit (value y) n))
  /\ words (uor x y) /\ words (uand x y) /\ words (uxor x y)
  /\ length (uor x y) = length x /\ length (uand x y) = length x
  /\ length (uxor x y) = length x.
Proof.
  intros L Wx Wy.
  destruct (uor_spec x y L Wx Wy) as (V1 & W1 & L1).
  destruct (uand_spec x y L Wx Wy) as (V2 & W2 & L2).
  destruct (uxor_spec x y L Wx Wy) as (V3 & W3 & L3).
  split_and; auto.
  intros n. rewrite V3. apply Z.lxor_spec.
Qed.

Lemma bitwise_operators_witness :
  let x := [12; 2 ^ 63] in
  let y := [10; 2 ^ 63 + 1] in
  value (uxor x y) = Z.lxor (value x) (value y).
Proof.
  intros x y.
  destruct (bitwise_operators x y) as (_ & _ & H & _).
  - reflexivity.
  - apply wordsb_ok. vm_compute. reflexivity.
  - apply wordsb_ok. vm_compute. reflexivity.
  - exact H.
Defined.

(** ** Multiplication and carries *)

(** X13.  [umul(uint64_t, uint64_t)]: the two result words are the low
    and the high half of the exact 128-bit product, and the portable
    32-bit decomposition returns the same words as the native 128-bit
    multiplication. *)
Theorem umul64_exact_product (x y : Z) :
  word x -> word y ->
  umul64 x y = [(x * y) mod 2 ^ 64; (x * y) / 2 ^ 64]
  /\ value (umul64 x y) = x * y
  /\ umul64 x y = umul64_builtin x y.
Proof.
  intros Hx Hy. rewrite <- B_pow. split_and.
  - apply umul64_spec; assumption.
  - apply umul64_value; assumption.
  - apply umul64_builtin_agree; assumption.
Qed.

Lemma umul64_exact_product_witness :
  value (umul64 (2 ^ 64 - 1) (2 ^ 64 - 1)) = (2 ^ 64 - 1) * (2 ^ 64 - 1).
Proof.
  destruct (umul64_exact_product (2 ^ 64 - 1) (2 ^ 64 - 1)) as (_ & H & _).
  - unfold word. rewrite B_eq. lia.
  - unfold word. rewrite B_eq. lia.
  - exact H.
Defined.

(** X14.  The widening [umul(uint<N>, uint<N>)] returns the exact product
    as a value of [2N] bits: nothing is lost, whatever the operands. *)
Theorem umul_widening_exact (x y : list Z) :
  length x = length y -> words x -> words y ->
  value (umul x y) = value x * value y
  /\ words (umul x y) /\ length (umul x y) = (2 * length x)%nat.
Proof. apply umul_spec. Qed.

Lemma umul_widening_exact_witness :
  let x := [2 ^ 64 - 1; 2 ^ 64 - 1] in
  value (umul x x) = (2 ^ 128 - 1) * (2 ^ 128 - 1).
Proof.
  intros x.
  destruct (umul_widening_exact x x) as (H & _).
  - reflexivity.
  - apply wordsb_ok. vm_compute. reflexivity.
  - apply wordsb_ok. vm_compute. reflexivity.
  - rewrite H. reflexivity.
Defined.

(** X15.  [add_with_carry] and [sub_with_carry], on [uint<N>] and on
    [uint64_t]: the result together with the carry (borrow) flag gives the
    exact sum (difference), [value + 2^N * carry = x + y + carry_in] and
    [value - 2^N * borrow = x - y - borrow_in]. *)
Theorem carry_chains_are_exact (x y : list Z) (k : bool) :
  length x = length y -> words x -> words y ->
  value (fst (add_with_carry x y k))
    + 2 ^ (64 * Z.of_nat (length x)) * Z.b2z (snd (add_with_carry x y k))
  = value x + value y + Z.b2z k
  /\ value (fst (sub_with_carry x y k))
    - 2 ^ (64 * Z.of_nat (length x)) * Z.b2z (snd (sub_with_carry x y k))
  = value x - value y - Z.b2z k
  /\ (snd (add_with_carry x y false) = true
      <-> 2 ^ (64 * Z.of_nat (length x)) <= value x + value y)
  /\ words (fst (add_with_carry x y k))
  /\ words (fst (sub_with_carry x y k))
  /\ (forall a b, word a -> word b ->
      fst (add_with_carry64 a b k) + 2 ^ 64 * Z.b2z (snd (add_with_carry64 a b k))
      = a + b + Z.b2z k
      /\ fst (sub_with_carry64 a b k) - 2 ^ 64 * Z.b2z (snd (sub_with_carry64 a b k))
        = a - b - Z.b2z k).
Proof.
  intros L Wx Wy. rewrite <- !Bpow_two.
  destruct (add_with_carry_spec x y k L Wx Wy) as (A & WA & LA).
  destruct (sub_with_carry_spec x y k L Wx Wy) as (S & WS & LS).
  destruct (add_with_carry_spec x y false L Wx Wy) as (A0 & WA0 & LA0).
  cbv zeta in *.
  split; [exact A|]. split; [exact S|]. split; [|split; [exact WA|split; [exact WS|]]].
  2:{ intros a b Ha Hb. rewrite <- B_pow. split.
      - apply add_with_carry64_spec; assumption.
      - apply sub_with_carry64_spec; assumption. }
  pose proof (value_range _ WA0) as R. rewrite LA0 in R.
  pose proof (Bpow_pos (length x)) as HP.
  destruct (snd (add_with_carry x y false)); cbn [Z.b2z] in *.
  - split; [intros _; lia | reflexivity].
  - split; [discriminate | intros H; exfalso; lia].
Qed.

Lemma carry_chains_are_exact_witness :
  let x := [2 ^ 64 - 1; 2 ^ 64 - 1] in
  let y := [1; 0] in
  snd (add_with_carry x y false) = true
  /\ value (fst (add_with_carry x y false)) = 0.
Proof.
  intros x y.
  destruct (carry_chains_are_exact x y false) as (H & _).
  - reflexivity.
  - apply wordsb_ok. vm_compute. reflexivity.
  - apply wordsb_ok. vm_compute. reflexivity.
  - cbv zeta in H. split; [reflexivity|].
    assert (E : snd (add_with_carry x y false) = true) by reflexivity.
    rewrite E in H. cbn [Z.b2z] in H.
    replace (value x + value y + 0) with (2 ^ (64 * Z.of_nat (length x)) * 1) in H
      by reflexivity.
    lia.
Defined.

(** ** The callers of the library *)

(** X16.  [EncodeChar] and [DecodeChar]: the 64 characters [0-9], [A-Z],
    [a-z], [_] and [.] are numbered 0 to 63 and every other character gets
    64; decoding inverts encoding on the alphabet, encoding inverts
    decoding on 0..63, and a number outside 0..63 decodes to the NUL
    character. *)
Theorem alphabet_round_trip (c n : Z) :
  0 <= EncodeChar c <= 64
  /\ (EncodeChar c <> 64 -> DecodeChar (EncodeChar c) = c)
  /\ (0 <= n <= 63 -> EncodeChar (DecodeChar n) = n)
  /\ (DecodeChar n = 0 <-> n < 0 \/ 63 < n)
  /\ (EncodeChar c = 64 <->
      ~ (48 <= c <= 57 \/ 65 <= c <= 90 \/ 97 <= c <= 122 \/ c = 95 \/ c = 46)).
Proof.
  split; [apply EncodeChar_range|].
  split; [apply DecodeChar_EncodeChar|].
  split; [apply EncodeChar_DecodeChar|].
  split; [apply DecodeChar_outside|].
  unfold EncodeChar.
  repeat match goal with
         | |- context [if ?b then _ else _] => destruct b eqn:?
         end; lia.
Qed.



(** X18.  [StringTou5]: a string of decimal digits is read as its decimal
    number, reduced modulo [2^512] (nothing wraps up to 154 digits); no
    character is rejected, and a character that is not a digit adds
    [(c - 48) mod 2^64] at its position. *)
Theorem StringTou5_reads_decimal (s : list Z) :
  (length s <= 154)%nat -> (forall c, In c s -> 48 <= c <= 57) ->
  value (StringTou5 s) = horner 10 (rev (map (fun c => c - 48) s))
  /\ (forall u, value (StringTou5 u)
                = horner 10 (rev (map (fun c => (c - 48) mod 2 ^ 64) u)) mod 2 ^ 512)
  /\ value (StringTou5 [47]) = 2 ^ 64 - 1
  /\ words (StringTou5 s) /\ length (StringTou5 s) = 8%nat.
Proof.
  intros Hlen Hd.
  destruct (StringTou5_spec s) as (V & W & L).
  split; [|split; [|split; [|split; assumption]]].
  - rewrite V.
    assert (E : map (fun c => (c - 48) mod 2 ^ 64) s = map (fun c => c - 48) s).
    { apply map_ext_in. intros c Hc. specialize (Hd c Hc).
      apply Z.mod_small. lia. }
    rewrite E. apply Z.mod_small.
    destruct (horner_bound 10 9 ltac:(lia) ltac:(lia)
                (rev (map (fun c => c - 48) s))) as [H0 H1].
    { intros v Hv. apply In_rev in Hv. apply in_map_iff in Hv as (c & <- & Hc).
      specialize (Hd c Hc). lia. }
    rewrite length_rev, length_map in H1. split; [assumption|].
    assert (10 ^ Z.of_nat (length s) <= 10 ^ 154) by (apply Z.pow_le_mono_r; lia).
    assert (10 ^ 154 < 2 ^ 512) by (vm_compute; reflexivity).
    lia.
  - intros u. apply StringTou5_spec.
  - destruct (StringTou5_spec [47]) as (V1 & _). rewrite V1. vm_compute. reflexivity.
Qed.

Lemma StringTou5_reads_decimal_witness :
  value (StringTou5 [49; 50; 51]) = 123.
Proof.
  destruct (StringTou5_reads_decimal [49; 50; 51]) as (H & _).
  - cbn. lia.
  - intros c [<-|[<-|[<-|[]]]]; lia.
  - rewrite H. reflexivity.
Defined.



(** ** Multiword division *)

(** X20.  [udivrem] on [uint<M>] by [uint<N>], for all widths: for a
    non-zero divisor the result is the quotient and the remainder,
    [u = q * v + r] over the integers with [r < v]; the quotient has the
    width of [u] and the remainder the width of [v].  The word that
    [normalize] reads below the numerator buffer when the numerator is
    zero has no influence on the result.  [operator/] and [operator%]
    return these two halves. *)
Theorem udivrem_division_law (oob : Z) (u v : list Z) :
  words u -> words v -> (1 <= length u)%nat -> value v <> 0 ->
  value u = value (fst (udivrem oob u v)) * value v + value (snd (udivrem oob u v))
  /\ value (snd (udivrem oob u v)) < value v
  /\ value (fst (udivrem oob u v)) = value u / value v
  /\ value (snd (udivrem oob u v)) = value u mod value v
  /\ words (fst (udivrem oob u v)) /\ length (fst (udivrem oob u v)) = length u
  /\ words (snd (udivrem oob u v)) /\ length (snd (udivrem oob u v)) = length v
  /\ (forall oob', udivrem oob' u v = udivrem oob u v)
  /\ (length v = length u ->
      value (udiv oob u v) = value u / value v
      /\ value (umod oob u v) = value u mod value v).
Proof.
  intros Wu Wv Lu Hv.
  pose proof (value_range v Wv) as Rv.
  destruct (udivrem_correct oob u v Wu Wv Lu Hv) as (Q & R & Wq & Lq & Wr & Lr).
  pose proof (Z.div_mod (value u) (value v) Hv) as E.
  pose proof (Z.mod_pos_bound (value u) (value v) ltac:(lia)) as M.
  split_and; auto.
  - rewrite Q, R. lia.
  - rewrite R. lia.
  - intros oob'.
    destruct (udivrem_correct oob' u v Wu Wv Lu Hv) as (Q' & R' & Wq' & Lq' & Wr' & Lr').
    destruct (udivrem oob' u v) as [q' r'], (udivrem oob u v) as [q r].
    cbn [fst snd] in *. f_equal; apply value_inj; congruence.
  - intros L. unfold udiv, umod, udivrem_any.
    destruct (Nat.eq_dec (length u) 2) as [L2|L2].
    + rewrite L2.
      destruct (udivrem128_correct u v L2 ltac:(lia) Wu Wv Hv) as (E2 & R2 & _).
      set (res := udivrem128 u v) in *. clearbody res.
      destruct (quot_rem_unique _ _ _ _ E2 R2) as [Hq Hr]. split; assumption.
    + destruct (length u) as [|[|[|n]]]; try lia; split; assumption.
Qed.

Lemma udivrem_division_law_witness :
  let u := [7; 3; 1; 9; 2] in
  let v := [5; 2; 8] in
  value u = value (fst (udivrem 0 u v)) * value v + value (snd (udivrem 0 u v))
  /\ value (snd (udivrem 0 u v)) < value v
  /\ udivrem 1 u v = udivrem 0 u v.
Proof.
  intros u v.
  destruct (udivrem_division_law 0 u v) as (H1 & H2 & _ & _ & _ & _ & _ & _ & H3 & _).
  - apply wordsb_ok. vm_compute. reflexivity.
  - apply wordsb_ok. vm_compute. reflexivity.
  - cbn. lia.
  - vm_compute. discriminate.
  - split; [exact H1 | split; [exact H2 | apply H3]].
Defined.

(** X21.  [internal::udivrem_by1] and [internal::udivrem_by2]: for a
    normalized divisor (top bit set) and a numerator of [len] words whose
    top word (top two words) is below the divisor, the low [len] words of
    the buffer are replaced by the quotient, the words above stay as they
    were, and the returned value is the remainder. *)
Theorem udivrem_by1_by2_contract (u : list Z) (len : nat) (d0 d1 : Z) :
  words u -> (len <= length u)%nat -> word d0 -> 2 ^ 63 <= d1 < 2 ^ 64 ->
  ((2 <= len)%nat -> u#[len - 1] < d1 ->
   let r := udivrem_by1 u len d1 in
   value (window (fst r) 0 len) = value (window u 0 len) / d1
   /\ snd r = value (window u 0 len) mod d1
   /\ words (fst r) /\ length (fst r) = length u
   /\ (forall t, (len <= t)%nat -> (fst r)#[t] = u#[t]))
  /\ ((3 <= len)%nat -> u#[len - 2] + B * u#[len - 1] < d0 + B * d1 ->
      let r := udivrem_by2 u len [d0; d1] in
      value (window (fst r) 0 len) = value (window u 0 len) / (d0 + B * d1)
      /\ value (snd r) = value (window u 0 len) mod (d0 + B * d1)
      /\ words (snd r) /\ length (snd r) = 2%nat
      /\ words (fst r) /\ length (fst r) = length u
      /\ (forall t, (len <= t)%nat -> (fst r)#[t] = u#[t])).
Proof.
  intros Wu Hlen Wd0 Hd1. split.
  - intros H2 Htop r.
    destruct (udivrem_by1_spec u len d1 Wu ltac:(lia) Hd1 Htop) as (E & R & Wf & Lf & Ff).
    fold r in E, R, Wf, Lf, Ff. clearbody r.
    destruct (quot_rem_unique _ _ _ _ E R) as [Hq Hr]. split_and; auto.
  - intros H3 Htop r.
    destruct (udivrem_by2_spec u len d0 d1 Wu ltac:(lia) Wd0 Hd1 Htop)
      as (E & R & Ws & Ls & Wf & Lf & Ff).
    fold r in E, R, Ws, Ls, Wf, Lf, Ff. clearbody r.
    destruct (quot_rem_unique _ _ _ _ E R) as [Hq Hr]. split_and; auto.
Qed.

Lemma udivrem_by1_by2_contract_witness :
  let u := [11; 22; 33; 5; 77] in
  let d1 := 2 ^ 63 + 9 in
  snd (udivrem_by1 u 4 d1) = value (window u 0 4) mod d1
  /\ value (snd (udivrem_by2 u 4 [3; d1])) = value (window u 0 4) mod (3 + B * d1).
Proof.
  intros u d1.
  destruct (udivrem_by1_by2_contract u 4 3 d1) as (H1 & H2).
  - apply wordsb_ok. vm_compute. reflexivity.
  - cbn. lia.
  - unfold word. rewrite B_eq. lia.
  - subst d1. lia.
  - split.
    + destruct H1 as (_ & H & _); [lia | vm_compute; reflexivity | exact H].
    + destruct H2 as (_ & H & _); [lia | vm_compute; reflexivity | exact H].
Defined.

(** X22.  [internal::udivrem_knuth]: for a divisor of [dlen >= 3] words
    with its top bit set and a numerator of [ulen] words whose top [dlen]
    words are below the divisor, the call writes the [ulen - dlen] quotient
    words into [q] and leaves the remainder in the low [dlen] words of
    [u]; the other words of [q] stay as they were. *)
Theorem udivrem_knuth_contract (q u d : list Z) (ulen dlen : nat) :
  words q -> words u -> words d ->
  (3 <= dlen <= length d)%nat -> (dlen <= ulen <= length u)%nat ->
  (ulen - dlen <= length q)%nat ->
  2 ^ 63 <= d#[dlen - 1] ->
  value (window u 0 ulen) < B ^ Z.of_nat (ulen - dlen) * value (window d 0 dlen) ->
  let r := udivrem_knuth q u ulen d dlen in
  value (window (fst r) 0 (ulen - dlen))
  = value (window u 0 ulen) / value (window d 0 dlen)
  /\ value (window (snd r) 0 dlen)
     = value (window u 0 ulen) mod value (window d 0 dlen)
  /\ words (fst r) /\ length (fst r) = length q
  /\ (forall t, (ulen - dlen <= t)%nat -> (fst r)#[t] = q#[t])
  /\ words (snd r) /\ length (snd r) = length u.
Proof.
  intros Wq Wu Wd Hd Hu Hq Htop Hpre r.
  destruct dlen as [|[|n2]]; try lia.
  replace (S (S n2) - 1)%nat with (S n2) in Htop by lia.
  pose proof (knuth_loop_spec d n2 Wd ltac:(lia) Htop (ulen - S (S n2))%nat q u
                Wu Wq) as H.
  replace (ulen - S (S n2) + S (S n2))%nat with ulen in H by lia.
  specialize (H ltac:(lia) Hq Hpre).
  assert (Er : r = knuth_loop (ulen - S (S n2)) q u d (S (S n2))
                     [d#[n2]; d#[S n2]] (reciprocal_3by2 [d#[n2]; d#[S n2]])).
  { subst r. unfold udivrem_knuth.
    replace (S (S n2) - 2)%nat with n2 by lia.
    replace (S (S n2) - 1)%nat with (S n2) by lia. reflexivity. }
  rewrite <- Er in H. clearbody r. clear Er.
  destruct H as (E & R & Wfq & Lfq & Ffq & Wfu & Lfu).
  destruct (quot_rem_unique _ _ _ _ E R) as [HQ HR]. split_and; auto.
Qed.

Lemma udivrem_knuth_contract_witness :
  let u := [5; 6; 7; 8; 9; 0] in
  let d := [1; 2; 3; 2 ^ 63] in
  value (window (fst (udivrem_knuth [0; 0; 0] u 6 d 4)) 0 2)
  = value (window u 0 6) / value (window d 0 4)
  /\ value (window (snd (udivrem_knuth [0; 0; 0] u 6 d 4)) 0 4)
     = value (window u 0 6) mod value (window d 0 4).
Proof.
  intros u d.
  destruct (udivrem_knuth_contract [0; 0; 0] u d 6 4) as (H1 & H2 & _).
  - apply wordsb_ok. vm_compute. reflexivity.
  - apply wordsb_ok. vm_compute. reflexivity.
  - apply wordsb_ok. vm_compute. reflexivity.
  - cbn. lia.
  - cbn. lia.
  - cbn. lia.
  - vm_compute. discriminate.
  - vm_compute. reflexivity.
  - split; [exact H1 | exact H2].
Defined.

(** X23.  [internal::submul] and [internal::add] on [len] words: [submul]
    stores [x - multiplier * y] modulo [2^(64 len)] and returns the borrow
    word, so that [result - 2^(64 len) * borrow = x - multiplier * y] over
    the integers; [add] stores [x + y] modulo [2^(64 len)] and returns the
    carry.  Words outside the [len] written ones are untouched. *)
Theorem submul_add_contract (u d : list Z) (j len : nat) (m : Z) :
  words u -> words d -> word m ->
  (j + len <= length u)%nat -> (len <= length d)%nat ->
  (value (window (fst (submul u j d len m)) j len)
     - B ^ Z.of_nat len * snd (submul u j d len m)
   = value (window u j len) - m * value (window d 0 len)
   /\ word (snd (submul u j d len m))
   /\ words (fst (submul u j d len m))
   /\ length (fst (submul u j d len m)) = length u
   /\ (forall t, (t < j \/ j + len <= t)%nat -> (fst (submul u j d len m))#[t] = u#[t]))
  /\ (value (window (fst (add u j d len)) j len)
       + B ^ Z.of_nat len * Z.b2z (snd (add u j d len))
      = value (window u j len) + value (window d 0 len)
      /\ words (fst (add u j d len))
      /\ length (fst (add u j d len)) = length u
      /\ (forall t, (t < j \/ j + len <= t)%nat -> (fst (add u j d len))#[t] = u#[t])).
Proof.
  intros Wu Wd Wm Lu Ld. split.
  - apply submul_spec; assumption.
  - apply add_spec; assumption.
Qed.

Lemma submul_add_contract_witness :
  let u := [1; 2; 3; 4] in
  let d := [2 ^ 64 - 1; 7; 9] in
  value (window (fst (submul u 1 d 2 5)) 1 2) - B ^ 2 * snd (submul u 1 d 2 5)
  = value (window u 1 2) - 5 * value (window d 0 2)
  /\ value (window (fst (add u 1 d 2)) 1 2) + B ^ 2 * Z.b2z (snd (add u 1 d 2))
     = value (window u 1 2) + value (window d 0 2).
Proof.
  intros u d.
  destruct (submul_add_contract u d 1 2 5) as ((H1 & _) & (H2 & _)).
  - apply wordsb_ok. vm_compute. reflexivity.
  - apply wordsb_ok. vm_compute. reflexivity.
  - unfold word. rewrite B_eq. lia.
  - cbn. lia.
  - cbn. lia.
  - split; [exact H1 | exact H2].
Defined.

(** ** Shifts, modular arithmetic and signed division *)

(** X24.  [operator<<] and [operator>>] for every width and every shift
    amount: [x << s] is [x * 2^s] reduced modulo [2^N] and [x >> s] is
    [floor(x / 2^s)].  The [uint128] and [uint256] overloads and the
    generic word loop all follow this law, and so do the overloads that
    take the amount as a [uint<N>] (for widths up to [2^64] bits). *)
Theorem shift_is_scaling (x sh : list Z) (s : Z) :
  words x -> 0 <= s ->
  (value (ushl x s) = (value x * 2 ^ s) mod B ^ Z.of_nat (length x)
   /\ value (ushr x s) = value x / 2 ^ s
   /\ words (ushl x s) /\ length (ushl x s) = length x
   /\ words (ushr x s) /\ length (ushr x s) = length x)
  /\ (words sh -> length sh = length x -> Z.of_nat (64 * length x) <= 2 ^ 64 ->
      value (ushl_wide x sh) = (value x * 2 ^ value sh) mod B ^ Z.of_nat (length x)
      /\ value (ushr_wide x sh) = value x / 2 ^ value sh).
Proof.
  intros W Hs.
  destruct (ushl_value x s W Hs) as (V1 & W1 & L1).
  destruct (ushr_value x s W Hs) as (V2 & W2 & L2).
  split.
  - rewrite (Z.mul_comm (value x)). split_and; assumption.
  - intros Wsh Lsh Hn.
    destruct (ushl_wide_value x sh W Wsh Lsh Hn) as (V3 & V4 & _).
    rewrite (Z.mul_comm (value x)). split; assumption.
Qed.

Lemma shift_is_scaling_witness :
  let x := [2 ^ 63 + 5; 7; 2 ^ 64 - 1] in
  value (ushl x 70) = (value x * 2 ^ 70) mod 2 ^ 192
  /\ value (ushr x 70) = value x / 2 ^ 70
  /\ value (ushl_wide x [3; 0; 0]) = (value x * 8) mod 2 ^ 192.
Proof.
  intros x.
  destruct (shift_is_scaling x [3; 0; 0] 70) as ((H1 & H2 & _) & H3).
  - apply wordsb_ok. vm_compute. reflexivity.
  - lia.
  - split; [exact H1 | split; [exact H2 |]].
    destruct H3 as (H3 & _).
    + apply wordsb_ok. vm_compute. reflexivity.
    + reflexivity.
    + vm_compute. discriminate.
    + exact H3.
Defined.

(** X25.  [addmod] and [mulmod] on [uint256]: for a non-zero modulus the
    results are [(x + y) mod m] and [(x * y) mod m] over the integers;
    nothing is lost when the sum or the product exceeds 256 bits. *)
Theorem addmod_mulmod_exact (oob : Z) (x y m : list Z) :
  length x = 4%nat -> length y = 4%nat -> length m = 4%nat ->
  words x -> words y -> words m -> value m <> 0 ->
  value (addmod oob x y m) = (value x + value y) mod value m
  /\ value (mulmod oob x y m) = (value x * value y) mod value m
  /\ words (addmod oob x y m) /\ length (addmod oob x y m) = 4%nat
  /\ words (mulmod oob x y m) /\ length (mulmod oob x y m) = 4%nat.
Proof.
  intros Lx Ly Lm Wx Wy Wm Hm.
  destruct (addmod_spec oob x y m Lx Ly Lm Wx Wy Wm Hm) as (A & WA & LA).
  destruct (mulmod_spec oob x y m Lx Ly Lm Wx Wy Wm Hm) as (M & WM & LM).
  split_and; assumption.
Qed.

Lemma addmod_mulmod_exact_witness :
  let x := [2 ^ 64 - 1; 2 ^ 64 - 1; 2 ^ 64 - 1; 2 ^ 64 - 1] in
  let y := [2 ^ 64 - 2; 2 ^ 64 - 1; 2 ^ 64 - 1; 2 ^ 64 - 1] in
  let m := [2 ^ 64 - 59; 2 ^ 64 - 1; 2 ^ 64 - 1; 2 ^ 63] in
  value (addmod 0 x y m) = (value x + value y) mod value m
  /\ value (mulmod 0 x y m) = (value x * value y) mod value m.
Proof.
  intros x y m.
  destruct (addmod_mulmod_exact 0 x y m) as (H1 & H2 & _).
  - reflexivity.
  - reflexivity.
  - reflexivity.
  - apply wordsb_ok. vm_compute. reflexivity.
  - apply wordsb_ok. vm_compute. reflexivity.
  - apply wordsb_ok. vm_compute. reflexivity.
  - vm_compute. discriminate.
  - split; [exact H1 | exact H2].
Defined.

(** X26.  [sdivrem], on [uint<N>] and on [uint128]: for a non-zero
    divisor the quotient is the truncating (round toward zero) quotient
    of the two's-complement readings and the remainder has the sign of
    the dividend, both taken modulo [2^N].  The remainder always fits,
    and so does the quotient except for the one overflowing case
    [-2^(N-1) / -1], where the quotient wraps to [-2^(N-1)]. *)
Theorem sdivrem_truncates (oob : Z) (u v : list Z) :
  words u -> words v -> length v = length u -> (0 < length u)%nat ->
  value v <> 0 ->
  let M := B ^ Z.of_nat (length u) in
  let a := signed u in
  let b := signed v in
  (value (fst (sdivrem oob u v)) = (Z.quot a b) mod M
   /\ value (snd (sdivrem oob u v)) = (Z.rem a b) mod M
   /\ signed (snd (sdivrem oob u v)) = Z.rem a b
   /\ (~ (a = - (M / 2) /\ b = -1) -> signed (fst (sdivrem oob u v)) = Z.quot a b)
   /\ (a = - (M / 2) -> b = -1 -> signed (fst (sdivrem oob u v)) = a))
  /\ (length u = 2%nat ->
      value (fst (sdivrem128 u v)) = (Z.quot a b) mod M
      /\ value (snd (sdivrem128 u v)) = (Z.rem a b) mod M).
Proof.
  intros Wu Wv Lv Hn Hv M a b.
  destruct (sdivrem_spec oob u v Wu Wv Lv Hn Hv) as (Q & R & Wq & Lq & Wr & Lr).
  fold M a b in Q, R.
  destruct (signed_range u Wu Hn) as (Ra & _). cbv zeta in Ra. fold a in Ra.
  destruct (signed_range v Wv ltac:(lia)) as (Rb & _ & Eb). cbv zeta in Rb, Eb.
  rewrite Lv in Rb. fold b in Rb, Eb.
  destruct (half_width (length u) Hn) as (EM & EH & PH). fold M in EM, EH.
  set (h := 2 ^ (Z.of_nat (64 * length u) - 1)) in *.
  assert (Hb : b <> 0) by (intros E; apply Hv; rewrite Eb by lia; exact E).
  assert (Hrem : - h < Z.rem a b < h).
  { pose proof (Z.rem_bound_abs a b Hb). lia. }
  split.
  - split_and; auto.
    + apply signed_of_value; auto; [lia|rewrite Lr; exact R|rewrite Lr; fold h; lia].
    + intros Hno. apply signed_of_value; auto; [lia|rewrite Lq; exact Q|].
      rewrite Lq. fold h. rewrite EH in Hno.
      assert (Habs : Z.abs (Z.quot a b) <= Z.abs a).
      { rewrite (Z.quot_div a b Hb), !Z.abs_mul.
        assert (0 <= Z.abs a / Z.abs b <= Z.abs a).
        { split; [apply Z.div_pos; lia|].
          apply Z.div_le_upper_bound; [lia|]. nia. }
        rewrite (Z.abs_eq (Z.abs a / Z.abs b)) by lia.
        assert (Z.abs (Z.sgn a) <= 1) by (destruct a; cbn; lia).
        assert (Z.abs (Z.sgn b) <= 1) by (destruct b; cbn; lia).
        nia. }
      destruct (Z.eq_dec a (- h)) as [Ea|Ea]; [|lia].
      assert (Hb1 : b <> -1) by tauto.
      destruct (Z.eq_dec b 1) as [->|Hb2].
      * rewrite Z.quot_1_r. lia.
      * assert (Hq : Z.abs (Z.quot a b) <= h / 2).
        { rewrite (Z.quot_div a b Hb), !Z.abs_mul.
          assert (2 <= Z.abs b) by lia.
          assert (0 <= Z.abs a / Z.abs b <= h / 2).
          { split; [apply Z.div_pos; lia|].
            rewrite Ea, Z.abs_opp, Z.abs_eq by lia.
            transitivity (h / 2); [|lia].
            apply Z.div_le_compat_l; lia. }
          rewrite (Z.abs_eq (Z.abs a / Z.abs b)) by lia.
          assert (Z.abs (Z.sgn a) <= 1) by (destruct a; cbn; lia).
          assert (Z.abs (Z.sgn b) <= 1) by (destruct b; cbn; lia).
          nia. }
        assert (h / 2 < h) by (apply Z.div_lt; lia).
        lia.
    + intros Ea Eb1. apply signed_of_value; auto; [lia| |rewrite Lq; fold h; lia].
      rewrite Lq, Q. fold M. rewrite Ea, Eb1, EH.
      replace (Z.quot (- h) (-1)) with h.
      * rewrite EM. rewrite (Z.mod_small h) by lia.
        apply Z.mod_unique with (-1); [left; lia|ring].
      * change (-1) with (Z.opp 1).
        rewrite Z.quot_opp_l, Z.quot_opp_r by lia. rewrite Z.quot_1_r. lia.
  - intros L2.
    destruct (sdivrem128_spec u v Wu Wv L2 ltac:(lia) Hv) as (Q2 & R2 & _).
    subst M. rewrite L2. split; assumption.
Qed.

Lemma sdivrem_truncates_witness :
  let u := [2 ^ 64 - 7; 2 ^ 64 - 1; 2 ^ 64 - 1] in
  let v := [2; 0; 0] in
  signed u = -7 /\ signed (fst (sdivrem 0 u v)) = -3
  /\ signed (snd (sdivrem 0 u v)) = -1.
Proof.
  intros u v.
  destruct (sdivrem_truncates 0 u v) as ((_ & _ & H1 & H2 & _) & _).
  - apply wordsb_ok. vm_compute. reflexivity.
  - apply wordsb_ok. vm_compute. reflexivity.
  - reflexivity.
  - cbn. lia.
  - vm_compute. discriminate.
  - split; [vm_compute; reflexivity|]. split.
    + rewrite H2; [vm_compute; reflexivity|]. vm_compute. intros [E _]. discriminate.
    + rewrite H1. vm_compute. reflexivity.
Defined.
